(** * Batched low-order-refined assembly: CSR construction and elimination

    A shallow embedding of [fem/lor/lor_batched.cpp]: the two passes that
    build the CSR arrays of the assembled matrix ([FillI], [FillJAndData]),
    the election helper [GetMinElt], the essential-DOF elimination of
    [Assemble] and [ParAssemble], the marks that [ParAssemble] packs for the
    exchange, and the feasibility check [FormIsSupported].

    Conventions.
    - A C++ [int] is a [Z]; every value the kernels compute is an index into,
      or a count bounded by the size of, one of the arrays, so no arithmetic
      leaves the range of [int].  [/] and [%] are [Z.quot] and [Z.rem].
    - A [double] is a primitive binary64 [float].
    - A heap array is a list; a read or write outside it is undefined
      behaviour in the source and the fault [OutOfBounds] here.  The stack
      buffers [int x[Max]] are lists of length [Max]; an access outside them
      is the fault [BufferOverflow].
    - [MFEM_FORALL(i, N, body)] runs [body] for [i = 0 .. N-1]; on the host it
      is a plain loop, which is what [forall_loop] is.  The executions with
      another order of the atomic increments are modelled separately
      ([FillJAndData_sched]). *)

From Stdlib Require String.
From Stdlib Require Import ZArith List Bool Lia Permutation.
From Stdlib Require Import Floats.PrimFloat Numbers.Cyclic.Int63.Uint63.
Import ListNotations.
Local Open Scope Z_scope.

Set Implicit Arguments.

(** ** Faults and the error monad *)

Inductive array_id : Set :=
| arr_GatherMap | arr_Indices | arr_Offsets
| arr_sparse_mapping | arr_sparse_ij
| arr_I | arr_J | arr_Data | arr_ess_dofs
| arr_eliminate_col | arr_cols_to_eliminate.

Inductive fault : Set :=
| OutOfBounds (a : array_id)
| BufferOverflow
| VerifyFailed (msg : String.string).

(** The messages of the [MFEM_VERIFY] and [MFEM_ASSERT_KERNEL] checks. *)
Module Msg.
Import String.
Local Open Scope string_scope.
Definition bad_restriction : string := "Bad element restriction".
Definition cant_find_nonzero : string := "Can't find nonzero".
End Msg.

Inductive result (A : Type) : Type :=
| Ok (a : A)
| Fault (f : fault).

Arguments Ok {A} a.
Arguments Fault {A} f.

Definition bind {A B} (m : result A) (k : A -> result B) : result B :=
  match m with
  | Ok a => k a
  | Fault f => Fault f
  end.

Notation "x <- m ;; k" := (bind m (fun x => k))
  (at level 61, m at next level, right associativity).
Notation "' p <- m ;; k" := (bind m (fun x => match x with p => k end))
  (at level 61, p pattern, m at next level, right associativity).

Fixpoint foldM {S X} (f : S -> X -> result S) (l : list X) (s : S) : result S :=
  match l with
  | [] => Ok s
  | x :: l' => s' <- f s x ;; foldM f l' s'
  end.

(** [iota lo n] is [lo; lo+1; ...; lo+n-1]; [range lo hi] the indices of
    [for (i = lo; i < hi; ++i)]. *)
Fixpoint iota (lo : Z) (n : nat) : list Z :=
  match n with
  | O => []
  | S n' => lo :: iota (lo + 1) n'
  end.

Definition range (lo hi : Z) : list Z := iota lo (Z.to_nat (hi - lo)).

Definition forall_loop {S} (N : Z) (body : S -> Z -> result S) (s : S) : result S :=
  foldM body (range 0 N) s.

(** ** Arrays *)

Fixpoint list_set {A} (l : list A) (n : nat) (v : A) : list A :=
  match l, n with
  | [], _ => []
  | _ :: l', O => v :: l'
  | x :: l', S n' => x :: list_set l' n' v
  end.

Definition in_bounds {A} (l : list A) (i : Z) : bool :=
  (0 <=? i) && (i <? Z.of_nat (length l)).

Definition read {A} (a : array_id) (l : list A) (i : Z) : result A :=
  if in_bounds l i then
    match nth_error l (Z.to_nat i) with
    | Some v => Ok v
    | None => Fault (OutOfBounds a)
    end
  else Fault (OutOfBounds a).

Definition write {A} (a : array_id) (l : list A) (i : Z) (v : A) : result (list A) :=
  if in_bounds l i then Ok (list_set l (Z.to_nat i) v) else Fault (OutOfBounds a).

(** [Memory::New(n)]: a fresh array of [n] cells. *)
Definition New {A} (dflt : A) (n : Z) : list A := repeat dflt (Z.to_nat n).

(** [AtomicAdd(x[i], v)]: adds, and returns the value before the addition. *)
Definition AtomicAdd (a : array_id) (l : list Z) (i : Z) (v : Z) : result (Z * list Z) :=
  old <- read a l i ;;
  l' <- write a l i (old + v) ;;
  Ok (old, l').

(** The stack buffers [int i_elts[Max]], [int i_B[Max]], ... *)
Definition Max : Z := 16.

Definition buffer := list Z.

Definition buf_new : buffer := repeat 0 (Z.to_nat Max).

Definition buf_ok (i : Z) : bool := (0 <=? i) && (i <? Max).

Definition buf_read (b : buffer) (i : Z) : result Z :=
  if buf_ok i then Ok (nth (Z.to_nat i) b 0) else Fault BufferOverflow.

Definition buf_write (b : buffer) (i : Z) (v : Z) : result buffer :=
  if buf_ok i then Ok (list_set b (Z.to_nat i) v) else Fault BufferOverflow.

(** ** Signed DOF indices *)

(** [(v >= 0) ? v : -1 - v] *)
Definition decode (v : Z) : Z := if v >=? 0 then v else -1 - v.

(** [((a >= 0 && b >= 0) || (a < 0 && b < 0)) ? 1 : -1], with the operands in
    the order of the source: column first. *)
Definition orientation_sign (sjj sii : Z) : Z :=
  if ((sjj >=? 0) && (sii >=? 0)) || ((sjj <? 0) && (sii <? 0)) then 1 else -1.

(** The conversion of an [int] to [double] (exact for the values used). *)
Definition double_of_int (z : Z) : float :=
  if z <? 0 then PrimFloat.opp (PrimFloat.of_uint63 (Uint63.of_Z (- z)))
  else PrimFloat.of_uint63 (Uint63.of_Z z).

(** ** The data of the assembly *)

(** The element restriction: [GatherMap()] gives the signed global DOF of
    every element-local slot, [Offsets()] and [Indices()] the incidence lists
    of the global DOFs (signed E-vector indices [slot + ndof_per_el * element]). *)
Record ElementRestriction : Type := {
  GatherMap : list Z;
  Indices : list Z;
  Offsets : list Z
}.

(** What the kernels read of a [BatchedLORAssembly] and of its space.
    [el_restr] is [None] when the restriction operator of the space is not an
    [ElementRestriction] (the [dynamic_cast] gives a null pointer).
    [sparse_mapping] is the sparsity template, seen as
    [(nnz_per_row, ndof_per_el)], and [sparse_ij] the element values, seen as
    [(nnz_per_row, ndof_per_el, nel_ho)]; the header that declares them is not
    part of the sources at hand, the template is taken with integer entries. *)
Record BatchedLORAssembly : Type := {
  nvdof : Z;
  ndof_per_el : Z;
  nel_ho : Z;
  nnz_per_row : Z;
  el_restr : option ElementRestriction;
  sparse_mapping : list Z;
  sparse_ij : list float;
  ess_dofs : list Z
}.

Record SparseMatrix : Type := {
  Height : Z;
  Width : Z;
  GetI : list Z;
  GetJ : list Z;
  GetData : list float
}.

(** ** [GetMinElt] *)

Definition INT_MAX : Z := 2147483647.

(** The inner loop: is [e_i] among [nbr_elts[j .. j+n)]?  ([break] on the
    first hit.) *)
Fixpoint GetMinElt_find (nbr_elts : buffer) (e_i : Z) (j : Z) (n : nat) : result bool :=
  match n with
  | O => Ok false
  | S n' =>
      x <- buf_read nbr_elts j ;;
      if e_i =? x then Ok true else GetMinElt_find nbr_elts e_i (j + 1) n'
  end.

Definition GetMinElt_step (nbr_elts : buffer) (nbrNbElts : Z)
    (my_elts : buffer) (min_el : Z) (i : Z) : result Z :=
  e_i <- buf_read my_elts i ;;
  if e_i >=? min_el then Ok min_el
  else
    found <- GetMinElt_find nbr_elts e_i 0 (Z.to_nat nbrNbElts) ;;
    Ok (if found then e_i else min_el).

Definition GetMinElt (my_elts : buffer) (nbElts : Z)
    (nbr_elts : buffer) (nbrNbElts : Z) : result Z :=
  foldM (GetMinElt_step nbr_elts nbrNbElts my_elts) (range 0 nbElts) INT_MAX.

(** ** The row-count pass *)

Section Kernels.

Variable a : BatchedLORAssembly.
Variable R : ElementRestriction.

(** [Reshape]d accessors: plain pointer arithmetic on the flat arrays. *)
Definition el_dof_lex (slot el : Z) : result Z :=
  read arr_GatherMap (GatherMap R) (slot + ndof_per_el a * el).

Definition map_ (j ii_el : Z) : result Z :=
  read arr_sparse_mapping (sparse_mapping a) (j + nnz_per_row a * ii_el).

Definition V (j ii_el iel : Z) : result float :=
  read arr_sparse_ij (sparse_ij a)
       (j + nnz_per_row a * (ii_el + ndof_per_el a * iel)).

Definition K (d : Z) : result Z := read arr_Offsets (Offsets R) d.

Definition dof_glob2loc (p : Z) : result Z := read arr_Indices (Indices R) p.

(** The loop that lists the elements containing a DOF (both passes of
    [FillI]). *)
Definition FillI_elts (offset ne : Z) : result buffer :=
  foldM (fun elts e =>
           s_E <- dof_glob2loc (offset + e) ;;
           let E := decode s_E in
           buf_write elts e (Z.quot E (ndof_per_el a)))
        (range 0 ne) buf_new.

(** One turn of the loop over the nonzero slots [j] of a row: does this
    (element, row slot, nonzero slot) increment the counter of its row? *)
Definition FillI_slot (ii_el iel_ho i_ne : Z) (i_elts : buffer) (j : Z) : result bool :=
  jj_el <- map_ j ii_el ;;
  if jj_el <? 0 then Ok false
  else
    sjj <- el_dof_lex jj_el iel_ho ;;
    let jj := decode sjj in
    j_offset <- K jj ;;
    j_next_offset <- K (jj + 1) ;;
    let j_ne := j_next_offset - j_offset in
    if (i_ne =? 1) || (j_ne =? 1) then Ok true
    else
      j_elts <- FillI_elts j_offset j_ne ;;
      min_e <- GetMinElt i_elts i_ne j_elts j_ne ;;
      Ok (iel_ho =? min_e).

(** The body of the [MFEM_FORALL] over [i < ndof_per_el * nel_ho]. *)
Definition FillI_body (I : list Z) (i : Z) : result (list Z) :=
  let ii_el := Z.rem i (ndof_per_el a) in
  let iel_ho := Z.quot i (ndof_per_el a) in
  sii <- el_dof_lex ii_el iel_ho ;;
  let ii := decode sii in
  i_offset <- K ii ;;
  i_next_offset <- K (ii + 1) ;;
  let i_ne := i_next_offset - i_offset in
  i_elts <- FillI_elts i_offset i_ne ;;
  foldM (fun I j =>
           b <- FillI_slot ii_el iel_ho i_ne i_elts j ;;
           if b then '(_, I') <- AtomicAdd arr_I I ii 1 ;; Ok I' else Ok I)
        (range 0 (nnz_per_row a)) I.

(** The sequential scan that turns the counters into offsets. *)
Definition FillI_scan (st : list Z * Z) (i : Z) : result (list Z * Z) :=
  let '(h_I, sum) := st in
  nnz <- read arr_I h_I i ;;
  h_I' <- write arr_I h_I i sum ;;
  Ok (h_I', sum + nnz).

End Kernels.

Definition set_I (A : SparseMatrix) (I : list Z) : SparseMatrix :=
  {| Height := Height A; Width := Width A; GetI := I;
     GetJ := GetJ A; GetData := GetData A |}.

(** The end of [FillI]: the scan of the counters [I1], and the number of
    nonzeros it returns. *)
Definition FillI_offsets (a : BatchedLORAssembly) (A : SparseMatrix) (I1 : list Z)
  : result (SparseMatrix * Z) :=
  '(h_I, sum) <- foldM FillI_scan (range 0 (nvdof a)) (I1, 0) ;;
  h_I' <- write arr_I h_I (nvdof a) sum ;;
  nnz <- read arr_I h_I' (nvdof a) ;;
  Ok (set_I A h_I', nnz).

Definition FillI (a : BatchedLORAssembly) (A : SparseMatrix) : result (SparseMatrix * Z) :=
  match el_restr a with
  | None => Fault (VerifyFailed Msg.bad_restriction)
  | Some R =>
      I0 <- forall_loop (nvdof a + 1) (fun I ii => write arr_I I ii 0) (GetI A) ;;
      I1 <- forall_loop (ndof_per_el a * nel_ho a) (FillI_body a R) I0 ;;
      FillI_offsets a A I1
  end.

(** The increment of a row counter by the count kernel. *)
Definition inc_row (I : list Z) (d : Z) : result (list Z) :=
  '(_, I') <- AtomicAdd arr_I I d 1 ;; Ok I'.

(** The count pass with the increments of its kernel performed in the order
    [rows]: the executions of the parallel [MFEM_FORALL] are those where
    [rows] is an interleaving of the increments of the iterations. *)
Definition FillI_sched (a : BatchedLORAssembly) (A : SparseMatrix) (rows : list Z)
  : result (SparseMatrix * Z) :=
  I0 <- forall_loop (nvdof a + 1) (fun I ii => write arr_I I ii 0) (GetI A) ;;
  I1 <- foldM inc_row rows I0 ;;
  FillI_offsets a A I1.

(** ** The fill pass *)

(** What one atomic claim of the fill pass stores: the row whose cursor is
    claimed, and the column and value written at the claimed index. *)
Record entry : Type := {
  e_row : Z;
  e_col : Z;
  e_val : float
}.

(** [MFEM_ASSERT_KERNEL(cond, msg)] *)
Definition assert_kernel (cond : bool) (msg : String.string) : result unit :=
  if cond then Ok tt else Fault (VerifyFailed msg).

(** Returns the index where a non-zero entry should be added and increments
    the number of non-zeros for the row [i_L]. *)
Definition GetAndIncrementNnzIndex (i_L : Z) (I : list Z) : result (Z * list Z) :=
  AtomicAdd arr_I I i_L 1.

(** The shared arrays the fill kernel writes: the temporary copy of the
    offsets, the column indices and the values. *)
Definition fill_state : Type := list Z * list Z * list float.

(** [nnz = GetAndIncrementNnzIndex(ii, I); J[nnz] = jj; AV[nnz] = val;] *)
Definition store_entry (st : fill_state) (e : entry) : result fill_state :=
  let '(I_, J, AV) := st in
  '(nnz, I') <- GetAndIncrementNnzIndex (e_row e) I_ ;;
  J' <- write arr_J J nnz (e_col e) ;;
  AV' <- write arr_Data AV nnz (e_val e) ;;
  Ok (I', J', AV').

Section FillKernel.

Variable a : BatchedLORAssembly.
Variable R : ElementRestriction.

(** The loop that lists, for a DOF, the elements containing it and its signed
    slot in each of them. *)
Definition FillJAndData_elts (offset ne : Z) : result (buffer * buffer) :=
  foldM (fun '(elts, B) e =>
           s_E <- dof_glob2loc R (offset + e) ;;
           let plus := s_E >=? 0 in
           let E := if plus then s_E else -1 - s_E in
           elts' <- buf_write elts e (Z.quot E (ndof_per_el a)) ;;
           let Bi := Z.rem E (ndof_per_el a) in
           B' <- buf_write B e (if plus then Bi else -1 - Bi) ;;
           Ok (elts', B'))
        (range 0 ne) (buf_new, buf_new).

(** "find nonzero in matrix of other element": the first [m] from which
    [map(m, ii_el_2) == jj_el_2], or [j2 = -1]. *)
Fixpoint find_nonzero (ii_el_2 jj_el_2 : Z) (m : Z) (n : nat) : result Z :=
  match n with
  | O => Ok (-1)
  | S n' =>
      c <- map_ a m ii_el_2 ;;
      if c =? jj_el_2 then Ok m else find_nonzero ii_el_2 jj_el_2 (m + 1) n'
  end.

(** One turn of the loop over [l < j_ne] of the accumulation.  The assertion
    of the source tests [j], the slot of the outer loop. *)
Definition accumulate_l (j : Z) (j_elts j_B : buffer)
    (iel_ho_2 sii_el_2 ii_el_2 : Z) (val : float) (l : Z) : result float :=
  jel_ho_2 <- buf_read j_elts l ;;
  if iel_ho_2 =? jel_ho_2 then
    sjj_el_2 <- buf_read j_B l ;;
    let jj_el_2 := decode sjj_el_2 in
    let sgn_2 := orientation_sign sjj_el_2 sii_el_2 in
    j2 <- find_nonzero ii_el_2 jj_el_2 0 (Z.to_nat (nnz_per_row a)) ;;
    _ <- assert_kernel (j >=? 0) Msg.cant_find_nonzero ;;
    v <- V a j2 ii_el_2 iel_ho_2 ;;
    Ok (PrimFloat.add val (PrimFloat.mul (double_of_int sgn_2) v))
  else Ok val.

(** One turn of the loop over [k < i_ne] of the accumulation. *)
Definition accumulate_k (j : Z) (i_elts i_B : buffer) (j_elts j_B : buffer)
    (j_ne : Z) (val : float) (k : Z) : result float :=
  iel_ho_2 <- buf_read i_elts k ;;
  sii_el_2 <- buf_read i_B k ;;
  let ii_el_2 := decode sii_el_2 in
  foldM (accumulate_l j j_elts j_B iel_ho_2 sii_el_2 ii_el_2) (range 0 j_ne) val.

(** One turn of the loop over the nonzero slots [j] of a row: the entry this
    (element, row slot, nonzero slot) stores, if it stores one. *)
Definition FillJAndData_slot (ii_el iel_ho sii i_ne : Z) (i_elts i_B : buffer)
    (j : Z) : result (option entry) :=
  let ii := decode sii in
  jj_el <- map_ a j ii_el ;;
  if jj_el <? 0 then Ok None
  else
    sjj <- el_dof_lex a R jj_el iel_ho ;;
    let jj := decode sjj in
    let sgn := orientation_sign sjj sii in
    j_offset <- K R jj ;;
    j_next_offset <- K R (jj + 1) ;;
    let j_ne := j_next_offset - j_offset in
    if (i_ne =? 1) || (j_ne =? 1) then
      v <- V a j ii_el iel_ho ;;
      Ok (Some {| e_row := ii; e_col := jj;
                  e_val := PrimFloat.mul (double_of_int sgn) v |})
    else
      '(j_elts, j_B) <- FillJAndData_elts j_offset j_ne ;;
      min_e <- GetMinElt i_elts i_ne j_elts j_ne ;;
      if iel_ho =? min_e then
        val <- foldM (accumulate_k j i_elts i_B j_elts j_B j_ne)
                     (range 0 i_ne) 0%float ;;
        Ok (Some {| e_row := ii; e_col := jj; e_val := val |})
      else Ok None.

(** The body of the [MFEM_FORALL] over [i < ndof_per_el * nel_ho]. *)
Definition FillJAndData_body (st : fill_state) (i : Z) : result fill_state :=
  let ii_el := Z.rem i (ndof_per_el a) in
  let iel_ho := Z.quot i (ndof_per_el a) in
  sii <- el_dof_lex a R ii_el iel_ho ;;
  let ii := decode sii in
  i_offset <- K R ii ;;
  i_next_offset <- K R (ii + 1) ;;
  let i_ne := i_next_offset - i_offset in
  '(i_elts, i_B) <- FillJAndData_elts i_offset i_ne ;;
  foldM (fun st j =>
           oe <- FillJAndData_slot ii_el iel_ho sii i_ne i_elts i_B j ;;
           match oe with
           | Some e => store_entry st e
           | None => Ok st
           end)
        (range 0 (nnz_per_row a)) st.

(** The claims of iteration [i], in program order, without the stores. *)
Definition FillJAndData_claims (i : Z) : result (list entry) :=
  let ii_el := Z.rem i (ndof_per_el a) in
  let iel_ho := Z.quot i (ndof_per_el a) in
  sii <- el_dof_lex a R ii_el iel_ho ;;
  let ii := decode sii in
  i_offset <- K R ii ;;
  i_next_offset <- K R (ii + 1) ;;
  let i_ne := i_next_offset - i_offset in
  '(i_elts, i_B) <- FillJAndData_elts i_offset i_ne ;;
  foldM (fun acc j =>
           oe <- FillJAndData_slot ii_el iel_ho sii i_ne i_elts i_B j ;;
           match oe with
           | Some e => Ok (acc ++ [e])
           | None => Ok acc
           end)
        (range 0 (nnz_per_row a)) [].

(** All the claims of the kernel, iteration after iteration. *)
Definition fill_claims : result (list entry) :=
  foldM (fun acc i => es <- FillJAndData_claims i ;; Ok (acc ++ es))
        (range 0 (ndof_per_el a * nel_ho a)) [].

End FillKernel.

Definition set_J_Data (A : SparseMatrix) (J : list Z) (AV : list float) : SparseMatrix :=
  {| Height := Height A; Width := Width A; GetI := GetI A;
     GetJ := J; GetData := AV |}.

(** "Copy A.I into I, use it as a temporary buffer": [I_] is a fresh array
    of [nvdof + 1] cells. *)
Definition copy_I (a : BatchedLORAssembly) (A : SparseMatrix) : result (list Z) :=
  forall_loop (nvdof a + 1)
              (fun I i => v <- read arr_I (GetI A) i ;; write arr_I I i v)
              (New 0 (nvdof a + 1)).

Definition FillJAndData (a : BatchedLORAssembly) (A : SparseMatrix) : result SparseMatrix :=
  match el_restr a with
  | None => Fault (VerifyFailed Msg.bad_restriction)
  | Some R =>
      I_ <- copy_I a A ;;
      '(_, J, AV) <- forall_loop (ndof_per_el a * nel_ho a)
                                 (FillJAndData_body a R) (I_, GetJ A, GetData A) ;;
      Ok (set_J_Data A J AV)
  end.

(** The fill pass with its claims performed in the order [sched]: the
    executions of the parallel [MFEM_FORALL] are those where [sched] is an
    interleaving of the claims of the iterations (the claimed indices are
    pairwise distinct, so the two stores of a claim commute with every other
    step). *)
Definition FillJAndData_sched (a : BatchedLORAssembly) (A : SparseMatrix)
    (sched : list entry) : result SparseMatrix :=
  I_ <- copy_I a A ;;
  '(_, J, AV) <- foldM store_entry sched (I_, GetJ A, GetData A) ;;
  Ok (set_J_Data A J AV).

(** ** [SparseIJToCSR] and [AssembleWithoutBC] *)

Definition empty_matrix : SparseMatrix :=
  {| Height := 0; Width := 0; GetI := []; GetJ := []; GetData := [] |}.

(** [OverrideSize(nvdof, nvdof)] and [GetMemoryI().New(nvdof + 1)] on the
    matrix held by the handle [A], or on a new one. *)
Definition alloc_I (a : BatchedLORAssembly) (A : option SparseMatrix) : SparseMatrix :=
  let A_mat := match A with Some m => m | None => empty_matrix end in
  {| Height := nvdof a; Width := nvdof a;
     GetI := New 0 (nvdof a + 1);
     GetJ := GetJ A_mat; GetData := GetData A_mat |}.

(** [GetMemoryJ().New(nnz)] and [GetMemoryData().New(nnz)] *)
Definition alloc_J_Data (A_mat : SparseMatrix) (nnz : Z) : SparseMatrix :=
  set_J_Data A_mat (New 0 nnz) (New 0%float nnz).

Definition SparseIJToCSR (a : BatchedLORAssembly) (A : option SparseMatrix)
  : result SparseMatrix :=
  '(A_mat, nnz) <- FillI a (alloc_I a A) ;;
  FillJAndData a (alloc_J_Data A_mat nnz).

(** The assembly with the atomic operations of its two kernels performed in
    the orders [rows] and [sched]. *)
Definition SparseIJToCSR_sched (a : BatchedLORAssembly) (A : option SparseMatrix)
    (rows : list Z) (sched : list entry) : result SparseMatrix :=
  '(A_mat, nnz) <- FillI_sched a (alloc_I a A) rows ;;
  FillJAndData_sched a (alloc_J_Data A_mat nnz) sched.

(** The kernel of the derived class has filled [sparse_ij] and
    [sparse_mapping]: they are fields of [a]. *)
Definition AssembleWithoutBC (a : BatchedLORAssembly) (A : option SparseMatrix)
  : result SparseMatrix :=
  SparseIJToCSR a A.

(** ** Elimination of the essential DOFs, serial form *)

(** [for (k = lo; k < hi; ++k) if (J[k] == idof) { dA[k] = 0.0; break; }] *)
Fixpoint zero_first (J : list Z) (idof : Z) (k : Z) (n : nat) (dA : list float)
  : result (list float) :=
  match n with
  | O => Ok dA
  | S n' =>
      c <- read arr_J J k ;;
      if c =? idof then write arr_Data dA k 0%float
      else zero_first J idof (k + 1) n' dA
  end.

Definition zero_in_row (I J : list Z) (row col : Z) (dA : list float)
  : result (list float) :=
  lo <- read arr_I I row ;;
  hi <- read arr_I I (row + 1) ;;
  zero_first J col lo (Z.to_nat (hi - lo)) dA.

Definition Assemble_entry (I J : list Z) (idof : Z) (dA : list float) (j : Z)
  : result (list float) :=
  jdof <- read arr_J J j ;;
  if negb (jdof =? idof) then
    dA' <- write arr_Data dA j 0%float ;;
    zero_in_row I J jdof idof dA'
  else Ok dA.

Definition Assemble_dof (I J : list Z) (dA : list float) (idof : Z)
  : result (list float) :=
  lo <- read arr_I I idof ;;
  hi <- read arr_I I (idof + 1) ;;
  foldM (Assemble_entry I J idof) (range lo hi) dA.

Definition set_Data (A : SparseMatrix) (AV : list float) : SparseMatrix :=
  {| Height := Height A; Width := Width A; GetI := GetI A;
     GetJ := GetJ A; GetData := AV |}.

(** The elimination loop of [Assemble] on a matrix. *)
Definition eliminate (ess : list Z) (A : SparseMatrix) : result SparseMatrix :=
  dA <- forall_loop (Z.of_nat (length ess))
                    (fun dA i => idof <- read arr_ess_dofs ess i ;;
                                 Assemble_dof (GetI A) (GetJ A) dA idof)
                    (GetData A) ;;
  Ok (set_Data A dA).

(** [Assemble(OperatorHandle &A)] on a serial space. *)
Definition Assemble (a : BatchedLORAssembly) (A : option SparseMatrix)
  : result SparseMatrix :=
  A_mat <- AssembleWithoutBC a A ;;
  eliminate (ess_dofs a) A_mat.

(** ** Elimination of the essential DOFs, distributed form *)

(** The two local blocks of a [hypre_ParCSRMatrix]; a block is a CSR matrix
    ([Height] rows, [Width] columns). *)
Record hypre_ParCSRMatrix : Type := {
  hypre_diag : SparseMatrix;
  hypre_offd : SparseMatrix
}.

(** "Eliminate rows and columns in the diagonal block" *)
Definition ParAssemble_diag_entry (I J : list Z) (idof : Z) (data : list float) (j : Z)
  : result (list float) :=
  jdof <- read arr_J J j ;;
  if jdof =? idof then write arr_Data data j 1%float
  else
    data' <- write arr_Data data j 0%float ;;
    zero_in_row I J jdof idof data'.

Definition ParAssemble_diag_dof (I J : list Z) (data : list float) (idof : Z)
  : result (list float) :=
  lo <- read arr_I I idof ;;
  hi <- read arr_I I (idof + 1) ;;
  foldM (ParAssemble_diag_entry I J idof) (range lo hi) data.

(** "Eliminate rows in the off-diagonal block" *)
Definition ParAssemble_offd_dof (I : list Z) (data : list float) (idof : Z)
  : result (list float) :=
  lo <- read arr_I I idof ;;
  hi <- read arr_I I (idof + 1) ;;
  foldM (fun data j => write arr_Data data j 0%float) (range lo hi) data.

(** "set the array cols_to_eliminate": a count, [SetSize], and a second loop
    that stores the marked columns. *)
Definition count_cols (eliminate_col : list Z) (offd_ncols : Z) : result Z :=
  foldM (fun n i =>
           c <- read arr_eliminate_col eliminate_col i ;;
           Ok (if c =? 0 then n else n + 1))
        (range 0 offd_ncols) 0.

Definition fill_cols (eliminate_col : list Z) (offd_ncols : Z) (cols : list Z)
  : result (list Z) :=
  '(cols', _) <- foldM (fun '(cols, n) i =>
                          c <- read arr_eliminate_col eliminate_col i ;;
                          if c =? 0 then Ok (cols, n)
                          else
                            cols' <- write arr_cols_to_eliminate cols n i ;;
                            Ok (cols', n + 1))
                       (range 0 offd_ncols) (cols, 0) ;;
  Ok cols'.

Definition cols_to_eliminate (eliminate_col : list Z) (offd_ncols : Z) : result (list Z) :=
  n <- count_cols eliminate_col offd_ncols ;;
  fill_cols eliminate_col offd_ncols (New 0 n).

(** "Eliminate columns in the off-diagonal block" *)
Definition ParAssemble_offd_col (nrows_offd : Z) (I J : list Z) (data : list float) (j : Z)
  : result (list float) :=
  foldM (fun data i => zero_in_row I J i j data) (range 0 nrows_offd) data.

(** The elimination of [ParAssemble].  [eliminate_col] is the array the
    exchange has filled when [hypre_ParCSRCommHandleDestroy] returns: for
    every column of the off-diagonal block, whether its owner eliminates
    it. *)
Definition ParAssemble_eliminate (ess : list Z) (eliminate_col : list Z)
    (A : hypre_ParCSRMatrix) : result hypre_ParCSRMatrix :=
  let diag := hypre_diag A in
  let offd := hypre_offd A in
  let offd_ncols := Width offd in
  let n_ess_dofs := Z.of_nat (length ess) in
  d1 <- forall_loop n_ess_dofs
          (fun data i => idof <- read arr_ess_dofs ess i ;;
                         ParAssemble_diag_dof (GetI diag) (GetJ diag) data idof)
          (GetData diag) ;;
  o1 <- forall_loop n_ess_dofs
          (fun data i => idof <- read arr_ess_dofs ess i ;;
                         ParAssemble_offd_dof (GetI offd) data idof)
          (GetData offd) ;;
  cols <- cols_to_eliminate eliminate_col offd_ncols ;;
  o2 <- forall_loop (Z.of_nat (length cols))
          (fun data idx => j <- read arr_cols_to_eliminate cols idx ;;
                           ParAssemble_offd_col (Height offd) (GetI offd) (GetJ offd) data j)
          o1 ;;
  Ok {| hypre_diag := set_Data diag d1; hypre_offd := set_Data offd o2 |}.

(** ** The send side of the exchange in [ParAssemble]

    "Start communication to figure out which columns need to be eliminated
    in the off-diagonal block": the rows to eliminate are marked in
    [eliminate_row], and the marks of the rows the send map names are packed
    into [int_buf_data].  The exchange itself is hypre's; what it delivers is
    the array [eliminate_col] that [ParAssemble_eliminate] takes. *)

Module Exchange.

(** Accesses to the host arrays: [None] outside the array. *)
Definition get (l : list Z) (i : Z) : option Z :=
  if in_bounds l i then nth_error l (Z.to_nat i) else None.

Definition put (l : list Z) (i v : Z) : option (list Z) :=
  if in_bounds l i then Some (list_set l (Z.to_nat i) v) else None.

Fixpoint loop {S X} (f : S -> X -> option S) (l : list X) (s : S) : option S :=
  match l with
  | [] => Some s
  | x :: l' =>
      match f s x with
      | Some s' => loop f l' s'
      | None => None
      end
  end.

(** [hypre_ParCSRCommPkg], as far as the macros [NumSends], [SendMapStart]
    and [SendMapElmt] read it. *)
Record hypre_ParCSRCommPkg : Type := {
  num_sends : Z;
  send_map_starts : list Z;
  send_map_elmts : list Z
}.

(** "Which of the local rows are to be eliminated?"  [hypre_CTAlloc] returns
    zeroed memory; the first loop zeroes it again. *)
Definition mark_rows (ess_dofs : list Z) (diag_nrows : Z) : option (list Z) :=
  match loop (fun row i => put row i 0) (range 0 diag_nrows) (New 0 diag_nrows) with
  | None => None
  | Some eliminate_row =>
      loop (fun row i =>
              match get ess_dofs i with
              | None => None
              | Some d => put row d 1
              end)
           (range 0 (Z.of_nat (length ess_dofs))) eliminate_row
  end.

(** [int_buf_data[index++] = eliminate_row[k]] for [k] the element [j] of the
    send map. *)
Definition pack_entry (pkg : hypre_ParCSRCommPkg) (eliminate_row : list Z)
    (st : list Z * Z) (j : Z) : option (list Z * Z) :=
  let '(int_buf_data, index) := st in
  match get (send_map_elmts pkg) j with
  | None => None
  | Some k =>
      match get eliminate_row k with
      | None => None
      | Some v =>
          match put int_buf_data index v with
          | None => None
          | Some buf' => Some (buf', index + 1)
          end
      end
  end.

(** The inner loop of send [i]: [j] from [SendMapStart(i)] up to
    [SendMapStart(i+1)]. *)
Definition pack_send (pkg : hypre_ParCSRCommPkg) (eliminate_row : list Z)
    (st : list Z * Z) (i : Z) : option (list Z * Z) :=
  match get (send_map_starts pkg) i with
  | None => None
  | Some start =>
      match get (send_map_starts pkg) (i + 1) with
      | None => None
      | Some stop => loop (pack_entry pkg eliminate_row) (range start stop) st
      end
  end.

(** The buffer of [SendMapStart(num_sends)] cells and its packing. *)
Definition pack (pkg : hypre_ParCSRCommPkg) (eliminate_row : list Z) : option (list Z) :=
  match get (send_map_starts pkg) (num_sends pkg) with
  | None => None
  | Some size =>
      match loop (pack_send pkg eliminate_row) (range 0 (num_sends pkg)) (New 0 size, 0) with
      | Some (int_buf_data, _) => Some int_buf_data
      | None => None
      end
  end.

(** What [ParAssemble] hands to [hypre_ParCSRCommHandleCreate]. *)
Definition send_buffer (pkg : hypre_ParCSRCommPkg) (ess_dofs : list Z) (diag_nrows : Z)
  : option (list Z) :=
  match mark_rows ess_dofs diag_nrows with
  | None => None
  | Some eliminate_row => pack pkg eliminate_row
  end.

End Exchange.

(** ** The feasibility check *)

Module Form.

(** The dynamic type of a domain integrator, as far as the [dynamic_cast]s of
    the check tell it apart. *)
Inductive Integrator : Set :=
| DiffusionIntegrator
| MassIntegrator
| CurlCurlIntegrator
| VectorFEMassIntegrator
| DivDivIntegrator
| OtherIntegrator.

Inductive FiniteElementCollection : Set :=
| H1_FECollection
| ND_FECollection
| RT_FECollection
| OtherFECollection.

Definition Integrator_eqb (x y : Integrator) : bool :=
  match x, y with
  | DiffusionIntegrator, DiffusionIntegrator
  | MassIntegrator, MassIntegrator
  | CurlCurlIntegrator, CurlCurlIntegrator
  | VectorFEMassIntegrator, VectorFEMassIntegrator
  | DivDivIntegrator, DivDivIntegrator
  | OtherIntegrator, OtherIntegrator => true
  | _, _ => false
  end.

(** [dynamic_cast<T*>(i) != NULL] *)
Definition is_a (T i : Integrator) : bool := Integrator_eqb T i.

Record FiniteElementSpace : Type := {
  FEColl : FiniteElementCollection;
  UsesTensorBasis : bool
}.

(** [GetDBFI] is [None] for a null pointer. *)
Record BilinearForm : Type := {
  GetDBFI : option (list Integrator);
  FESpace : FiniteElementSpace
}.

Definition HasIntegrators (T1 T2 : Integrator) (a : BilinearForm) : bool :=
  match GetDBFI a with
  | None => false
  | Some [i0] => is_a T1 i0 || is_a T2 i0
  | Some [i0; i1] => (is_a T1 i0 && is_a T2 i1) || (is_a T2 i0 && is_a T1 i1)
  | Some _ => false
  end.

Definition FormIsSupported (a : BilinearForm) : bool :=
  let fec := FEColl (FESpace a) in
  if negb (UsesTensorBasis (FESpace a)) then false
  else
    match fec with
    | H1_FECollection => HasIntegrators DiffusionIntegrator MassIntegrator a
    | ND_FECollection => HasIntegrators CurlCurlIntegrator VectorFEMassIntegrator a
    | RT_FECollection => HasIntegrators DivDivIntegrator VectorFEMassIntegrator a
    | OtherFECollection => false
    end.

(** The kernels of the derived classes. *)
Inductive Kernel : Set := BatchedLOR_H1 | BatchedLOR_ND | BatchedLOR_RT.

(** The static [Assemble(a, fes_ho, ess_dofs, A)]: the kernel it constructs
    and runs, or [None] when it falls through all its branches and leaves [A]
    as it is. *)
Definition Assemble (a : BilinearForm) (fes_ho : FiniteElementSpace) : option Kernel :=
  match FEColl fes_ho with
  | H1_FECollection =>
      if HasIntegrators DiffusionIntegrator MassIntegrator a
      then Some BatchedLOR_H1 else None
  | ND_FECollection =>
      if HasIntegrators CurlCurlIntegrator VectorFEMassIntegrator a
      then Some BatchedLOR_ND else None
  | RT_FECollection =>
      if HasIntegrators DivDivIntegrator VectorFEMassIntegrator a
      then Some BatchedLOR_RT else None
  | OtherFECollection => None
  end.

(** The pair of integrators the batched path supports on a collection. *)
Definition supported_pair (fec : FiniteElementCollection) : option (Integrator * Integrator) :=
  match fec with
  | H1_FECollection => Some (DiffusionIntegrator, MassIntegrator)
  | ND_FECollection => Some (CurlCurlIntegrator, VectorFEMassIntegrator)
  | RT_FECollection => Some (DivDivIntegrator, VectorFEMassIntegrator)
  | OtherFECollection => None
  end.

(** "One or both of the pair": a single integrator of the pair, or the two of
    them in either order. *)
Definition one_or_both (T1 T2 : Integrator) (integs : list Integrator) : Prop :=
  integs = [T1] \/ integs = [T2] \/ integs = [T1; T2] \/ integs = [T2; T1].

Definition supported (a : BilinearForm) : Prop :=
  UsesTensorBasis (FESpace a) = true /\
  exists T1 T2 integs,
    supported_pair (FEColl (FESpace a)) = Some (T1, T2) /\
    GetDBFI a = Some integs /\ one_or_both T1 T2 integs.

(** Modelled from the spec: the caller of the batched path, which is not
    among the sources.  It "fails fast via the feasibility check before
    attempting any assembly", and reports "not supported" to its own caller. *)
Inductive outcome : Set :=
| NotSupported
| Ran (k : option Kernel).

Definition batched_path (a : BilinearForm) : outcome :=
  if FormIsSupported a then Ran (Assemble a (FESpace a)) else NotSupported.

End Form.

(** A stack buffer whose first cells hold [l]. *)
Definition pad (l : list Z) : buffer :=
  l ++ repeat 0 (Z.to_nat Max - length l).

(** The number of occurrences of [d] in a list of rows, and the offsets the
    counts give: [psum c n] is the sum of [c 0 .. c (n-1)]. *)
Definition occ (l : list Z) (d : Z) : Z := Z.of_nat (count_occ Z.eq_dec l d).

Fixpoint psum (c : Z -> Z) (n : nat) : Z :=
  match n with
  | O => 0
  | S n' => psum c n' + c (Z.of_nat n')
  end.

(** The offsets array of [n] rows with the counts [c]. *)
Definition offsets_of (c : Z -> Z) (n : Z) : list Z :=
  map (fun k => psum c (Z.to_nat k)) (range 0 (n + 1)).

(** The entries of row [d] in a list of claims, in the order of the list. *)
Definition entries_of_row (es : list entry) (d : Z) : list entry :=
  filter (fun e => e_row e =? d) es.

Definition no_entry : entry := {| e_row := 0; e_col := 0; e_val := 0%float |}.

(** The (column, value) pair of a claim. *)
Definition col_val (e : entry) : Z * float := (e_col e, e_val e).

(** ** What the passes are to compute *)

Fixpoint nodupb (l : list Z) : bool :=
  match l with
  | [] => true
  | x :: l' => negb (existsb (Z.eqb x) l') && nodupb l'
  end.

Section Specification.

Variable a : BatchedLORAssembly.
Variable R : ElementRestriction.

Local Abbreviation ndof := (ndof_per_el a).
Local Abbreviation nnz := (nnz_per_row a).

(** The arrays as total functions. *)
Definition gather (x : Z) : Z := nth (Z.to_nat x) (GatherMap R) 0.
Definition offset (d : Z) : Z := nth (Z.to_nat d) (Offsets R) 0.
Definition index (p : Z) : Z := nth (Z.to_nat p) (Indices R) 0.
Definition template (j r : Z) : Z :=
  nth (Z.to_nat (j + nnz * r)) (sparse_mapping a) 0.
Definition value (j r e : Z) : float :=
  nth (Z.to_nat (j + nnz * (r + ndof * e))) (sparse_ij a) 0%float.

(** The global DOF of an element-local slot, given by its E-vector index
    [x = slot + ndof_per_el * element]. *)
Definition dof_of (x : Z) : Z := decode (gather x).

(** The incidence list of a DOF (signed E-vector indices), its length, and
    the elements and signed slots it names. *)
Definition incidence (d : Z) : list Z := map index (range (offset d) (offset (d + 1))).
Definition n_elts (d : Z) : Z := offset (d + 1) - offset d.
Definition elt_of (s : Z) : Z := Z.quot (decode s) ndof.
Definition slot_of (s : Z) : Z := Z.rem (decode s) ndof.
Definition elts_of (d : Z) : list Z := map elt_of (incidence d).

(** The signed slot kept in [i_B], [j_B] for an incidence entry. *)
Definition signed_slot (s : Z) : Z :=
  if s >=? 0 then slot_of s else -1 - slot_of s.

Definition slots_of (d : Z) : list Z := map signed_slot (incidence d).

(** The iteration space of the two kernels: [(i, j)] with [i] the E-vector
    index of the row slot and [j] the nonzero slot, in the order of the
    loops. *)
Definition all_slots : list (Z * Z) :=
  flat_map (fun i => map (fun j => (i, j)) (range 0 nnz)) (range 0 (ndof * nel_ho a)).

(** The column slot the template gives, the element, and the two global
    DOFs of [(i, j)]. *)
Definition col_slot (s : Z * Z) : Z := template (snd s) (Z.rem (fst s) ndof).
Definition elem (s : Z * Z) : Z := Z.quot (fst s) ndof.
Definition col_index (s : Z * Z) : Z := col_slot s + ndof * elem s.
Definition row_dof (s : Z * Z) : Z := dof_of (fst s).
Definition col_dof (s : Z * Z) : Z := dof_of (col_index s).

(** An element asserts the pair [(row_dof s, col_dof s)] when the template
    entry of [s] is not absent. *)
Definition asserts (s : Z * Z) : bool := negb (col_slot s <? 0).

Definition asserted_pairs : list (Z * Z) :=
  map (fun s => (row_dof s, col_dof s)) (filter asserts all_slots).

Definition asserted_cols (d : Z) : list Z :=
  map snd (filter (fun p => fst p =? d) asserted_pairs).

(** The element-local contributions to a pair [(d, jj)], each with its
    orientation sign, in the order of the iteration space. *)
Definition contribution (s : Z * Z) : float :=
  PrimFloat.mul
    (double_of_int (orientation_sign (gather (col_index s)) (gather (fst s))))
    (value (snd s) (Z.rem (fst s) ndof) (elem s)).

Definition asserts_pair (d jj : Z) (s : Z * Z) : bool :=
  asserts s && (row_dof s =? d) && (col_dof s =? jj).

Definition contributions (d jj : Z) : list float :=
  map contribution (filter (asserts_pair d jj) all_slots).

(** The minimum of the elements common to two lists, [INT_MAX] if none. *)
Definition min_common (l1 l2 : list Z) : Z :=
  fold_left (fun m e => if (e <? m) && existsb (Z.eqb e) l2 then e else m) l1 INT_MAX.

Definition elected (d jj : Z) : Z := min_common (elts_of d) (elts_of jj).

Definition no_conflict (d jj : Z) : bool := (n_elts d =? 1) || (n_elts jj =? 1).

(** The deduplication rule of the two passes. *)
Definition counted (s : Z * Z) : bool :=
  asserts s &&
  (no_conflict (row_dof s) (col_dof s) || (elem s =? elected (row_dof s) (col_dof s))).

(** The rows the count pass increments, in the order of the loops. *)
Definition count_rows : list Z := map row_dof (filter counted all_slots).

(** The accumulated value of the conflict case: over the incidence list of
    the row DOF, then that of the column DOF, every pair of references of one
    element. *)
Definition shared_refs (d jj : Z) : list (Z * Z) :=
  flat_map (fun s1 => map (fun s2 => (s1, s2))
                          (filter (fun s2 => elt_of s1 =? elt_of s2) (incidence jj)))
           (incidence d).

(** The nonzero slot of column slot [c] in the template row [r], or [-1]. *)
Definition lookup (r c : Z) : Z :=
  match find (fun m => template m r =? c) (range 0 nnz) with
  | Some m => m
  | None => -1
  end.

Definition shared_term (p : Z * Z) : float :=
  let '(s1, s2) := p in
  PrimFloat.mul (double_of_int (orientation_sign s2 s1))
                (value (lookup (slot_of s1) (slot_of s2)) (slot_of s1) (elt_of s1)).

(** The slot of the iteration space a pair of references of one element
    stands for: the row slot of the first, and the nonzero slot that leads to
    the column slot of the second. *)
Definition slot_of_refs (p : Z * Z) : Z * Z :=
  (decode (fst p), lookup (slot_of (fst p)) (slot_of (snd p))).

Definition accumulated (d jj : Z) : float :=
  fold_left (fun v p => PrimFloat.add v (shared_term p)) (shared_refs d jj) 0%float.

Definition stored_value (s : Z * Z) : float :=
  if no_conflict (row_dof s) (col_dof s) then contribution s
  else accumulated (row_dof s) (col_dof s).

Definition entry_of (s : Z * Z) : entry :=
  {| e_row := row_dof s; e_col := col_dof s; e_val := stored_value s |}.

(** The claims of the fill pass, in the order of the loops. *)
Definition claims : list entry := map entry_of (filter counted all_slots).

(** *** Well-formed inputs *)

(** Sizes: the arrays have the shapes the kernels index them with, and the
    size of the E-vector is an [int]. *)
Definition wf_sizes : bool :=
  (0 <? ndof) && (0 <=? nel_ho a) && (0 <=? nnz) && (0 <=? nvdof a)
  && (ndof * nel_ho a <=? INT_MAX)
  && (Z.of_nat (length (GatherMap R)) =? ndof * nel_ho a)
  && (Z.of_nat (length (Offsets R)) =? nvdof a + 1)
  && (Z.of_nat (length (sparse_mapping a)) =? nnz * ndof)
  && (Z.of_nat (length (sparse_ij a)) =? nnz * ndof * nel_ho a).

(** Every slot maps to a DOF below [nvdof]. *)
Definition wf_gather : bool :=
  forallb (fun s => decode s <? nvdof a) (GatherMap R).

(** The offsets are non-decreasing and delimit slices of [Indices] of at
    most [Max] entries. *)
Definition wf_offsets : bool :=
  forallb (fun d => (0 <=? offset d)
                    && (offset (d + 1) <=? Z.of_nat (length (Indices R)))
                    && (0 <=? n_elts d)
                    && (n_elts d <=? Max))
          (range 0 (nvdof a)).

(** The incidence list of [d] names slots of [d], with the sign the gather
    map gives them, and no element twice. *)
Definition wf_incidence : bool :=
  forallb (fun d =>
             forallb (fun s => (decode s <? ndof * nel_ho a)
                               && (dof_of (decode s) =? d)
                               && Bool.eqb (s >=? 0) (gather (decode s) >=? 0))
                     (incidence d)
             && nodupb (elts_of d))
          (range 0 (nvdof a)).

(** Every slot is in the incidence list of its DOF. *)
Definition wf_cover : bool :=
  forallb (fun x => existsb (fun s => decode s =? x) (incidence (dof_of x)))
          (range 0 (ndof * nel_ho a)).

(** The template names column slots of the element, none twice in a row. *)
Definition wf_template : bool :=
  forallb (fun c => c <? ndof) (sparse_mapping a)
  && forallb (fun r => nodupb (filter (fun c => negb (c <? 0))
                                      (map (fun j => template j r) (range 0 nnz))))
             (range 0 ndof).

Definition wf_base : bool :=
  wf_sizes && wf_gather && wf_offsets && wf_incidence && wf_cover && wf_template.

(** When a pair with two shared DOFs is asserted, the elected element
    asserts it. *)
Definition elected_asserts : bool :=
  forallb (fun s =>
             implb (asserts s && negb (no_conflict (row_dof s) (col_dof s)))
                   (existsb (fun s' => asserts_pair (row_dof s) (col_dof s) s'
                                       && (elem s' =? elected (row_dof s) (col_dof s)))
                            all_slots))
          all_slots.

(** When a pair is asserted, every element that contains its two DOFs
    asserts it. *)
Definition shared_asserted : bool :=
  forallb (fun s =>
             implb (asserts s)
                   (forallb (fun p => negb (lookup (slot_of (fst p)) (slot_of (snd p)) <? 0))
                            (shared_refs (row_dof s) (col_dof s))))
          all_slots.

End Specification.

Definition wf_count (a : BatchedLORAssembly) : bool :=
  match el_restr a with
  | Some R => wf_base a R && elected_asserts a R
  | None => false
  end.

Definition wf_fill (a : BatchedLORAssembly) : bool :=
  match el_restr a with
  | Some R => wf_base a R && shared_asserted a R
  | None => false
  end.

(** Every incidence list delimited by [Offsets] has at most [Max] entries. *)
Definition degree_bounded (R : ElementRestriction) : bool :=
  forallb (fun d => n_elts R d <=? Max)
          (range 0 (Z.of_nat (length (Offsets R)) - 1)).

(** The computation accesses no stack buffer outside its bounds. *)
Definition in_buffers {A} (r : result A) : Prop := r <> Fault BufferOverflow.

(** The matrix the count pass hands to the fill pass. *)
Definition counted_matrix (a : BatchedLORAssembly) (R : ElementRestriction) : SparseMatrix :=
  let c := occ (count_rows a R) in
  let nnz := psum c (Z.to_nat (nvdof a)) in
  {| Height := nvdof a; Width := nvdof a;
     GetI := offsets_of c (nvdof a);
     GetJ := New 0 nnz; GetData := New 0%float nnz |}.

(** The slice of a row in a CSR array. *)
Definition row_slice {A} (I : list Z) (l : list A) (d : Z) : list A :=
  let lo := nth (Z.to_nat d) I 0 in
  let hi := nth (Z.to_nat (d + 1)) I 0 in
  firstn (Z.to_nat (hi - lo)) (skipn (Z.to_nat lo) l).

Definition row_entries (A : SparseMatrix) (d : Z) : list (Z * float) :=
  combine (row_slice (GetI A) (GetJ A) d) (row_slice (GetI A) (GetData A) d).

(** ** CSR matrices as the elimination reads them *)

(** The position [p] of [J] and [Data] lies in the slice of row [r]. *)
Definition in_row (I : list Z) (r p : Z) : Prop :=
  nth (Z.to_nat r) I 0 <= p < nth (Z.to_nat (r + 1)) I 0.

Definition col_at (J : list Z) (p : Z) : Z := nth (Z.to_nat p) J 0.

Definition val_at (D : list float) (p : Z) : float := nth (Z.to_nat p) D 0%float.

(** The offsets of the [Height] rows do not decrease and stay within [J],
    which is as long as [Data]. *)
Definition csr_offsets_ok (A : SparseMatrix) : bool :=
  (0 <=? Height A)
  && (Z.of_nat (length (GetI A)) =? Height A + 1)
  && (Z.of_nat (length (GetData A)) =? Z.of_nat (length (GetJ A)))
  && forallb (fun r => (0 <=? nth (Z.to_nat r) (GetI A) 0)
                       && (nth (Z.to_nat r) (GetI A) 0 <=? nth (Z.to_nat (r + 1)) (GetI A) 0)
                       && (nth (Z.to_nat (r + 1)) (GetI A) 0 <=? Z.of_nat (length (GetJ A))))
             (range 0 (Height A)).

(** The columns stored in the rows are columns of the matrix. *)
Definition csr_cols_ok (A : SparseMatrix) : bool :=
  forallb (fun r => forallb (fun c => (0 <=? c) && (c <? Width A))
                            (row_slice (GetI A) (GetJ A) r))
          (range 0 (Height A)).

(** No row stores a column twice. *)
Definition csr_rows_nodup (A : SparseMatrix) : bool :=
  forallb (fun r => nodupb (row_slice (GetI A) (GetJ A) r)) (range 0 (Height A)).

(** The pattern is symmetric: row [c] stores column [r] when row [r] stores
    column [c]. *)
Definition csr_symmetric (A : SparseMatrix) : bool :=
  forallb (fun r => forallb (fun c => existsb (Z.eqb r) (row_slice (GetI A) (GetJ A) c))
                            (row_slice (GetI A) (GetJ A) r))
          (range 0 (Height A)).

(** The essential DOFs are rows of the matrix. *)
Definition ess_ok (ess : list Z) (A : SparseMatrix) : bool :=
  forallb (fun d => (0 <=? d) && (d <? Height A)) ess.

(** [l'] is [l] but for cells [p] that hold a value [v] with [W p v]. *)
Definition writes_rel (W : Z -> float -> Prop) (l l' : list float) : Prop :=
  length l' = length l /\
  forall p, 0 <= p -> val_at l' p = val_at l p \/ W p (val_at l' p).

(** What the serial elimination of [idof] may write. *)
Definition W_serial (I J : list Z) (idof : Z) (p : Z) (v : float) : Prop :=
  v = 0%float /\
  ((in_row I idof p /\ col_at J p <> idof) \/
   (col_at J p = idof /\ exists jdof, jdof <> idof /\ in_row I jdof p)).

(** What the elimination of [idof] in the diagonal block may write. *)
Definition W_diag (I J : list Z) (idof : Z) (p : Z) (v : float) : Prop :=
  (v = 1%float /\ in_row I idof p /\ col_at J p = idof) \/ W_serial I J idof p v.

(** The columns of the off-diagonal block that the mask marks, in
    increasing order. *)
Definition marked (eliminate_col : list Z) (i : Z) : bool :=
  negb (nth (Z.to_nat i) eliminate_col 0 =? 0).

Definition marked_cols (eliminate_col : list Z) (offd_ncols : Z) : list Z :=
  filter (marked eliminate_col) (range 0 offd_ncols).

(** ** Updates that do not read the array *)

(** The array [data] with the cells that [w] names overwritten. *)
Definition overlay (w : Z -> option float) (data : list float) (p : Z) : float :=
  match w p with
  | Some v => v
  | None => val_at data p
  end.

(** [f] treats all arrays of [n] cells alike: it faults on every one, or it
    returns every one with the same cells overwritten by the same values,
    each of them allowed by [V] at its cell. *)
Definition oblivious (V : Z -> float -> Prop) (n : nat)
    (f : list float -> result (list float)) : Prop :=
  (forall data, length data = n -> exists e, f data = Fault e) \/
  (exists w, (forall p v, w p = Some v -> V p v) /\
     forall data, length data = n ->
       exists data', f data = Ok data' /\ length data' = n /\
                     forall p, 0 <= p -> val_at data' p = overlay w data p).

(** [t] is [s] but for ones on diagonal entries of the rows [ess]. *)
Definition ones_on_diagonal (ess I J : list Z) (s t : list float) : Prop :=
  length s = length t /\
  forall p, 0 <= p ->
    val_at t p = val_at s p \/
    (val_at t p = 1%float /\ exists d, In d ess /\ in_row I d p /\ col_at J p = d).

(** The template is symmetric: when the row of slot [r] names the column
    slot [c], the row of slot [c] names [r]. *)
Definition template_symmetric (a : BatchedLORAssembly) : bool :=
  forallb (fun r =>
             forallb (fun j =>
                        (template a j r <? 0)
                        || existsb (fun j' => template a j' (template a j r) =? r)
                                   (range 0 (nnz_per_row a)))
                     (range 0 (nnz_per_row a)))
          (range 0 (ndof_per_el a)).

(** ** The assertion of the fill kernel *)

(** The computation has stopped at [MFEM_ASSERT_KERNEL(.., "Can't find
    nonzero")]. *)
Definition stopped_at_assertion {A} (r : result A) : bool :=
  match r with
  | Fault (VerifyFailed msg) => String.eqb msg Msg.cant_find_nonzero
  | _ => false
  end.

(** ** The atomic operations of the two kernels *)

(** The increments of iteration [i] of the count kernel, in program order,
    without the stores: the body of [FillI] with the row of every
    [AtomicAdd] collected. *)
Definition FillI_increments (a : BatchedLORAssembly) (R : ElementRestriction) (i : Z)
  : result (list Z) :=
  let ii_el := Z.rem i (ndof_per_el a) in
  let iel_ho := Z.quot i (ndof_per_el a) in
  sii <- el_dof_lex a R ii_el iel_ho ;;
  let ii := decode sii in
  i_offset <- K R ii ;;
  i_next_offset <- K R (ii + 1) ;;
  let i_ne := i_next_offset - i_offset in
  i_elts <- FillI_elts a R i_offset i_ne ;;
  foldM (fun acc j =>
           b <- FillI_slot a R ii_el iel_ho i_ne i_elts j ;;
           if b then Ok (acc ++ [ii]) else Ok acc)
        (range 0 (nnz_per_row a)) [].

(** All the increments of the count kernel, iteration after iteration. *)
Definition count_increments (a : BatchedLORAssembly) (R : ElementRestriction)
  : result (list Z) :=
  foldM (fun acc i => rs <- FillI_increments a R i ;; Ok (acc ++ rs))
        (range 0 (ndof_per_el a * nel_ho a)) [].

(** Two runs agree: both stop at an access that is undefined behaviour in
    the source, or both return, with the same offsets and, in every row, the
    same (column, value) pairs up to their order. *)
Definition runs_agree (n : Z) (r1 r2 : result SparseMatrix) : Prop :=
  match r1, r2 with
  | Ok B1, Ok B2 =>
      GetI B1 = GetI B2 /\
      forall d, 0 <= d < n -> Permutation (row_entries B1 d) (row_entries B2 d)
  | Fault _, Fault _ => True
  | _, _ => False
  end.

(** ** Sample inputs *)

Module Samples.

(** Two elements of two slots that share DOF 1; the slot of DOF 1 in the
    first element is reversed.  The shared pair (1,1) receives 2.0 from the
    first element and 3.0 from the second. *)
Definition two_elements_R : ElementRestriction :=
  {| GatherMap := [0; -2; 1; 2]; Indices := [0; -2; 2; 3]; Offsets := [0; 1; 3; 4] |}.

Definition two_elements : BatchedLORAssembly :=
  {| nvdof := 3; ndof_per_el := 2; nel_ho := 2; nnz_per_row := 2;
     el_restr := Some two_elements_R;
     sparse_mapping := [0; 1; 0; 1];
     sparse_ij := [1; -1; -1; 2; 3; -3; -3; 4]%float;
     ess_dofs := [0] |}.

(** One element of four slots with a dense template; DOF 0 is essential. *)
Definition dense_single_R : ElementRestriction :=
  {| GatherMap := [0; 1; 2; 3]; Indices := [0; 1; 2; 3]; Offsets := [0; 1; 2; 3; 4] |}.

Definition dense_single : BatchedLORAssembly :=
  {| nvdof := 4; ndof_per_el := 4; nel_ho := 1; nnz_per_row := 4;
     el_restr := Some dense_single_R;
     sparse_mapping := [0; 1; 2; 3; 0; 1; 2; 3; 0; 1; 2; 3; 0; 1; 2; 3];
     sparse_ij := [11; 12; 13; 14; 21; 22; 23; 24;
                   31; 32; 33; 34; 41; 42; 43; 44]%float;
     ess_dofs := [0] |}.

(** Two elements that hold the same two DOFs in opposite slots, with a
    template whose second row has its diagonal only: the pair (1,0) is
    asserted by the second element alone. *)
Definition asymmetric_R : ElementRestriction :=
  {| GatherMap := [0; 1; 1; 0]; Indices := [0; 3; 1; 2]; Offsets := [0; 2; 4] |}.

Definition asymmetric : BatchedLORAssembly :=
  {| nvdof := 2; ndof_per_el := 2; nel_ho := 2; nnz_per_row := 2;
     el_restr := Some asymmetric_R;
     sparse_mapping := [0; 1; 1; -1];
     sparse_ij := [1; 2; 3; 0; 10; 20; 30; 0]%float;
     ess_dofs := [] |}.

(** One element of two slots whose template has the entry (1,0) without the
    entry (0,1); DOF 0 is essential. *)
Definition lower_R : ElementRestriction :=
  {| GatherMap := [0; 1]; Indices := [0; 1]; Offsets := [0; 1; 2] |}.

Definition lower : BatchedLORAssembly :=
  {| nvdof := 2; ndof_per_el := 2; nel_ho := 1; nnz_per_row := 2;
     el_restr := Some lower_R;
     sparse_mapping := [0; -1; 0; 1];
     sparse_ij := [1; 0; 2; 3]%float;
     ess_dofs := [0] |}.

(** Seventeen elements of one slot that all hold DOF 0. *)
Definition degree17_R : ElementRestriction :=
  {| GatherMap := repeat 0 17; Indices := range 0 17; Offsets := [0; 17] |}.

Definition degree17 : BatchedLORAssembly :=
  {| nvdof := 1; ndof_per_el := 1; nel_ho := 17; nnz_per_row := 1;
     el_restr := Some degree17_R;
     sparse_mapping := [0];
     sparse_ij := repeat 1%float 17;
     ess_dofs := [] |}.

(** The matrix that [AssembleWithoutBC] returns for [dense_single]. *)
Definition dense_matrix : SparseMatrix :=
  {| Height := 4; Width := 4;
     GetI := [0; 4; 8; 12; 16];
     GetJ := [0; 1; 2; 3; 0; 1; 2; 3; 0; 1; 2; 3; 0; 1; 2; 3];
     GetData := [11; 12; 13; 14; 21; 22; 23; 24; 31; 32; 33; 34; 41; 42; 43; 44]%float |}.

(** The local blocks of a rank that owns two DOFs and refers to two DOFs of
    its neighbour; the mask received marks the second of these. *)
Definition par_matrix : hypre_ParCSRMatrix :=
  {| hypre_diag := {| Height := 2; Width := 2;
                      GetI := [0; 2; 4];
                      GetJ := [0; 1; 0; 1];
                      GetData := [4; -1; -1; 4]%float |};
     hypre_offd := {| Height := 2; Width := 2;
                      GetI := [0; 1; 3];
                      GetJ := [0; 0; 1];
                      GetData := [-1; -2; -3]%float |} |}.

Definition par_eliminate_col : list Z := [0; 1].

(** Two sends, of the rows 1 and 3 and of the row 0. *)
Definition comm_pkg : Exchange.hypre_ParCSRCommPkg :=
  {| Exchange.num_sends := 2;
     Exchange.send_map_starts := [0; 2; 3];
     Exchange.send_map_elmts := [1; 3; 0] |}.

End Samples.

(** * Properties *)

Unset Implicit Arguments.

(** ** The error monad *)

Lemma bind_Ok {A B} (m : result A) (k : A -> result B) (b : B) :
  bind m k = Ok b -> exists x, m = Ok x /\ k x = Ok b.
Proof. destruct m as [x|f]; simpl; [eauto | discriminate]. Qed.

Lemma bind_ext {A B} (m : result A) (k1 k2 : A -> result B) :
  (forall x, k1 x = k2 x) -> bind m k1 = bind m k2.
Proof. intros H; destruct m; simpl; [apply H | reflexivity]. Qed.

Ltac inv_bind H :=
  let x := fresh "x" in
  let Hx := fresh "Hx" in
  apply bind_Ok in H; destruct H as (x & Hx & H).

Tactic Notation "invb" hyp(H) "as" simple_intropattern(x) ident(Hx) :=
  apply bind_Ok in H; destruct H as (x & Hx & H).

Lemma foldM_app {S X} (f : S -> X -> result S) (l1 l2 : list X) (s : S) :
  foldM f (l1 ++ l2) s = (s' <- foldM f l1 s ;; foldM f l2 s').
Proof.
  revert s; induction l1 as [|x l1 IH]; intros s; simpl; [reflexivity|].
  destruct (f s x); simpl; auto.
Qed.

Lemma foldM_ext {S X} (f g : S -> X -> result S) (l : list X) (s : S) :
  (forall s x, In x l -> f s x = g s x) -> foldM f l s = foldM g l s.
Proof.
  revert s; induction l as [|x l IH]; intros s H; simpl; [reflexivity|].
  rewrite (H s x) by (left; reflexivity).
  destruct (g s x); simpl; [apply IH; intros; apply H; right; assumption | reflexivity].
Qed.

(** An invariant of the state carried through a loop. *)
Lemma foldM_inv {S X} (P : S -> Prop) (f : S -> X -> result S) (l : list X) :
  (forall s x s', In x l -> P s -> f s x = Ok s' -> P s') ->
  forall s s', P s -> foldM f l s = Ok s' -> P s'.
Proof.
  induction l as [|x l IH]; intros Hstep s s' Hs H; simpl in H.
  - injection H as <-; assumption.
  - inv_bind H. eapply IH; [ | | exact H].
    + intros; eapply Hstep; eauto; right; assumption.
    + eapply Hstep; eauto; left; reflexivity.
Qed.

(** ** Ranges *)

Lemma in_iota (x lo : Z) (n : nat) : In x (iota lo n) <-> lo <= x < lo + Z.of_nat n.
Proof.
  revert lo; induction n as [|n IH]; intros lo; simpl.
  - lia.
  - rewrite IH; lia.
Qed.

Lemma in_range (x lo hi : Z) : In x (range lo hi) <-> lo <= x < hi.
Proof. unfold range; rewrite in_iota; lia. Qed.

Lemma iota_length (lo : Z) (n : nat) : length (iota lo n) = n.
Proof. revert lo; induction n; intros; simpl; auto. Qed.

Lemma range_length (lo hi : Z) : length (range lo hi) = Z.to_nat (hi - lo).
Proof. apply iota_length. Qed.

Lemma iota_app (lo : Z) (n m : nat) :
  iota lo (n + m) = iota lo n ++ iota (lo + Z.of_nat n) m.
Proof.
  revert lo; induction n as [|n IH]; intros lo.
  - simpl; f_equal; lia.
  - cbn [Nat.add iota app]; rewrite IH; do 3 f_equal; lia.
Qed.

Lemma range_snoc (lo hi : Z) : lo <= hi -> range lo (hi + 1) = range lo hi ++ [hi].
Proof.
  intros H; unfold range.
  replace (Z.to_nat (hi + 1 - lo)) with (Z.to_nat (hi - lo) + 1)%nat by lia.
  rewrite iota_app; simpl; do 2 f_equal; lia.
Qed.

Lemma range_cons (lo hi : Z) : lo < hi -> range lo hi = lo :: range (lo + 1) hi.
Proof.
  intros H; unfold range.
  replace (Z.to_nat (hi - lo)) with (S (Z.to_nat (hi - (lo + 1)))) by lia.
  reflexivity.
Qed.

Lemma range_nil (lo hi : Z) : hi <= lo -> range lo hi = [].
Proof. intros H; unfold range; replace (Z.to_nat (hi - lo)) with O by lia; reflexivity. Qed.

Lemma range_split (lo mid hi : Z) :
  lo <= mid <= hi -> range lo hi = range lo mid ++ range mid hi.
Proof.
  intros H; unfold range.
  replace (Z.to_nat (hi - lo)) with (Z.to_nat (mid - lo) + Z.to_nat (hi - mid))%nat by lia.
  rewrite iota_app; do 2 f_equal; lia.
Qed.

Lemma NoDup_iota (lo : Z) (n : nat) : NoDup (iota lo n).
Proof.
  revert lo; induction n as [|n IH]; intros lo; simpl; constructor; auto.
  rewrite in_iota; lia.
Qed.

Lemma NoDup_range (lo hi : Z) : NoDup (range lo hi).
Proof. apply NoDup_iota. Qed.

Lemma nth_iota (lo : Z) (n k : nat) (d : Z) :
  (k < n)%nat -> nth k (iota lo n) d = lo + Z.of_nat k.
Proof.
  revert lo k; induction n as [|n IH]; intros lo k H; [lia|].
  destruct k as [|k]; simpl; [lia|].
  rewrite IH by lia; lia.
Qed.

(** ** Arrays *)

Lemma list_set_length {A} (l : list A) (n : nat) (v : A) :
  length (list_set l n v) = length l.
Proof.
  revert n; induction l as [|x l IH]; intros [|n]; simpl; auto.
Qed.

Lemma nth_list_set_eq {A} (l : list A) (n : nat) (v d : A) :
  (n < length l)%nat -> nth n (list_set l n v) d = v.
Proof.
  revert n; induction l as [|x l IH]; intros [|n] H; simpl in *; try lia; auto.
  apply IH; lia.
Qed.

Lemma nth_list_set_neq {A} (l : list A) (n m : nat) (v d : A) :
  n <> m -> nth m (list_set l n v) d = nth m l d.
Proof.
  revert n m; induction l as [|x l IH]; intros [|n] [|m] H; simpl; auto; try congruence.
Qed.

Lemma in_bounds_true {A} (l : list A) (i : Z) :
  in_bounds l i = true <-> 0 <= i < Z.of_nat (length l).
Proof. unfold in_bounds; rewrite andb_true_iff, Z.leb_le, Z.ltb_lt; tauto. Qed.

Lemma read_in {A} (a : array_id) (l : list A) (i : Z) (d : A) :
  0 <= i < Z.of_nat (length l) -> read a l i = Ok (nth (Z.to_nat i) l d).
Proof.
  intros H; unfold read.
  rewrite (proj2 (in_bounds_true l i) H).
  destruct (nth_error l (Z.to_nat i)) as [v|] eqn:E.
  - f_equal; symmetry; apply nth_error_nth; assumption.
  - apply nth_error_None in E; lia.
Qed.

Lemma read_Ok {A} (a : array_id) (l : list A) (i : Z) (v d : A) :
  read a l i = Ok v -> 0 <= i < Z.of_nat (length l) /\ nth (Z.to_nat i) l d = v.
Proof.
  unfold read; intros H.
  destruct (in_bounds l i) eqn:E; [|discriminate].
  apply in_bounds_true in E; split; [assumption|].
  destruct (nth_error l (Z.to_nat i)) as [w|] eqn:E'; [|discriminate].
  injection H as <-; apply nth_error_nth; assumption.
Qed.

Lemma write_in {A} (a : array_id) (l : list A) (i : Z) (v : A) :
  0 <= i < Z.of_nat (length l) -> write a l i v = Ok (list_set l (Z.to_nat i) v).
Proof. intros H; unfold write; rewrite (proj2 (in_bounds_true l i) H); reflexivity. Qed.

Lemma write_Ok {A} (a : array_id) (l l' : list A) (i : Z) (v : A) :
  write a l i v = Ok l' ->
  0 <= i < Z.of_nat (length l) /\ l' = list_set l (Z.to_nat i) v.
Proof.
  unfold write; intros H.
  destruct (in_bounds l i) eqn:E; [|discriminate].
  apply in_bounds_true in E; injection H as <-; auto.
Qed.

Lemma write_length {A} (a : array_id) (l l' : list A) (i : Z) (v : A) :
  write a l i v = Ok l' -> length l' = length l.
Proof. intros H; apply write_Ok in H; destruct H as [_ ->]; apply list_set_length. Qed.

(** ** Signed indices *)

Lemma decode_nonneg (v : Z) : 0 <= decode v.
Proof. unfold decode; destruct (Z.geb_spec v 0); lia. Qed.

Lemma decode_complement (v : Z) : v < 0 -> decode v = Z.lnot v.
Proof. unfold decode, Z.lnot; intros H; destruct (Z.geb_spec v 0); lia. Qed.

Lemma decode_id (v : Z) : 0 <= v -> decode v = v.
Proof. unfold decode; intros H; destruct (Z.geb_spec v 0); lia. Qed.

Lemma orientation_sign_agree (sjj sii : Z) :
  orientation_sign sjj sii = if Bool.eqb (sii >=? 0) (sjj >=? 0) then 1 else -1.
Proof.
  unfold orientation_sign.
  destruct (Z.geb_spec sjj 0), (Z.geb_spec sii 0), (Z.ltb_spec sjj 0), (Z.ltb_spec sii 0);
    simpl; try reflexivity; lia.
Qed.

(** ** The feasibility check *)

Lemma HasIntegrators_spec (T1 T2 : Form.Integrator) (a : Form.BilinearForm) :
  Form.HasIntegrators T1 T2 a = true <->
  exists integs, Form.GetDBFI a = Some integs /\ Form.one_or_both T1 T2 integs.
Proof.
  unfold Form.HasIntegrators, Form.one_or_both, Form.is_a.
  destruct (Form.GetDBFI a) as [[|i0 [|i1 [|i2 l]]]|]; split.
  all: try (intros H; discriminate H).
  all: try (intros (integs & H & [E|[E|[E|E]]]); subst integs; inversion H; subst;
            destruct T1, T2; reflexivity).
  all: try (intros (integs & H & _); discriminate H).
  - intros H; eexists; split; [reflexivity|].
    destruct T1, T2, i0; simpl in H; try discriminate H; auto.
  - intros H; eexists; split; [reflexivity|].
    destruct T1, T2, i0, i1; simpl in H; try discriminate H; auto.
Qed.

(** C8. [FormIsSupported] returns [true] exactly when the space uses a tensor
    basis and the domain integrators are one or both of the pair supported on
    its collection (H1: Diffusion/Mass, ND: CurlCurl/VectorFEMass, RT:
    DivDiv/VectorFEMass).  On [false] the caller's batched path reports "not
    supported" and runs no kernel; the static [Assemble] runs a kernel only
    for a supported pair and otherwise returns without touching the matrix;
    on [true] the kernel of the collection is run. *)
Theorem FormIsSupported_correct (a : Form.BilinearForm) :
  (Form.FormIsSupported a = true <-> Form.supported a) /\
  (Form.FormIsSupported a = false -> Form.batched_path a = Form.NotSupported) /\
  (forall fes k, Form.Assemble a fes = Some k ->
     exists T1 T2 integs,
       Form.supported_pair (Form.FEColl fes) = Some (T1, T2) /\
       Form.GetDBFI a = Some integs /\ Form.one_or_both T1 T2 integs) /\
  (Form.FormIsSupported a = true -> exists k, Form.batched_path a = Form.Ran (Some k)).
Proof.
  assert (Hsup : Form.FormIsSupported a = true <-> Form.supported a).
  { unfold Form.FormIsSupported, Form.supported.
    destruct (Form.UsesTensorBasis (Form.FESpace a)); simpl.
    2:{ split; [discriminate | intros [H _]; discriminate H]. }
    destruct (Form.FEColl (Form.FESpace a)); simpl.
    1-3: rewrite HasIntegrators_spec; split;
      [ intros (integs & H1 & H2); split; [reflexivity|]; do 3 eexists; eauto
      | intros (_ & T1 & T2 & integs & E & H1 & H2); injection E as <- <-; eauto ].
    split; [discriminate | intros (_ & T1 & T2 & integs & E & _); discriminate E]. }
  split; [exact Hsup|].
  split; [unfold Form.batched_path; intros ->; reflexivity|].
  split.
  - intros fes k; unfold Form.Assemble.
    destruct (Form.FEColl fes); simpl.
    1-3: match goal with
         | |- (if ?b then _ else _) = _ -> _ =>
             destruct b eqn:E; [|discriminate]; intros _;
             apply HasIntegrators_spec in E; destruct E as (integs & H1 & H2);
             do 3 eexists; eauto
         end.
    discriminate.
  - intros H; unfold Form.batched_path; rewrite H.
    unfold Form.FormIsSupported, Form.Assemble in *.
    destruct (Form.UsesTensorBasis (Form.FESpace a)); simpl in H; [|discriminate].
    destruct (Form.FEColl (Form.FESpace a)); try discriminate; rewrite H; eauto.
Qed.

(** ** Lists *)

Lemma nodupb_NoDup (l : list Z) : nodupb l = true <-> NoDup l.
Proof.
  induction l as [|x l IH]; simpl.
  - split; [constructor | reflexivity].
  - rewrite andb_true_iff, negb_true_iff, IH; split.
    + intros [H1 H2]; constructor; [|assumption].
      intros Hin. assert (existsb (Z.eqb x) l = true); [|congruence].
      apply existsb_exists; exists x; split; [assumption | apply Z.eqb_refl].
    + intros H; inversion H as [|? ? Hn Hd]; subst; split; [|assumption].
      destruct (existsb (Z.eqb x) l) eqn:E; [|reflexivity].
      apply existsb_exists in E; destruct E as (y & Hy & E).
      apply Z.eqb_eq in E; subst y; contradiction.
Qed.

Lemma existsb_eqb_In (x : Z) (l : list Z) : existsb (Z.eqb x) l = true <-> In x l.
Proof.
  rewrite existsb_exists; split.
  - intros (y & Hy & E); apply Z.eqb_eq in E; subst; assumption.
  - intros H; exists x; split; [assumption | apply Z.eqb_refl].
Qed.

(** A function is injective on a list whose image has no duplicate. *)
Lemma NoDup_map_inj {A B} (f : A -> B) (l : list A) (x y : A) :
  NoDup (map f l) -> In x l -> In y l -> f x = f y -> x = y.
Proof.
  induction l as [|z l IH]; simpl; intros Hnd Hx Hy E; [contradiction|].
  inversion Hnd as [|? ? Hn Hd]; subst.
  destruct Hx as [->|Hx], Hy as [->|Hy]; auto.
  - exfalso; apply Hn; rewrite E; apply in_map; assumption.
  - exfalso; apply Hn; rewrite <- E; apply in_map; assumption.
Qed.

Lemma NoDup_map_of_inj {A B} (f : A -> B) (l : list A) :
  NoDup l -> (forall x y, In x l -> In y l -> f x = f y -> x = y) -> NoDup (map f l).
Proof.
  induction l as [|z l IH]; simpl; intros Hnd Hinj; [constructor|].
  inversion Hnd as [|? ? Hn Hd]; subst; constructor.
  - rewrite in_map_iff; intros (y & E & Hy).
    assert (y = z) by (apply Hinj; auto). subst; contradiction.
  - apply IH; auto.
Qed.

Lemma NoDup_filter {A} (p : A -> bool) (l : list A) : NoDup l -> NoDup (filter p l).
Proof.
  induction 1 as [|x l Hn Hd IH]; simpl; [constructor|].
  destruct (p x); [constructor|]; auto.
  rewrite filter_In; tauto.
Qed.

(** Two positions of a list with equal images that pass the filter are one
    position, when the filtered image has no duplicate. *)
Lemma NoDup_filter_map_inj {A} (p : Z -> bool) (f : A -> Z) (l : list A) (x y : A) :
  NoDup l -> NoDup (filter p (map f l)) ->
  In x l -> In y l -> p (f x) = true -> f x = f y -> x = y.
Proof.
  induction l as [|z l IH]; simpl; intros Hl Hnd Hx Hy Hp E; [contradiction|].
  inversion Hl as [|? ? Hn Hd]; subst.
  assert (Hin : forall w, In w l -> p (f w) = true -> In (f w) (filter p (map f l))).
  { intros w Hw Hpw; apply filter_In; split; [apply in_map|]; assumption. }
  destruct Hx as [->|Hx], Hy as [->|Hy]; auto.
  - rewrite Hp in Hnd; inversion Hnd as [|? ? Hn' Hd']; subst.
    exfalso; apply Hn'; rewrite E; apply Hin; [assumption | rewrite <- E; assumption].
  - rewrite <- E, Hp in Hnd; inversion Hnd as [|? ? Hn' Hd']; subst.
    exfalso; apply Hn'; apply Hin; assumption.
  - apply IH; auto.
    destruct (p (f z)); [inversion Hnd|]; assumption.
Qed.

Lemma length_two {A} (l : list A) (x y : A) :
  In x l -> In y l -> x <> y -> (2 <= length l)%nat.
Proof.
  destruct l as [|u [|v l]]; simpl; intros Hx Hy Hne; try contradiction; [|lia].
  destruct Hx as [->|[]], Hy as [->|[]]; congruence.
Qed.

Lemma forallb_range (p : Z -> bool) (lo hi : Z) :
  forallb p (range lo hi) = true <-> forall x, lo <= x < hi -> p x = true.
Proof.
  rewrite forallb_forall; split; intros H x Hx; apply H; apply in_range; assumption.
Qed.

Lemma map_range_shift (f : Z -> Z) (off n : Z) :
  map (fun e => f (off + e)) (range 0 n) = map f (range off (off + n)).
Proof.
  unfold range. replace (off + n - off) with (n - 0) by lia.
  generalize (Z.to_nat (n - 0)) as k.
  assert (H : forall k lo, map (fun e => f (off + e)) (iota lo k) = map f (iota (off + lo) k)).
  { induction k as [|k IH]; intros lo; simpl; [reflexivity|].
    rewrite IH; do 3 f_equal; lia. }
  intros k; rewrite H; do 2 f_equal; lia.
Qed.

Lemma nth_map_range {A} (f : Z -> A) (lo hi k : Z) (d : A) :
  0 <= k < hi - lo -> nth (Z.to_nat k) (map f (range lo hi)) d = f (lo + k).
Proof.
  intros H.
  rewrite (nth_indep _ d (f 0)) by (rewrite length_map, range_length; lia).
  rewrite map_nth; unfold range; rewrite nth_iota by lia; f_equal; lia.
Qed.

(** ** Well-formed inputs: what the checks give *)

Section WellFormed.

Variable a : BatchedLORAssembly.
Variable R : ElementRestriction.
Hypothesis Hwf : wf_base a R = true.

Local Abbreviation ndof := (ndof_per_el a).
Local Abbreviation nnz := (nnz_per_row a).
Local Abbreviation nel := (nel_ho a).

Lemma wf_parts :
  wf_sizes a R = true /\ wf_gather a R = true /\ wf_offsets a R = true /\
  wf_incidence a R = true /\ wf_cover a R = true /\ wf_template a = true.
Proof.
  pose proof Hwf as H. unfold wf_base in H.
  do 5 (apply andb_true_iff in H; destruct H as [H ?]).
  repeat split; assumption.
Qed.

Lemma wf_int_size : ndof * nel <= INT_MAX.
Proof.
  destruct wf_parts as (H & _). unfold wf_sizes in H.
  do 8 (apply andb_true_iff in H; destruct H as [H ?]).
  apply Z.leb_le. assumption.
Qed.

Lemma wf_sizes_facts :
  0 < ndof /\ 0 <= nel /\ 0 <= nnz /\ 0 <= nvdof a /\
  Z.of_nat (length (GatherMap R)) = ndof * nel /\
  Z.of_nat (length (Offsets R)) = nvdof a + 1 /\
  Z.of_nat (length (sparse_mapping a)) = nnz * ndof /\
  Z.of_nat (length (sparse_ij a)) = nnz * ndof * nel.
Proof.
  destruct wf_parts as (H & _). unfold wf_sizes in H.
  do 8 (apply andb_true_iff in H; destruct H as [H ?]).
  repeat match goal with
         | H : (_ <? _) = true |- _ => apply Z.ltb_lt in H
         | H : (_ <=? _) = true |- _ => apply Z.leb_le in H
         | H : (_ =? _) = true |- _ => apply Z.eqb_eq in H
         end.
  repeat split; assumption.
Qed.

Lemma ndof_pos : 0 < ndof.
Proof. apply wf_sizes_facts. Qed.

Lemma el_dof_lex_ok (r e : Z) :
  0 <= r + ndof * e < ndof * nel ->
  el_dof_lex a R r e = Ok (gather R (r + ndof * e)).
Proof.
  intros H; unfold el_dof_lex, gather; apply read_in.
  destruct wf_sizes_facts as (_ & _ & _ & _ & E & _); lia.
Qed.

Lemma K_ok (d : Z) : 0 <= d <= nvdof a -> K R d = Ok (offset R d).
Proof.
  intros H; unfold K, offset; apply read_in.
  destruct wf_sizes_facts as (_ & _ & _ & _ & _ & E & _); lia.
Qed.

Lemma dof_glob2loc_ok (p : Z) :
  0 <= p < Z.of_nat (length (Indices R)) -> dof_glob2loc R p = Ok (index R p).
Proof. intros H; unfold dof_glob2loc, index; apply read_in; assumption. Qed.

Lemma map_ok (j r : Z) :
  0 <= j < nnz -> 0 <= r < ndof -> map_ a j r = Ok (template a j r).
Proof.
  intros Hj Hr; unfold map_, template; apply read_in.
  destruct wf_sizes_facts as (_ & _ & _ & _ & _ & _ & E & _); nia.
Qed.

Lemma V_ok (j r e : Z) :
  0 <= j < nnz -> 0 <= r < ndof -> 0 <= e < nel -> V a j r e = Ok (value a j r e).
Proof.
  intros Hj Hr He; unfold V, value; apply read_in.
  destruct wf_sizes_facts as (Hn & _ & _ & _ & _ & _ & _ & E).
  assert (0 <= r + ndof * e < ndof * nel) by nia.
  nia.
Qed.

Lemma dof_of_range (x : Z) : 0 <= x < ndof * nel -> 0 <= dof_of R x < nvdof a.
Proof.
  intros H; unfold dof_of; split; [apply decode_nonneg|].
  destruct wf_parts as (_ & Hg & _). unfold wf_gather in Hg.
  rewrite forallb_forall in Hg. apply Z.ltb_lt. apply Hg.
  unfold gather; apply nth_In.
  destruct wf_sizes_facts as (_ & _ & _ & _ & E & _); lia.
Qed.

Lemma offset_facts (d : Z) :
  0 <= d < nvdof a ->
  0 <= offset R d /\ offset R (d + 1) <= Z.of_nat (length (Indices R)) /\
  0 <= n_elts R d <= Max.
Proof.
  intros H. destruct wf_parts as (_ & _ & Ho & _). unfold wf_offsets in Ho.
  rewrite forallb_range in Ho. specialize (Ho d H).
  do 3 (apply andb_true_iff in Ho; destruct Ho as [Ho ?]).
  repeat match goal with
         | H : (_ <=? _) = true |- _ => apply Z.leb_le in H
         end.
  auto.
Qed.

Lemma incidence_facts (d s : Z) :
  0 <= d < nvdof a -> In s (incidence R d) ->
  0 <= decode s < ndof * nel /\ dof_of R (decode s) = d /\
  (s >=? 0) = (gather R (decode s) >=? 0).
Proof.
  intros H Hs. destruct wf_parts as (_ & _ & _ & Hi & _). unfold wf_incidence in Hi.
  rewrite forallb_range in Hi. specialize (Hi d H).
  apply andb_true_iff in Hi; destruct Hi as [Hi _].
  rewrite forallb_forall in Hi. specialize (Hi s Hs).
  do 2 (apply andb_true_iff in Hi; destruct Hi as [Hi ?]).
  apply Z.ltb_lt in Hi. apply Z.eqb_eq in H1. apply eqb_prop in H0.
  pose proof (decode_nonneg s). auto.
Qed.

Lemma elts_NoDup (d : Z) : 0 <= d < nvdof a -> NoDup (elts_of a R d).
Proof.
  intros H. destruct wf_parts as (_ & _ & _ & Hi & _). unfold wf_incidence in Hi.
  rewrite forallb_range in Hi. specialize (Hi d H).
  apply andb_true_iff in Hi; destruct Hi as [_ Hi].
  apply nodupb_NoDup; assumption.
Qed.

Lemma incidence_NoDup (d : Z) : 0 <= d < nvdof a -> NoDup (incidence R d).
Proof.
  intros H. pose proof (elts_NoDup d H) as Hn. unfold elts_of in Hn.
  apply NoDup_map_inv in Hn; assumption.
Qed.

Lemma cover (x : Z) :
  0 <= x < ndof * nel -> exists s, In s (incidence R (dof_of R x)) /\ decode s = x.
Proof.
  intros H. destruct wf_parts as (_ & _ & _ & _ & Hc & _). unfold wf_cover in Hc.
  rewrite forallb_range in Hc. specialize (Hc x H).
  apply existsb_exists in Hc. destruct Hc as (s & Hs & E).
  apply Z.eqb_eq in E; eauto.
Qed.

Lemma template_range (j r : Z) :
  0 <= j < nnz -> 0 <= r < ndof -> template a j r < ndof.
Proof.
  intros Hj Hr. destruct wf_parts as (_ & _ & _ & _ & _ & Ht). unfold wf_template in Ht.
  apply andb_true_iff in Ht; destruct Ht as [Ht _].
  rewrite forallb_forall in Ht. apply Z.ltb_lt. apply Ht.
  unfold template; apply nth_In.
  destruct wf_sizes_facts as (_ & _ & _ & _ & _ & _ & E & _); nia.
Qed.

Lemma template_row_NoDup (r : Z) :
  0 <= r < ndof ->
  NoDup (filter (fun c => negb (c <? 0)) (map (fun j => template a j r) (range 0 nnz))).
Proof.
  intros Hr. destruct wf_parts as (_ & _ & _ & _ & _ & Ht). unfold wf_template in Ht.
  apply andb_true_iff in Ht; destruct Ht as [_ Ht].
  rewrite forallb_range in Ht. apply nodupb_NoDup. apply Ht; assumption.
Qed.

(** The length of an incidence list. *)
Lemma incidence_length (d : Z) :
  length (incidence R d) = Z.to_nat (n_elts R d).
Proof. unfold incidence, n_elts; rewrite length_map, range_length; reflexivity. Qed.

(** Slots and elements of E-vector indices. *)
Lemma slot_elem (x : Z) :
  0 <= x ->
  0 <= Z.rem x ndof < ndof /\ 0 <= Z.quot x ndof /\
  x = Z.rem x ndof + ndof * Z.quot x ndof.
Proof.
  intros Hx. pose proof ndof_pos as Hn.
  rewrite Z.rem_mod_nonneg, Z.quot_div_nonneg by lia.
  pose proof (Z.mod_pos_bound x ndof Hn).
  pose proof (Z.div_pos x ndof Hx Hn).
  pose proof (Z.div_mod x ndof). lia.
Qed.

Lemma elem_bound (x : Z) : 0 <= x < ndof * nel -> 0 <= Z.quot x ndof < nel.
Proof.
  intros Hx. pose proof ndof_pos as Hn.
  rewrite Z.quot_div_nonneg by lia.
  split; [apply Z.div_pos; lia | apply Z.div_lt_upper_bound; lia].
Qed.

Lemma quot_rem_unique (r e : Z) :
  0 <= r < ndof -> 0 <= e ->
  Z.quot (r + ndof * e) ndof = e /\ Z.rem (r + ndof * e) ndof = r.
Proof.
  intros Hr He. pose proof ndof_pos as Hn.
  rewrite Z.rem_mod_nonneg, Z.quot_div_nonneg by nia.
  split; symmetry.
  - apply Z.div_unique with r; lia.
  - apply Z.mod_unique with e; lia.
Qed.

End WellFormed.

(** ** Stack buffers *)

Lemma list_set_app {A} (l r : list A) (x v : A) :
  list_set (l ++ x :: r) (length l) v = l ++ v :: r.
Proof. induction l as [|y l IH]; simpl; [reflexivity | rewrite IH; reflexivity]. Qed.

Lemma pad_nil : pad [] = buf_new.
Proof. reflexivity. Qed.

Lemma pad_snoc (l : list Z) (v : Z) :
  Z.of_nat (length l) < Max ->
  list_set (pad l) (length l) v = pad (l ++ [v]).
Proof.
  intros H; unfold pad.
  rewrite length_app; cbn [length].
  remember (Z.to_nat Max) as n eqn:En.
  destruct (n - length l)%nat as [|k] eqn:E; [lia|].
  replace (n - (length l + 1))%nat with k by lia.
  cbn [repeat]; rewrite list_set_app, <- app_assoc; reflexivity.
Qed.

Lemma buf_write_pad (l : list Z) (v : Z) :
  Z.of_nat (length l) < Max ->
  buf_write (pad l) (Z.of_nat (length l)) v = Ok (pad (l ++ [v])).
Proof.
  intros H; unfold buf_write, buf_ok.
  replace (0 <=? Z.of_nat (length l)) with true by (symmetry; apply Z.leb_le; lia).
  replace (Z.of_nat (length l) <? Max) with true by (symmetry; apply Z.ltb_lt; lia).
  simpl; rewrite Nat2Z.id, pad_snoc by assumption; reflexivity.
Qed.

Lemma buf_read_pad (pre l : list Z) (x : Z) :
  Z.of_nat (length pre) < Max ->
  buf_read (pad (pre ++ x :: l)) (Z.of_nat (length pre)) = Ok x.
Proof.
  intros H; unfold buf_read, buf_ok.
  replace (0 <=? Z.of_nat (length pre)) with true by (symmetry; apply Z.leb_le; lia).
  replace (Z.of_nat (length pre) <? Max) with true by (symmetry; apply Z.ltb_lt; lia).
  simpl; rewrite Nat2Z.id; unfold pad.
  rewrite <- app_assoc, app_nth2, Nat.sub_diag by lia; reflexivity.
Qed.

(** ** [GetMinElt] finds the minimum common element *)

Lemma GetMinElt_find_pad (e : Z) (l pre : list Z) :
  Z.of_nat (length (pre ++ l)) <= Max ->
  GetMinElt_find (pad (pre ++ l)) e (Z.of_nat (length pre)) (length l)
  = Ok (existsb (Z.eqb e) l).
Proof.
  revert pre; induction l as [|x l IH]; intros pre H; simpl; [reflexivity|].
  rewrite length_app in H; simpl in H.
  rewrite buf_read_pad by lia; simpl.
  destruct (e =? x); [reflexivity|]; simpl.
  replace (pre ++ x :: l) with ((pre ++ [x]) ++ l) by (rewrite <- app_assoc; reflexivity).
  replace (Z.of_nat (length pre) + 1) with (Z.of_nat (length (pre ++ [x])))
    by (rewrite length_app; simpl; lia).
  apply IH. rewrite !length_app; simpl; lia.
Qed.

Lemma GetMinElt_loop_pad (l2 : list Z) (l pre : list Z) (m : Z) :
  Z.of_nat (length (pre ++ l)) <= Max ->
  Z.of_nat (length l2) <= Max ->
  foldM (GetMinElt_step (pad l2) (Z.of_nat (length l2)) (pad (pre ++ l)))
        (iota (Z.of_nat (length pre)) (length l)) m
  = Ok (fold_left (fun m e => if (e <? m) && existsb (Z.eqb e) l2 then e else m) l m).
Proof.
  revert pre m; induction l as [|x l IH]; intros pre m H H2; simpl; [reflexivity|].
  rewrite length_app in H; simpl in H.
  unfold GetMinElt_step at 1.
  rewrite buf_read_pad by lia; simpl.
  assert (Hnext : forall m',
    foldM (GetMinElt_step (pad l2) (Z.of_nat (length l2)) (pad (pre ++ x :: l)))
          (iota (Z.of_nat (length pre) + 1) (length l)) m'
    = Ok (fold_left (fun m e => if (e <? m) && existsb (Z.eqb e) l2 then e else m) l m')).
  { intros m'.
    replace (pre ++ x :: l) with ((pre ++ [x]) ++ l) by (rewrite <- app_assoc; reflexivity).
    replace (Z.of_nat (length pre) + 1) with (Z.of_nat (length (pre ++ [x])))
      by (rewrite length_app; simpl; lia).
    apply IH; [rewrite !length_app; simpl; lia | assumption]. }
  destruct (Z.geb_spec x m) as [Hge|Hlt].
  - replace (x <? m) with false by (symmetry; apply Z.ltb_ge; lia).
    simpl; apply Hnext.
  - replace (x <? m) with true by (symmetry; apply Z.ltb_lt; lia).
    rewrite Nat2Z.id.
    pose proof (GetMinElt_find_pad x l2 [] ) as Hf. simpl in Hf.
    rewrite Hf by assumption. simpl.
    destruct (existsb (Z.eqb x) l2); apply Hnext.
Qed.

Lemma GetMinElt_pad (l1 l2 : list Z) :
  Z.of_nat (length l1) <= Max -> Z.of_nat (length l2) <= Max ->
  GetMinElt (pad l1) (Z.of_nat (length l1)) (pad l2) (Z.of_nat (length l2))
  = Ok (min_common l1 l2).
Proof.
  intros H1 H2; unfold GetMinElt, min_common, range.
  replace (Z.to_nat (Z.of_nat (length l1) - 0)) with (length l1) by lia.
  apply (GetMinElt_loop_pad l2 l1 [] INT_MAX); assumption.
Qed.

(** The result is a common element below every common element, or
    [INT_MAX] when it is no element of the lists. *)
Lemma min_common_spec (l1 l2 : list Z) :
  (min_common l1 l2 = INT_MAX \/ (In (min_common l1 l2) l1 /\ In (min_common l1 l2) l2)) /\
  min_common l1 l2 <= INT_MAX /\
  (forall e, In e l1 -> In e l2 -> min_common l1 l2 <= e).
Proof.
  unfold min_common.
  assert (H : forall l m0,
    let m := fold_left (fun m e => if (e <? m) && existsb (Z.eqb e) l2 then e else m) l m0 in
    (m = m0 \/ (In m l /\ In m l2)) /\ m <= m0 /\
    (forall e, In e l -> In e l2 -> m <= e)).
  { induction l as [|x l IH]; intros m0; simpl.
    - split; [left; reflexivity|]. split; [lia | intros e []].
    - set (m1 := if (x <? m0) && existsb (Z.eqb x) l2 then x else m0).
      destruct (IH m1) as (Ha & Hb & Hc).
      assert (Hm1 : (m1 = m0 \/ (m1 = x /\ In x l2)) /\ m1 <= m0 /\ (In x l2 -> m1 <= x)).
      { unfold m1. destruct (Z.ltb_spec x m0); simpl.
        - destruct (existsb (Z.eqb x) l2) eqn:E.
          + apply existsb_eqb_In in E. split; [right; auto|]. split; lia.
          + split; [left; reflexivity|]. split; [lia|].
            intros Hin. apply existsb_eqb_In in Hin. congruence.
        - split; [left; reflexivity|]. split; lia. }
      destruct Hm1 as (Hd & He & Hf).
      split; [|split].
      + destruct Ha as [Ha|[Ha1 Ha2]].
        * rewrite Ha. destruct Hd as [Hd|[Hd1 Hd2]]; [left; assumption|].
          right; split; [left; symmetry; assumption | rewrite Hd1; assumption].
        * right; split; [right|]; assumption.
      + lia.
      + intros e [<-|Hin] Hin2; [specialize (Hf Hin2); lia | auto]. }
  destruct (H l1 INT_MAX) as (Ha & Hb & Hc). cbv zeta in *. auto.
Qed.

(** ** The element lists of a DOF *)

Lemma range_to_nat (lo hi : Z) : range lo hi = range lo (lo + Z.of_nat (Z.to_nat (hi - lo))).
Proof. unfold range; f_equal; lia. Qed.

Lemma map_length_range {A} (f : Z -> A) (n : nat) :
  length (map f (range 0 (Z.of_nat n))) = n.
Proof. rewrite length_map, range_length; lia. Qed.

Lemma FillI_elts_gen (a : BatchedLORAssembly) (R : ElementRestriction) (off : Z) (n : nat) :
  0 <= off -> off + Z.of_nat n <= Z.of_nat (length (Indices R)) ->
  Z.of_nat n <= Max ->
  FillI_elts a R off (Z.of_nat n)
  = Ok (pad (map (fun e => elt_of a (index R (off + e))) (range 0 (Z.of_nat n)))).
Proof.
  intros Hoff; unfold FillI_elts.
  induction n as [|n IH]; intros Hlen Hmax; [reflexivity|].
  rewrite Nat2Z.inj_succ; unfold Z.succ.
  rewrite range_snoc, foldM_app, map_app by lia.
  rewrite IH by lia; simpl.
  rewrite dof_glob2loc_ok by lia; simpl.
  set (l := map _ (range 0 (Z.of_nat n))).
  assert (Hl : length l = n) by apply map_length_range.
  rewrite <- Hl at 1. rewrite buf_write_pad by lia.
  reflexivity.
Qed.

Lemma FillJAndData_elts_gen (a : BatchedLORAssembly) (R : ElementRestriction)
    (off : Z) (n : nat) :
  0 <= off -> off + Z.of_nat n <= Z.of_nat (length (Indices R)) ->
  Z.of_nat n <= Max ->
  FillJAndData_elts a R off (Z.of_nat n)
  = Ok (pad (map (fun e => elt_of a (index R (off + e))) (range 0 (Z.of_nat n))),
        pad (map (fun e => signed_slot a (index R (off + e))) (range 0 (Z.of_nat n)))).
Proof.
  intros Hoff; unfold FillJAndData_elts.
  induction n as [|n IH]; intros Hlen Hmax; [reflexivity|].
  rewrite Nat2Z.inj_succ; unfold Z.succ.
  rewrite range_snoc, foldM_app, !map_app by lia.
  rewrite IH by lia; simpl.
  rewrite dof_glob2loc_ok by lia; simpl.
  set (l := map (fun e => elt_of a (index R (off + e))) (range 0 (Z.of_nat n))).
  set (l' := map (fun e => signed_slot a (index R (off + e))) (range 0 (Z.of_nat n))).
  assert (Hl : length l = n) by apply map_length_range.
  assert (Hl' : length l' = n) by apply map_length_range.
  replace (buf_write (pad l) (Z.of_nat n)) with (buf_write (pad l) (Z.of_nat (length l)))
    by (rewrite Hl; reflexivity).
  rewrite buf_write_pad by lia; simpl.
  replace (buf_write (pad l') (Z.of_nat n)) with (buf_write (pad l') (Z.of_nat (length l')))
    by (rewrite Hl'; reflexivity).
  rewrite buf_write_pad by lia; simpl.
  unfold elt_of, signed_slot, slot_of, decode.
  destruct (index R (off + Z.of_nat n) >=? 0); reflexivity.
Qed.

Section Elts.

Variable a : BatchedLORAssembly.
Variable R : ElementRestriction.
Hypothesis Hwf : wf_base a R = true.

Lemma incidence_shift (f : Z -> Z) (d : Z) :
  map (fun e => f (index R (offset R d + e))) (range 0 (Z.of_nat (Z.to_nat (n_elts R d))))
  = map f (incidence R d).
Proof.
  unfold incidence; rewrite map_map.
  rewrite (map_range_shift (fun x => f (index R x))).
  f_equal. rewrite (range_to_nat (offset R d) (offset R (d + 1))). reflexivity.
Qed.

Lemma range_n_elts (d : Z) :
  range 0 (n_elts R d) = range 0 (Z.of_nat (Z.to_nat (n_elts R d))).
Proof. unfold range; f_equal; lia. Qed.

Lemma FillI_elts_ok (d : Z) :
  0 <= d < nvdof a ->
  FillI_elts a R (offset R d) (n_elts R d) = Ok (pad (elts_of a R d)).
Proof.
  intros Hd. destruct (offset_facts a R Hwf d Hd) as (H0 & H1 & H2).
  unfold FillI_elts. rewrite range_n_elts.
  fold (FillI_elts a R (offset R d) (Z.of_nat (Z.to_nat (n_elts R d)))).
  rewrite FillI_elts_gen by (unfold n_elts in *; lia).
  rewrite incidence_shift. reflexivity.
Qed.

Lemma FillJAndData_elts_ok (d : Z) :
  0 <= d < nvdof a ->
  FillJAndData_elts a R (offset R d) (n_elts R d)
  = Ok (pad (elts_of a R d), pad (slots_of a R d)).
Proof.
  intros Hd. destruct (offset_facts a R Hwf d Hd) as (H0 & H1 & H2).
  unfold FillJAndData_elts. rewrite range_n_elts.
  fold (FillJAndData_elts a R (offset R d) (Z.of_nat (Z.to_nat (n_elts R d)))).
  rewrite FillJAndData_elts_gen by (unfold n_elts in *; lia).
  rewrite !incidence_shift. reflexivity.
Qed.

Lemma elts_length (d : Z) : length (elts_of a R d) = Z.to_nat (n_elts R d).
Proof. unfold elts_of; rewrite length_map; apply incidence_length. Qed.

Lemma slots_length (d : Z) : length (slots_of a R d) = Z.to_nat (n_elts R d).
Proof. unfold slots_of; rewrite length_map; apply incidence_length. Qed.

(** The election of the kernels is [elected]. *)
Lemma GetMinElt_ok (d jj : Z) :
  0 <= d < nvdof a -> 0 <= jj < nvdof a ->
  GetMinElt (pad (elts_of a R d)) (n_elts R d) (pad (elts_of a R jj)) (n_elts R jj)
  = Ok (elected a R d jj).
Proof.
  intros Hd Hj.
  destruct (offset_facts a R Hwf d Hd) as (_ & _ & H1).
  destruct (offset_facts a R Hwf jj Hj) as (_ & _ & H2).
  pose proof (elts_length d) as L1. pose proof (elts_length jj) as L2.
  unfold elected. rewrite <- GetMinElt_pad by lia.
  replace (Z.of_nat (length (elts_of a R d))) with (n_elts R d) by lia.
  replace (Z.of_nat (length (elts_of a R jj))) with (n_elts R jj) by lia.
  reflexivity.
Qed.

End Elts.

(** ** The iteration space *)

Lemma in_all_slots (a : BatchedLORAssembly) (i j : Z) :
  In (i, j) (all_slots a) <->
  0 <= i < ndof_per_el a * nel_ho a /\ 0 <= j < nnz_per_row a.
Proof.
  unfold all_slots; rewrite in_flat_map; split.
  - intros (x & Hx & Hin). apply in_map_iff in Hin. destruct Hin as (y & E & Hy).
    injection E as <- <-. apply in_range in Hx, Hy. auto.
  - intros [Hi Hj]. exists i; split; [apply in_range; assumption|].
    apply in_map_iff; exists j; split; [reflexivity | apply in_range; assumption].
Qed.

Lemma NoDup_all_slots (a : BatchedLORAssembly) : NoDup (all_slots a).
Proof.
  unfold all_slots.
  generalize (NoDup_range 0 (ndof_per_el a * nel_ho a)).
  generalize (range 0 (ndof_per_el a * nel_ho a)) as l.
  induction l as [|i l IH]; intros Hnd; simpl; [constructor|].
  inversion Hnd as [|? ? Hn Hd]; subst.
  apply NoDup_app; [| apply IH; assumption |].
  - apply NoDup_map_of_inj; [apply NoDup_range|].
    intros x y _ _ E; injection E; auto.
  - intros [i' j'] H1 H2. apply in_map_iff in H1. destruct H1 as (y & E & _).
    injection E as <- <-.
    apply in_flat_map in H2. destruct H2 as (x & Hx & H2).
    apply in_map_iff in H2. destruct H2 as (y' & E & _).
    injection E as -> _. contradiction.
Qed.

Section Slots.

Variable a : BatchedLORAssembly.
Variable R : ElementRestriction.
Hypothesis Hwf : wf_base a R = true.

Local Abbreviation ndof := (ndof_per_el a).
Local Abbreviation nnz := (nnz_per_row a).
Local Abbreviation nel := (nel_ho a).

(** The facts of a slot of the iteration space. *)
Lemma slot_facts (i j : Z) :
  0 <= i < ndof * nel -> 0 <= j < nnz ->
  0 <= Z.rem i ndof < ndof /\ 0 <= Z.quot i ndof < nel /\
  i = Z.rem i ndof + ndof * Z.quot i ndof /\
  0 <= row_dof R (i, j) < nvdof a /\
  col_slot a (i, j) < ndof /\
  (asserts a (i, j) = true ->
   0 <= col_slot a (i, j) /\
   0 <= col_index a (i, j) < ndof * nel /\
   Z.quot (col_index a (i, j)) ndof = Z.quot i ndof /\
   Z.rem (col_index a (i, j)) ndof = col_slot a (i, j) /\
   0 <= col_dof a R (i, j) < nvdof a).
Proof.
  intros Hi Hj.
  destruct (slot_elem a R Hwf i) as (Hr & He & Hie); [lia|].
  pose proof (elem_bound a R Hwf i Hi) as Heb.
  pose proof (template_range a R Hwf j (Z.rem i ndof) Hj Hr) as Ht.
  change (template a j (Z.rem i ndof)) with (col_slot a (i, j)) in Ht.
  split; [assumption|]. split; [assumption|]. split; [assumption|].
  split; [split; [apply decode_nonneg | apply (dof_of_range a R Hwf); assumption]|].
  split; [assumption|].
  intros Ha.
  assert (Hc0 : 0 <= col_slot a (i, j)).
  { unfold asserts in Ha. apply negb_true_iff, Z.ltb_ge in Ha. exact Ha. }
  assert (Hci : col_index a (i, j) = col_slot a (i, j) + ndof * Z.quot i ndof)
    by reflexivity.
  destruct (quot_rem_unique a R Hwf (col_slot a (i, j)) (Z.quot i ndof)) as [Hq Hrm];
    [lia | lia |].
  rewrite <- Hci in Hq, Hrm.
  assert (Hrange : 0 <= col_index a (i, j) < ndof * nel) by nia.
  split; [assumption|]. split; [assumption|]. split; [assumption|].
  split; [assumption|].
  split; [apply decode_nonneg | apply (dof_of_range a R Hwf); assumption].
Qed.

(** The decision of the count kernel on a slot is [counted]. *)
Lemma FillI_slot_ok (i j : Z) :
  0 <= i < ndof * nel -> 0 <= j < nnz ->
  FillI_slot a R (Z.rem i ndof) (Z.quot i ndof) (n_elts R (row_dof R (i, j)))
             (pad (elts_of a R (row_dof R (i, j)))) j
  = Ok (counted a R (i, j)).
Proof.
  intros Hi Hj.
  destruct (slot_facts i j Hi Hj) as (Hr & He & Hie & Hrow & Hc & Hcol).
  unfold FillI_slot, counted.
  rewrite (map_ok a R Hwf) by assumption; simpl.
  change (template a j (Z.rem i ndof)) with (col_slot a (i, j)).
  unfold asserts at 1. destruct (col_slot a (i, j) <? 0) eqn:E; simpl; [reflexivity|].
  destruct Hcol as (Hc0 & Hci & Hq & Hrm & Hcd);
    [unfold asserts; rewrite E; reflexivity|].
  change (col_slot a (i, j) + ndof * Z.quot i ndof) with (col_index a (i, j)).
  assert (Hread : el_dof_lex a R (col_slot a (i, j)) (Z.quot i ndof)
                  = Ok (gather R (col_index a (i, j)))).
  { apply (el_dof_lex_ok a R Hwf). exact Hci. }
  rewrite Hread; simpl.
  change (decode (gather R (col_index a (i, j)))) with (col_dof a R (i, j)).
  rewrite !(K_ok a R Hwf) by lia; simpl.
  change (offset R (col_dof a R (i, j) + 1) - offset R (col_dof a R (i, j)))
    with (n_elts R (col_dof a R (i, j))).
  change ((n_elts R (row_dof R (i, j)) =? 1) || (n_elts R (col_dof a R (i, j)) =? 1))
    with (no_conflict R (row_dof R (i, j)) (col_dof a R (i, j))).
  destruct (no_conflict R (row_dof R (i, j)) (col_dof a R (i, j))); simpl; [reflexivity|].
  rewrite (FillI_elts_ok a R Hwf) by assumption; simpl.
  rewrite (GetMinElt_ok a R Hwf) by assumption; simpl.
  reflexivity.
Qed.

Lemma fold_counted (c : Z * Z -> bool) (d i : Z) (l : list Z) (I : list Z) :
  foldM (fun I j => b <- Ok (c (i, j)) ;;
                    if b then '(_, I') <- AtomicAdd arr_I I d 1 ;; Ok I' else Ok I) l I
  = foldM inc_row (map (fun _ => d) (filter c (map (fun j => (i, j)) l))) I.
Proof.
  revert I; induction l as [|j l IH]; intros I; [reflexivity|].
  cbn [foldM map filter].
  destruct (c (i, j)); cbn [bind foldM map]; [|apply IH].
  apply bind_ext; intros I'; apply IH.
Qed.

(** One iteration of the count kernel increments the counter of its row
    once per counted slot. *)
Lemma FillI_body_ok (I : list Z) (i : Z) :
  0 <= i < ndof * nel ->
  FillI_body a R I i
  = foldM inc_row
          (map (row_dof R) (filter (counted a R) (map (fun j => (i, j)) (range 0 nnz)))) I.
Proof.
  intros Hi.
  destruct (slot_elem a R Hwf i) as (Hr & He & Hie); [lia|].
  pose proof (dof_of_range a R Hwf i Hi) as Hrow.
  unfold FillI_body.
  rewrite (el_dof_lex_ok a R Hwf) by lia; simpl.
  rewrite <- Hie. change (decode (gather R i)) with (dof_of R i).
  rewrite !(K_ok a R Hwf) by lia; simpl.
  change (offset R (dof_of R i + 1) - offset R (dof_of R i)) with (n_elts R (dof_of R i)).
  rewrite (FillI_elts_ok a R Hwf) by assumption; simpl.
  rewrite (foldM_ext _
             (fun I j => b <- Ok (counted a R (i, j)) ;;
                         if b then '(_, I') <- AtomicAdd arr_I I (dof_of R i) 1 ;; Ok I'
                         else Ok I)).
  - rewrite fold_counted. f_equal.
    generalize (filter (counted a R) (map (fun j => (i, j)) (range 0 nnz)))
      (fun s => proj1 (filter_In (counted a R) s (map (fun j => (i, j)) (range 0 nnz)))).
    intros l Hl. apply map_ext_in. intros s Hs.
    destruct (Hl s Hs) as [Hin _]. apply in_map_iff in Hin.
    destruct Hin as (j & <- & _). reflexivity.
  - intros I' j Hj. apply in_range in Hj.
    pose proof (FillI_slot_ok i j Hi Hj) as Hs.
    change (row_dof R (i, j)) with (dof_of R i) in Hs.
    rewrite Hs. reflexivity.
Qed.

Lemma FillI_loop_ok (l : list Z) (I : list Z) :
  (forall i, In i l -> 0 <= i < ndof * nel) ->
  foldM (FillI_body a R) l I
  = foldM inc_row
      (map (row_dof R)
           (filter (counted a R)
                   (flat_map (fun i => map (fun j => (i, j)) (range 0 nnz)) l))) I.
Proof.
  revert I; induction l as [|i l IH]; intros I Hl; simpl; [reflexivity|].
  rewrite filter_app, map_app, foldM_app.
  rewrite FillI_body_ok by (apply Hl; left; reflexivity).
  destruct (foldM inc_row _ I); simpl; [|reflexivity].
  apply IH. intros; apply Hl; right; assumption.
Qed.

(** The count kernel performs the increments of [count_rows]. *)
Lemma FillI_kernel_ok (I : list Z) :
  forall_loop (ndof * nel) (FillI_body a R) I = foldM inc_row (count_rows a R) I.
Proof.
  unfold forall_loop, count_rows, all_slots.
  apply FillI_loop_ok. intros i Hi; apply in_range in Hi; assumption.
Qed.

End Slots.

(** ** Counters and offsets *)

Lemma occ_nil (d : Z) : occ [] d = 0.
Proof. reflexivity. Qed.

Lemma occ_cons (x : Z) (l : list Z) (d : Z) :
  occ (x :: l) d = (if x =? d then 1 else 0) + occ l d.
Proof.
  unfold occ; simpl. destruct (Z.eq_dec x d) as [E|E].
  - rewrite (proj2 (Z.eqb_eq x d) E); lia.
  - rewrite (proj2 (Z.eqb_neq x d) E); lia.
Qed.

Lemma occ_nonneg (l : list Z) (d : Z) : 0 <= occ l d.
Proof. unfold occ; lia. Qed.

Lemma occ_app (l1 l2 : list Z) (d : Z) : occ (l1 ++ l2) d = occ l1 d + occ l2 d.
Proof. unfold occ; rewrite count_occ_app; lia. Qed.

Lemma occ_length_filter {A} (f : A -> Z) (l : list A) (d : Z) :
  occ (map f l) d = Z.of_nat (length (filter (fun x => f x =? d) l)).
Proof.
  induction l as [|x l IH]; [reflexivity|].
  cbn [map filter]. rewrite occ_cons, IH.
  destruct (f x =? d); simpl length; lia.
Qed.

Lemma occ_Permutation (l1 l2 : list Z) (d : Z) :
  Permutation l1 l2 -> occ l1 d = occ l2 d.
Proof.
  intros H; unfold occ; f_equal.
  revert d. apply (Permutation_count_occ Z.eq_dec). assumption.
Qed.

Lemma psum_mono (c : Z -> Z) (n m : nat) :
  (forall d, 0 <= d < Z.of_nat m -> 0 <= c d) -> (n <= m)%nat -> psum c n <= psum c m.
Proof.
  intros Hc H; induction H as [|m H IH]; [lia|].
  simpl. pose proof (Hc (Z.of_nat m)).
  assert (psum c n <= psum c m) by (apply IH; intros; apply Hc; lia).
  lia.
Qed.

Lemma psum_nonneg (c : Z -> Z) (n : nat) :
  (forall d, 0 <= d < Z.of_nat n -> 0 <= c d) -> 0 <= psum c n.
Proof. intros Hc; apply (psum_mono c 0 n Hc); lia. Qed.

Lemma psum_ext (c c' : Z -> Z) (n : nat) :
  (forall d, 0 <= d < Z.of_nat n -> c d = c' d) -> psum c n = psum c' n.
Proof.
  induction n as [|n IH]; intros H; [reflexivity|].
  simpl; rewrite IH, (H (Z.of_nat n)) by (intros; try apply H; lia); reflexivity.
Qed.

Lemma offsets_of_length (c : Z -> Z) (n : Z) :
  0 <= n -> Z.of_nat (length (offsets_of c n)) = n + 1.
Proof. intros H; unfold offsets_of; rewrite length_map, range_length; lia. Qed.

Lemma offsets_of_nth (c : Z -> Z) (n k : Z) :
  0 <= k <= n -> nth (Z.to_nat k) (offsets_of c n) 0 = psum c (Z.to_nat k).
Proof.
  intros H; unfold offsets_of.
  rewrite (nth_map_range (fun k => psum c (Z.to_nat k)) 0 (n + 1) k 0) by lia.
  f_equal.
Qed.

Lemma inc_row_ok (I : list Z) (d : Z) :
  0 <= d < Z.of_nat (length I) ->
  inc_row I d = Ok (list_set I (Z.to_nat d) (nth (Z.to_nat d) I 0 + 1)).
Proof.
  intros H; unfold inc_row, AtomicAdd.
  rewrite (read_in arr_I I d 0 H); simpl.
  rewrite (write_in arr_I I d _ H); reflexivity.
Qed.

Lemma inc_row_Ok (I I' : list Z) (d : Z) :
  inc_row I d = Ok I' ->
  0 <= d < Z.of_nat (length I) /\
  I' = list_set I (Z.to_nat d) (nth (Z.to_nat d) I 0 + 1).
Proof.
  intros H.
  assert (Hd : 0 <= d < Z.of_nat (length I)).
  { unfold inc_row, AtomicAdd in H. inv_bind H. inv_bind Hx.
    apply (read_Ok arr_I I d x0 0) in Hx0. tauto. }
  rewrite (inc_row_ok I d Hd) in H. injection H as <-. auto.
Qed.

(** The counters after a list of increments. *)
Lemma foldM_inc_row (L : list Z) (I : list Z) :
  (forall d, In d L -> 0 <= d < Z.of_nat (length I)) ->
  exists I', foldM inc_row L I = Ok I' /\ length I' = length I /\
             forall k, 0 <= k -> nth (Z.to_nat k) I' 0 = nth (Z.to_nat k) I 0 + occ L k.
Proof.
  revert I; induction L as [|d L IH]; intros I HL.
  - exists I; split; [reflexivity|]. split; [reflexivity|].
    intros k _; rewrite occ_nil; lia.
  - cbn [foldM]. rewrite inc_row_ok by (apply HL; left; reflexivity). cbn [bind].
    destruct (IH (list_set I (Z.to_nat d) (nth (Z.to_nat d) I 0 + 1))) as (I' & E & Hlen & Hnth).
    { intros d' Hd'; rewrite list_set_length; apply HL; right; assumption. }
    exists I'; split; [assumption|].
    rewrite list_set_length in Hlen. split; [assumption|].
    intros k Hk. rewrite (Hnth k Hk), occ_cons.
    pose proof (HL d (or_introl eq_refl)) as Hd.
    destruct (Z.eqb_spec d k) as [->|Hne].
    + rewrite nth_list_set_eq by lia. lia.
    + rewrite nth_list_set_neq by lia. lia.
Qed.

(** The loop that clears the counters. *)
Lemma zero_loop_ok (n : nat) (I : list Z) :
  (n <= length I)%nat ->
  exists I', foldM (fun I ii => write arr_I I ii 0) (range 0 (Z.of_nat n)) I = Ok I' /\
             length I' = length I /\
             (forall k, (k < n)%nat -> nth k I' 0 = 0) /\
             (forall k, (n <= k)%nat -> nth k I' 0 = nth k I 0).
Proof.
  induction n as [|n IH]; intros H.
  - exists I; repeat split; auto; intros; lia.
  - destruct IH as (I1 & E & Hlen & Hz & Hk); [lia|].
    rewrite Nat2Z.inj_succ; unfold Z.succ.
    rewrite range_snoc, foldM_app, E by lia. cbn [bind foldM].
    rewrite write_in by lia. cbn [bind].
    eexists; split; [reflexivity|].
    rewrite list_set_length. split; [assumption|].
    rewrite Nat2Z.id. split; intros k Hlt.
    + destruct (Nat.eq_dec k n) as [->|Hne].
      * apply nth_list_set_eq; lia.
      * rewrite nth_list_set_neq by lia. apply Hz; lia.
    + rewrite nth_list_set_neq by lia. apply Hk; lia.
Qed.

(** The scan: the prefix sums of the counters replace them. *)
Lemma scan_ok (n : nat) (I : list Z) :
  (n <= length I)%nat ->
  exists h_I, foldM FillI_scan (range 0 (Z.of_nat n)) (I, 0)
              = Ok (h_I, psum (fun d => nth (Z.to_nat d) I 0) n) /\
              length h_I = length I /\
              (forall k, (k < n)%nat -> nth k h_I 0 = psum (fun d => nth (Z.to_nat d) I 0) k) /\
              (forall k, (n <= k)%nat -> nth k h_I 0 = nth k I 0).
Proof.
  induction n as [|n IH]; intros H.
  - exists I; repeat split; auto; intros; lia.
  - destruct IH as (I1 & E & Hlen & Hz & Hk); [lia|].
    rewrite Nat2Z.inj_succ; unfold Z.succ.
    rewrite range_snoc, foldM_app, E by lia. cbn [bind foldM FillI_scan].
    rewrite (read_in arr_I I1 (Z.of_nat n) 0) by lia. cbn [bind].
    rewrite write_in by lia. cbn [bind].
    rewrite Nat2Z.id, (Hk n) by lia.
    eexists; split; [cbn [psum]; rewrite Nat2Z.id; reflexivity|].
    rewrite list_set_length. split; [assumption|].
    split; intros k Hlt.
    + destruct (Nat.eq_dec k n) as [->|Hne].
      * apply nth_list_set_eq; lia.
      * rewrite nth_list_set_neq by lia. apply Hz; lia.
    + rewrite nth_list_set_neq by lia. apply Hk; lia.
Qed.

Lemma list_eq_nth (l1 l2 : list Z) :
  length l1 = length l2 ->
  (forall k, (k < length l1)%nat -> nth k l1 0 = nth k l2 0) -> l1 = l2.
Proof. intros H1 H2; apply (nth_ext l1 l2 0 0); assumption. Qed.

(** ** The count pass computes the offsets of [count_rows] *)

Lemma count_rows_range (a : BatchedLORAssembly) (R : ElementRestriction) :
  wf_base a R = true ->
  forall d, In d (count_rows a R) -> 0 <= d < nvdof a.
Proof.
  intros Hwf d Hd. unfold count_rows in Hd.
  apply in_map_iff in Hd. destruct Hd as ([i j] & <- & Hs).
  apply filter_In in Hs. destruct Hs as [Hs _].
  apply in_all_slots in Hs. destruct Hs as [Hi Hj].
  apply (slot_facts a R Hwf i j Hi Hj).
Qed.

Lemma FillI_ok (a : BatchedLORAssembly) (R : ElementRestriction) (A : SparseMatrix) :
  el_restr a = Some R -> wf_base a R = true ->
  Z.of_nat (length (GetI A)) = nvdof a + 1 ->
  FillI a A = Ok (set_I A (offsets_of (occ (count_rows a R)) (nvdof a)),
                  psum (occ (count_rows a R)) (Z.to_nat (nvdof a))).
Proof.
  intros HR Hwf Hlen.
  destruct (wf_sizes_facts a R Hwf) as (_ & _ & _ & Hn & _).
  unfold FillI, FillI_offsets; rewrite HR. unfold forall_loop at 1.
  destruct (zero_loop_ok (Z.to_nat (nvdof a + 1)) (GetI A)) as (I0 & E0 & L0 & Z0 & _); [lia|].
  rewrite Z2Nat.id in E0 by lia. rewrite E0; cbn [bind].
  rewrite (FillI_kernel_ok a R Hwf).
  destruct (foldM_inc_row (count_rows a R) I0) as (I1 & E1 & L1 & N1).
  { intros d Hd. apply (count_rows_range a R Hwf) in Hd. lia. }
  rewrite E1; cbn [bind].
  destruct (scan_ok (Z.to_nat (nvdof a)) I1) as (h_I & E2 & L2 & P2 & K2); [lia|].
  rewrite Z2Nat.id in E2 by lia. rewrite E2; cbn [bind].
  rewrite write_in by lia; cbn [bind].
  rewrite (read_in arr_I _ (nvdof a) 0) by (rewrite list_set_length; lia); cbn [bind].
  assert (Hc : forall n, (n <= Z.to_nat (nvdof a))%nat ->
               psum (fun d => nth (Z.to_nat d) I1 0) n = psum (occ (count_rows a R)) n).
  { intros n Hle. apply psum_ext. intros d Hd.
    rewrite (N1 d) by lia. rewrite Z0 by lia. lia. }
  rewrite nth_list_set_eq by lia.
  rewrite Hc by lia.
  do 2 f_equal. f_equal.
  apply list_eq_nth.
  - rewrite list_set_length.
    pose proof (offsets_of_length (occ (count_rows a R)) (nvdof a) Hn). lia.
  - intros k Hk. rewrite list_set_length in Hk.
    replace k with (Z.to_nat (Z.of_nat k)) at 2 by lia.
    rewrite offsets_of_nth by lia. rewrite Nat2Z.id.
    destruct (Nat.eq_dec k (Z.to_nat (nvdof a))) as [->|Hne].
    + rewrite nth_list_set_eq by lia. reflexivity.
    + rewrite nth_list_set_neq by lia. rewrite P2 by lia. apply Hc; lia.
Qed.



(** ** The stores of the fill pass *)

Lemma occ_rows (es : list entry) (d : Z) :
  occ (map e_row es) d = Z.of_nat (length (entries_of_row es d)).
Proof. apply occ_length_filter. Qed.

Lemma store_entry_ok (cur J : list Z) (AV : list float) (e : entry) :
  0 <= e_row e < Z.of_nat (length cur) ->
  0 <= nth (Z.to_nat (e_row e)) cur 0 < Z.of_nat (length J) ->
  length AV = length J ->
  store_entry (cur, J, AV) e
  = Ok (list_set cur (Z.to_nat (e_row e)) (nth (Z.to_nat (e_row e)) cur 0 + 1),
        list_set J (Z.to_nat (nth (Z.to_nat (e_row e)) cur 0)) (e_col e),
        list_set AV (Z.to_nat (nth (Z.to_nat (e_row e)) cur 0)) (e_val e)).
Proof.
  intros Hr Hp HL. unfold store_entry, GetAndIncrementNnzIndex, AtomicAdd.
  rewrite (read_in arr_I cur _ 0 Hr); cbn [bind].
  rewrite (write_in arr_I cur _ _ Hr); cbn [bind].
  rewrite (write_in arr_J J _ _ Hp); cbn [bind].
  rewrite write_in by lia; cbn [bind]. reflexivity.
Qed.

(** The claims [es] stored from the cursors [cur]: every row receives its
    entries, in the order of the claims, from its cursor on; the rows stay
    within their budgets (second and third hypotheses on [cur]), so no store
    touches another cell. *)
Lemma store_entries (n : Z) (es : list entry) :
  forall (cur J : list Z) (AV : list float),
  Z.of_nat (length cur) = n + 1 -> length AV = length J ->
  (forall e, In e es -> 0 <= e_row e < n) ->
  (forall d, 0 <= d < n ->
     0 <= nth (Z.to_nat d) cur 0 /\
     nth (Z.to_nat d) cur 0 + occ (map e_row es) d <= Z.of_nat (length J)) ->
  (forall d d', 0 <= d < d' -> d' < n ->
     nth (Z.to_nat d) cur 0 + occ (map e_row es) d <= nth (Z.to_nat d') cur 0) ->
  exists cur' J' AV',
    foldM store_entry es (cur, J, AV) = Ok (cur', J', AV') /\
    length cur' = length cur /\ length J' = length J /\ length AV' = length AV /\
    (forall d, 0 <= d ->
       nth (Z.to_nat d) cur' 0 = nth (Z.to_nat d) cur 0 + occ (map e_row es) d) /\
    (forall d k, 0 <= d < n -> 0 <= k < occ (map e_row es) d ->
       nth (Z.to_nat (nth (Z.to_nat d) cur 0 + k)) J' 0
       = e_col (nth (Z.to_nat k) (entries_of_row es d) no_entry) /\
       nth (Z.to_nat (nth (Z.to_nat d) cur 0 + k)) AV' 0%float
       = e_val (nth (Z.to_nat k) (entries_of_row es d) no_entry)) /\
    (forall p, 0 <= p ->
       (forall d, 0 <= d < n ->
          ~ (nth (Z.to_nat d) cur 0 <= p < nth (Z.to_nat d) cur 0 + occ (map e_row es) d)) ->
       nth (Z.to_nat p) J' 0 = nth (Z.to_nat p) J 0 /\
       nth (Z.to_nat p) AV' 0%float = nth (Z.to_nat p) AV 0%float).
Proof.
  induction es as [|e es IH]; intros cur J AV Hcur HAV Hrows Hbud Hord.
  - exists cur, J, AV. split; [reflexivity|].
    split; [reflexivity|]. split; [reflexivity|]. split; [reflexivity|].
    split; [intros; cbn [map]; rewrite occ_nil; lia|].
    split; [|intros; auto].
    intros d k Hd Hk; cbn [map] in Hk; rewrite occ_nil in Hk; lia.
  - set (d0 := e_row e). set (p0 := nth (Z.to_nat d0) cur 0).
    assert (Hd0 : 0 <= d0 < n) by (apply Hrows; left; reflexivity).
    assert (Hocc0 : forall d, occ (map e_row (e :: es)) d
                              = (if d0 =? d then 1 else 0) + occ (map e_row es) d).
    { intros d; cbn [map]; apply occ_cons. }
    assert (Hp0 : 0 <= p0 < Z.of_nat (length J)).
    { destruct (Hbud d0 Hd0) as [H1 H2]. rewrite Hocc0, Z.eqb_refl in H2.
      pose proof (occ_nonneg (map e_row es) d0). unfold p0; lia. }
    cbn [foldM]. rewrite store_entry_ok by (fold d0; fold p0; lia).
    fold d0; fold p0. cbn [bind].
    set (cur1 := list_set cur (Z.to_nat d0) (p0 + 1)).
    set (J1 := list_set J (Z.to_nat p0) (e_col e)).
    set (AV1 := list_set AV (Z.to_nat p0) (e_val e)).
    assert (Hcur1 : forall d, 0 <= d ->
              nth (Z.to_nat d) cur1 0
              = nth (Z.to_nat d) cur 0 + (if d0 =? d then 1 else 0)).
    { intros d Hd. unfold cur1. destruct (Z.eqb_spec d0 d) as [<-|Hne].
      - rewrite nth_list_set_eq by lia. reflexivity.
      - rewrite nth_list_set_neq by lia. lia. }
    destruct (IH cur1 J1 AV1) as (cur' & J' & AV' & E & L1 & L2 & L3 & Hc & Hw & Hf).
    + unfold cur1; rewrite list_set_length; assumption.
    + unfold AV1, J1; rewrite !list_set_length; assumption.
    + intros e' He'; apply Hrows; right; assumption.
    + intros d Hd. destruct (Hbud d Hd) as [H1 H2]. rewrite Hocc0 in H2.
      rewrite Hcur1 by lia. unfold J1; rewrite list_set_length.
      destruct (d0 =? d); lia.
    + intros d d' Hd Hd'. specialize (Hord d d' Hd Hd'). rewrite Hocc0 in Hord.
      rewrite !Hcur1 by lia. destruct (d0 =? d), (d0 =? d'); lia.
    + exists cur', J', AV'. split; [assumption|].
      unfold cur1 in L1; unfold J1 in L2; unfold AV1 in L3.
      rewrite list_set_length in L1. rewrite list_set_length in L2.
      rewrite list_set_length in L3.
      split; [assumption|]. split; [assumption|]. split; [assumption|].
      assert (Hkeep : nth (Z.to_nat p0) J' 0 = e_col e /\
                      nth (Z.to_nat p0) AV' 0%float = e_val e).
      { destruct (Hf p0) as [F1 F2]; [lia| |].
        - intros d Hd. rewrite Hcur1 by lia.
          destruct (Z.eqb_spec d0 d) as [<-|Hne]; [fold p0; lia|].
          destruct (Z_lt_ge_dec d d0) as [Hlt|Hge].
          + pose proof (Hord d d0 ltac:(lia) ltac:(lia)) as Ho.
            rewrite Hocc0 in Ho. fold p0 in Ho.
            destruct (d0 =? d); lia.
          + pose proof (Hord d0 d ltac:(lia) ltac:(lia)) as Ho.
            rewrite Hocc0, Z.eqb_refl in Ho. fold p0 in Ho.
            pose proof (occ_nonneg (map e_row es) d0). lia.
        - rewrite F1, F2. unfold J1, AV1.
          rewrite !nth_list_set_eq by lia. auto. }
      split; [|split].
      * intros d Hd. rewrite Hc, Hcur1, Hocc0 by lia. lia.
      * intros d k Hd Hk. rewrite Hocc0 in Hk.
        unfold entries_of_row; cbn [filter]. fold d0.
        destruct (Z.eqb_spec d0 d) as [<-|Hne].
        -- fold p0. destruct (Z.eq_dec k 0) as [->|Hk0].
           ++ rewrite Z.add_0_r. cbn [nth Z.to_nat]. exact Hkeep.
           ++ destruct (Hw d0 (k - 1)) as [W1 W2]; [lia | lia |].
              rewrite Hcur1, Z.eqb_refl in W1, W2 by lia. fold p0 in W1, W2.
              replace (p0 + 1 + (k - 1)) with (p0 + k) in W1, W2 by lia.
              replace (Z.to_nat k) with (S (Z.to_nat (k - 1))) by lia.
              cbn [nth]. fold (entries_of_row es d0). split; assumption.
        -- destruct (Hw d k) as [W1 W2]; [lia | lia |].
           rewrite Hcur1 in W1, W2 by lia.
           replace (d0 =? d) with false in W1, W2 by (symmetry; apply Z.eqb_neq; assumption).
           rewrite Z.add_0_r in W1, W2. fold (entries_of_row es d). split; assumption.
      * intros p Hp Hout.
        assert (Hpne : p <> p0).
        { intros ->. apply (Hout d0 Hd0). fold p0. rewrite Hocc0, Z.eqb_refl.
          pose proof (occ_nonneg (map e_row es) d0). lia. }
        destruct (Hf p Hp) as [F1 F2].
        { intros d Hd Hin. apply (Hout d Hd). rewrite Hocc0.
          rewrite Hcur1 in Hin by lia. destruct (d0 =? d); lia. }
        rewrite F1, F2. unfold J1, AV1.
        rewrite !nth_list_set_neq by lia. auto.
Qed.

(** ** The rows of the filled matrix *)

Lemma slice_nth {A} (l l' : list A) (lo m : nat) (d : A) :
  (lo + m <= length l)%nat -> length l' = m ->
  (forall k, (k < m)%nat -> nth (lo + k) l d = nth k l' d) ->
  firstn m (skipn lo l) = l'.
Proof.
  intros Hlen Hl' Hnth. apply (nth_ext _ _ d d).
  - rewrite length_firstn, length_skipn; lia.
  - intros k Hk. rewrite length_firstn, length_skipn in Hk.
    rewrite nth_firstn. replace (k <? m)%nat with true by (symmetry; apply Nat.ltb_lt; lia).
    rewrite nth_skipn. apply Hnth; lia.
Qed.

Lemma combine_map_entries (es : list entry) :
  combine (map e_col es) (map e_val es) = map col_val es.
Proof. induction es as [|e es IH]; simpl; [reflexivity | rewrite IH; reflexivity]. Qed.

Lemma psum_succ (c : Z -> Z) (d : Z) :
  0 <= d -> psum c (Z.to_nat (d + 1)) = psum c (Z.to_nat d) + c d.
Proof.
  intros H. replace (Z.to_nat (d + 1)) with (S (Z.to_nat d)) by lia.
  cbn [psum]. rewrite Z2Nat.id by lia. reflexivity.
Qed.

(** Stored from the offsets of their own row counts, the claims fill every
    row with its entries. *)
Lemma fill_rows (n : Z) (es : list entry) (J : list Z) (AV : list float) :
  0 <= n ->
  (forall e, In e es -> 0 <= e_row e < n) ->
  Z.of_nat (length J) = psum (occ (map e_row es)) (Z.to_nat n) ->
  length AV = length J ->
  exists cur' J' AV',
    foldM store_entry es (offsets_of (occ (map e_row es)) n, J, AV) = Ok (cur', J', AV') /\
    length J' = length J /\ length AV' = length AV /\
    forall d, 0 <= d < n ->
      row_slice (offsets_of (occ (map e_row es)) n) J' d = map e_col (entries_of_row es d) /\
      row_slice (offsets_of (occ (map e_row es)) n) AV' d = map e_val (entries_of_row es d).
Proof.
  intros Hn Hrows HJ HAV.
  set (c := occ (map e_row es)).
  assert (Hc : forall d, 0 <= c d) by (intros; apply occ_nonneg).
  assert (Hcur : forall d, 0 <= d <= n ->
            nth (Z.to_nat d) (offsets_of c n) 0 = psum c (Z.to_nat d)).
  { intros d Hd; apply offsets_of_nth; assumption. }
  destruct (store_entries n es (offsets_of c n) J AV)
    as (cur' & J' & AV' & E & L1 & L2 & L3 & _ & Hw & _).
  - apply offsets_of_length; assumption.
  - assumption.
  - assumption.
  - intros d Hd. rewrite Hcur by lia. fold c.
    split; [apply psum_nonneg; intros; apply Hc|].
    rewrite <- psum_succ by lia. rewrite HJ.
    apply psum_mono; [intros; apply Hc | lia].
  - intros d d' Hd Hd'. rewrite !Hcur by lia. fold c.
    rewrite <- psum_succ by lia. apply psum_mono; [intros; apply Hc | lia].
  - exists cur', J', AV'. split; [exact E|]. split; [assumption|]. split; [assumption|].
    intros d Hd. unfold row_slice. rewrite !Hcur by lia.
    rewrite psum_succ by lia.
    replace (psum c (Z.to_nat d) + c d - psum c (Z.to_nat d)) with (c d) by lia.
    assert (Hlen : Z.of_nat (length (entries_of_row es d)) = c d)
      by (symmetry; apply occ_rows).
    assert (Hfit : psum c (Z.to_nat d) + c d <= Z.of_nat (length J)).
    { rewrite <- psum_succ by lia. rewrite HJ.
      apply psum_mono; [intros; apply Hc | lia]. }
    pose proof (psum_nonneg c (Z.to_nat d) (fun d _ => Hc d)) as Hp.
    split.
    + apply (slice_nth _ _ _ _ 0); [lia | rewrite length_map; lia |].
      intros k Hk. destruct (Hw d (Z.of_nat k)) as [W _]; [lia | fold c; lia |].
      rewrite Hcur in W by lia.
      replace (Z.to_nat (psum c (Z.to_nat d)) + k)%nat
        with (Z.to_nat (psum c (Z.to_nat d) + Z.of_nat k)) by lia.
      rewrite W, Nat2Z.id.
      rewrite (nth_indep _ 0 (e_col no_entry)) by (rewrite length_map; lia).
      rewrite map_nth. reflexivity.
    + apply (slice_nth _ _ _ _ 0%float); [lia | rewrite length_map; lia |].
      intros k Hk. destruct (Hw d (Z.of_nat k)) as [_ W]; [lia | fold c; lia |].
      rewrite Hcur in W by lia.
      replace (Z.to_nat (psum c (Z.to_nat d)) + k)%nat
        with (Z.to_nat (psum c (Z.to_nat d) + Z.of_nat k)) by lia.
      rewrite W, Nat2Z.id.
      rewrite (nth_indep _ 0%float (e_val no_entry)) by (rewrite length_map; lia).
      rewrite map_nth. reflexivity.
Qed.

(** The copy of the offsets into the temporary array. *)
Lemma copy_loop (src : list Z) (k : nat) (dst : list Z) :
  (k <= length src)%nat -> length dst = length src ->
  exists I', foldM (fun I i => v <- read arr_I src i ;; write arr_I I i v)
                   (range 0 (Z.of_nat k)) dst = Ok I' /\
             length I' = length src /\
             (forall j, (j < k)%nat -> nth j I' 0 = nth j src 0) /\
             (forall j, (k <= j)%nat -> nth j I' 0 = nth j dst 0).
Proof.
  intros Hk Hdst; induction k as [|k IH].
  - exists dst; repeat split; auto; intros; lia.
  - destruct IH as (I1 & E & L & Hlo & Hhi); [lia|].
    rewrite Nat2Z.inj_succ; unfold Z.succ.
    rewrite range_snoc, foldM_app, E by lia. cbn [bind foldM].
    rewrite (read_in arr_I src _ 0) by lia. cbn [bind].
    rewrite write_in by lia. cbn [bind].
    eexists; split; [reflexivity|].
    rewrite list_set_length. split; [assumption|].
    rewrite Nat2Z.id. split; intros j Hj.
    + destruct (Nat.eq_dec j k) as [->|Hne].
      * apply nth_list_set_eq; lia.
      * rewrite nth_list_set_neq by lia. apply Hlo; lia.
    + rewrite nth_list_set_neq by lia. apply Hhi; lia.
Qed.

Lemma copy_I_ok (a : BatchedLORAssembly) (A : SparseMatrix) :
  Z.of_nat (length (GetI A)) = nvdof a + 1 -> copy_I a A = Ok (GetI A).
Proof.
  intros H. unfold copy_I, forall_loop.
  destruct (copy_loop (GetI A) (Z.to_nat (nvdof a + 1)) (New 0 (nvdof a + 1)))
    as (I' & E & L & Hlo & _).
  - lia.
  - unfold New; rewrite repeat_length; lia.
  - rewrite Z2Nat.id in E by lia. rewrite E. f_equal.
    apply list_eq_nth; [assumption|].
    intros j Hj. apply Hlo. lia.
Qed.

(** The fill pass with its claims in any order [sched]: every row holds its
    entries in the order of [sched]. *)
Lemma FillJAndData_sched_ok (a : BatchedLORAssembly) (A : SparseMatrix) (sched : list entry) :
  0 <= nvdof a ->
  GetI A = offsets_of (occ (map e_row sched)) (nvdof a) ->
  (forall e, In e sched -> 0 <= e_row e < nvdof a) ->
  Z.of_nat (length (GetJ A)) = psum (occ (map e_row sched)) (Z.to_nat (nvdof a)) ->
  length (GetData A) = length (GetJ A) ->
  exists J' AV',
    FillJAndData_sched a A sched = Ok (set_J_Data A J' AV') /\
    length J' = length (GetJ A) /\ length AV' = length (GetData A) /\
    forall d, 0 <= d < nvdof a ->
      row_slice (GetI A) J' d = map e_col (entries_of_row sched d) /\
      row_entries (set_J_Data A J' AV') d = map col_val (entries_of_row sched d).
Proof.
  intros Hn HI Hrows HJ HAV.
  destruct (fill_rows (nvdof a) sched (GetJ A) (GetData A) Hn Hrows HJ HAV)
    as (cur' & J' & AV' & E & L1 & L2 & Hs).
  exists J', AV'. unfold FillJAndData_sched.
  rewrite copy_I_ok by (rewrite HI; apply offsets_of_length; assumption).
  cbn [bind]. rewrite HI, E. cbn [bind].
  split; [reflexivity|]. split; [assumption|]. split; [assumption|].
  intros d Hd. unfold row_entries. cbn [GetI GetJ GetData set_J_Data].
  rewrite HI. destruct (Hs d Hd) as [-> ->]. split; [reflexivity|].
  apply combine_map_entries.
Qed.

(** ** The accumulation of the conflict case *)

Lemma buf_read_pad_map (f : Z -> Z) (pre l : list Z) (x : Z) :
  Z.of_nat (length pre) < Max ->
  buf_read (pad (map f (pre ++ x :: l))) (Z.of_nat (length pre)) = Ok (f x).
Proof.
  intros H. rewrite map_app; cbn [map].
  rewrite <- (length_map f pre). apply buf_read_pad. rewrite length_map; assumption.
Qed.

Lemma fold_left_flat_map {A B C} (f : A -> C -> A) (g : B -> list C) (l : list B) (v : A) :
  fold_left f (flat_map g l) v = fold_left (fun v x => fold_left f (g x) v) l v.
Proof.
  revert v; induction l as [|x l IH]; intros v; simpl; [reflexivity|].
  rewrite fold_left_app. apply IH.
Qed.

Lemma find_iota_range (p : Z -> bool) (m : Z) (k : nat) (x : Z) :
  find p (iota m k) = Some x -> m <= x < m + Z.of_nat k /\ p x = true.
Proof.
  intros H. apply find_some in H. destruct H as [Hin Hp].
  apply in_iota in Hin. auto.
Qed.

Section Accumulate.

Variable a : BatchedLORAssembly.
Variable R : ElementRestriction.
Hypothesis Hwf : wf_base a R = true.

Local Abbreviation ndof := (ndof_per_el a).
Local Abbreviation nnz := (nnz_per_row a).
Local Abbreviation nel := (nel_ho a).

Lemma slot_range (s : Z) : 0 <= slot_of a s < ndof.
Proof.
  unfold slot_of. apply (slot_elem a R Hwf). apply decode_nonneg.
Qed.

Lemma decode_signed_slot (s : Z) : decode (signed_slot a s) = slot_of a s.
Proof.
  pose proof (slot_range s) as H. unfold signed_slot, decode.
  destruct (s >=? 0).
  - destruct (Z.geb_spec (slot_of a s) 0); lia.
  - destruct (Z.geb_spec (-1 - slot_of a s) 0); lia.
Qed.

Lemma sign_signed_slot (s : Z) : (signed_slot a s >=? 0) = (s >=? 0).
Proof.
  pose proof (slot_range s) as H. unfold signed_slot.
  destruct (Z.geb_spec s 0).
  - apply Z.geb_le; lia.
  - destruct (Z.geb_spec (-1 - slot_of a s) 0); [lia | reflexivity].
Qed.

Lemma orientation_signed_slot (s2 s1 : Z) :
  orientation_sign (signed_slot a s2) (signed_slot a s1) = orientation_sign s2 s1.
Proof. rewrite !orientation_sign_agree, !sign_signed_slot. reflexivity. Qed.

Lemma find_nonzero_iota (r c m : Z) (k : nat) :
  0 <= r < ndof -> 0 <= m -> m + Z.of_nat k <= nnz ->
  find_nonzero a r c m k
  = Ok (match find (fun m' => template a m' r =? c) (iota m k) with
        | Some x => x
        | None => -1
        end).
Proof.
  intros Hr. revert m; induction k as [|k IH]; intros m Hm Hk; [reflexivity|].
  cbn [find_nonzero iota find].
  rewrite (map_ok a R Hwf) by lia. cbn [bind].
  destruct (template a m r =? c); [reflexivity|].
  apply IH; lia.
Qed.

Lemma find_nonzero_ok (r c : Z) :
  0 <= r < ndof -> find_nonzero a r c 0 (Z.to_nat nnz) = Ok (lookup a r c).
Proof.
  intros Hr. destruct (wf_sizes_facts a R Hwf) as (_ & _ & Hn & _).
  rewrite find_nonzero_iota by lia. unfold lookup, range.
  rewrite Z.sub_0_r. reflexivity.
Qed.

Lemma lookup_facts (r c : Z) :
  0 <= lookup a r c ->
  0 <= lookup a r c < nnz /\ template a (lookup a r c) r = c.
Proof.
  unfold lookup. destruct (find _ (range 0 nnz)) as [m|] eqn:E; [|lia].
  intros _. apply find_some in E. destruct E as [Hin Hp].
  apply in_range in Hin. apply Z.eqb_eq in Hp. auto.
Qed.

(** The first slot of a row with a given column is the only one. *)
Lemma lookup_unique (r j : Z) :
  0 <= r < ndof -> 0 <= j < nnz -> 0 <= template a j r ->
  lookup a r (template a j r) = j.
Proof.
  intros Hr Hj Hc. unfold lookup.
  destruct (find (fun m => template a m r =? template a j r) (range 0 nnz)) as [m|] eqn:E.
  - apply find_some in E. destruct E as [Hin Hp]. apply Z.eqb_eq in Hp.
    apply (NoDup_filter_map_inj (fun c => negb (c <? 0)) (fun j => template a j r)
             (range 0 nnz)).
    + apply NoDup_range.
    + apply (template_row_NoDup a R Hwf); assumption.
    + assumption.
    + apply in_range; assumption.
    + rewrite Hp. apply negb_true_iff, Z.ltb_ge. assumption.
    + assumption.
  - pose proof (find_none _ _ E j) as Hn. cbv beta in Hn.
    rewrite Z.eqb_refl in Hn. discriminate Hn. apply in_range; assumption.
Qed.

(** The loop over the references of the column DOF, for one reference [s1]
    of the row DOF. *)
Lemma accumulate_l_fold (j s1 : Z) (l pre : list Z) (v : float) :
  0 <= j ->
  0 <= elt_of a s1 < nel ->
  Z.of_nat (length (pre ++ l)) <= Max ->
  (forall s2, In s2 l -> elt_of a s1 = elt_of a s2 ->
              0 <= lookup a (slot_of a s1) (slot_of a s2)) ->
  foldM (accumulate_l a j (pad (map (elt_of a) (pre ++ l)))
                      (pad (map (signed_slot a) (pre ++ l)))
                      (elt_of a s1) (signed_slot a s1) (slot_of a s1))
        (iota (Z.of_nat (length pre)) (length l)) v
  = Ok (fold_left (fun v s2 => PrimFloat.add v (shared_term a (s1, s2)))
                  (filter (fun s2 => elt_of a s1 =? elt_of a s2) l) v).
Proof.
  intros Hj He. revert pre v; induction l as [|s2 l IH]; intros pre v Hlen Hlook;
    [reflexivity|].
  rewrite length_app in Hlen; cbn [length] in Hlen.
  cbn [iota foldM filter length].
  assert (Hnext : forall v',
    foldM (accumulate_l a j (pad (map (elt_of a) (pre ++ s2 :: l)))
                        (pad (map (signed_slot a) (pre ++ s2 :: l)))
                        (elt_of a s1) (signed_slot a s1) (slot_of a s1))
          (iota (Z.of_nat (length pre) + 1) (length l)) v'
    = Ok (fold_left (fun v s2 => PrimFloat.add v (shared_term a (s1, s2)))
                    (filter (fun s2 => elt_of a s1 =? elt_of a s2) l) v')).
  { intros v'.
    replace (pre ++ s2 :: l) with ((pre ++ [s2]) ++ l) by (rewrite <- app_assoc; reflexivity).
    replace (Z.of_nat (length pre) + 1) with (Z.of_nat (length (pre ++ [s2])))
      by (rewrite length_app; simpl; lia).
    apply IH; [rewrite !length_app; simpl; lia|].
    intros s Hs; apply Hlook; right; assumption. }
  unfold accumulate_l at 1.
  rewrite buf_read_pad_map by lia. cbn [bind].
  destruct (Z.eqb_spec (elt_of a s1) (elt_of a s2)) as [E|E]; [|cbn [bind]; apply Hnext].
  rewrite buf_read_pad_map by lia. cbn [bind].
  rewrite decode_signed_slot, orientation_signed_slot.
  rewrite find_nonzero_ok by apply slot_range. cbn [bind].
  unfold assert_kernel. replace (j >=? 0) with true by (symmetry; apply Z.geb_le; lia).
  cbn [bind].
  destruct (lookup_facts (slot_of a s1) (slot_of a s2)) as [Hl _].
  { apply Hlook; [left; reflexivity | assumption]. }
  rewrite (V_ok a R Hwf) by (try apply slot_range; assumption).
  cbn [bind fold_left]. apply Hnext.
Qed.

(** The loop over the references of the row DOF. *)
Lemma accumulate_k_fold (j jj : Z) (l pre : list Z) (v : float) :
  0 <= j -> 0 <= jj < nvdof a ->
  Z.of_nat (length (pre ++ l)) <= Max ->
  (forall s1, In s1 l -> 0 <= elt_of a s1 < nel) ->
  (forall s1 s2, In s1 l -> In s2 (incidence R jj) -> elt_of a s1 = elt_of a s2 ->
                 0 <= lookup a (slot_of a s1) (slot_of a s2)) ->
  foldM (accumulate_k a j (pad (map (elt_of a) (pre ++ l)))
                      (pad (map (signed_slot a) (pre ++ l)))
                      (pad (elts_of a R jj)) (pad (slots_of a R jj)) (n_elts R jj))
        (iota (Z.of_nat (length pre)) (length l)) v
  = Ok (fold_left
          (fun v s1 =>
             fold_left (fun v s2 => PrimFloat.add v (shared_term a (s1, s2)))
                       (filter (fun s2 => elt_of a s1 =? elt_of a s2) (incidence R jj)) v)
          l v).
Proof.
  intros Hj Hjj. revert pre v; induction l as [|s1 l IH]; intros pre v Hlen Hel Hlook;
    [reflexivity|].
  rewrite length_app in Hlen; cbn [length] in Hlen.
  cbn [iota foldM length fold_left].
  unfold accumulate_k at 1.
  rewrite !buf_read_pad_map by lia. cbn [bind].
  rewrite decode_signed_slot.
  destruct (offset_facts a R Hwf jj Hjj) as (_ & _ & Hne).
  pose proof (incidence_length R jj) as HL.
  assert (Hinner :
    foldM (accumulate_l a j (pad (elts_of a R jj)) (pad (slots_of a R jj))
                        (elt_of a s1) (signed_slot a s1) (slot_of a s1))
          (range 0 (n_elts R jj)) v
    = Ok (fold_left (fun v s2 => PrimFloat.add v (shared_term a (s1, s2)))
                    (filter (fun s2 => elt_of a s1 =? elt_of a s2) (incidence R jj)) v)).
  { unfold range. rewrite Z.sub_0_r, <- HL.
    apply (accumulate_l_fold j s1 (incidence R jj) [] v Hj).
    - apply Hel; left; reflexivity.
    - cbn [app]. lia.
    - intros s2 Hs2 E. apply Hlook; [left; reflexivity | assumption | assumption]. }
  rewrite Hinner. cbn [bind].
  replace (pre ++ s1 :: l) with ((pre ++ [s1]) ++ l) by (rewrite <- app_assoc; reflexivity).
  replace (Z.of_nat (length pre) + 1) with (Z.of_nat (length (pre ++ [s1])))
    by (rewrite length_app; simpl; lia).
  apply IH.
  - rewrite !length_app; simpl; lia.
  - intros s Hs; apply Hel; right; assumption.
  - intros s s2 Hs; apply Hlook; right; assumption.
Qed.

End Accumulate.

(** ** The fill kernel stores the claims of [claims] *)

Lemma fold_left_map {A B C} (f : A -> C -> A) (h : B -> C) (l : list B) (v : A) :
  fold_left f (map h l) v = fold_left (fun v y => f v (h y)) l v.
Proof. revert v; induction l as [|x l IH]; intros v; simpl; auto. Qed.

Lemma fold_left_ext {A B} (f g : A -> B -> A) (l : list B) (v : A) :
  (forall v x, f v x = g v x) -> fold_left f l v = fold_left g l v.
Proof.
  intros H; revert v; induction l as [|x l IH]; intros v; simpl; [reflexivity|].
  rewrite H; apply IH.
Qed.

Lemma in_shared_refs (a : BatchedLORAssembly) (R : ElementRestriction) (d jj s1 s2 : Z) :
  In (s1, s2) (shared_refs a R d jj) <->
  In s1 (incidence R d) /\ In s2 (incidence R jj) /\ elt_of a s1 = elt_of a s2.
Proof.
  unfold shared_refs. rewrite in_flat_map. split.
  - intros (x & Hx & Hin). apply in_map_iff in Hin. destruct Hin as (y & E & Hy).
    injection E as <- <-. apply filter_In in Hy. destruct Hy as [Hy E].
    apply Z.eqb_eq in E. auto.
  - intros (H1 & H2 & E). exists s1. split; [assumption|].
    apply in_map_iff. exists s2. split; [reflexivity|].
    apply filter_In. split; [assumption | apply Z.eqb_eq; assumption].
Qed.

Lemma accumulated_fold (a : BatchedLORAssembly) (R : ElementRestriction) (d jj : Z) :
  accumulated a R d jj
  = fold_left
      (fun v s1 =>
         fold_left (fun v s2 => PrimFloat.add v (shared_term a (s1, s2)))
                   (filter (fun s2 => elt_of a s1 =? elt_of a s2) (incidence R jj)) v)
      (incidence R d) 0%float.
Proof.
  unfold accumulated, shared_refs. rewrite fold_left_flat_map.
  apply fold_left_ext. intros v s1. rewrite fold_left_map. reflexivity.
Qed.

Section Fill.

Variable a : BatchedLORAssembly.
Variable R : ElementRestriction.
Hypothesis Hwf : wf_base a R = true.
Hypothesis Hsh : shared_asserted a R = true.

Local Abbreviation ndof := (ndof_per_el a).
Local Abbreviation nnz := (nnz_per_row a).
Local Abbreviation nel := (nel_ho a).

Lemma shared_lookup (s : Z * Z) (s1 s2 : Z) :
  In s (all_slots a) -> asserts a s = true ->
  In (s1, s2) (shared_refs a R (row_dof R s) (col_dof a R s)) ->
  0 <= lookup a (slot_of a s1) (slot_of a s2).
Proof.
  intros Hs Ha Hp. unfold shared_asserted in Hsh.
  rewrite forallb_forall in Hsh. specialize (Hsh s Hs). rewrite Ha in Hsh.
  cbn [implb] in Hsh. rewrite forallb_forall in Hsh. specialize (Hsh _ Hp).
  cbn [fst snd] in Hsh. apply negb_true_iff, Z.ltb_ge in Hsh. exact Hsh.
Qed.

Lemma accumulate_ok (i j : Z) :
  0 <= i < ndof * nel -> 0 <= j < nnz -> asserts a (i, j) = true ->
  foldM (accumulate_k a j (pad (elts_of a R (row_dof R (i, j))))
                      (pad (slots_of a R (row_dof R (i, j))))
                      (pad (elts_of a R (col_dof a R (i, j))))
                      (pad (slots_of a R (col_dof a R (i, j))))
                      (n_elts R (col_dof a R (i, j))))
        (range 0 (n_elts R (row_dof R (i, j)))) 0%float
  = Ok (accumulated a R (row_dof R (i, j)) (col_dof a R (i, j))).
Proof.
  intros Hi Hj Ha.
  destruct (slot_facts a R Hwf i j Hi Hj) as (_ & _ & _ & Hrow & _ & Hcol).
  destruct (Hcol Ha) as (_ & _ & _ & _ & Hcd).
  set (d := row_dof R (i, j)) in *. set (jj := col_dof a R (i, j)) in *.
  destruct (offset_facts a R Hwf d Hrow) as (_ & _ & Hne).
  pose proof (incidence_length R d) as HL.
  rewrite accumulated_fold. unfold range. rewrite Z.sub_0_r, <- HL.
  apply (accumulate_k_fold a R Hwf j jj (incidence R d) [] 0%float).
  - lia.
  - assumption.
  - cbn [app]. lia.
  - intros s1 Hs1. destruct (incidence_facts a R Hwf d s1 Hrow Hs1) as (Hx & _).
    apply (elem_bound a R Hwf); assumption.
  - intros s1 s2 Hs1 Hs2 E.
    apply (shared_lookup (i, j)); [apply in_all_slots; auto | assumption |].
    apply in_shared_refs; auto.
Qed.

(** The decision and the entry of the fill kernel on a slot. *)
Lemma FillJAndData_slot_ok (i j : Z) :
  0 <= i < ndof * nel -> 0 <= j < nnz ->
  FillJAndData_slot a R (Z.rem i ndof) (Z.quot i ndof) (gather R i)
                    (n_elts R (row_dof R (i, j)))
                    (pad (elts_of a R (row_dof R (i, j))))
                    (pad (slots_of a R (row_dof R (i, j)))) j
  = Ok (if counted a R (i, j) then Some (entry_of a R (i, j)) else None).
Proof.
  intros Hi Hj.
  destruct (slot_facts a R Hwf i j Hi Hj) as (Hr & He & Hie & Hrow & Hc & Hcol).
  unfold FillJAndData_slot, counted, entry_of, stored_value.
  rewrite (map_ok a R Hwf) by assumption; cbn [bind].
  change (template a j (Z.rem i ndof)) with (col_slot a (i, j)).
  unfold asserts at 1. destruct (col_slot a (i, j) <? 0) eqn:E; cbn [negb andb];
    [reflexivity|].
  assert (Ha : asserts a (i, j) = true) by (unfold asserts; rewrite E; reflexivity).
  destruct Hcol as (Hc0 & Hci & Hq & Hrm & Hcd); [assumption|].
  change (col_slot a (i, j) + ndof * Z.quot i ndof) with (col_index a (i, j)).
  assert (Hread : el_dof_lex a R (col_slot a (i, j)) (Z.quot i ndof)
                  = Ok (gather R (col_index a (i, j)))).
  { apply (el_dof_lex_ok a R Hwf). exact Hci. }
  rewrite Hread; cbn [bind].
  change (decode (gather R (col_index a (i, j)))) with (col_dof a R (i, j)).
  change (decode (gather R i)) with (row_dof R (i, j)).
  rewrite !(K_ok a R Hwf) by lia; cbn [bind].
  change (offset R (col_dof a R (i, j) + 1) - offset R (col_dof a R (i, j)))
    with (n_elts R (col_dof a R (i, j))).
  change ((n_elts R (row_dof R (i, j)) =? 1) || (n_elts R (col_dof a R (i, j)) =? 1))
    with (no_conflict R (row_dof R (i, j)) (col_dof a R (i, j))).
  destruct (no_conflict R (row_dof R (i, j)) (col_dof a R (i, j))); cbn [orb].
  - rewrite (V_ok a R Hwf) by assumption. reflexivity.
  - rewrite (FillJAndData_elts_ok a R Hwf) by assumption; cbn [bind].
    rewrite (GetMinElt_ok a R Hwf) by assumption; cbn [bind].
    change (Z.quot i ndof) with (elem a (i, j)).
    destruct (elem a (i, j) =? elected a R (row_dof R (i, j)) (col_dof a R (i, j)));
      [|reflexivity].
    rewrite (accumulate_ok i j Hi Hj Ha). reflexivity.
Qed.

Lemma fold_stored (i : Z) (l : list Z) (st : fill_state) :
  foldM (fun st j =>
           oe <- Ok (if counted a R (i, j) then Some (entry_of a R (i, j)) else None) ;;
           match oe with
           | Some e => store_entry st e
           | None => Ok st
           end) l st
  = foldM store_entry
          (map (entry_of a R) (filter (counted a R) (map (fun j => (i, j)) l))) st.
Proof.
  revert st; induction l as [|j l IH]; intros st; [reflexivity|].
  cbn [foldM map filter bind].
  destruct (counted a R (i, j)); cbn [foldM map]; [|apply IH].
  apply bind_ext; intros st'; apply IH.
Qed.

Lemma fold_claimed (i : Z) (l : list Z) (acc : list entry) :
  foldM (fun acc j =>
           oe <- Ok (if counted a R (i, j) then Some (entry_of a R (i, j)) else None) ;;
           match oe with
           | Some e => Ok (acc ++ [e])
           | None => Ok acc
           end) l acc
  = Ok (acc ++ map (entry_of a R) (filter (counted a R) (map (fun j => (i, j)) l))).
Proof.
  revert acc; induction l as [|j l IH]; intros acc;
    [cbn [foldM map filter]; rewrite app_nil_r; reflexivity|].
  cbn [foldM map filter bind].
  destruct (counted a R (i, j)); cbn [map]; [|apply IH].
  etransitivity; [apply IH|]. rewrite <- app_assoc. reflexivity.
Qed.

Lemma FillJAndData_head (i : Z) :
  0 <= i < ndof * nel ->
  el_dof_lex a R (Z.rem i ndof) (Z.quot i ndof) = Ok (gather R i) /\
  K R (dof_of R i) = Ok (offset R (dof_of R i)) /\
  K R (dof_of R i + 1) = Ok (offset R (dof_of R i + 1)) /\
  FillJAndData_elts a R (offset R (dof_of R i)) (n_elts R (dof_of R i))
  = Ok (pad (elts_of a R (dof_of R i)), pad (slots_of a R (dof_of R i))).
Proof.
  intros Hi.
  destruct (slot_elem a R Hwf i) as (Hr & He & Hie); [lia|].
  pose proof (dof_of_range a R Hwf i Hi) as Hrow.
  split; [rewrite (el_dof_lex_ok a R Hwf) by lia; rewrite <- Hie; reflexivity|].
  split; [apply (K_ok a R Hwf); lia|].
  split; [apply (K_ok a R Hwf); lia|].
  apply (FillJAndData_elts_ok a R Hwf); assumption.
Qed.

(** One iteration of the fill kernel stores the entries of its counted
    slots. *)
Lemma FillJAndData_body_ok (st : fill_state) (i : Z) :
  0 <= i < ndof * nel ->
  FillJAndData_body a R st i
  = foldM store_entry
          (map (entry_of a R) (filter (counted a R) (map (fun j => (i, j)) (range 0 nnz)))) st.
Proof.
  intros Hi. destruct (FillJAndData_head i Hi) as (H1 & H2 & H3 & H4).
  unfold FillJAndData_body.
  rewrite H1; cbn [bind]. change (decode (gather R i)) with (dof_of R i).
  rewrite H2, H3; cbn [bind].
  change (offset R (dof_of R i + 1) - offset R (dof_of R i)) with (n_elts R (dof_of R i)).
  rewrite H4; cbn [bind].
  rewrite <- fold_stored. apply foldM_ext.
  intros st' j Hj. apply in_range in Hj.
  pose proof (FillJAndData_slot_ok i j Hi Hj) as Hs.
  change (row_dof R (i, j)) with (dof_of R i) in Hs.
  rewrite Hs. reflexivity.
Qed.

Lemma FillJAndData_claims_ok (i : Z) :
  0 <= i < ndof * nel ->
  FillJAndData_claims a R i
  = Ok (map (entry_of a R) (filter (counted a R) (map (fun j => (i, j)) (range 0 nnz)))).
Proof.
  intros Hi. destruct (FillJAndData_head i Hi) as (H1 & H2 & H3 & H4).
  unfold FillJAndData_claims.
  rewrite H1; cbn [bind]. change (decode (gather R i)) with (dof_of R i).
  rewrite H2, H3; cbn [bind].
  change (offset R (dof_of R i + 1) - offset R (dof_of R i)) with (n_elts R (dof_of R i)).
  rewrite H4; cbn [bind].
  rewrite <- (app_nil_l (map _ _)). rewrite <- fold_claimed. apply foldM_ext.
  intros st' j Hj. apply in_range in Hj.
  pose proof (FillJAndData_slot_ok i j Hi Hj) as Hs.
  change (row_dof R (i, j)) with (dof_of R i) in Hs.
  rewrite Hs. reflexivity.
Qed.

Lemma FillJAndData_loop_ok (l : list Z) (st : fill_state) :
  (forall i, In i l -> 0 <= i < ndof * nel) ->
  foldM (FillJAndData_body a R) l st
  = foldM store_entry
      (map (entry_of a R)
           (filter (counted a R)
                   (flat_map (fun i => map (fun j => (i, j)) (range 0 nnz)) l))) st.
Proof.
  revert st; induction l as [|i l IH]; intros st Hl; [reflexivity|].
  cbn [foldM flat_map].
  rewrite filter_app, map_app, foldM_app.
  rewrite FillJAndData_body_ok by (apply Hl; left; reflexivity).
  apply bind_ext. intros st'. apply IH. intros; apply Hl; right; assumption.
Qed.

(** The fill kernel performs the stores of [claims], in their order. *)
Lemma FillJAndData_kernel_ok (st : fill_state) :
  forall_loop (ndof * nel) (FillJAndData_body a R) st = foldM store_entry (claims a R) st.
Proof.
  unfold forall_loop, claims, all_slots.
  apply FillJAndData_loop_ok. intros i Hi; apply in_range in Hi; assumption.
Qed.

Lemma fill_claims_loop (l : list Z) (acc : list entry) :
  (forall i, In i l -> 0 <= i < ndof * nel) ->
  foldM (fun acc i => es <- FillJAndData_claims a R i ;; Ok (acc ++ es)) l acc
  = Ok (acc ++ map (entry_of a R)
                   (filter (counted a R)
                           (flat_map (fun i => map (fun j => (i, j)) (range 0 nnz)) l))).
Proof.
  revert acc; induction l as [|i l IH]; intros acc Hl;
    [cbn [foldM flat_map filter map]; rewrite app_nil_r; reflexivity|].
  cbn [foldM flat_map].
  rewrite FillJAndData_claims_ok by (apply Hl; left; reflexivity). cbn [bind].
  rewrite IH by (intros; apply Hl; right; assumption).
  rewrite filter_app, map_app, app_assoc. reflexivity.
Qed.

Lemma fill_claims_ok : fill_claims a R = Ok (claims a R).
Proof.
  unfold fill_claims, claims, all_slots.
  rewrite fill_claims_loop by (intros i Hi; apply in_range in Hi; assumption).
  reflexivity.
Qed.

End Fill.

(** ** The two passes on well-formed inputs *)

Lemma claims_rows (a : BatchedLORAssembly) (R : ElementRestriction) :
  map e_row (claims a R) = count_rows a R.
Proof. unfold claims, count_rows. rewrite map_map. reflexivity. Qed.

Lemma claims_range (a : BatchedLORAssembly) (R : ElementRestriction) :
  wf_base a R = true ->
  forall e, In e (claims a R) -> 0 <= e_row e < nvdof a.
Proof.
  intros Hwf e He. apply (count_rows_range a R Hwf).
  rewrite <- claims_rows. apply in_map. assumption.
Qed.

Lemma wf_fill_parts (a : BatchedLORAssembly) :
  wf_fill a = true ->
  exists R, el_restr a = Some R /\ wf_base a R = true /\ shared_asserted a R = true.
Proof.
  unfold wf_fill. destruct (el_restr a) as [R|]; [|discriminate].
  intros H. apply andb_true_iff in H. exists R. tauto.
Qed.

Lemma wf_count_parts (a : BatchedLORAssembly) :
  wf_count a = true ->
  exists R, el_restr a = Some R /\ wf_base a R = true /\ elected_asserts a R = true.
Proof.
  unfold wf_count. destruct (el_restr a) as [R|]; [|discriminate].
  intros H. apply andb_true_iff in H. exists R. tauto.
Qed.

(** On well-formed inputs the sequential fill pass is the schedule that
    performs the claims in the order of the loops. *)
Lemma FillJAndData_is_sched (a : BatchedLORAssembly) (R : ElementRestriction)
    (A : SparseMatrix) :
  el_restr a = Some R -> wf_base a R = true -> shared_asserted a R = true ->
  FillJAndData a A = FillJAndData_sched a A (claims a R).
Proof.
  intros HR Hwf Hsh. unfold FillJAndData, FillJAndData_sched. rewrite HR.
  apply bind_ext. intros I_.
  rewrite (FillJAndData_kernel_ok a R Hwf Hsh). reflexivity.
Qed.


Lemma counted_matrix_sched (a : BatchedLORAssembly) (R : ElementRestriction)
    (sched : list entry) :
  wf_base a R = true -> Permutation (claims a R) sched ->
  exists J' AV',
    FillJAndData_sched a (counted_matrix a R) sched
    = Ok (set_J_Data (counted_matrix a R) J' AV') /\
    Z.of_nat (length J') = psum (occ (count_rows a R)) (Z.to_nat (nvdof a)) /\
    length AV' = length J' /\
    forall d, 0 <= d < nvdof a ->
      row_slice (GetI (counted_matrix a R)) J' d = map e_col (entries_of_row sched d) /\
      row_entries (set_J_Data (counted_matrix a R) J' AV') d
      = map col_val (entries_of_row sched d).
Proof.
  intros Hwf Hperm.
  destruct (wf_sizes_facts a R Hwf) as (_ & _ & _ & Hn & _).
  assert (Hocc : forall d, occ (map e_row sched) d = occ (count_rows a R) d).
  { intros d. rewrite <- claims_rows. symmetry. apply occ_Permutation.
    apply Permutation_map. assumption. }
  assert (Hoff : offsets_of (occ (count_rows a R)) (nvdof a)
                 = offsets_of (occ (map e_row sched)) (nvdof a)).
  { unfold offsets_of. apply map_ext. intros k. apply psum_ext.
    intros d _. symmetry. apply Hocc. }
  assert (Hps : psum (occ (map e_row sched)) (Z.to_nat (nvdof a))
                = psum (occ (count_rows a R)) (Z.to_nat (nvdof a))).
  { apply psum_ext. intros d _. apply Hocc. }
  assert (Hnn : 0 <= psum (occ (count_rows a R)) (Z.to_nat (nvdof a))).
  { apply psum_nonneg. intros; apply occ_nonneg. }
  destruct (FillJAndData_sched_ok a (counted_matrix a R) sched) as (J' & AV' & E & L1 & L2 & Hrows).
  - assumption.
  - exact Hoff.
  - intros e He. apply (claims_range a R Hwf).
    apply (Permutation_in e (Permutation_sym Hperm)). assumption.
  - cbn [counted_matrix GetJ]. unfold New. rewrite repeat_length, Hps. lia.
  - cbn [counted_matrix GetJ GetData]. unfold New. rewrite !repeat_length. reflexivity.
  - exists J', AV'. split; [exact E|].
    cbn [counted_matrix GetJ GetData] in L1, L2. unfold New in L1, L2.
    rewrite repeat_length in L1. rewrite repeat_length in L2.
    split; [lia|]. split; [lia|]. exact Hrows.
Qed.

(** ** What the fill pass leaves alone *)

Lemma store_entry_lengths (st st' : fill_state) (e : entry) :
  store_entry st e = Ok st' ->
  length (snd (fst st')) = length (snd (fst st)) /\ length (snd st') = length (snd st).
Proof.
  destruct st as [[cur J] AV]. unfold store_entry. intros H.
  invb H as [nnz cur'] Hc. invb H as J' HJ. invb H as AV' HA. injection H as <-.
  cbn [fst snd]. rewrite (write_length _ _ _ _ _ HJ), (write_length _ _ _ _ _ HA). auto.
Qed.

Lemma FillJAndData_body_lengths (a : BatchedLORAssembly) (R : ElementRestriction)
    (st st' : fill_state) (i : Z) :
  FillJAndData_body a R st i = Ok st' ->
  length (snd (fst st')) = length (snd (fst st)) /\ length (snd st') = length (snd st).
Proof.
  unfold FillJAndData_body. intros H.
  invb H as sii H1. invb H as o1 H2. invb H as o2 H3. invb H as [elts B] H4.
  eapply (foldM_inv (fun s : fill_state =>
            length (snd (fst s)) = length (snd (fst st)) /\ length (snd s) = length (snd st)));
    [ | | exact H]; [|auto].
  intros s j s' _ [L1 L2] Hs. invb Hs as oe Hoe. destruct oe as [e|].
  - destruct (store_entry_lengths s s' e Hs) as [L1' L2']. split; congruence.
  - injection Hs as <-. auto.
Qed.

Lemma FillJAndData_Ok (a : BatchedLORAssembly) (A B : SparseMatrix) :
  FillJAndData a A = Ok B ->
  GetI B = GetI A /\ Height B = Height A /\ Width B = Width A /\
  length (GetJ B) = length (GetJ A) /\ length (GetData B) = length (GetData A).
Proof.
  unfold FillJAndData. destruct (el_restr a) as [R|]; [|discriminate].
  intros H. invb H as I_ Hc. invb H as [[cur J] AV] Hl. injection H as <-.
  cbn [set_J_Data GetI GetJ GetData Height Width].
  split; [reflexivity|]. split; [reflexivity|]. split; [reflexivity|].
  change (length (snd (fst (cur, J, AV))) = length (snd (fst (I_, GetJ A, GetData A))) /\
          length (snd (cur, J, AV)) = length (snd (I_, GetJ A, GetData A))).
  unfold forall_loop in Hl.
  eapply (foldM_inv (fun s : fill_state =>
            length (snd (fst s)) = length (snd (fst (I_, GetJ A, GetData A))) /\
            length (snd s) = length (snd (I_, GetJ A, GetData A))));
    [ | | exact Hl]; [|auto].
  intros s i s' _ [L1 L2] Hs.
  destruct (FillJAndData_body_lengths a R s s' i Hs) as [L1' L2']. split; congruence.
Qed.

Lemma FillJAndData_sched_Ok (a : BatchedLORAssembly) (A B : SparseMatrix) (sched : list entry) :
  FillJAndData_sched a A sched = Ok B ->
  GetI B = GetI A /\ Height B = Height A /\ Width B = Width A /\
  length (GetJ B) = length (GetJ A) /\ length (GetData B) = length (GetData A).
Proof.
  unfold FillJAndData_sched.
  intros H. invb H as I_ Hc. invb H as [[cur J] AV] Hl. injection H as <-.
  cbn [set_J_Data GetI GetJ GetData Height Width].
  split; [reflexivity|]. split; [reflexivity|]. split; [reflexivity|].
  change (length (snd (fst (cur, J, AV))) = length (snd (fst (I_, GetJ A, GetData A))) /\
          length (snd (cur, J, AV)) = length (snd (I_, GetJ A, GetData A))).
  eapply (foldM_inv (fun s : fill_state =>
            length (snd (fst s)) = length (snd (fst (I_, GetJ A, GetData A))) /\
            length (snd s) = length (snd (I_, GetJ A, GetData A))));
    [ | | exact Hl]; [|auto].
  intros s e s' _ [L1 L2] Hs.
  destruct (store_entry_lengths s s' e Hs) as [L1' L2']. split; congruence.
Qed.

(** The cursors of the fill pass are the entries of its temporary array: a
    claim changes the array it is given, at the row of the claim. *)
Lemma store_entry_cursor (cur cur' J J' : list Z) (AV AV' : list float) (e : entry) :
  store_entry (cur, J, AV) e = Ok (cur', J', AV') ->
  cur' = list_set cur (Z.to_nat (e_row e)) (nth (Z.to_nat (e_row e)) cur 0 + 1).
Proof.
  unfold store_entry, GetAndIncrementNnzIndex, AtomicAdd. intros H.
  invb H as [nnz c1] Hc. invb H as J1 HJ. invb H as AV1 HA. injection H as <- <- <-.
  invb Hc as old Hr. invb Hc as c2 Hw. injection Hc as <- <-.
  apply (read_Ok arr_I cur _ old 0) in Hr. destruct Hr as [_ <-].
  apply write_Ok in Hw. destruct Hw as [_ ->]. reflexivity.
Qed.

(** C10. The fill pass never modifies the row offsets of the matrix: it
    works on a copy ([copy_I]) that receives every atomic increment, in the
    sequential order and in any other order of the claims, so the matrix it
    returns has the array [I] it was given; and after [SparseIJToCSR] the
    matrix holds exactly the offsets the count pass computed. *)
Theorem FillJAndData_preserves_I (a : BatchedLORAssembly) :
  (forall A B, FillJAndData a A = Ok B -> GetI B = GetI A) /\
  (forall A sched B, FillJAndData_sched a A sched = Ok B -> GetI B = GetI A) /\
  (forall A, Z.of_nat (length (GetI A)) = nvdof a + 1 -> copy_I a A = Ok (GetI A)) /\
  (forall A0 B, SparseIJToCSR a A0 = Ok B ->
     exists A1 nnz, FillI a (alloc_I a A0) = Ok (A1, nnz) /\ GetI B = GetI A1).
Proof.
  split; [intros A B H; apply (FillJAndData_Ok a A B H)|].
  split; [intros A sched B H; apply (FillJAndData_sched_Ok a A B sched H)|].
  split; [apply copy_I_ok|].
  intros A0 B H. unfold SparseIJToCSR in H.
  invb H as [A1 nnz] HI. exists A1, nnz. split; [assumption|].
  apply (FillJAndData_Ok a _ B H).
Qed.



(** ** The order of the atomic operations *)

Lemma Permutation_filter {A} (p : A -> bool) (l l' : list A) :
  Permutation l l' -> Permutation (filter p l) (filter p l').
Proof.
  induction 1 as [|x l l' H IH|x y l|l l' l'' H1 IH1 H2 IH2]; simpl.
  - constructor.
  - destruct (p x); [constructor|]; assumption.
  - destruct (p x), (p y); try constructor; apply Permutation_refl.
  - eapply Permutation_trans; eassumption.
Qed.

(** The count pass gives the same offsets whatever the order of its
    increments. *)
Lemma FillI_sched_ok (a : BatchedLORAssembly) (R : ElementRestriction)
    (A : SparseMatrix) (rows : list Z) :
  wf_base a R = true -> Permutation (count_rows a R) rows ->
  Z.of_nat (length (GetI A)) = nvdof a + 1 ->
  FillI_sched a A rows
  = Ok (set_I A (offsets_of (occ (count_rows a R)) (nvdof a)),
        psum (occ (count_rows a R)) (Z.to_nat (nvdof a))).
Proof.
  intros Hwf Hperm Hlen.
  destruct (wf_sizes_facts a R Hwf) as (_ & _ & _ & Hn & _).
  unfold FillI_sched, FillI_offsets. unfold forall_loop at 1.
  destruct (zero_loop_ok (Z.to_nat (nvdof a + 1)) (GetI A)) as (I0 & E0 & L0 & Z0 & _); [lia|].
  rewrite Z2Nat.id in E0 by lia. rewrite E0; cbn [bind].
  destruct (foldM_inc_row rows I0) as (I1 & E1 & L1 & N1).
  { intros d Hd. apply (Permutation_in d (Permutation_sym Hperm)) in Hd.
    apply (count_rows_range a R Hwf) in Hd. lia. }
  rewrite E1; cbn [bind].
  destruct (scan_ok (Z.to_nat (nvdof a)) I1) as (h_I & E2 & L2 & P2 & K2); [lia|].
  rewrite Z2Nat.id in E2 by lia. rewrite E2; cbn [bind].
  rewrite write_in by lia; cbn [bind].
  rewrite (read_in arr_I _ (nvdof a) 0) by (rewrite list_set_length; lia); cbn [bind].
  assert (Hc : forall n, (n <= Z.to_nat (nvdof a))%nat ->
               psum (fun d => nth (Z.to_nat d) I1 0) n = psum (occ (count_rows a R)) n).
  { intros n Hle. apply psum_ext. intros d Hd.
    rewrite (N1 d) by lia. rewrite Z0 by lia.
    rewrite (occ_Permutation _ _ d Hperm). lia. }
  rewrite nth_list_set_eq by lia.
  rewrite Hc by lia.
  do 2 f_equal. f_equal.
  apply list_eq_nth.
  - rewrite list_set_length.
    pose proof (offsets_of_length (occ (count_rows a R)) (nvdof a) Hn). lia.
  - intros k Hk. rewrite list_set_length in Hk.
    replace k with (Z.to_nat (Z.of_nat k)) at 2 by lia.
    rewrite offsets_of_nth by lia. rewrite Nat2Z.id.
    destruct (Nat.eq_dec k (Z.to_nat (nvdof a))) as [->|Hne].
    + rewrite nth_list_set_eq by lia. reflexivity.
    + rewrite nth_list_set_neq by lia. rewrite P2 by lia. apply Hc; lia.
Qed.

Lemma FillI_is_sched (a : BatchedLORAssembly) (R : ElementRestriction) (A : SparseMatrix) :
  el_restr a = Some R -> wf_base a R = true ->
  FillI a A = FillI_sched a A (count_rows a R).
Proof.
  intros HR Hwf. unfold FillI, FillI_sched. rewrite HR.
  apply bind_ext. intros I0. rewrite (FillI_kernel_ok a R Hwf). reflexivity.
Qed.

Lemma SparseIJToCSR_sched_ok (a : BatchedLORAssembly) (R : ElementRestriction)
    (A0 : option SparseMatrix) (rows : list Z) (sched : list entry) :
  wf_base a R = true ->
  Permutation (count_rows a R) rows -> Permutation (claims a R) sched ->
  exists J' AV',
    SparseIJToCSR_sched a A0 rows sched = Ok (set_J_Data (counted_matrix a R) J' AV') /\
    Z.of_nat (length J') = psum (occ (count_rows a R)) (Z.to_nat (nvdof a)) /\
    length AV' = length J' /\
    forall d, 0 <= d < nvdof a ->
      row_slice (GetI (counted_matrix a R)) J' d = map e_col (entries_of_row sched d) /\
      row_entries (set_J_Data (counted_matrix a R) J' AV') d
      = map col_val (entries_of_row sched d).
Proof.
  intros Hwf Hr Hs.
  destruct (wf_sizes_facts a R Hwf) as (_ & _ & _ & Hn & _).
  unfold SparseIJToCSR_sched.
  rewrite (FillI_sched_ok a R _ rows Hwf Hr)
    by (cbn [GetI alloc_I]; unfold New; rewrite repeat_length; lia).
  cbn [bind].
  apply (counted_matrix_sched a R sched Hwf Hs).
Qed.

Lemma SparseIJToCSR_is_sched (a : BatchedLORAssembly) (R : ElementRestriction)
    (A0 : option SparseMatrix) :
  el_restr a = Some R -> wf_base a R = true -> shared_asserted a R = true ->
  SparseIJToCSR a A0 = SparseIJToCSR_sched a A0 (count_rows a R) (claims a R).
Proof.
  intros HR Hwf Hsh. unfold SparseIJToCSR, SparseIJToCSR_sched.
  rewrite (FillI_is_sched a R _ HR Hwf).
  apply bind_ext. intros [A1 nnz].
  apply (FillJAndData_is_sched a R _ HR Hwf Hsh).
Qed.

(** ** The deduplication rule counts every asserted pair once *)

Lemma length_one_eq {A} (l : list A) (x y : A) :
  length l = 1%nat -> In x l -> In y l -> x = y.
Proof.
  destruct l as [|u [|v l]]; simpl; intros H Hx Hy; try discriminate.
  destruct Hx as [<-|[]], Hy as [<-|[]]. reflexivity.
Qed.

Lemma counted_true (a : BatchedLORAssembly) (R : ElementRestriction) (s : Z * Z) :
  counted a R s = true <->
  asserts a s = true /\
  (no_conflict R (row_dof R s) (col_dof a R s) = true \/
   elem a s = elected a R (row_dof R s) (col_dof a R s)).
Proof.
  unfold counted. rewrite andb_true_iff, orb_true_iff, Z.eqb_eq. tauto.
Qed.

Lemma in_asserted_cols (a : BatchedLORAssembly) (R : ElementRestriction) (d jj : Z) :
  In jj (asserted_cols a R d) <->
  exists s, In s (all_slots a) /\ asserts a s = true /\
            row_dof R s = d /\ col_dof a R s = jj.
Proof.
  unfold asserted_cols, asserted_pairs. rewrite in_map_iff. split.
  - intros ([d' jj'] & E & H). cbn [snd] in E. subst jj'.
    apply filter_In in H. destruct H as [H Hd]. cbn [fst] in Hd. apply Z.eqb_eq in Hd.
    subst d'. apply in_map_iff in H. destruct H as (s & E & Hs).
    injection E as E1 E2. apply filter_In in Hs. destruct Hs as [Hs Ha].
    exists s. auto.
  - intros (s & Hs & Ha & <- & <-). exists (row_dof R s, col_dof a R s).
    split; [reflexivity|]. apply filter_In. split; [|cbn [fst]; apply Z.eqb_refl].
    apply in_map_iff. exists s. split; [reflexivity|].
    apply filter_In. auto.
Qed.

Section Dedup.

Variable a : BatchedLORAssembly.
Variable R : ElementRestriction.
Hypothesis Hwf : wf_base a R = true.

Local Abbreviation ndof := (ndof_per_el a).
Local Abbreviation nnz := (nnz_per_row a).
Local Abbreviation nel := (nel_ho a).

(** The reference of a slot in the incidence list of its DOF. *)
Lemma in_incidence_of (x : Z) :
  0 <= x < ndof * nel ->
  exists s, In s (incidence R (dof_of R x)) /\ decode s = x /\
            elt_of a s = Z.quot x ndof /\ slot_of a s = Z.rem x ndof.
Proof.
  intros Hx. destruct (cover a R Hwf x Hx) as (s & Hs & E).
  exists s. unfold elt_of, slot_of. rewrite E. auto.
Qed.

(** A DOF has one slot at most in an element. *)
Lemma row_slot_inj (x x' : Z) :
  0 <= x < ndof * nel -> 0 <= x' < ndof * nel ->
  dof_of R x = dof_of R x' -> Z.quot x ndof = Z.quot x' ndof -> x = x'.
Proof.
  intros Hx Hx' Hd He.
  destruct (in_incidence_of x Hx) as (s & Hs & E & He1 & _).
  destruct (in_incidence_of x' Hx') as (s' & Hs' & E' & He1' & _).
  rewrite <- Hd in Hs'.
  pose proof (dof_of_range a R Hwf x Hx) as Hr.
  assert (s = s').
  { apply (NoDup_map_inj (elt_of a) (incidence R (dof_of R x))); try assumption.
    - apply (elts_NoDup a R Hwf); assumption.
    - congruence. }
  congruence.
Qed.

(** Two elements hold a DOF whose incidence list has one entry only if they
    are one element. *)
Lemma single_incidence (x x' : Z) :
  0 <= x < ndof * nel -> 0 <= x' < ndof * nel ->
  dof_of R x = dof_of R x' -> n_elts R (dof_of R x) = 1 -> x = x'.
Proof.
  intros Hx Hx' Hd Hn.
  destruct (in_incidence_of x Hx) as (s & Hs & E & _).
  destruct (in_incidence_of x' Hx') as (s' & Hs' & E' & _).
  rewrite <- Hd in Hs'.
  assert (s = s').
  { apply (length_one_eq (incidence R (dof_of R x))); try assumption.
    rewrite incidence_length, Hn. reflexivity. }
  congruence.
Qed.

Lemma dedup_inj (s s' : Z * Z) :
  In s (all_slots a) -> In s' (all_slots a) ->
  counted a R s = true -> counted a R s' = true ->
  row_dof R s = row_dof R s' -> col_dof a R s = col_dof a R s' -> s = s'.
Proof.
  destruct s as [i j], s' as [i' j'].
  intros Hs Hs' Hc Hc' Hrow Hcol.
  apply in_all_slots in Hs, Hs'. destruct Hs as [Hi Hj], Hs' as [Hi' Hj'].
  apply counted_true in Hc, Hc'. destruct Hc as [Ha Hc], Hc' as [Ha' Hc'].
  destruct (slot_facts a R Hwf i j Hi Hj) as (Hr & He & Hie & Hrd & Hcs & F).
  destruct (slot_facts a R Hwf i' j' Hi' Hj') as (Hr' & He' & Hie' & Hrd' & Hcs' & F').
  destruct (F Ha) as (Hc0 & Hci & Hq & Hrm & Hcd).
  destruct (F' Ha') as (Hc0' & Hci' & Hq' & Hrm' & Hcd').
  assert (Helem : Z.quot i ndof = Z.quot i' ndof).
  { rewrite <- Hrow, <- Hcol in Hc'.
    destruct Hc as [Hnc|Hel].
    - unfold no_conflict in Hnc. apply orb_true_iff in Hnc.
      destruct Hnc as [Hn|Hn]; apply Z.eqb_eq in Hn.
      + f_equal. apply single_incidence; assumption.
      + rewrite <- Hq, <- Hq'. f_equal. apply single_incidence; assumption.
    - destruct Hc' as [Hnc|Hel'].
      + unfold no_conflict in Hnc. apply orb_true_iff in Hnc.
        destruct Hnc as [Hn|Hn]; apply Z.eqb_eq in Hn.
        * f_equal. apply single_incidence; assumption.
        * rewrite <- Hq, <- Hq'. f_equal. apply single_incidence; assumption.
      + unfold elem in Hel, Hel'. cbn [fst] in Hel, Hel'. congruence. }
  assert (Ei : i = i') by (apply row_slot_inj; assumption).
  assert (Ec : col_index a (i, j) = col_index a (i', j')).
  { apply row_slot_inj; try assumption. congruence. }
  subst i'. f_equal.
  assert (Et : col_slot a (i, j) = col_slot a (i, j')) by congruence.
  apply (NoDup_filter_map_inj (fun c => negb (c <? 0))
           (fun j => template a j (Z.rem i ndof)) (range 0 nnz)).
  - apply NoDup_range.
  - apply (template_row_NoDup a R Hwf); assumption.
  - apply in_range; assumption.
  - apply in_range; assumption.
  - exact Ha.
  - exact Et.
Qed.

(** With the elected element asserting what is asserted, every asserted
    pair is counted. *)
Lemma dedup_cover (s : Z * Z) :
  elected_asserts a R = true ->
  In s (all_slots a) -> asserts a s = true ->
  exists s', In s' (all_slots a) /\ counted a R s' = true /\
             row_dof R s' = row_dof R s /\ col_dof a R s' = col_dof a R s.
Proof.
  intros Hel Hs Ha. unfold elected_asserts in Hel.
  rewrite forallb_forall in Hel. specialize (Hel s Hs). rewrite Ha in Hel.
  destruct (no_conflict R (row_dof R s) (col_dof a R s)) eqn:Hnc.
  - exists s. split; [assumption|]. split; [|auto].
    apply counted_true. auto.
  - cbn [negb andb implb] in Hel. apply existsb_exists in Hel.
    destruct Hel as (s' & Hs' & H). apply andb_true_iff in H. destruct H as [Hp He].
    unfold asserts_pair in Hp. apply andb_true_iff in Hp. destruct Hp as [Hp Hc].
    apply andb_true_iff in Hp. destruct Hp as [Ha' Hr].
    apply Z.eqb_eq in Hr, Hc, He.
    exists s'. split; [assumption|]. split; [|auto].
    apply counted_true. split; [assumption|]. right. rewrite Hr, Hc. assumption.
Qed.

(** The counted slots of a row, and their columns. *)
Lemma counted_cols_NoDup (d : Z) :
  NoDup (map (col_dof a R)
             (filter (fun s => row_dof R s =? d) (filter (counted a R) (all_slots a)))).
Proof.
  apply NoDup_map_of_inj.
  - apply NoDup_filter, NoDup_filter, NoDup_all_slots.
  - intros s s' Hs Hs' E.
    apply filter_In in Hs, Hs'. destruct Hs as [Hs Hd], Hs' as [Hs' Hd'].
    apply filter_In in Hs, Hs'. destruct Hs as [Hs Hc], Hs' as [Hs' Hc'].
    apply Z.eqb_eq in Hd, Hd'.
    apply dedup_inj; try assumption. congruence.
Qed.

Lemma counted_cols_asserted (d jj : Z) :
  elected_asserts a R = true ->
  In jj (map (col_dof a R)
             (filter (fun s => row_dof R s =? d) (filter (counted a R) (all_slots a))))
  <-> In jj (asserted_cols a R d).
Proof.
  intros Hel. rewrite in_asserted_cols, in_map_iff. split.
  - intros (s & E & Hs). apply filter_In in Hs. destruct Hs as [Hs Hd].
    apply filter_In in Hs. destruct Hs as [Hs Hc]. apply Z.eqb_eq in Hd.
    apply counted_true in Hc. exists s. tauto.
  - intros (s & Hs & Ha & Hd & Hj).
    destruct (dedup_cover s Hel Hs Ha) as (s' & Hs' & Hc' & Hr' & Hcd').
    exists s'. split; [congruence|].
    apply filter_In. split; [|apply Z.eqb_eq; congruence].
    apply filter_In. auto.
Qed.

(** The counter of a row is the number of distinct columns asserted in it. *)
Lemma count_distinct (d : Z) :
  elected_asserts a R = true ->
  occ (count_rows a R) d = Z.of_nat (length (nodup Z.eq_dec (asserted_cols a R d))).
Proof.
  intros Hel. unfold count_rows. rewrite occ_length_filter. f_equal.
  rewrite <- (length_map (col_dof a R)).
  apply Permutation_length. apply NoDup_Permutation.
  - apply counted_cols_NoDup.
  - apply NoDup_nodup.
  - intros jj. rewrite nodup_In. apply counted_cols_asserted. assumption.
Qed.

End Dedup.

(** The elected element of an asserted pair is the minimum of the elements
    that hold its two DOFs. *)
Lemma elected_common (a : BatchedLORAssembly) (R : ElementRestriction) (s : Z * Z) :
  wf_base a R = true -> In s (all_slots a) -> asserts a s = true ->
  In (elected a R (row_dof R s) (col_dof a R s)) (elts_of a R (row_dof R s)) /\
  In (elected a R (row_dof R s) (col_dof a R s)) (elts_of a R (col_dof a R s)) /\
  forall e, In e (elts_of a R (row_dof R s)) -> In e (elts_of a R (col_dof a R s)) ->
            elected a R (row_dof R s) (col_dof a R s) <= e.
Proof.
  intros Hwf Hs Ha. destruct s as [i j].
  apply in_all_slots in Hs. destruct Hs as [Hi Hj].
  destruct (slot_facts a R Hwf i j Hi Hj) as (Hr & He & Hie & Hrd & Hcs & F).
  destruct (F Ha) as (Hc0 & Hci & Hq & Hrm & Hcd).
  destruct (in_incidence_of a R Hwf i Hi) as (s1 & Hs1 & _ & E1 & _).
  destruct (in_incidence_of a R Hwf _ Hci) as (s2 & Hs2 & _ & E2 & _).
  assert (H1 : In (Z.quot i (ndof_per_el a)) (elts_of a R (row_dof R (i, j)))).
  { rewrite <- E1. apply in_map. exact Hs1. }
  assert (H2 : In (Z.quot i (ndof_per_el a)) (elts_of a R (col_dof a R (i, j)))).
  { rewrite <- Hq, <- E2. apply in_map. exact Hs2. }
  unfold elected.
  destruct (min_common_spec (elts_of a R (row_dof R (i, j))) (elts_of a R (col_dof a R (i, j))))
    as (Hm & _ & Hmin).
  pose proof (Hmin _ H1 H2) as Hle.
  pose proof (wf_int_size a R Hwf) as Hint.
  pose proof (ndof_pos a R Hwf) as Hn.
  destruct Hm as [Hm|[Hm1 Hm2]]; [nia|]. auto.
Qed.

(** C2 (amended).  On a well-formed input where the elected element asserts
    what is asserted, the count kernel increments the counter of a row once
    for every slot with a non-absent template entry that either has an
    incidence list of length 1 or belongs to the minimum element common to
    the two incidence lists; the offsets do not depend on the order of the
    increments; and the count of every row is the number of distinct columns
    asserted in the row. *)
Theorem count_pass_distinct (a : BatchedLORAssembly) (R : ElementRestriction)
    (A : SparseMatrix) :
  wf_count a = true -> el_restr a = Some R ->
  Z.of_nat (length (GetI A)) = nvdof a + 1 ->
  (forall i j, 0 <= i < ndof_per_el a * nel_ho a -> 0 <= j < nnz_per_row a ->
     FillI_slot a R (Z.rem i (ndof_per_el a)) (Z.quot i (ndof_per_el a))
                (n_elts R (row_dof R (i, j))) (pad (elts_of a R (row_dof R (i, j)))) j
     = Ok (counted a R (i, j))) /\
  (forall s, counted a R s = true <->
     asserts a s = true /\
     (n_elts R (row_dof R s) = 1 \/ n_elts R (col_dof a R s) = 1 \/
      elem a s = elected a R (row_dof R s) (col_dof a R s))) /\
  (forall s, In s (all_slots a) -> asserts a s = true ->
     In (elected a R (row_dof R s) (col_dof a R s)) (elts_of a R (row_dof R s)) /\
     In (elected a R (row_dof R s) (col_dof a R s)) (elts_of a R (col_dof a R s)) /\
     forall e, In e (elts_of a R (row_dof R s)) -> In e (elts_of a R (col_dof a R s)) ->
               elected a R (row_dof R s) (col_dof a R s) <= e) /\
  exists A1 nnz,
    FillI a A = Ok (A1, nnz) /\
    (forall rows, Permutation (count_rows a R) rows -> FillI_sched a A rows = Ok (A1, nnz)) /\
    forall d, 0 <= d < nvdof a ->
      nth (Z.to_nat (d + 1)) (GetI A1) 0 - nth (Z.to_nat d) (GetI A1) 0
      = Z.of_nat (length (nodup Z.eq_dec (asserted_cols a R d))).
Proof.
  intros Hwf HR Hlen.
  destruct (wf_count_parts a Hwf) as (R' & HR' & Hb & Hel).
  rewrite HR in HR'. injection HR' as <-.
  split; [intros i j Hi Hj; apply (FillI_slot_ok a R Hb i j Hi Hj)|].
  split.
  { intros s. rewrite counted_true. unfold no_conflict.
    rewrite orb_true_iff, !Z.eqb_eq. tauto. }
  split; [intros s Hs Ha; apply (elected_common a R s Hb Hs Ha)|].
  eexists. eexists. split; [apply (FillI_ok a R A HR Hb Hlen)|].
  split; [intros rows Hp; apply (FillI_sched_ok a R A rows Hb Hp Hlen)|].
  intros d Hd. cbn [set_I GetI].
  rewrite !offsets_of_nth by lia. rewrite psum_succ by lia.
  rewrite <- (count_distinct a R Hb d Hel). lia.
Qed.

(** The sample of two elements: three rows of 2, 3 and 2 distinct columns. *)
Lemma count_pass_distinct_witness :
  exists A1 nnz,
    FillI Samples.two_elements (alloc_I Samples.two_elements None) = Ok (A1, nnz) /\
    forall d, 0 <= d < nvdof Samples.two_elements ->
      nth (Z.to_nat (d + 1)) (GetI A1) 0 - nth (Z.to_nat d) (GetI A1) 0
      = Z.of_nat (length (nodup Z.eq_dec
                            (asserted_cols Samples.two_elements Samples.two_elements_R d))).
Proof.
  destruct (count_pass_distinct Samples.two_elements Samples.two_elements_R
              (alloc_I Samples.two_elements None)
              ltac:(vm_compute; reflexivity) eq_refl ltac:(vm_compute; reflexivity))
    as (_ & _ & _ & A1 & nnz & H1 & _ & H2).
  exists A1, nnz. split; assumption.
Defined.

(** On the asymmetric sample the pair (1,0) is asserted (by the second
    element) and the elected element, the first, does not assert it: row 1
    has two distinct asserted columns and a count of one. *)
Lemma count_pass_misses_pair :
  wf_base Samples.asymmetric Samples.asymmetric_R = true /\
  existsb (fun p => (fst p =? 1) && (snd p =? 0))
          (asserted_pairs Samples.asymmetric Samples.asymmetric_R) = true /\
  length (nodup Z.eq_dec (asserted_cols Samples.asymmetric Samples.asymmetric_R 1)) = 2%nat /\
  exists A1 nnz,
    FillI Samples.asymmetric (alloc_I Samples.asymmetric None) = Ok (A1, nnz) /\
    nth 2 (GetI A1) 0 - nth 1 (GetI A1) 0 = 1.
Proof.
  split; [vm_compute; reflexivity|].
  split; [vm_compute; reflexivity|].
  split; [vm_compute; reflexivity|].
  eexists. eexists. split; [vm_compute; reflexivity|]. vm_compute; reflexivity.
Qed.

(** ** The accumulated value is the sum of the contributions *)

Lemma NoDup_flat_map_pair {A B} (g : A -> list B) (l : list A) :
  NoDup l -> (forall x, NoDup (g x)) ->
  NoDup (flat_map (fun x => map (fun y => (x, y)) (g x)) l).
Proof.
  intros Hl Hg. induction Hl as [|x l Hn Hd IH]; simpl; [constructor|].
  apply NoDup_app; [| exact IH |].
  - apply NoDup_map_of_inj; [apply Hg|]. intros y y' _ _ E. injection E; auto.
  - intros [x' y'] H1 H2. apply in_map_iff in H1. destruct H1 as (y & E & _).
    injection E as <- <-. apply in_flat_map in H2. destruct H2 as (x2 & Hx2 & H2).
    apply in_map_iff in H2. destruct H2 as (y2 & E & _). injection E as -> _.
    contradiction.
Qed.

Lemma NoDup_singleton {A} (l : list A) (x : A) :
  NoDup l -> In x l -> (forall y, In y l -> y = x) -> l = [x].
Proof.
  intros Hnd Hx Hall. destruct l as [|u l]; [contradiction|].
  assert (u = x) by (apply Hall; left; reflexivity). subst u.
  destruct l as [|v l]; [reflexivity|].
  assert (v = x) by (apply Hall; right; left; reflexivity). subst v.
  inversion Hnd as [|? ? Hn _]. exfalso. apply Hn. left. reflexivity.
Qed.

Lemma filter_map_comm {A B} (p : B -> bool) (f : A -> B) (l : list A) :
  filter p (map f l) = map f (filter (fun x => p (f x)) l).
Proof.
  induction l as [|x l IH]; simpl; [reflexivity|].
  destruct (p (f x)); simpl; rewrite IH; reflexivity.
Qed.

Section Sums.

Variable a : BatchedLORAssembly.
Variable R : ElementRestriction.
Hypothesis Hwf : wf_base a R = true.

Local Abbreviation ndof := (ndof_per_el a).
Local Abbreviation nnz := (nnz_per_row a).
Local Abbreviation nel := (nel_ho a).

Lemma asserts_pair_true (d jj : Z) (s : Z * Z) :
  asserts_pair a R d jj s = true <->
  asserts a s = true /\ row_dof R s = d /\ col_dof a R s = jj.
Proof.
  unfold asserts_pair. rewrite !andb_true_iff, !Z.eqb_eq. tauto.
Qed.

(** A pair of references of one element with a slot in the template is a
    slot of the iteration space that asserts the pair, and its term of the
    accumulation is the contribution of that slot. *)
Lemma refs_facts (d jj s1 s2 : Z) :
  0 <= d < nvdof a -> 0 <= jj < nvdof a ->
  In (s1, s2) (shared_refs a R d jj) ->
  0 <= lookup a (slot_of a s1) (slot_of a s2) ->
  In (slot_of_refs a (s1, s2)) (all_slots a) /\
  asserts_pair a R d jj (slot_of_refs a (s1, s2)) = true /\
  elem a (slot_of_refs a (s1, s2)) = elt_of a s1 /\
  contribution a R (slot_of_refs a (s1, s2)) = shared_term a (s1, s2).
Proof.
  intros Hd Hjj Hp Hl.
  apply in_shared_refs in Hp. destruct Hp as (H1 & H2 & E).
  destruct (incidence_facts a R Hwf d s1 Hd H1) as (Hx1 & Hd1 & Hg1).
  destruct (incidence_facts a R Hwf jj s2 Hjj H2) as (Hx2 & Hd2 & Hg2).
  destruct (lookup_facts a (slot_of a s1) (slot_of a s2) Hl) as (Hlr & Ht).
  pose proof (slot_range a R Hwf s2) as Hs2.
  destruct (slot_elem a R Hwf (decode s2)) as (_ & _ & Hdec2); [lia|].
  set (l := lookup a (slot_of a s1) (slot_of a s2)) in *.
  assert (Hcs : col_slot a (decode s1, l) = slot_of a s2) by exact Ht.
  assert (Hci : col_index a (decode s1, l) = decode s2).
  { unfold col_index. rewrite Hcs. unfold elem; cbn [fst].
    change (Z.quot (decode s1) ndof) with (elt_of a s1). rewrite E.
    unfold slot_of, elt_of. lia. }
  unfold slot_of_refs; cbn [fst snd]. fold l.
  split; [apply in_all_slots; lia|].
  split.
  { apply asserts_pair_true. split; [|split].
    - unfold asserts. rewrite Hcs. apply negb_true_iff, Z.ltb_ge. lia.
    - exact Hd1.
    - unfold col_dof. rewrite Hci. exact Hd2. }
  split; [reflexivity|].
  unfold contribution, shared_term; cbn [fst snd]. rewrite Hci.
  rewrite !orientation_sign_agree, <- Hg1, <- Hg2. reflexivity.
Qed.

(** Every slot that asserts a pair is the slot of a pair of references. *)
Lemma refs_cover (d jj : Z) (s : Z * Z) :
  In s (all_slots a) -> asserts_pair a R d jj s = true ->
  exists p, In p (shared_refs a R d jj) /\ slot_of_refs a p = s.
Proof.
  destruct s as [i j]. intros Hs Hp.
  apply in_all_slots in Hs. destruct Hs as [Hi Hj].
  apply asserts_pair_true in Hp. destruct Hp as (Ha & Hrow & Hcol).
  destruct (slot_facts a R Hwf i j Hi Hj) as (Hr & He & Hie & Hrd & Hcs & F).
  destruct (F Ha) as (Hc0 & Hci & Hq & Hrm & Hcd).
  destruct (in_incidence_of a R Hwf i Hi) as (s1 & Hs1 & D1 & E1 & S1).
  destruct (in_incidence_of a R Hwf _ Hci) as (s2 & Hs2 & D2 & E2 & S2).
  exists (s1, s2). split.
  - apply in_shared_refs. unfold row_dof, col_dof in Hrow, Hcol. cbn [fst] in Hrow.
    rewrite Hrow in Hs1. rewrite Hcol in Hs2.
    split; [assumption|]. split; [assumption|]. congruence.
  - unfold slot_of_refs; cbn [fst snd]. rewrite D1, S1, S2, Hrm. f_equal.
    apply (lookup_unique a R Hwf); assumption.
Qed.

Lemma shared_refs_NoDup (d jj : Z) :
  0 <= d < nvdof a -> 0 <= jj < nvdof a -> NoDup (shared_refs a R d jj).
Proof.
  intros Hd Hjj. unfold shared_refs.
  apply (NoDup_flat_map_pair
           (fun s1 => filter (fun s2 => elt_of a s1 =? elt_of a s2) (incidence R jj))).
  - apply (incidence_NoDup a R Hwf); assumption.
  - intros s1. apply NoDup_filter. apply (incidence_NoDup a R Hwf); assumption.
Qed.

Lemma slot_of_refs_inj (d jj : Z) (p p' : Z * Z) :
  0 <= d < nvdof a -> 0 <= jj < nvdof a ->
  In p (shared_refs a R d jj) -> In p' (shared_refs a R d jj) ->
  slot_of_refs a p = slot_of_refs a p' -> p = p'.
Proof.
  destruct p as [s1 s2], p' as [s1' s2']. intros Hd Hjj Hp Hp' E.
  apply in_shared_refs in Hp, Hp'.
  destruct Hp as (H1 & H2 & Ee), Hp' as (H1' & H2' & Ee').
  unfold slot_of_refs in E; cbn [fst snd] in E. injection E as Edec _.
  assert (s1 = s1').
  { apply (NoDup_map_inj (elt_of a) (incidence R d)); try assumption.
    - apply (elts_NoDup a R Hwf); assumption.
    - unfold elt_of. congruence. }
  subst s1'. f_equal.
  apply (NoDup_map_inj (elt_of a) (incidence R jj)); try assumption.
  - apply (elts_NoDup a R Hwf); assumption.
  - congruence.
Qed.

Hypothesis Hsh : shared_asserted a R = true.

(** The references of an asserted pair are the slots that assert it. *)
Lemma refs_Permutation (s : Z * Z) :
  In s (all_slots a) -> asserts a s = true ->
  Permutation (map (slot_of_refs a) (shared_refs a R (row_dof R s) (col_dof a R s)))
              (filter (asserts_pair a R (row_dof R s) (col_dof a R s)) (all_slots a)).
Proof.
  intros Hs Ha. destruct s as [i j].
  pose proof Hs as Hs0. apply in_all_slots in Hs0. destruct Hs0 as [Hi Hj].
  destruct (slot_facts a R Hwf i j Hi Hj) as (_ & _ & _ & Hrd & _ & F).
  destruct (F Ha) as (_ & _ & _ & _ & Hcd).
  set (d := row_dof R (i, j)) in *. set (jj := col_dof a R (i, j)) in *.
  apply NoDup_Permutation.
  - apply NoDup_map_of_inj; [apply shared_refs_NoDup; assumption|].
    intros p p'. apply slot_of_refs_inj; assumption.
  - apply NoDup_filter, NoDup_all_slots.
  - intros s. rewrite in_map_iff, filter_In. split.
    + intros ([s1 s2] & <- & Hp).
      destruct (refs_facts d jj s1 s2 Hrd Hcd Hp) as (H1 & H2 & _); [|auto].
      apply (shared_lookup a R Hsh (i, j) s1 s2 Hs Ha Hp).
    + intros [Hin Hp]. destruct (refs_cover d jj s Hin Hp) as (p & Hp' & E).
      exists p. auto.
Qed.

Lemma accumulated_sum (s : Z * Z) :
  In s (all_slots a) -> asserts a s = true ->
  exists l, Permutation l (contributions a R (row_dof R s) (col_dof a R s)) /\
            accumulated a R (row_dof R s) (col_dof a R s) = fold_left PrimFloat.add l 0%float.
Proof.
  intros Hs Ha.
  exists (map (contribution a R)
              (map (slot_of_refs a) (shared_refs a R (row_dof R s) (col_dof a R s)))).
  split.
  - unfold contributions. apply Permutation_map. apply refs_Permutation; assumption.
  - unfold accumulated. rewrite map_map, fold_left_map.
    destruct s as [i j].
    pose proof Hs as Hs0. apply in_all_slots in Hs0. destruct Hs0 as [Hi Hj].
    destruct (slot_facts a R Hwf i j Hi Hj) as (_ & _ & _ & Hrd & _ & F).
    destruct (F Ha) as (_ & _ & _ & _ & Hcd).
    assert (Hterm : forall p, In p (shared_refs a R (row_dof R (i, j)) (col_dof a R (i, j))) ->
              shared_term a p = contribution a R (slot_of_refs a p)).
    { intros [s1 s2] Hp. symmetry.
      apply (refs_facts _ _ s1 s2 Hrd Hcd Hp).
      apply (shared_lookup a R Hsh (i, j) s1 s2 Hs Ha Hp). }
    revert Hterm.
    generalize (shared_refs a R (row_dof R (i, j)) (col_dof a R (i, j))) as l.
    generalize 0%float as v.
    intros v l; revert v; induction l as [|p l IH]; intros v Hterm; [reflexivity|].
    cbn [fold_left]. rewrite (Hterm p (or_introl eq_refl)).
    apply IH. intros q Hq. apply Hterm. right. assumption.
Qed.

(** The elected element asserts what is asserted when every element that
    holds the two DOFs does. *)
Lemma shared_implies_elected : elected_asserts a R = true.
Proof.
  unfold elected_asserts. apply forallb_forall. intros s Hs.
  destruct (asserts a s) eqn:Ha; [|reflexivity].
  destruct (no_conflict R (row_dof R s) (col_dof a R s)) eqn:Hnc; [reflexivity|].
  cbn [negb andb implb]. apply existsb_exists.
  destruct (elected_common a R s Hwf Hs Ha) as (H1 & H2 & _).
  unfold elts_of in H1, H2. apply in_map_iff in H1, H2.
  destruct H1 as (s1 & E1 & Hs1), H2 as (s2 & E2 & Hs2).
  assert (Hp : In (s1, s2) (shared_refs a R (row_dof R s) (col_dof a R s))).
  { apply in_shared_refs. split; [assumption|]. split; [assumption|]. congruence. }
  destruct s as [i j].
  pose proof Hs as Hs0. apply in_all_slots in Hs0. destruct Hs0 as [Hi Hj].
  destruct (slot_facts a R Hwf i j Hi Hj) as (_ & _ & _ & Hrd & _ & F).
  destruct (F Ha) as (_ & _ & _ & _ & Hcd).
  destruct (refs_facts _ _ s1 s2 Hrd Hcd Hp) as (F1 & F2 & F3 & _).
  { apply (shared_lookup a R Hsh (i, j) s1 s2 Hs Ha Hp). }
  exists (slot_of_refs a (s1, s2)). split; [assumption|].
  rewrite F2, F3, E1. cbn [andb]. apply Z.eqb_refl.
Qed.

(** Without a conflict the slot that asserts a pair is alone to assert it. *)
Lemma single_contribution (s : Z * Z) :
  In s (all_slots a) -> asserts a s = true ->
  no_conflict R (row_dof R s) (col_dof a R s) = true ->
  contributions a R (row_dof R s) (col_dof a R s) = [contribution a R s].
Proof.
  intros Hs Ha Hnc. unfold contributions.
  rewrite (NoDup_singleton (filter (asserts_pair a R (row_dof R s) (col_dof a R s)) (all_slots a)) s).
  - reflexivity.
  - apply NoDup_filter, NoDup_all_slots.
  - apply filter_In. split; [assumption|]. apply asserts_pair_true. auto.
  - intros s' Hs'. apply filter_In in Hs'. destruct Hs' as [Hin Hp].
    apply asserts_pair_true in Hp. destruct Hp as (Ha' & Hr & Hc).
    apply (dedup_inj a R Hwf); try assumption.
    + apply counted_true. split; [assumption|]. left. rewrite Hr, Hc. assumption.
    + apply counted_true. auto.
Qed.

End Sums.

(** ** The rows of the assembled matrix *)

Lemma entries_claims (a : BatchedLORAssembly) (R : ElementRestriction) (d : Z) :
  entries_of_row (claims a R) d
  = map (entry_of a R)
        (filter (fun s => row_dof R s =? d) (filter (counted a R) (all_slots a))).
Proof. unfold entries_of_row, claims. apply filter_map_comm. Qed.

Lemma in_asserted_pairs (a : BatchedLORAssembly) (R : ElementRestriction) (d jj : Z) :
  In (d, jj) (asserted_pairs a R) <->
  exists s, In s (all_slots a) /\ asserts a s = true /\
            row_dof R s = d /\ col_dof a R s = jj.
Proof.
  unfold asserted_pairs. rewrite in_map_iff. split.
  - intros (s & E & Hs). injection E as E1 E2. apply filter_In in Hs.
    exists s. tauto.
  - intros (s & Hs & Ha & <- & <-). exists s. split; [reflexivity|].
    apply filter_In. auto.
Qed.

(** C1 (amended).  On a well-formed input where every element that holds the
    two DOFs of an asserted pair asserts it, [SparseIJToCSR] returns a matrix
    in which no row has a duplicate column, every stored column is asserted,
    and every asserted pair has exactly one entry.  Its value is the
    contribution of the single asserting slot when an incidence list has
    length 1, and otherwise the sum, from 0.0 and in the order of the
    incidence list of the row DOF, of the contributions of all the elements
    that assert the pair.  A slot stores an entry exactly when it is counted:
    in the conflict case only the slot of the elected element does. *)
Theorem fill_pass_sums (a : BatchedLORAssembly) (R : ElementRestriction)
    (A0 : option SparseMatrix) :
  wf_fill a = true -> el_restr a = Some R ->
  (forall i j, 0 <= i < ndof_per_el a * nel_ho a -> 0 <= j < nnz_per_row a ->
     FillJAndData_slot a R (Z.rem i (ndof_per_el a)) (Z.quot i (ndof_per_el a)) (gather R i)
                       (n_elts R (row_dof R (i, j)))
                       (pad (elts_of a R (row_dof R (i, j))))
                       (pad (slots_of a R (row_dof R (i, j)))) j
     = Ok (if counted a R (i, j) then Some (entry_of a R (i, j)) else None)) /\
  exists B,
    SparseIJToCSR a A0 = Ok B /\
    (forall d, 0 <= d < nvdof a -> NoDup (row_slice (GetI B) (GetJ B) d)) /\
    (forall d jj, 0 <= d < nvdof a -> In jj (row_slice (GetI B) (GetJ B) d) ->
                  In (d, jj) (asserted_pairs a R)) /\
    (forall d jj, In (d, jj) (asserted_pairs a R) ->
       count_occ Z.eq_dec (row_slice (GetI B) (GetJ B) d) jj = 1%nat /\
       exists v,
         In (jj, v) (row_entries B d) /\
         (forall v', In (jj, v') (row_entries B d) -> v' = v) /\
         ((no_conflict R d jj = true /\ contributions a R d jj = [v]) \/
          (no_conflict R d jj = false /\
           exists l, Permutation l (contributions a R d jj) /\
                     v = fold_left PrimFloat.add l 0%float))).
Proof.
  intros Hwf HR.
  destruct (wf_fill_parts a Hwf) as (R' & HR' & Hb & Hsh).
  rewrite HR in HR'. injection HR' as <-.
  split; [intros i j Hi Hj; apply (FillJAndData_slot_ok a R Hb Hsh i j Hi Hj)|].
  pose proof (shared_implies_elected a R Hb Hsh) as Hel.
  rewrite (SparseIJToCSR_is_sched a R A0 HR Hb Hsh).
  destruct (SparseIJToCSR_sched_ok a R A0 _ _ Hb (Permutation_refl _) (Permutation_refl _))
    as (J' & AV' & E & _ & _ & Hrows).
  eexists. split; [exact E|].
  cbn [set_J_Data GetI GetJ].
  assert (HJ : forall d, 0 <= d < nvdof a ->
            row_slice (GetI (counted_matrix a R)) J' d
            = map (col_dof a R)
                  (filter (fun s => row_dof R s =? d) (filter (counted a R) (all_slots a)))).
  { intros d Hd. rewrite (proj1 (Hrows d Hd)), entries_claims, map_map. reflexivity. }
  assert (HE : forall d, 0 <= d < nvdof a ->
            row_entries (set_J_Data (counted_matrix a R) J' AV') d
            = map (fun s => (col_dof a R s, stored_value a R s))
                  (filter (fun s => row_dof R s =? d) (filter (counted a R) (all_slots a)))).
  { intros d Hd. rewrite (proj2 (Hrows d Hd)), entries_claims, map_map. reflexivity. }
  split; [|split].
  - intros d Hd. rewrite (HJ d Hd). apply (counted_cols_NoDup a R Hb).
  - intros d jj Hd Hin. rewrite (HJ d Hd) in Hin.
    apply (counted_cols_asserted a R d jj Hel) in Hin.
    apply in_asserted_cols in Hin. apply in_asserted_pairs. exact Hin.
  - intros d jj Hin. apply in_asserted_pairs in Hin.
    destruct Hin as (s & Hs & Ha & Hrow & Hcol).
    destruct (dedup_cover a R s Hel Hs Ha) as (s' & Hs' & Hc' & Hr' & Hcd').
    assert (Hd : 0 <= d < nvdof a).
    { destruct s as [i j]. apply in_all_slots in Hs. destruct Hs as [Hi Hj].
      rewrite <- Hrow. apply (slot_facts a R Hb i j Hi Hj). }
    assert (Hin' : In s' (filter (fun s => row_dof R s =? d)
                                 (filter (counted a R) (all_slots a)))).
    { apply filter_In. split; [|apply Z.eqb_eq; congruence].
      apply filter_In. auto. }
    split.
    { apply NoDup_count_occ'.
      - rewrite (HJ d Hd). apply (counted_cols_NoDup a R Hb).
      - rewrite (HJ d Hd). apply in_map_iff. exists s'. split; [congruence | assumption]. }
    exists (stored_value a R s'). rewrite (HE d Hd).
    split; [|split].
    + apply in_map_iff. exists s'. split; [|assumption]. f_equal. congruence.
    + intros v' Hv'. apply in_map_iff in Hv'. destruct Hv' as (s2 & E2 & Hs2).
      injection E2 as Ecol <-.
      apply filter_In in Hs2. destruct Hs2 as [Hs2 Hd2]. apply Z.eqb_eq in Hd2.
      apply filter_In in Hs2. destruct Hs2 as [Hs2 Hc2].
      f_equal. apply (dedup_inj a R Hb); try assumption; congruence.
    + apply counted_true in Hc'. destruct Hc' as [Ha' _].
      unfold stored_value. rewrite Hr', Hcd', Hrow, Hcol.
      destruct (no_conflict R d jj) eqn:Hnc.
      * left. split; [reflexivity|].
        rewrite <- Hrow, <- Hcol, <- Hr', <- Hcd'.
        apply (single_contribution a R Hb s' Hs' Ha').
        rewrite Hr', Hcd', Hrow, Hcol. assumption.
      * right. split; [reflexivity|].
        destruct (accumulated_sum a R Hb Hsh s Hs Ha) as (l & Hp & Hv).
        rewrite Hrow, Hcol in Hp, Hv. exists l. auto.
Qed.

(** The sample of two elements: the shared pair (1,1) has one entry, 5.0. *)
Lemma fill_pass_sums_witness :
  exists B,
    SparseIJToCSR Samples.two_elements None = Ok B /\
    (forall d, 0 <= d < nvdof Samples.two_elements -> NoDup (row_slice (GetI B) (GetJ B) d)) /\
    count_occ Z.eq_dec (row_slice (GetI B) (GetJ B) 1) 1 = 1%nat /\
    In (1, 5%float) (row_entries B 1).
Proof.
  destruct (fill_pass_sums Samples.two_elements Samples.two_elements_R None
              ltac:(vm_compute; reflexivity) eq_refl)
    as (_ & B & E & Hnd & _ & Hsum).
  exists B. split; [exact E|]. split; [exact Hnd|].
  destruct (Hsum 1 1) as (Hc & _).
  { vm_compute. tauto. }
  split; [exact Hc|].
  assert (EB : SparseIJToCSR Samples.two_elements None
               = Ok {| Height := 3; Width := 3; GetI := [0; 2; 5; 7];
                       GetJ := [0; 1; 0; 1; 2; 1; 2];
                       GetData := [1; 1; 1; 5; -3; -3; 4]%float |})
    by (vm_compute; reflexivity).
  rewrite EB in E. injection E as <-. vm_compute. tauto.
Defined.

(** On the asymmetric sample the pair (1,0), asserted by the second element,
    has no entry, and the entry of the pair (0,1), whose only contribution is
    2.0, holds 22.0: the first element is elected for both, and the reverse
    lookup fails for the second element, whose value is read at slot -1. *)
Lemma fill_pass_misses_pair :
  wf_base Samples.asymmetric Samples.asymmetric_R = true /\
  existsb (fun p => (fst p =? 1) && (snd p =? 0))
          (asserted_pairs Samples.asymmetric Samples.asymmetric_R) = true /\
  contributions Samples.asymmetric Samples.asymmetric_R 0 1 = [2%float] /\
  exists B,
    SparseIJToCSR Samples.asymmetric None = Ok B /\
    count_occ Z.eq_dec (row_slice (GetI B) (GetJ B) 1) 0 = 0%nat /\
    row_entries B 0 = [(0, 31%float); (1, 22%float)].
Proof.
  split; [vm_compute; reflexivity|].
  split; [vm_compute; reflexivity|].
  split; [vm_compute; reflexivity|].
  eexists. split; [vm_compute; reflexivity|].
  split; vm_compute; reflexivity.
Qed.

(** ** Decoding and orientation *)

Lemma double_of_sign (sjj sii : Z) :
  double_of_int (orientation_sign sjj sii)
  = if Bool.eqb (sii >=? 0) (sjj >=? 0) then 1%float else (-1)%float.
Proof.
  rewrite orientation_sign_agree.
  destruct (Bool.eqb (sii >=? 0) (sjj >=? 0)); reflexivity.
Qed.

(** ** The stack buffers *)

Lemma in_buffers_Ok {A} (x : A) : in_buffers (Ok x).
Proof. discriminate. Qed.

Lemma in_buffers_bind {A B} (m : result A) (k : A -> result B) :
  in_buffers m -> (forall x, m = Ok x -> in_buffers (k x)) -> in_buffers (bind m k).
Proof.
  intros Hm Hk. destruct m as [x|f]; simpl; [apply Hk; reflexivity|].
  unfold in_buffers in *. intros E. apply Hm. injection E as ->. reflexivity.
Qed.

Lemma in_buffers_foldM {S X} (P : S -> Prop) (f : S -> X -> result S) (l : list X) :
  (forall s x, In x l -> P s ->
     in_buffers (f s x) /\ forall s', f s x = Ok s' -> P s') ->
  forall s, P s -> in_buffers (foldM f l s).
Proof.
  induction l as [|x l IH]; intros Hf s Hs; simpl; [apply in_buffers_Ok|].
  destruct (Hf s x (or_introl eq_refl) Hs) as [H1 H2].
  apply in_buffers_bind; [exact H1|].
  intros s' E. apply IH; [|apply H2; exact E].
  intros s0 y Hy. apply Hf. right. exact Hy.
Qed.

Lemma in_buffers_read {A} (a : array_id) (l : list A) (i : Z) : in_buffers (read a l i).
Proof.
  unfold read, in_buffers. destruct (in_bounds l i); [|discriminate].
  destruct (nth_error l (Z.to_nat i)); discriminate.
Qed.

Lemma in_buffers_write {A} (a : array_id) (l : list A) (i : Z) (v : A) :
  in_buffers (write a l i v).
Proof. unfold write, in_buffers. destruct (in_bounds l i); discriminate. Qed.

Lemma in_buffers_AtomicAdd (a : array_id) (l : list Z) (i v : Z) :
  in_buffers (AtomicAdd a l i v).
Proof.
  unfold AtomicAdd. apply in_buffers_bind; [apply in_buffers_read|]. intros old _.
  apply in_buffers_bind; [apply in_buffers_write|]. intros l' _. apply in_buffers_Ok.
Qed.

Lemma buf_read_in (b : buffer) (i : Z) : 0 <= i < Max -> in_buffers (buf_read b i).
Proof.
  intros H. unfold buf_read, buf_ok.
  replace ((0 <=? i) && (i <? Max)) with true; [apply in_buffers_Ok|].
  symmetry. apply andb_true_iff. rewrite Z.leb_le, Z.ltb_lt. exact H.
Qed.

Lemma buf_write_in (b : buffer) (i v : Z) : 0 <= i < Max -> in_buffers (buf_write b i v).
Proof.
  intros H. unfold buf_write, buf_ok.
  replace ((0 <=? i) && (i <? Max)) with true; [apply in_buffers_Ok|].
  symmetry. apply andb_true_iff. rewrite Z.leb_le, Z.ltb_lt. exact H.
Qed.

Lemma in_buffers_steps {S X} (f : S -> X -> result S) (l : list X) (s : S) :
  (forall s x, In x l -> in_buffers (f s x)) -> in_buffers (foldM f l s).
Proof.
  intros H. apply (in_buffers_foldM (fun _ => True)); [|exact Logic.I].
  intros s0 x Hx _. split; [apply H; exact Hx | trivial].
Qed.

Lemma GetMinElt_find_in (b : buffer) (e j : Z) (n : nat) :
  0 <= j -> j + Z.of_nat n <= Max -> in_buffers (GetMinElt_find b e j n).
Proof.
  revert j; induction n as [|n IH]; intros j Hj Hn; simpl; [apply in_buffers_Ok|].
  apply in_buffers_bind; [apply buf_read_in; lia|]. intros x _.
  destruct (e =? x); [apply in_buffers_Ok | apply IH; lia].
Qed.

Lemma GetMinElt_in (b1 b2 : buffer) (n1 n2 : Z) :
  n1 <= Max -> n2 <= Max -> in_buffers (GetMinElt b1 n1 b2 n2).
Proof.
  intros H1 H2. unfold GetMinElt. apply in_buffers_steps.
  intros m i Hi. apply in_range in Hi. unfold GetMinElt_step.
  apply in_buffers_bind; [apply buf_read_in; lia|]. intros e _.
  destruct (e >=? m); [apply in_buffers_Ok|].
  apply in_buffers_bind; [apply GetMinElt_find_in; lia|]. intros found _.
  apply in_buffers_Ok.
Qed.

Lemma degree_of_reads (R : ElementRestriction) (d o1 o2 : Z) :
  degree_bounded R = true -> K R d = Ok o1 -> K R (d + 1) = Ok o2 -> o2 - o1 <= Max.
Proof.
  unfold degree_bounded, K. intros Hb H1 H2.
  apply (read_Ok arr_Offsets (Offsets R) d o1 0) in H1.
  apply (read_Ok arr_Offsets (Offsets R) (d + 1) o2 0) in H2.
  destruct H1 as [B1 <-], H2 as [B2 <-].
  rewrite forallb_range in Hb. specialize (Hb d ltac:(lia)).
  apply Z.leb_le in Hb. exact Hb.
Qed.

Section Buffers.

Variable a : BatchedLORAssembly.
Variable R : ElementRestriction.
Hypothesis Hdeg : degree_bounded R = true.

Lemma FillI_elts_in (off ne : Z) : ne <= Max -> in_buffers (FillI_elts a R off ne).
Proof.
  intros H. unfold FillI_elts. apply in_buffers_steps.
  intros elts e He. apply in_range in He.
  apply in_buffers_bind; [apply in_buffers_read|]. intros s _.
  apply buf_write_in. lia.
Qed.

Lemma FillJAndData_elts_in (off ne : Z) :
  ne <= Max -> in_buffers (FillJAndData_elts a R off ne).
Proof.
  intros H. unfold FillJAndData_elts. apply in_buffers_steps.
  intros [elts B] e He. apply in_range in He.
  apply in_buffers_bind; [apply in_buffers_read|]. intros s _.
  apply in_buffers_bind; [apply buf_write_in; lia|]. intros elts' _.
  apply in_buffers_bind; [apply buf_write_in; lia|]. intros B' _.
  apply in_buffers_Ok.
Qed.

Lemma FillI_slot_in (ii_el iel_ho i_ne : Z) (i_elts : buffer) (j : Z) :
  i_ne <= Max -> in_buffers (FillI_slot a R ii_el iel_ho i_ne i_elts j).
Proof.
  intros H. unfold FillI_slot.
  apply in_buffers_bind; [apply in_buffers_read|]. intros jj_el _.
  destruct (jj_el <? 0); [apply in_buffers_Ok|].
  apply in_buffers_bind; [apply in_buffers_read|]. intros sjj _.
  apply in_buffers_bind; [apply in_buffers_read|]. intros o1 H1.
  apply in_buffers_bind; [apply in_buffers_read|]. intros o2 H2.
  pose proof (degree_of_reads R _ o1 o2 Hdeg H1 H2) as Hd.
  destruct ((i_ne =? 1) || (o2 - o1 =? 1)); [apply in_buffers_Ok|].
  apply in_buffers_bind; [apply FillI_elts_in; exact Hd|]. intros j_elts _.
  apply in_buffers_bind; [apply GetMinElt_in; assumption|]. intros min_e _.
  apply in_buffers_Ok.
Qed.

Lemma FillI_body_in (I : list Z) (i : Z) : in_buffers (FillI_body a R I i).
Proof.
  unfold FillI_body.
  apply in_buffers_bind; [apply in_buffers_read|]. intros sii _.
  apply in_buffers_bind; [apply in_buffers_read|]. intros o1 H1.
  apply in_buffers_bind; [apply in_buffers_read|]. intros o2 H2.
  pose proof (degree_of_reads R _ o1 o2 Hdeg H1 H2) as Hd.
  apply in_buffers_bind; [apply FillI_elts_in; exact Hd|]. intros i_elts _.
  apply in_buffers_steps. intros I' j _.
  apply in_buffers_bind; [apply FillI_slot_in; exact Hd|]. intros b _.
  destruct b; [|apply in_buffers_Ok].
  apply in_buffers_bind; [apply in_buffers_AtomicAdd|]. intros [old I''] _.
  apply in_buffers_Ok.
Qed.

Lemma find_nonzero_in (r c m : Z) (n : nat) : in_buffers (find_nonzero a r c m n).
Proof.
  revert m; induction n as [|n IH]; intros m; simpl; [apply in_buffers_Ok|].
  apply in_buffers_bind; [apply in_buffers_read|]. intros x _.
  destruct (x =? c); [apply in_buffers_Ok | apply IH].
Qed.

Lemma accumulate_k_in (j : Z) (i_elts i_B j_elts j_B : buffer) (i_ne j_ne : Z)
    (val : float) (k : Z) :
  0 <= j -> 0 <= k < i_ne -> i_ne <= Max -> j_ne <= Max ->
  in_buffers (accumulate_k a j i_elts i_B j_elts j_B j_ne val k).
Proof.
  intros Hj Hk Hi Hjn. unfold accumulate_k.
  apply in_buffers_bind; [apply buf_read_in; lia|]. intros e2 _.
  apply in_buffers_bind; [apply buf_read_in; lia|]. intros s2 _.
  apply in_buffers_steps. intros v l Hl. apply in_range in Hl.
  unfold accumulate_l.
  apply in_buffers_bind; [apply buf_read_in; lia|]. intros je _.
  destruct (e2 =? je); [|apply in_buffers_Ok].
  apply in_buffers_bind; [apply buf_read_in; lia|]. intros sj _.
  apply in_buffers_bind; [apply find_nonzero_in|]. intros j2 _.
  apply in_buffers_bind.
  { unfold assert_kernel, in_buffers. destruct (j >=? 0); discriminate. }
  intros _ _.
  apply in_buffers_bind; [apply in_buffers_read|]. intros x _. apply in_buffers_Ok.
Qed.

Lemma FillJAndData_slot_in (ii_el iel_ho sii i_ne : Z) (i_elts i_B : buffer) (j : Z) :
  0 <= j -> i_ne <= Max ->
  in_buffers (FillJAndData_slot a R ii_el iel_ho sii i_ne i_elts i_B j).
Proof.
  intros Hj H. unfold FillJAndData_slot.
  apply in_buffers_bind; [apply in_buffers_read|]. intros jj_el _.
  destruct (jj_el <? 0); [apply in_buffers_Ok|].
  apply in_buffers_bind; [apply in_buffers_read|]. intros sjj _.
  apply in_buffers_bind; [apply in_buffers_read|]. intros o1 H1.
  apply in_buffers_bind; [apply in_buffers_read|]. intros o2 H2.
  pose proof (degree_of_reads R _ o1 o2 Hdeg H1 H2) as Hd.
  destruct ((i_ne =? 1) || (o2 - o1 =? 1)).
  { apply in_buffers_bind; [apply in_buffers_read|]. intros v _. apply in_buffers_Ok. }
  apply in_buffers_bind; [apply FillJAndData_elts_in; exact Hd|]. intros [j_elts j_B] _.
  apply in_buffers_bind; [apply GetMinElt_in; assumption|]. intros min_e _.
  destruct (iel_ho =? min_e); [|apply in_buffers_Ok].
  apply in_buffers_bind; [|intros; apply in_buffers_Ok].
  apply in_buffers_steps. intros v k Hk. apply in_range in Hk.
  apply accumulate_k_in with (i_ne := i_ne); assumption.
Qed.

Lemma store_entry_in (st : fill_state) (e : entry) : in_buffers (store_entry st e).
Proof.
  destruct st as [[cur J] AV]. unfold store_entry, GetAndIncrementNnzIndex.
  apply in_buffers_bind; [apply in_buffers_AtomicAdd|]. intros [nnz cur'] _.
  apply in_buffers_bind; [apply in_buffers_write|]. intros J' _.
  apply in_buffers_bind; [apply in_buffers_write|]. intros AV' _.
  apply in_buffers_Ok.
Qed.

Lemma FillJAndData_body_in (st : fill_state) (i : Z) :
  in_buffers (FillJAndData_body a R st i).
Proof.
  unfold FillJAndData_body.
  apply in_buffers_bind; [apply in_buffers_read|]. intros sii _.
  apply in_buffers_bind; [apply in_buffers_read|]. intros o1 H1.
  apply in_buffers_bind; [apply in_buffers_read|]. intros o2 H2.
  pose proof (degree_of_reads R _ o1 o2 Hdeg H1 H2) as Hd.
  apply in_buffers_bind; [apply FillJAndData_elts_in; exact Hd|]. intros [i_elts i_B] _.
  apply in_buffers_steps. intros st' j Hj. apply in_range in Hj.
  apply in_buffers_bind; [apply FillJAndData_slot_in; lia|]. intros [e|] _.
  - apply store_entry_in.
  - apply in_buffers_Ok.
Qed.

End Buffers.

(** C7 (amended).  When every incidence list has at most [Max = 16]
    entries, the count pass and the fill pass access the buffers [i_elts],
    [i_B], [j_elts], [j_B] within their bounds, whatever else the input is.
    (There is no check of the length in the passes: see
    [degree_is_not_checked].) *)
Theorem buffers_in_bounds (a : BatchedLORAssembly) (R : ElementRestriction)
    (A : SparseMatrix) :
  el_restr a = Some R -> degree_bounded R = true ->
  in_buffers (FillI a A) /\ in_buffers (FillJAndData a A).
Proof.
  intros HR Hdeg. split.
  - unfold FillI. rewrite HR.
    apply in_buffers_bind.
    { unfold forall_loop. apply in_buffers_steps. intros; apply in_buffers_write. }
    intros I0 _. apply in_buffers_bind.
    { unfold forall_loop. apply in_buffers_steps. intros. apply FillI_body_in. exact Hdeg. }
    intros I1 _. unfold FillI_offsets.
    apply in_buffers_bind.
    { apply in_buffers_steps. intros [h s] i _. unfold FillI_scan.
      apply in_buffers_bind; [apply in_buffers_read|]. intros nnz _.
      apply in_buffers_bind; [apply in_buffers_write|]. intros h' _. apply in_buffers_Ok. }
    intros [h_I sum] _.
    apply in_buffers_bind; [apply in_buffers_write|]. intros h' _.
    apply in_buffers_bind; [apply in_buffers_read|]. intros nnz _. apply in_buffers_Ok.
  - unfold FillJAndData. rewrite HR.
    apply in_buffers_bind.
    { unfold copy_I, forall_loop. apply in_buffers_steps. intros I i _.
      apply in_buffers_bind; [apply in_buffers_read|]. intros v _. apply in_buffers_write. }
    intros I_ _. apply in_buffers_bind.
    { unfold forall_loop. apply in_buffers_steps. intros.
      apply FillJAndData_body_in. exact Hdeg. }
    intros [[cur J] AV] _. apply in_buffers_Ok.
Qed.

(** The sample of two elements, whose incidence lists have 1 and 2 entries. *)
Lemma buffers_in_bounds_witness :
  in_buffers (FillI Samples.two_elements (alloc_I Samples.two_elements None)) /\
  in_buffers (FillJAndData Samples.two_elements
                (counted_matrix Samples.two_elements Samples.two_elements_R)).
Proof.
  split.
  - apply (proj1 (buffers_in_bounds Samples.two_elements Samples.two_elements_R
                    (alloc_I Samples.two_elements None) eq_refl eq_refl)).
  - apply (proj2 (buffers_in_bounds Samples.two_elements Samples.two_elements_R
                    (counted_matrix Samples.two_elements Samples.two_elements_R)
                    eq_refl eq_refl)).
Defined.

(** With an incidence list of 17 entries neither pass stops on a check: the
    loop that fills [i_elts] writes its seventeenth cell. *)
Lemma degree_is_not_checked :
  n_elts Samples.degree17_R 0 = 17 /\
  FillI Samples.degree17 (alloc_I Samples.degree17 None) = Fault BufferOverflow /\
  FillJAndData Samples.degree17 (alloc_I Samples.degree17 None) = Fault BufferOverflow /\
  FillI_elts Samples.degree17 Samples.degree17_R 0 17 = Fault BufferOverflow.
Proof. repeat split; vm_compute; reflexivity. Qed.

(** ** Elimination: what is written, and where *)

Lemma writes_refl (W : Z -> float -> Prop) (l : list float) : writes_rel W l l.
Proof. split; [reflexivity | intros; left; reflexivity]. Qed.

Lemma writes_trans (W : Z -> float -> Prop) (l1 l2 l3 : list float) :
  writes_rel W l1 l2 -> writes_rel W l2 l3 -> writes_rel W l1 l3.
Proof.
  intros [L1 H1] [L2 H2]. split; [congruence|].
  intros p Hp. destruct (H2 p Hp) as [E|HW]; [|right; exact HW].
  rewrite E. apply H1. exact Hp.
Qed.

Lemma writes_weaken (W W' : Z -> float -> Prop) (l l' : list float) :
  (forall p v, W p v -> W' p v) -> writes_rel W l l' -> writes_rel W' l l'.
Proof.
  intros HW [L H]. split; [exact L|].
  intros p Hp. destruct (H p Hp); [left | right]; auto.
Qed.

Lemma writes_write (W : Z -> float -> Prop) (a : array_id) (l l' : list float)
    (k : Z) (v : float) :
  write a l k v = Ok l' -> W k v -> writes_rel W l l'.
Proof.
  intros H HW. apply write_Ok in H. destruct H as [Hk ->].
  split; [apply list_set_length|].
  intros p Hp. unfold val_at. destruct (Z.eq_dec p k) as [->|Hne].
  - right. rewrite nth_list_set_eq by lia. exact HW.
  - left. apply nth_list_set_neq. lia.
Qed.

Lemma writes_foldM {X} (W : Z -> float -> Prop)
    (f : list float -> X -> result (list float)) (l : list X) (s s' : list float) :
  (forall s x s', In x l -> f s x = Ok s' -> writes_rel W s s') ->
  foldM f l s = Ok s' -> writes_rel W s s'.
Proof.
  intros Hf H.
  apply (foldM_inv (fun t => writes_rel W s t) f l) with (s := s); [|apply writes_refl|exact H].
  intros t x t' Hx Ht Hs. apply (writes_trans W s t t' Ht). apply (Hf t x t' Hx Hs).
Qed.

(** A cell keeps a value that is the only one that may be written in it. *)
Lemma writes_sticky (W : Z -> float -> Prop) (l l' : list float) (p : Z) (v : float) :
  writes_rel W l l' -> 0 <= p -> (forall v', W p v' -> v' = v) ->
  val_at l p = v -> val_at l' p = v.
Proof.
  intros [_ H] Hp Hv E. destruct (H p Hp) as [E'|HW]; [congruence | apply Hv; exact HW].
Qed.

Lemma writes_frame (W : Z -> float -> Prop) (l l' : list float) (p : Z) :
  writes_rel W l l' -> 0 <= p -> (forall v, ~ W p v) -> val_at l' p = val_at l p.
Proof.
  intros [_ H] Hp Hn. destruct (H p Hp) as [E|HW]; [exact E | destruct (Hn _ HW)].
Qed.

(** A property of the state reached at an element of the list and kept by
    every step holds at the end of the loop. *)
Lemma foldM_reach {S X} (P : S -> Prop) (f : S -> X -> result S) (l : list X) (x : X) :
  In x l ->
  (forall s s', f s x = Ok s' -> P s') ->
  (forall y s s', In y l -> f s y = Ok s' -> P s -> P s') ->
  forall s s', foldM f l s = Ok s' -> P s'.
Proof.
  induction l as [|y l IH]; intros Hx Hat Hkeep s s' H; [contradiction|].
  cbn [foldM] in H. invb H as s1 H1.
  destruct Hx as [->|Hx].
  - apply (foldM_inv P f l) with (s := s1); [|apply (Hat s s1 H1)|exact H].
    intros t z t' Hz Ht Hs. apply (Hkeep z t t'); [right; exact Hz | exact Hs | exact Ht].
  - apply (IH Hx Hat) with (s := s1); [|exact H].
    intros z t t' Hz. apply Hkeep. right. exact Hz.
Qed.

Lemma zero_first_writes (J : list Z) (c k : Z) (n : nat) (dA dA' : list float) :
  zero_first J c k n dA = Ok dA' ->
  writes_rel (fun p v => v = 0%float /\ col_at J p = c /\ k <= p < k + Z.of_nat n) dA dA'.
Proof.
  revert k; induction n as [|n IH]; intros k H; cbn [zero_first] in H.
  - injection H as <-. apply writes_refl.
  - invb H as x Hx. apply (read_Ok arr_J J k x 0) in Hx. destruct Hx as [Hk Hx].
    destruct (Z.eqb_spec x c) as [->|Hne].
    + apply (writes_write _ _ _ _ _ _ H). unfold col_at. split; [reflexivity|]. split; [exact Hx | lia].
    + apply IH in H. revert H. apply writes_weaken. intros p v (H1 & H2 & H3).
      split; [exact H1|]. split; [exact H2 | lia].
Qed.

(** The scan zeroes the first cell of the column. *)
Lemma zero_first_hits (J : list Z) (c k : Z) (n : nat) (dA dA' : list float) (p : Z) :
  zero_first J c k n dA = Ok dA' ->
  k <= p < k + Z.of_nat n -> col_at J p = c ->
  (forall q, k <= q < p -> col_at J q <> c) ->
  val_at dA' p = 0%float.
Proof.
  revert k; induction n as [|n IH]; intros k H Hp Hc Hfirst; [lia|].
  cbn [zero_first] in H. invb H as x Hx.
  apply (read_Ok arr_J J k x 0) in Hx. destruct Hx as [Hk Hx].
  destruct (Z.eqb_spec x c) as [->|Hne].
  - destruct (Z.eq_dec p k) as [->|Hpk].
    + apply write_Ok in H. destruct H as [Hb ->]. unfold val_at.
      apply nth_list_set_eq. lia.
    + exfalso. apply (Hfirst k); [lia | exact Hx].
  - destruct (Z.eq_dec p k) as [->|Hpk]; [unfold col_at in Hc; congruence|].
    apply (IH (k + 1) H); [lia | exact Hc|]. intros q Hq. apply Hfirst. lia.
Qed.

Lemma zero_in_row_writes (I J : list Z) (row col : Z) (dA dA' : list float) :
  zero_in_row I J row col dA = Ok dA' ->
  writes_rel (fun p v => v = 0%float /\ col_at J p = col /\ in_row I row p) dA dA'.
Proof.
  unfold zero_in_row. intros H. invb H as lo Hlo. invb H as hi Hhi.
  apply (read_Ok arr_I I row lo 0) in Hlo. apply (read_Ok arr_I I (row + 1) hi 0) in Hhi.
  destruct Hlo as [_ Hlo], Hhi as [_ Hhi].
  apply zero_first_writes in H. revert H. apply writes_weaken.
  intros p v (H1 & H2 & H3). split; [exact H1|]. split; [exact H2|].
  unfold in_row. lia.
Qed.

Lemma Assemble_entry_writes (I J : list Z) (idof : Z) (dA dA' : list float) (j : Z) :
  in_row I idof j ->
  Assemble_entry I J idof dA j = Ok dA' -> writes_rel (W_serial I J idof) dA dA'.
Proof.
  intros Hj H. unfold Assemble_entry in H. invb H as jdof Hr.
  apply (read_Ok arr_J J j jdof 0) in Hr. destruct Hr as [Hb Hr].
  destruct (Z.eqb_spec jdof idof) as [E|Hne]; cbn [negb] in H.
  - injection H as <-. apply writes_refl.
  - invb H as dA1 Hw.
    apply (writes_trans _ dA dA1 dA').
    + apply (writes_write _ _ _ _ _ _ Hw). split; [reflexivity|]. left.
      split; [exact Hj|]. unfold col_at. congruence.
    + apply zero_in_row_writes in H. revert H. apply writes_weaken.
      intros p v (H1 & H2 & H3). split; [exact H1|]. right.
      split; [exact H2|]. exists jdof. auto.
Qed.

Lemma Assemble_dof_writes (I J : list Z) (dA dA' : list float) (idof : Z) :
  Assemble_dof I J dA idof = Ok dA' -> writes_rel (W_serial I J idof) dA dA'.
Proof.
  unfold Assemble_dof. intros H. invb H as lo Hlo. invb H as hi Hhi.
  apply (read_Ok arr_I I idof lo 0) in Hlo. apply (read_Ok arr_I I (idof + 1) hi 0) in Hhi.
  destruct Hlo as [_ Hlo], Hhi as [_ Hhi].
  revert H. apply writes_foldM. intros s j s' Hj Hs. apply in_range in Hj.
  apply (Assemble_entry_writes I J idof s s' j); [unfold in_row; lia | exact Hs].
Qed.

Lemma read_In {A} (a : array_id) (l : list A) (i : Z) (v : A) :
  read a l i = Ok v -> In v l.
Proof.
  intros H. apply (read_Ok a l i v v) in H. destruct H as [Hb <-].
  apply nth_In. lia.
Qed.

Lemma eliminate_writes (ess : list Z) (A B : SparseMatrix) :
  eliminate ess A = Ok B ->
  B = set_Data A (GetData B) /\
  writes_rel (fun p v => exists idof, In idof ess /\ W_serial (GetI A) (GetJ A) idof p v)
             (GetData A) (GetData B).
Proof.
  unfold eliminate. intros H. invb H as dA Hl. injection H as <-.
  split; [reflexivity|]. cbn [set_Data GetData].
  unfold forall_loop in Hl. revert Hl. apply writes_foldM.
  intros s i s' _ Hs. invb Hs as idof Hr. apply read_In in Hr.
  apply Assemble_dof_writes in Hs. revert Hs. apply writes_weaken.
  intros p v HW. exists idof. auto.
Qed.

(** C6. The elimination of [Assemble] returns the matrix with its
    dimensions, its offsets [I] and its columns [J]; [Data] keeps its length,
    and every entry that lies in the row of no essential DOF and whose column
    is no essential DOF keeps its value. *)
Theorem elimination_frame (a : BatchedLORAssembly) (A0 : option SparseMatrix) (B : SparseMatrix) :
  Assemble a A0 = Ok B ->
  exists A1,
    AssembleWithoutBC a A0 = Ok A1 /\ eliminate (ess_dofs a) A1 = Ok B /\
    Height B = Height A1 /\ Width B = Width A1 /\
    GetI B = GetI A1 /\ GetJ B = GetJ A1 /\
    length (GetData B) = length (GetData A1) /\
    forall p, 0 <= p ->
      (forall d, In d (ess_dofs a) -> ~ in_row (GetI A1) d p) ->
      ~ In (col_at (GetJ A1) p) (ess_dofs a) ->
      val_at (GetData B) p = val_at (GetData A1) p.
Proof.
  unfold Assemble. intros H. invb H as A1 H1. exists A1.
  split; [exact H1|]. split; [exact H|].
  destruct (eliminate_writes _ _ _ H) as [E HW]. rewrite E. cbn [set_Data Height Width GetI GetJ GetData].
  split; [reflexivity|]. split; [reflexivity|]. split; [reflexivity|]. split; [reflexivity|].
  split; [apply HW|].
  intros p Hp Hrow Hcol. apply (writes_frame _ _ _ p HW Hp).
  intros v (idof & Hin & _ & [[Hr _]|[Hc _]]).
  - apply (Hrow idof Hin Hr).
  - apply Hcol. rewrite Hc. exact Hin.
Qed.

(** The dense block of four DOFs with DOF 0 essential: the 3x3 block of the
    rows and columns 1 to 3 is as assembled. *)
Lemma elimination_frame_witness :
  exists A1 B,
    AssembleWithoutBC Samples.dense_single None = Ok A1 /\
    Assemble Samples.dense_single None = Ok B /\
    GetI B = GetI A1 /\ GetJ B = GetJ A1 /\
    forall p, In p [5; 6; 7; 9; 10; 11; 13; 14; 15] ->
              val_at (GetData B) p = val_at (GetData A1) p.
Proof.
  assert (E : Assemble Samples.dense_single None
              = Ok {| Height := 4; Width := 4; GetI := [0; 4; 8; 12; 16];
                      GetJ := [0; 1; 2; 3; 0; 1; 2; 3; 0; 1; 2; 3; 0; 1; 2; 3];
                      GetData := [11; 0; 0; 0; 0; 22; 23; 24;
                                  0; 32; 33; 34; 0; 42; 43; 44]%float |})
    by (vm_compute; reflexivity).
  destruct (elimination_frame Samples.dense_single None _ E)
    as (A1 & H1 & _ & _ & _ & HI & HJ & _ & Hframe).
  exists A1. eexists. split; [exact H1|]. split; [exact E|].
  split; [exact HI|]. split; [exact HJ|].
  assert (E1 : AssembleWithoutBC Samples.dense_single None
               = Ok {| Height := 4; Width := 4; GetI := [0; 4; 8; 12; 16];
                       GetJ := [0; 1; 2; 3; 0; 1; 2; 3; 0; 1; 2; 3; 0; 1; 2; 3];
                       GetData := [11; 12; 13; 14; 21; 22; 23; 24;
                                   31; 32; 33; 34; 41; 42; 43; 44]%float |})
    by (vm_compute; reflexivity).
  rewrite E1 in H1. injection H1 as <-.
  intros p Hp.
  assert (Hcases : p = 5 \/ p = 6 \/ p = 7 \/ p = 9 \/ p = 10 \/ p = 11
                   \/ p = 13 \/ p = 14 \/ p = 15)
    by (cbn [In] in Hp; intuition auto).
  clear Hp. apply Hframe.
  - lia.
  - intros d [<-|[]]. unfold in_row. cbn [GetI].
    change (nth (Z.to_nat 0) [0; 4; 8; 12; 16] 0) with 0.
    change (nth (Z.to_nat (0 + 1)) [0; 4; 8; 12; 16] 0) with 4. lia.
  - cbn [ess_dofs Samples.dense_single In GetJ]. intros [Hc|[]].
    unfold col_at in Hc.
    repeat (destruct Hcases as [->|Hcases]; [vm_compute in Hc; discriminate Hc|]).
    subst p. vm_compute in Hc. discriminate Hc.
Defined.

(** ** Rows of a CSR matrix *)

Lemma csr_offsets_facts (A : SparseMatrix) :
  csr_offsets_ok A = true ->
  0 <= Height A /\
  Z.of_nat (length (GetI A)) = Height A + 1 /\
  length (GetData A) = length (GetJ A) /\
  forall r, 0 <= r < Height A ->
    0 <= nth (Z.to_nat r) (GetI A) 0 <= nth (Z.to_nat (r + 1)) (GetI A) 0 /\
    nth (Z.to_nat (r + 1)) (GetI A) 0 <= Z.of_nat (length (GetJ A)).
Proof.
  unfold csr_offsets_ok. intros H.
  do 3 (apply andb_true_iff in H; destruct H as [H ?]).
  split; [lia|]. split; [lia|]. split; [lia|].
  intros r Hr.
  match goal with
  | F : forallb _ _ = true |- _ => rewrite forallb_range in F; specialize (F r Hr); rename F into Hrow
  end.
  do 2 (apply andb_true_iff in Hrow; destruct Hrow as [Hrow ?]). lia.
Qed.

(** Only the rows of the matrix have positions, and a position lies in one
    row. *)
Lemma in_row_inj (A : SparseMatrix) (d r p : Z) :
  csr_offsets_ok A = true -> 0 <= d < Height A ->
  in_row (GetI A) d p -> in_row (GetI A) r p -> r = d.
Proof.
  intros Hok Hd Hdp Hrp. destruct (csr_offsets_facts A Hok) as (HH & HI & _ & Hrows).
  assert (Hmono : forall n x, 0 <= x -> x + Z.of_nat n <= Height A ->
            nth (Z.to_nat x) (GetI A) 0 <= nth (Z.to_nat (x + Z.of_nat n)) (GetI A) 0).
  { induction n as [|n IH]; intros x Hx Hn.
    - replace (x + Z.of_nat 0) with x by lia. lia.
    - specialize (IH x Hx ltac:(lia)).
      destruct (Hrows (x + Z.of_nat n) ltac:(lia)) as [Hr _].
      replace (x + Z.of_nat (S n)) with (x + Z.of_nat n + 1) by lia. lia. }
  unfold in_row in Hdp, Hrp.
  destruct (Hrows d Hd) as [Hd0 _].
  destruct (Z.lt_trichotomy r d) as [Hlt|[E|Hgt]]; [|exact E|]; exfalso.
  - destruct (Z_lt_le_dec r 0) as [Hneg|Hpos].
    + replace (Z.to_nat (r + 1)) with (Z.to_nat r) in Hrp by lia. lia.
    + specialize (Hmono (Z.to_nat (d - (r + 1))) (r + 1) ltac:(lia) ltac:(lia)).
      replace (r + 1 + Z.of_nat (Z.to_nat (d - (r + 1)))) with d in Hmono by lia. lia.
  - destruct (Z_lt_le_dec r (Height A)) as [Hin|Hout].
    + specialize (Hmono (Z.to_nat (r - (d + 1))) (d + 1) ltac:(lia) ltac:(lia)).
      replace (d + 1 + Z.of_nat (Z.to_nat (r - (d + 1)))) with r in Hmono by lia. lia.
    + assert (E0 : nth (Z.to_nat (r + 1)) (GetI A) 0 = 0) by (apply nth_overflow; lia).
      lia.
Qed.

Lemma row_slice_length {X} (I : list Z) (l : list X) (r : Z) :
  0 <= nth (Z.to_nat r) I 0 ->
  nth (Z.to_nat (r + 1)) I 0 <= Z.of_nat (length l) ->
  Z.of_nat (length (row_slice I l r))
  = Z.max 0 (nth (Z.to_nat (r + 1)) I 0 - nth (Z.to_nat r) I 0).
Proof.
  intros Hlo Hhi. unfold row_slice. rewrite length_firstn, length_skipn. lia.
Qed.

Lemma row_slice_nth {X} (I : list Z) (l : list X) (r p : Z) (d : X) :
  0 <= nth (Z.to_nat r) I 0 -> in_row I r p ->
  nth (Z.to_nat (p - nth (Z.to_nat r) I 0)) (row_slice I l r) d = nth (Z.to_nat p) l d.
Proof.
  intros Hlo Hp. unfold in_row in Hp. unfold row_slice.
  rewrite nth_firstn.
  match goal with
  | |- context [Nat.ltb ?x ?y] =>
      replace (Nat.ltb x y) with true by (symmetry; apply Nat.ltb_lt; lia)
  end.
  rewrite nth_skipn. f_equal. lia.
Qed.

Lemma in_row_slice (I J : list Z) (r p : Z) :
  0 <= nth (Z.to_nat r) I 0 ->
  nth (Z.to_nat (r + 1)) I 0 <= Z.of_nat (length J) ->
  in_row I r p -> In (col_at J p) (row_slice I J r).
Proof.
  intros Hlo Hhi Hp. unfold col_at.
  rewrite <- (row_slice_nth I J r p 0 Hlo Hp). apply nth_In.
  pose proof (row_slice_length I J r Hlo Hhi). unfold in_row in Hp. lia.
Qed.

Lemma row_slice_in (I J : list Z) (r c : Z) :
  0 <= nth (Z.to_nat r) I 0 ->
  nth (Z.to_nat (r + 1)) I 0 <= Z.of_nat (length J) ->
  In c (row_slice I J r) -> exists p, in_row I r p /\ col_at J p = c.
Proof.
  intros Hlo Hhi Hc. apply (In_nth _ _ 0) in Hc. destruct Hc as (k & Hk & E).
  pose proof (row_slice_length I J r Hlo Hhi) as HL.
  assert (Hp : in_row I r (nth (Z.to_nat r) I 0 + Z.of_nat k)) by (unfold in_row; lia).
  exists (nth (Z.to_nat r) I 0 + Z.of_nat k). split; [exact Hp|].
  unfold col_at. rewrite <- (row_slice_nth I J r _ 0 Hlo Hp).
  rewrite <- E. f_equal. lia.
Qed.

(** In a row without duplicates a column has one position. *)
Lemma row_position_unique (I J : list Z) (r p q : Z) :
  0 <= nth (Z.to_nat r) I 0 ->
  nth (Z.to_nat (r + 1)) I 0 <= Z.of_nat (length J) ->
  NoDup (row_slice I J r) ->
  in_row I r p -> in_row I r q -> col_at J p = col_at J q -> p = q.
Proof.
  intros Hlo Hhi Hnd Hp Hq E. unfold col_at in E.
  rewrite <- (row_slice_nth I J r p 0 Hlo Hp), <- (row_slice_nth I J r q 0 Hlo Hq) in E.
  pose proof (row_slice_length I J r Hlo Hhi) as HL.
  unfold in_row in Hp, Hq.
  apply (proj1 (NoDup_nth (row_slice I J r) 0) Hnd) in E; lia.
Qed.

Lemma csr_cols_facts (A : SparseMatrix) (r p : Z) :
  csr_offsets_ok A = true -> csr_cols_ok A = true ->
  in_row (GetI A) r p -> 0 <= r < Height A -> 0 <= col_at (GetJ A) p < Width A.
Proof.
  intros Hok Hcols Hp Hr. destruct (csr_offsets_facts A Hok) as (_ & _ & _ & Hrows).
  destruct (Hrows r Hr) as [Hlo Hhi].
  unfold csr_cols_ok in Hcols. rewrite forallb_range in Hcols. specialize (Hcols r Hr).
  rewrite forallb_forall in Hcols.
  specialize (Hcols _ (in_row_slice (GetI A) (GetJ A) r p ltac:(lia) Hhi Hp)). lia.
Qed.

Lemma csr_nodup_facts (A : SparseMatrix) (r p q : Z) :
  csr_offsets_ok A = true -> csr_rows_nodup A = true -> 0 <= r < Height A ->
  in_row (GetI A) r p -> in_row (GetI A) r q ->
  col_at (GetJ A) p = col_at (GetJ A) q -> p = q.
Proof.
  intros Hok Hnd Hr. destruct (csr_offsets_facts A Hok) as (_ & _ & _ & Hrows).
  destruct (Hrows r Hr) as [Hlo Hhi].
  unfold csr_rows_nodup in Hnd. rewrite forallb_range in Hnd. specialize (Hnd r Hr).
  apply nodupb_NoDup in Hnd.
  apply (row_position_unique (GetI A) (GetJ A) r p q ltac:(lia) Hhi Hnd).
Qed.

Lemma csr_symmetric_facts (A : SparseMatrix) (r p : Z) :
  csr_offsets_ok A = true -> csr_cols_ok A = true -> csr_symmetric A = true ->
  Width A = Height A -> 0 <= r < Height A -> in_row (GetI A) r p ->
  exists q, in_row (GetI A) (col_at (GetJ A) p) q /\ col_at (GetJ A) q = r.
Proof.
  intros Hok Hcols Hsym Hsq Hr Hp.
  pose proof (csr_cols_facts A r p Hok Hcols Hp Hr) as Hc.
  destruct (csr_offsets_facts A Hok) as (_ & _ & _ & Hrows).
  destruct (Hrows r Hr) as [Hlo Hhi].
  destruct (Hrows (col_at (GetJ A) p) ltac:(lia)) as [Hlo' Hhi'].
  unfold csr_symmetric in Hsym. rewrite forallb_range in Hsym. specialize (Hsym r Hr).
  rewrite forallb_forall in Hsym.
  specialize (Hsym _ (in_row_slice (GetI A) (GetJ A) r p ltac:(lia) Hhi Hp)).
  apply existsb_eqb_In in Hsym.
  apply (row_slice_in (GetI A) (GetJ A) (col_at (GetJ A) p) r ltac:(lia) Hhi' Hsym).
Qed.

Lemma ess_ok_facts (ess : list Z) (A : SparseMatrix) (d : Z) :
  ess_ok ess A = true -> In d ess -> 0 <= d < Height A.
Proof.
  unfold ess_ok. rewrite forallb_forall. intros H Hd. specialize (H d Hd). lia.
Qed.

(** ** Elimination: the loops return *)

Lemma foldM_total {S X} (Inv : S -> Prop) (f : S -> X -> result S) (l : list X) :
  (forall s x, In x l -> Inv s -> exists s', f s x = Ok s' /\ Inv s') ->
  forall s, Inv s -> exists s', foldM f l s = Ok s' /\ Inv s'.
Proof.
  induction l as [|x l IH]; intros Hstep s Hs; cbn [foldM].
  - exists s. auto.
  - destruct (Hstep s x (or_introl eq_refl) Hs) as (s1 & E1 & H1).
    rewrite E1. cbn [bind]. apply IH; [|exact H1].
    intros t y Hy. apply Hstep. right. exact Hy.
Qed.

Lemma write_total {X} (a : array_id) (l : list X) (i : Z) (v : X) :
  0 <= i < Z.of_nat (length l) ->
  exists l', write a l i v = Ok l' /\ length l' = length l.
Proof.
  intros Hi. rewrite (write_in a l i v Hi). eexists. split; [reflexivity|].
  apply list_set_length.
Qed.

Lemma zero_first_total (J : list Z) (c k : Z) (n : nat) (dA : list float) :
  0 <= k -> k + Z.of_nat n <= Z.of_nat (length J) -> length dA = length J ->
  exists dA', zero_first J c k n dA = Ok dA' /\ length dA' = length J.
Proof.
  revert k; induction n as [|n IH]; intros k Hk Hn HL; cbn [zero_first].
  - exists dA. auto.
  - rewrite (read_in arr_J J k 0) by lia. cbn [bind].
    destruct (nth (Z.to_nat k) J 0 =? c).
    + destruct (write_total arr_Data dA k 0%float ltac:(lia)) as (dA' & E & L).
      exists dA'. split; [exact E | congruence].
    + apply IH; [lia | lia | exact HL].
Qed.

Lemma zero_in_row_total (A : SparseMatrix) (row col : Z) (dA : list float) :
  csr_offsets_ok A = true -> 0 <= row < Height A -> length dA = length (GetJ A) ->
  exists dA', zero_in_row (GetI A) (GetJ A) row col dA = Ok dA'
              /\ length dA' = length (GetJ A).
Proof.
  intros Hok Hrow HL. destruct (csr_offsets_facts A Hok) as (_ & HI & _ & Hrows).
  destruct (Hrows row Hrow) as [Hlo Hhi].
  unfold zero_in_row.
  rewrite (read_in arr_I (GetI A) row 0) by lia. cbn [bind].
  rewrite (read_in arr_I (GetI A) (row + 1) 0) by lia. cbn [bind].
  apply zero_first_total; [lia | lia | exact HL].
Qed.

Lemma Assemble_entry_total (A : SparseMatrix) (idof j : Z) (dA : list float) :
  csr_offsets_ok A = true -> csr_cols_ok A = true -> Width A = Height A ->
  0 <= idof < Height A -> in_row (GetI A) idof j -> length dA = length (GetJ A) ->
  exists dA', Assemble_entry (GetI A) (GetJ A) idof dA j = Ok dA'
              /\ length dA' = length (GetJ A).
Proof.
  intros Hok Hcols Hsq Hd Hj HL.
  pose proof (csr_cols_facts A idof j Hok Hcols Hj Hd) as Hc.
  destruct (csr_offsets_facts A Hok) as (_ & _ & _ & Hrows).
  destruct (Hrows idof Hd) as [Hlo Hhi]. unfold in_row in Hj.
  unfold Assemble_entry. rewrite (read_in arr_J (GetJ A) j 0) by lia. cbn [bind].
  fold (col_at (GetJ A) j).
  destruct (col_at (GetJ A) j =? idof); cbn [negb].
  - exists dA. auto.
  - destruct (write_total arr_Data dA j 0%float ltac:(lia)) as (dA1 & E & L).
    rewrite E. cbn [bind]. apply (zero_in_row_total A); [exact Hok | lia | congruence].
Qed.

Lemma ParAssemble_diag_entry_total (A : SparseMatrix) (idof j : Z) (dA : list float) :
  csr_offsets_ok A = true -> csr_cols_ok A = true -> Width A = Height A ->
  0 <= idof < Height A -> in_row (GetI A) idof j -> length dA = length (GetJ A) ->
  exists dA', ParAssemble_diag_entry (GetI A) (GetJ A) idof dA j = Ok dA'
              /\ length dA' = length (GetJ A).
Proof.
  intros Hok Hcols Hsq Hd Hj HL.
  pose proof (csr_cols_facts A idof j Hok Hcols Hj Hd) as Hc.
  destruct (csr_offsets_facts A Hok) as (_ & _ & _ & Hrows).
  destruct (Hrows idof Hd) as [Hlo Hhi]. unfold in_row in Hj.
  unfold ParAssemble_diag_entry. rewrite (read_in arr_J (GetJ A) j 0) by lia. cbn [bind].
  fold (col_at (GetJ A) j).
  destruct (col_at (GetJ A) j =? idof).
  - destruct (write_total arr_Data dA j 1%float ltac:(lia)) as (dA1 & E & L).
    exists dA1. split; [exact E | congruence].
  - destruct (write_total arr_Data dA j 0%float ltac:(lia)) as (dA1 & E & L).
    rewrite E. cbn [bind]. apply (zero_in_row_total A); [exact Hok | lia | congruence].
Qed.

Lemma row_loop_total (A : SparseMatrix) (idof : Z) (dA : list float)
    (f : list float -> Z -> result (list float)) :
  csr_offsets_ok A = true -> 0 <= idof < Height A -> length dA = length (GetJ A) ->
  (forall s j, in_row (GetI A) idof j -> length s = length (GetJ A) ->
               exists s', f s j = Ok s' /\ length s' = length (GetJ A)) ->
  exists dA',
    (lo <- read arr_I (GetI A) idof ;;
     hi <- read arr_I (GetI A) (idof + 1) ;;
     foldM f (range lo hi) dA) = Ok dA'
    /\ length dA' = length (GetJ A).
Proof.
  intros Hok Hd HL Hf. destruct (csr_offsets_facts A Hok) as (_ & HI & _ & _).
  rewrite (read_in arr_I (GetI A) idof 0) by lia. cbn [bind].
  rewrite (read_in arr_I (GetI A) (idof + 1) 0) by lia. cbn [bind].
  apply (foldM_total (fun s => length s = length (GetJ A))); [|exact HL].
  intros s j Hj Hs. apply in_range in Hj. apply Hf; [exact Hj | exact Hs].
Qed.

Lemma index_loop_total (a : array_id) (l : list Z) (Inv : list float -> Prop)
    (f : list float -> Z -> result (list float)) (dA : list float) :
  (forall s x, In x l -> Inv s -> exists s', f s x = Ok s' /\ Inv s') ->
  Inv dA ->
  exists dA',
    forall_loop (Z.of_nat (length l)) (fun data i => x <- read a l i ;; f data x) dA = Ok dA'
    /\ Inv dA'.
Proof.
  intros Hf HL. unfold forall_loop.
  apply (foldM_total Inv); [|exact HL].
  intros s i Hi Hs. apply in_range in Hi.
  rewrite (read_in a l i 0) by lia. cbn [bind].
  apply Hf; [|exact Hs]. apply nth_In. lia.
Qed.

Lemma eliminate_total (ess : list Z) (A : SparseMatrix) :
  csr_offsets_ok A = true -> csr_cols_ok A = true -> Width A = Height A ->
  ess_ok ess A = true ->
  exists B, eliminate ess A = Ok B.
Proof.
  intros Hok Hcols Hsq Hess.
  destruct (csr_offsets_facts A Hok) as (_ & _ & HD & _).
  destruct (index_loop_total arr_ess_dofs ess (fun s => length s = length (GetJ A))
              (Assemble_dof (GetI A) (GetJ A)) (GetData A)) as (dA & E & _); [|exact HD|].
  - intros s idof Hin Hs. pose proof (ess_ok_facts ess A idof Hess Hin) as Hd.
    unfold Assemble_dof.
    apply (row_loop_total A idof s _ Hok Hd Hs).
    intros t j Hj Ht. apply (Assemble_entry_total A idof j t Hok Hcols Hsq Hd Hj Ht).
  - unfold eliminate. rewrite E. cbn [bind]. eexists. reflexivity.
Qed.

(** ** Elimination: what is zeroed *)

Lemma In_read (ess : list Z) (d : Z) :
  In d ess ->
  exists i, In i (range 0 (Z.of_nat (length ess))) /\ read arr_ess_dofs ess i = Ok d.
Proof.
  intros Hd. apply (In_nth _ _ 0) in Hd. destruct Hd as (k & Hk & E).
  exists (Z.of_nat k). split; [apply in_range; lia|].
  rewrite (read_in arr_ess_dofs ess (Z.of_nat k) 0) by lia.
  rewrite Nat2Z.id. congruence.
Qed.

Lemma W_serial_zero (I J : list Z) (idof p : Z) (v : float) :
  W_serial I J idof p v -> v = 0%float.
Proof. intros [E _]. exact E. Qed.

(** The entry of a column other than [idof] is zeroed. *)
Lemma Assemble_entry_cell (I J : list Z) (idof j : Z) (dA dA' : list float) :
  Assemble_entry I J idof dA j = Ok dA' -> col_at J j <> idof ->
  val_at dA' j = 0%float.
Proof.
  unfold Assemble_entry. intros H Hc. invb H as jdof Hr.
  apply (read_Ok arr_J J j jdof 0) in Hr. destruct Hr as [Hb Hr]. fold (col_at J j) in Hr.
  destruct (Z.eqb_spec jdof idof) as [E|Hne]; [congruence|]. cbn [negb] in H.
  invb H as dA1 Hw. apply zero_in_row_writes in H.
  apply (writes_sticky _ dA1 dA' j 0%float H); [lia | intros v' [E' _]; exact E'|].
  apply write_Ok in Hw. destruct Hw as [Hj ->]. unfold val_at.
  apply nth_list_set_eq. lia.
Qed.

(** So is its counterpart, the first entry of column [idof] in the row of
    its column. *)
Lemma Assemble_entry_counterpart (I J : list Z) (idof q p : Z) (dA dA' : list float) :
  Assemble_entry I J idof dA q = Ok dA' -> col_at J q <> idof ->
  in_row I (col_at J q) p -> col_at J p = idof ->
  (forall p', nth (Z.to_nat (col_at J q)) I 0 <= p' < p -> col_at J p' <> idof) ->
  val_at dA' p = 0%float.
Proof.
  unfold Assemble_entry. intros H Hc Hp Hcp Hfirst. invb H as jdof Hr.
  apply (read_Ok arr_J J q jdof 0) in Hr. destruct Hr as [Hb Hr]. fold (col_at J q) in Hr.
  subst jdof.
  destruct (Z.eqb_spec (col_at J q) idof) as [E|Hne]; [congruence|]. cbn [negb] in H.
  invb H as dA1 Hw. unfold zero_in_row in H. invb H as lo Hlo. invb H as hi Hhi.
  apply (read_Ok arr_I I _ lo 0) in Hlo. apply (read_Ok arr_I I _ hi 0) in Hhi.
  destruct Hlo as [_ Hlo], Hhi as [_ Hhi]. unfold in_row in Hp.
  apply (zero_first_hits J idof lo _ dA1 dA' p H); [lia | exact Hcp|].
  intros p' Hp'. apply Hfirst. lia.
Qed.

Lemma diag_entry_off (I J : list Z) (idof j : Z) (data : list float) :
  col_at J j <> idof ->
  ParAssemble_diag_entry I J idof data j = Assemble_entry I J idof data j.
Proof.
  intros Hc. unfold ParAssemble_diag_entry, Assemble_entry.
  destruct (read arr_J J j) as [jdof|e] eqn:Hr; cbn [bind]; [|reflexivity].
  apply (read_Ok arr_J J j jdof 0) in Hr. destruct Hr as [_ Hr]. fold (col_at J j) in Hr.
  destruct (Z.eqb_spec jdof idof) as [E|Hne]; [congruence|]. reflexivity.
Qed.

Lemma diag_entry_on (I J : list Z) (idof j : Z) (data data' : list float) :
  ParAssemble_diag_entry I J idof data j = Ok data' -> col_at J j = idof ->
  val_at data' j = 1%float.
Proof.
  unfold ParAssemble_diag_entry. intros H Hc. invb H as jdof Hr.
  apply (read_Ok arr_J J j jdof 0) in Hr. destruct Hr as [Hb Hr]. fold (col_at J j) in Hr.
  destruct (Z.eqb_spec jdof idof) as [E|Hne]; [|congruence].
  apply write_Ok in H. destruct H as [Hj ->]. unfold val_at.
  apply nth_list_set_eq. lia.
Qed.

Lemma ParAssemble_diag_entry_writes (I J : list Z) (idof j : Z) (data data' : list float) :
  in_row I idof j ->
  ParAssemble_diag_entry I J idof data j = Ok data' -> writes_rel (W_diag I J idof) data data'.
Proof.
  intros Hj H. destruct (Z.eq_dec (col_at J j) idof) as [E|Hne].
  - unfold ParAssemble_diag_entry in H. invb H as jdof Hr.
    apply (read_Ok arr_J J j jdof 0) in Hr. destruct Hr as [Hb Hr]. fold (col_at J j) in Hr.
    destruct (Z.eqb_spec jdof idof) as [_|Hne]; [|congruence].
    apply (writes_write _ _ _ _ _ _ H). left. auto.
  - rewrite (diag_entry_off I J idof j data Hne) in H.
    apply (Assemble_entry_writes I J idof data data' j Hj) in H.
    revert H. apply writes_weaken. intros p v HW. right. exact HW.
Qed.

Lemma ParAssemble_diag_dof_writes (I J : list Z) (data data' : list float) (idof : Z) :
  ParAssemble_diag_dof I J data idof = Ok data' -> writes_rel (W_diag I J idof) data data'.
Proof.
  unfold ParAssemble_diag_dof. intros H. invb H as lo Hlo. invb H as hi Hhi.
  apply (read_Ok arr_I I idof lo 0) in Hlo. apply (read_Ok arr_I I (idof + 1) hi 0) in Hhi.
  destruct Hlo as [_ Hlo], Hhi as [_ Hhi].
  revert H. apply writes_foldM. intros s j s' Hj Hs. apply in_range in Hj.
  apply (ParAssemble_diag_entry_writes I J idof j s s'); [unfold in_row; lia | exact Hs].
Qed.

(** What may be written in an entry off the diagonal is zero, and in an
    entry of the diagonal one. *)
Lemma W_diag_off (A : SparseMatrix) (r idof p : Z) (v : float) :
  csr_offsets_ok A = true -> 0 <= r < Height A ->
  in_row (GetI A) r p -> col_at (GetJ A) p <> r ->
  W_diag (GetI A) (GetJ A) idof p v -> v = 0%float.
Proof.
  intros Hok Hr Hp Hc [(_ & Hi & Hci)|HW]; [|apply (W_serial_zero _ _ _ _ _ HW)].
  exfalso. apply Hc. rewrite Hci. apply (in_row_inj A r idof p Hok Hr Hp Hi).
Qed.

Lemma W_diag_on (A : SparseMatrix) (d idof p : Z) (v : float) :
  csr_offsets_ok A = true -> 0 <= d < Height A ->
  in_row (GetI A) d p -> col_at (GetJ A) p = d ->
  W_diag (GetI A) (GetJ A) idof p v -> v = 1%float.
Proof.
  intros Hok Hd Hp Hc [(E & _)|(_ & [[Hi Hci]|[Hci (jdof & Hne & Hj)]])]; [exact E| |]; exfalso.
  - apply Hci. rewrite Hc. symmetry. apply (in_row_inj A d idof p Hok Hd Hp Hi).
  - apply Hne. rewrite <- Hci, Hc. apply (in_row_inj A d jdof p Hok Hd Hp Hj).
Qed.

Lemma W_serial_diagonal (A : SparseMatrix) (d idof p : Z) (v : float) :
  csr_offsets_ok A = true -> 0 <= d < Height A ->
  in_row (GetI A) d p -> col_at (GetJ A) p = d ->
  ~ W_serial (GetI A) (GetJ A) idof p v.
Proof.
  intros Hok Hd Hp Hc (_ & [[Hi Hci]|[Hci (jdof & Hne & Hj)]]).
  - apply Hci. rewrite Hc. symmetry. apply (in_row_inj A d idof p Hok Hd Hp Hi).
  - apply Hne. rewrite <- Hci, Hc. apply (in_row_inj A d jdof p Hok Hd Hp Hj).
Qed.

Lemma row_loop_reach (I : list Z) (idof j : Z) (P : list float -> Prop)
    (f : list float -> Z -> result (list float)) (dA dA' : list float) :
  (lo <- read arr_I I idof ;;
   hi <- read arr_I I (idof + 1) ;;
   foldM f (range lo hi) dA) = Ok dA' ->
  in_row I idof j ->
  (forall s s', f s j = Ok s' -> P s') ->
  (forall y s s', in_row I idof y -> f s y = Ok s' -> P s -> P s') ->
  P dA'.
Proof.
  intros H Hj Hat Hkeep. invb H as lo Hlo. invb H as hi Hhi.
  apply (read_Ok arr_I I idof lo 0) in Hlo. apply (read_Ok arr_I I (idof + 1) hi 0) in Hhi.
  destruct Hlo as [_ Hlo], Hhi as [_ Hhi]. unfold in_row in Hj.
  apply (foldM_reach P f (range lo hi) j) with (s := dA); [apply in_range; lia | exact Hat| |exact H].
  intros y s s' Hy. apply in_range in Hy. apply Hkeep. unfold in_row. lia.
Qed.

Lemma index_loop_reach (a : array_id) (l : list Z) (x : Z) (P : list float -> Prop)
    (f : list float -> Z -> result (list float)) (dA dA' : list float) :
  forall_loop (Z.of_nat (length l)) (fun data i => y <- read a l i ;; f data y) dA = Ok dA' ->
  In x l ->
  (forall s s', f s x = Ok s' -> P s') ->
  (forall y s s', In y l -> f s y = Ok s' -> P s -> P s') ->
  P dA'.
Proof.
  unfold forall_loop. intros H Hx Hat Hkeep.
  apply (In_nth _ _ 0) in Hx. destruct Hx as (k & Hk & E).
  apply (foldM_reach P (fun data i => y <- read a l i ;; f data y)
           (range 0 (Z.of_nat (length l))) (Z.of_nat k)) with (s := dA);
    [apply in_range; lia | | | exact H].
  - intros s s' Hs. invb Hs as y Hy. apply (read_Ok a l _ y 0) in Hy.
    destruct Hy as [_ Hy]. rewrite Nat2Z.id in Hy. apply (Hat s s'). congruence.
  - intros i s s' Hi Hs. invb Hs as y Hy. apply read_In in Hy. apply (Hkeep y s s' Hy Hs).
Qed.

Lemma index_loop_writes (a : array_id) (l : list Z) (W : Z -> float -> Prop)
    (f : list float -> Z -> result (list float)) (dA dA' : list float) :
  forall_loop (Z.of_nat (length l)) (fun data i => y <- read a l i ;; f data y) dA = Ok dA' ->
  (forall y s s', In y l -> f s y = Ok s' -> writes_rel W s s') ->
  writes_rel W dA dA'.
Proof.
  unfold forall_loop. intros H Hf. revert H. apply writes_foldM.
  intros s i s' _ Hs. invb Hs as y Hy. apply read_In in Hy. apply (Hf y s s' Hy Hs).
Qed.

Lemma in_row_nonneg (A : SparseMatrix) (r p : Z) :
  csr_offsets_ok A = true -> 0 <= r < Height A -> in_row (GetI A) r p -> 0 <= p.
Proof.
  intros Hok Hr Hp. destruct (csr_offsets_facts A Hok) as (_ & _ & _ & Hrows).
  destruct (Hrows r Hr) as [Hlo _]. unfold in_row in Hp. lia.
Qed.

(** The elimination of [d] zeroes the entries of row [d] off the diagonal. *)
Lemma Assemble_dof_row (A : SparseMatrix) (d p : Z) (dA dA' : list float) :
  csr_offsets_ok A = true -> 0 <= d < Height A ->
  Assemble_dof (GetI A) (GetJ A) dA d = Ok dA' ->
  in_row (GetI A) d p -> col_at (GetJ A) p <> d -> val_at dA' p = 0%float.
Proof.
  intros Hok Hd H Hp Hc. pose proof (in_row_nonneg A d p Hok Hd Hp) as Hp0.
  unfold Assemble_dof in H.
  apply (row_loop_reach _ d p (fun s => val_at s p = 0%float) _ dA dA' H Hp).
  - intros s s' Hs. apply (Assemble_entry_cell _ _ d p s s' Hs Hc).
  - intros y s s' Hy Hs Hz. apply Assemble_entry_writes in Hs; [|exact Hy].
    apply (writes_sticky _ s s' p 0%float Hs Hp0); [|exact Hz].
    intros v'. apply W_serial_zero.
Qed.

(** It zeroes the entry of column [d] in the rows that row [d] stores. *)
Lemma Assemble_dof_col (A : SparseMatrix) (d r q p : Z) (dA dA' : list float) :
  csr_offsets_ok A = true -> csr_rows_nodup A = true ->
  0 <= r < Height A ->
  Assemble_dof (GetI A) (GetJ A) dA d = Ok dA' ->
  in_row (GetI A) d q -> col_at (GetJ A) q = r -> r <> d ->
  in_row (GetI A) r p -> col_at (GetJ A) p = d -> val_at dA' p = 0%float.
Proof.
  intros Hok Hnd Hr H Hq Hcq Hne Hp Hcp.
  pose proof (in_row_nonneg A r p Hok Hr Hp) as Hp0.
  unfold Assemble_dof in H.
  apply (row_loop_reach _ d q (fun s => val_at s p = 0%float) _ dA dA' H Hq).
  - intros s s' Hs.
    apply (Assemble_entry_counterpart _ _ d q p s s' Hs); [congruence | congruence | exact Hcp|].
    rewrite Hcq. intros p' Hp' Hc'.
    assert (E : p' = p); [|lia].
    apply (csr_nodup_facts A r p' p Hok Hnd Hr); [|exact Hp | congruence].
    unfold in_row in Hp |- *. lia.
  - intros y s s' Hy Hs Hz. apply Assemble_entry_writes in Hs; [|exact Hy].
    apply (writes_sticky _ s s' p 0%float Hs Hp0); [|exact Hz].
    intros v'. apply W_serial_zero.
Qed.

Lemma ParAssemble_diag_dof_row (A : SparseMatrix) (d p : Z) (dA dA' : list float) :
  csr_offsets_ok A = true -> 0 <= d < Height A ->
  ParAssemble_diag_dof (GetI A) (GetJ A) dA d = Ok dA' ->
  in_row (GetI A) d p -> col_at (GetJ A) p <> d -> val_at dA' p = 0%float.
Proof.
  intros Hok Hd H Hp Hc. pose proof (in_row_nonneg A d p Hok Hd Hp) as Hp0.
  unfold ParAssemble_diag_dof in H.
  apply (row_loop_reach _ d p (fun s => val_at s p = 0%float) _ dA dA' H Hp).
  - intros s s' Hs. rewrite (diag_entry_off _ _ d p s Hc) in Hs.
    apply (Assemble_entry_cell _ _ d p s s' Hs Hc).
  - intros y s s' Hy Hs Hz. apply ParAssemble_diag_entry_writes in Hs; [|exact Hy].
    apply (writes_sticky _ s s' p 0%float Hs Hp0); [|exact Hz].
    intros v'. apply (W_diag_off A d d p v' Hok Hd Hp Hc).
Qed.

Lemma ParAssemble_diag_dof_col (A : SparseMatrix) (d r q p : Z) (dA dA' : list float) :
  csr_offsets_ok A = true -> csr_rows_nodup A = true ->
  0 <= r < Height A ->
  ParAssemble_diag_dof (GetI A) (GetJ A) dA d = Ok dA' ->
  in_row (GetI A) d q -> col_at (GetJ A) q = r -> r <> d ->
  in_row (GetI A) r p -> col_at (GetJ A) p = d -> val_at dA' p = 0%float.
Proof.
  intros Hok Hnd Hr H Hq Hcq Hne Hp Hcp.
  pose proof (in_row_nonneg A r p Hok Hr Hp) as Hp0.
  unfold ParAssemble_diag_dof in H.
  apply (row_loop_reach _ d q (fun s => val_at s p = 0%float) _ dA dA' H Hq).
  - intros s s' Hs. rewrite (diag_entry_off _ _ d q s) in Hs by congruence.
    apply (Assemble_entry_counterpart _ _ d q p s s' Hs); [congruence | congruence | exact Hcp|].
    rewrite Hcq. intros p' Hp' Hc'.
    assert (E : p' = p); [|lia].
    apply (csr_nodup_facts A r p' p Hok Hnd Hr); [|exact Hp | congruence].
    unfold in_row in Hp |- *. lia.
  - intros y s s' Hy Hs Hz. apply ParAssemble_diag_entry_writes in Hs; [|exact Hy].
    apply (writes_sticky _ s s' p 0%float Hs Hp0); [|exact Hz].
    intros v'. apply (W_diag_off A r d p v' Hok Hr Hp). congruence.
Qed.

Lemma ParAssemble_diag_dof_diagonal (A : SparseMatrix) (d p : Z) (dA dA' : list float) :
  csr_offsets_ok A = true -> 0 <= d < Height A ->
  ParAssemble_diag_dof (GetI A) (GetJ A) dA d = Ok dA' ->
  in_row (GetI A) d p -> col_at (GetJ A) p = d -> val_at dA' p = 1%float.
Proof.
  intros Hok Hd H Hp Hc. pose proof (in_row_nonneg A d p Hok Hd Hp) as Hp0.
  unfold ParAssemble_diag_dof in H.
  apply (row_loop_reach _ d p (fun s => val_at s p = 1%float) _ dA dA' H Hp).
  - intros s s' Hs. apply (diag_entry_on _ _ d p s s' Hs Hc).
  - intros y s s' Hy Hs Hz. apply ParAssemble_diag_entry_writes in Hs; [|exact Hy].
    apply (writes_sticky _ s s' p 1%float Hs Hp0); [|exact Hz].
    intros v'. apply (W_diag_on A d d p v' Hok Hd Hp Hc).
Qed.

(** The serial elimination on a matrix with a symmetric pattern. *)
Lemma eliminate_zeroes (ess : list Z) (A B : SparseMatrix) (d p : Z) :
  csr_offsets_ok A = true -> csr_cols_ok A = true -> Width A = Height A ->
  csr_rows_nodup A = true -> csr_symmetric A = true -> ess_ok ess A = true ->
  eliminate ess A = Ok B -> In d ess ->
  (in_row (GetI A) d p -> col_at (GetJ A) p <> d -> val_at (GetData B) p = 0%float) /\
  (forall r, 0 <= r < Height A -> in_row (GetI A) r p -> r <> d ->
             col_at (GetJ A) p = d -> val_at (GetData B) p = 0%float) /\
  (in_row (GetI A) d p -> col_at (GetJ A) p = d ->
   val_at (GetData B) p = val_at (GetData A) p).
Proof.
  intros Hok Hcols Hsq Hnd Hsym Hess H Hin.
  pose proof (ess_ok_facts ess A d Hess Hin) as Hd.
  destruct (eliminate_writes ess A B H) as [_ HW].
  unfold eliminate in H. invb H as dA Hl. injection H as <-. cbn [set_Data GetData] in *.
  assert (Hkeep : 0 <= p -> forall y s s', In y ess ->
            Assemble_dof (GetI A) (GetJ A) s y = Ok s' ->
            val_at s p = 0%float -> val_at s' p = 0%float).
  { intros Hp0 y s s' _ Hs Hz. apply Assemble_dof_writes in Hs.
    apply (writes_sticky _ s s' p 0%float Hs Hp0); [|exact Hz].
    intros v'. apply W_serial_zero. }
  split; [|split].
  - intros Hp Hc. pose proof (in_row_nonneg A d p Hok Hd Hp) as Hp0.
    apply (index_loop_reach arr_ess_dofs ess d (fun s => val_at s p = 0%float) _ _ _ Hl Hin);
      [|apply (Hkeep Hp0)].
    intros s s' Hs. apply (Assemble_dof_row A d p s s' Hok Hd Hs Hp Hc).
  - intros r Hr Hp Hne Hc. pose proof (in_row_nonneg A r p Hok Hr Hp) as Hp0.
    destruct (csr_symmetric_facts A r p Hok Hcols Hsym Hsq Hr Hp) as (q & Hq & Hcq).
    rewrite Hc in Hq.
    apply (index_loop_reach arr_ess_dofs ess d (fun s => val_at s p = 0%float) _ _ _ Hl Hin);
      [|apply (Hkeep Hp0)].
    intros s s' Hs. apply (Assemble_dof_col A d r q p s s' Hok Hnd Hr Hs Hq Hcq Hne Hp Hc).
  - intros Hp Hc. pose proof (in_row_nonneg A d p Hok Hd Hp) as Hp0.
    apply (writes_frame _ _ _ p HW Hp0).
    intros v (idof & _ & HWs). apply (W_serial_diagonal A d idof p v Hok Hd Hp Hc HWs).
Qed.

(** ** Elimination in the off-diagonal block *)

Lemma zero_in_row_hits (A : SparseMatrix) (r c p : Z) (dA dA' : list float) :
  csr_offsets_ok A = true -> csr_rows_nodup A = true -> 0 <= r < Height A ->
  zero_in_row (GetI A) (GetJ A) r c dA = Ok dA' ->
  in_row (GetI A) r p -> col_at (GetJ A) p = c -> val_at dA' p = 0%float.
Proof.
  intros Hok Hnd Hr H Hp Hc. unfold zero_in_row in H. invb H as lo Hlo. invb H as hi Hhi.
  apply (read_Ok arr_I (GetI A) _ lo 0) in Hlo. apply (read_Ok arr_I (GetI A) _ hi 0) in Hhi.
  destruct Hlo as [_ Hlo], Hhi as [_ Hhi].
  apply (zero_first_hits (GetJ A) c lo _ dA dA' p H); [unfold in_row in Hp; lia | exact Hc|].
  intros p' Hp' Hc'. assert (E : p' = p); [|lia].
  apply (csr_nodup_facts A r p' p Hok Hnd Hr); [|exact Hp | congruence].
  unfold in_row in Hp |- *. lia.
Qed.

Lemma ParAssemble_offd_dof_writes (I : list Z) (data data' : list float) (idof : Z) :
  ParAssemble_offd_dof I data idof = Ok data' ->
  writes_rel (fun _ v => v = 0%float) data data'.
Proof.
  unfold ParAssemble_offd_dof. intros H. invb H as lo Hlo. invb H as hi Hhi.
  revert H. apply writes_foldM. intros s j s' _ Hs.
  apply (writes_write _ _ _ _ _ _ Hs). reflexivity.
Qed.

Lemma ParAssemble_offd_dof_row (A : SparseMatrix) (d p : Z) (data data' : list float) :
  csr_offsets_ok A = true -> 0 <= d < Height A ->
  ParAssemble_offd_dof (GetI A) data d = Ok data' ->
  in_row (GetI A) d p -> val_at data' p = 0%float.
Proof.
  intros Hok Hd H Hp. pose proof (in_row_nonneg A d p Hok Hd Hp) as Hp0.
  unfold ParAssemble_offd_dof in H.
  apply (row_loop_reach _ d p (fun s => val_at s p = 0%float) _ data data' H Hp).
  - intros s s' Hs. apply write_Ok in Hs. destruct Hs as [Hb ->]. unfold val_at.
    apply nth_list_set_eq. lia.
  - intros y s s' _ Hs Hz.
    apply (writes_sticky (fun _ v => v = 0%float) s s' p 0%float); [|exact Hp0|auto|exact Hz].
    apply (writes_write _ _ _ _ _ _ Hs). reflexivity.
Qed.

Lemma ParAssemble_offd_col_writes (n : Z) (I J : list Z) (data data' : list float) (j : Z) :
  ParAssemble_offd_col n I J data j = Ok data' ->
  writes_rel (fun _ v => v = 0%float) data data'.
Proof.
  unfold ParAssemble_offd_col. apply writes_foldM. intros s i s' _ Hs.
  apply zero_in_row_writes in Hs. revert Hs. apply writes_weaken.
  intros p v [E _]. exact E.
Qed.

Lemma ParAssemble_offd_col_hits (A : SparseMatrix) (c r p : Z) (data data' : list float) :
  csr_offsets_ok A = true -> csr_rows_nodup A = true -> 0 <= r < Height A ->
  ParAssemble_offd_col (Height A) (GetI A) (GetJ A) data c = Ok data' ->
  in_row (GetI A) r p -> col_at (GetJ A) p = c -> val_at data' p = 0%float.
Proof.
  intros Hok Hnd Hr H Hp Hc. pose proof (in_row_nonneg A r p Hok Hr Hp) as Hp0.
  unfold ParAssemble_offd_col in H.
  apply (foldM_reach (fun s => val_at s p = 0%float)
           (fun data i => zero_in_row (GetI A) (GetJ A) i c data)
           (range 0 (Height A)) r) with (s := data); [apply in_range; lia | | | exact H].
  - intros s s' Hs. apply (zero_in_row_hits A r c p s s' Hok Hnd Hr Hs Hp Hc).
  - intros y s s' _ Hs Hz. apply zero_in_row_writes in Hs.
    apply (writes_sticky _ s s' p 0%float Hs Hp0); [|exact Hz].
    intros v' [E _]. exact E.
Qed.

Lemma ParAssemble_offd_dof_total (A : SparseMatrix) (d : Z) (data : list float) :
  csr_offsets_ok A = true -> 0 <= d < Height A -> length data = length (GetJ A) ->
  exists data', ParAssemble_offd_dof (GetI A) data d = Ok data'
                /\ length data' = length (GetJ A).
Proof.
  intros Hok Hd HL. unfold ParAssemble_offd_dof.
  apply (row_loop_total A d data _ Hok Hd HL).
  intros s j Hj Hs. destruct (csr_offsets_facts A Hok) as (_ & _ & _ & Hrows).
  destruct (Hrows d Hd) as [Hlo Hhi]. unfold in_row in Hj.
  destruct (write_total arr_Data s j 0%float ltac:(lia)) as (s' & E & L).
  exists s'. split; [exact E | congruence].
Qed.

Lemma ParAssemble_offd_col_total (A : SparseMatrix) (c : Z) (data : list float) :
  csr_offsets_ok A = true -> length data = length (GetJ A) ->
  exists data', ParAssemble_offd_col (Height A) (GetI A) (GetJ A) data c = Ok data'
                /\ length data' = length (GetJ A).
Proof.
  intros Hok HL. unfold ParAssemble_offd_col.
  apply (foldM_total (fun s => length s = length (GetJ A))); [|exact HL].
  intros s i Hi Hs. apply in_range in Hi.
  apply (zero_in_row_total A i c s Hok Hi Hs).
Qed.

(** ** The columns to eliminate *)

Lemma count_cols_loop (mask l : list Z) (n0 : Z) :
  (forall i, In i l -> 0 <= i < Z.of_nat (length mask)) ->
  foldM (fun n i => c <- read arr_eliminate_col mask i ;; Ok (if c =? 0 then n else n + 1))
        l n0
  = Ok (n0 + Z.of_nat (length (filter (marked mask) l))).
Proof.
  revert n0; induction l as [|i l IH]; intros n0 Hl; cbn [foldM filter].
  - f_equal. cbn [length]. lia.
  - rewrite (read_in arr_eliminate_col mask i 0) by (apply Hl; left; reflexivity).
    cbn [bind]. rewrite IH by (intros; apply Hl; right; assumption).
    assert (Em : marked mask i = negb (nth (Z.to_nat i) mask 0 =? 0)) by reflexivity.
    rewrite Em.
    destruct (nth (Z.to_nat i) mask 0 =? 0); cbn [negb length]; f_equal; lia.
Qed.

Lemma fill_cols_loop (mask l pre : list Z) (k : nat) :
  (forall i, In i l -> 0 <= i < Z.of_nat (length mask)) ->
  (length (filter (marked mask) l) <= k)%nat ->
  foldM (fun '(cols, n) i =>
           c <- read arr_eliminate_col mask i ;;
           if c =? 0 then Ok (cols, n)
           else
             cols' <- write arr_cols_to_eliminate cols n i ;;
             Ok (cols', n + 1))
        l (pre ++ repeat 0 k, Z.of_nat (length pre))
  = Ok (pre ++ filter (marked mask) l ++ repeat 0 (k - length (filter (marked mask) l)),
        Z.of_nat (length pre + length (filter (marked mask) l))).
Proof.
  revert pre k; induction l as [|i l IH]; intros pre k Hl Hk; cbn [foldM filter].
  - cbn [length app]. rewrite Nat.sub_0_r, Nat.add_0_r. reflexivity.
  - rewrite (read_in arr_eliminate_col mask i 0) by (apply Hl; left; reflexivity).
    cbn [bind]. cbn [filter] in Hk.
    assert (Em : marked mask i = negb (nth (Z.to_nat i) mask 0 =? 0)) by reflexivity.
    rewrite Em in Hk |- *.
    destruct (nth (Z.to_nat i) mask 0 =? 0); cbn [negb] in Hk |- *.
    + apply IH; [intros; apply Hl; right; assumption | exact Hk].
    + destruct k as [|k]; [cbn [length] in Hk; lia|]. cbn [repeat length] in Hk |- *.
      rewrite (write_in arr_cols_to_eliminate)
        by (rewrite length_app; cbn [length]; lia).
      rewrite Nat2Z.id, list_set_app. cbn [bind].
      replace (pre ++ i :: repeat 0 k) with ((pre ++ [i]) ++ repeat 0 k)
        by (rewrite <- app_assoc; reflexivity).
      replace (Z.of_nat (length pre) + 1) with (Z.of_nat (length (pre ++ [i])))
        by (rewrite length_app; cbn [length]; lia).
      rewrite IH; [|intros; apply Hl; right; assumption | lia].
      rewrite <- app_assoc. cbn [app]. rewrite length_app. cbn [length Nat.sub].
      do 2 f_equal. lia.
Qed.

Lemma cols_to_eliminate_ok (mask : list Z) (n : Z) :
  n <= Z.of_nat (length mask) ->
  cols_to_eliminate mask n = Ok (marked_cols mask n).
Proof.
  intros Hn.
  assert (Hl : forall i, In i (range 0 n) -> 0 <= i < Z.of_nat (length mask))
    by (intros i Hi; apply in_range in Hi; lia).
  unfold cols_to_eliminate, count_cols. rewrite (count_cols_loop mask _ 0 Hl). cbn [bind].
  fold (marked_cols mask n). unfold fill_cols, New.
  replace (Z.to_nat (0 + Z.of_nat (length (marked_cols mask n))))
    with (length (marked_cols mask n)) by lia.
  pose proof (fill_cols_loop mask (range 0 n) [] (length (marked_cols mask n)) Hl
                (Nat.le_refl _)) as E.
  cbn [app length] in E. change (Z.of_nat 0) with 0 in E. rewrite E. cbn [bind].
  fold (marked_cols mask n). rewrite Nat.sub_diag. cbn [repeat]. rewrite app_nil_r.
  reflexivity.
Qed.

Lemma in_marked_cols (mask : list Z) (n c : Z) :
  In c (marked_cols mask n) <-> 0 <= c < n /\ nth (Z.to_nat c) mask 0 <> 0.
Proof.
  unfold marked_cols, marked. rewrite filter_In, in_range, negb_true_iff, Z.eqb_neq.
  reflexivity.
Qed.

(** ** The distributed elimination *)

Lemma ParAssemble_eliminate_zeroes (ess mask : list Z) (A : hypre_ParCSRMatrix) :
  csr_offsets_ok (hypre_diag A) = true -> csr_cols_ok (hypre_diag A) = true ->
  Width (hypre_diag A) = Height (hypre_diag A) ->
  ess_ok ess (hypre_diag A) = true ->
  csr_offsets_ok (hypre_offd A) = true ->
  Height (hypre_offd A) = Height (hypre_diag A) ->
  Width (hypre_offd A) <= Z.of_nat (length mask) ->
  exists B, ParAssemble_eliminate ess mask A = Ok B /\
    (forall d p, In d ess ->
       (in_row (GetI (hypre_diag A)) d p -> col_at (GetJ (hypre_diag A)) p = d ->
        val_at (GetData (hypre_diag B)) p = 1%float) /\
       (in_row (GetI (hypre_diag A)) d p -> col_at (GetJ (hypre_diag A)) p <> d ->
        val_at (GetData (hypre_diag B)) p = 0%float) /\
       (csr_rows_nodup (hypre_diag A) = true -> csr_symmetric (hypre_diag A) = true ->
        forall r, 0 <= r < Height (hypre_diag A) -> in_row (GetI (hypre_diag A)) r p ->
                  r <> d -> col_at (GetJ (hypre_diag A)) p = d ->
                  val_at (GetData (hypre_diag B)) p = 0%float) /\
       (in_row (GetI (hypre_offd A)) d p -> val_at (GetData (hypre_offd B)) p = 0%float)) /\
    (csr_rows_nodup (hypre_offd A) = true ->
     forall c r p, 0 <= c < Width (hypre_offd A) -> nth (Z.to_nat c) mask 0 <> 0 ->
       0 <= r < Height (hypre_offd A) -> in_row (GetI (hypre_offd A)) r p ->
       col_at (GetJ (hypre_offd A)) p = c ->
       val_at (GetData (hypre_offd B)) p = 0%float).
Proof.
  destruct A as [D O]. cbn [hypre_diag hypre_offd].
  intros Hok Hcols Hsq Hess HokO HH HW.
  destruct (csr_offsets_facts D Hok) as (_ & _ & HD & _).
  destruct (csr_offsets_facts O HokO) as (_ & _ & HO & _).
  destruct (index_loop_total arr_ess_dofs ess (fun s => length s = length (GetJ D))
              (ParAssemble_diag_dof (GetI D) (GetJ D)) (GetData D)) as (d1 & E1 & _);
    [|exact HD|].
  { intros s idof Hin Hs. pose proof (ess_ok_facts ess D idof Hess Hin) as Hd.
    unfold ParAssemble_diag_dof. apply (row_loop_total D idof s _ Hok Hd Hs).
    intros t j Hj Ht. apply (ParAssemble_diag_entry_total D idof j t Hok Hcols Hsq Hd Hj Ht). }
  destruct (index_loop_total arr_ess_dofs ess (fun s => length s = length (GetJ O))
              (ParAssemble_offd_dof (GetI O)) (GetData O)) as (o1 & E2 & L2);
    [|exact HO|].
  { intros s idof Hin Hs. pose proof (ess_ok_facts ess D idof Hess Hin) as Hd.
    apply (ParAssemble_offd_dof_total O idof s HokO); [lia | exact Hs]. }
  pose proof (cols_to_eliminate_ok mask (Width O) HW) as Ec.
  destruct (index_loop_total arr_cols_to_eliminate (marked_cols mask (Width O))
              (fun s => length s = length (GetJ O))
              (ParAssemble_offd_col (Height O) (GetI O) (GetJ O)) o1) as (o2 & E3 & _);
    [|exact L2|].
  { intros s c _ Hs. apply (ParAssemble_offd_col_total O c s HokO Hs). }
  exists {| hypre_diag := set_Data D d1; hypre_offd := set_Data O o2 |}.
  split.
  { unfold ParAssemble_eliminate. cbv zeta. cbn [hypre_diag hypre_offd].
    rewrite E1. cbn [bind]. rewrite E2. cbn [bind]. rewrite Ec. cbn [bind].
    rewrite E3. cbn [bind]. reflexivity. }
  cbn [hypre_diag hypre_offd set_Data GetData].
  assert (Hcolw : writes_rel (fun _ v => v = 0%float) o1 o2).
  { apply (index_loop_writes _ _ _ _ _ _ E3).
    intros y s s' _ Hs. apply (ParAssemble_offd_col_writes _ _ _ _ _ _ Hs). }
  split.
  - intros d p Hin. pose proof (ess_ok_facts ess D d Hess Hin) as Hd.
    split; [|split; [|split]].
    + intros Hp Hc. pose proof (in_row_nonneg D d p Hok Hd Hp) as Hp0.
      apply (index_loop_reach arr_ess_dofs ess d (fun s => val_at s p = 1%float) _ _ _ E1 Hin).
      * intros s s' Hs. apply (ParAssemble_diag_dof_diagonal D d p s s' Hok Hd Hs Hp Hc).
      * intros y s s' _ Hs Hz. apply ParAssemble_diag_dof_writes in Hs.
        apply (writes_sticky _ s s' p 1%float Hs Hp0); [|exact Hz].
        intros v'. apply (W_diag_on D d y p v' Hok Hd Hp Hc).
    + intros Hp Hc. pose proof (in_row_nonneg D d p Hok Hd Hp) as Hp0.
      apply (index_loop_reach arr_ess_dofs ess d (fun s => val_at s p = 0%float) _ _ _ E1 Hin).
      * intros s s' Hs. apply (ParAssemble_diag_dof_row D d p s s' Hok Hd Hs Hp Hc).
      * intros y s s' _ Hs Hz. apply ParAssemble_diag_dof_writes in Hs.
        apply (writes_sticky _ s s' p 0%float Hs Hp0); [|exact Hz].
        intros v'. apply (W_diag_off D d y p v' Hok Hd Hp Hc).
    + intros Hnd Hsym r Hr Hp Hne Hc. pose proof (in_row_nonneg D r p Hok Hr Hp) as Hp0.
      destruct (csr_symmetric_facts D r p Hok Hcols Hsym Hsq Hr Hp) as (q & Hq & Hcq).
      rewrite Hc in Hq.
      apply (index_loop_reach arr_ess_dofs ess d (fun s => val_at s p = 0%float) _ _ _ E1 Hin).
      * intros s s' Hs.
        apply (ParAssemble_diag_dof_col D d r q p s s' Hok Hnd Hr Hs Hq Hcq Hne Hp Hc).
      * intros y s s' _ Hs Hz. apply ParAssemble_diag_dof_writes in Hs.
        apply (writes_sticky _ s s' p 0%float Hs Hp0); [|exact Hz].
        intros v'. apply (W_diag_off D r y p v' Hok Hr Hp). congruence.
    + intros Hp. assert (HdO : 0 <= d < Height O) by lia.
      pose proof (in_row_nonneg O d p HokO HdO Hp) as Hp0.
      apply (writes_sticky _ o1 o2 p 0%float Hcolw Hp0); [auto|].
      apply (index_loop_reach arr_ess_dofs ess d (fun s => val_at s p = 0%float) _ _ _ E2 Hin).
      * intros s s' Hs. apply (ParAssemble_offd_dof_row O d p s s' HokO HdO Hs Hp).
      * intros y s s' _ Hs Hz. apply ParAssemble_offd_dof_writes in Hs.
        apply (writes_sticky _ s s' p 0%float Hs Hp0); [auto | exact Hz].
  - intros HndO c r p Hc Hm Hr Hp Hcp. pose proof (in_row_nonneg O r p HokO Hr Hp) as Hp0.
    assert (Hin : In c (marked_cols mask (Width O))) by (apply in_marked_cols; auto).
    apply (index_loop_reach arr_cols_to_eliminate _ c (fun s => val_at s p = 0%float)
             _ _ _ E3 Hin).
    + intros s s' Hs. apply (ParAssemble_offd_col_hits O c r p s s' HokO HndO Hr Hs Hp Hcp).
    + intros y s s' _ Hs Hz. apply ParAssemble_offd_col_writes in Hs.
      apply (writes_sticky _ s s' p 0%float Hs Hp0); [auto | exact Hz].
Qed.

(** The serial elimination: the row and the diagonal entry of an essential
    DOF need no condition on the pattern, its column needs the symmetric
    pattern and rows without a repeated column. *)
Lemma eliminate_effect (ess : list Z) (A B : SparseMatrix) (d p : Z) :
  csr_offsets_ok A = true -> csr_cols_ok A = true -> Width A = Height A ->
  ess_ok ess A = true -> eliminate ess A = Ok B -> In d ess ->
  (in_row (GetI A) d p -> col_at (GetJ A) p <> d -> val_at (GetData B) p = 0%float) /\
  (csr_rows_nodup A = true -> csr_symmetric A = true ->
   forall r, 0 <= r < Height A -> in_row (GetI A) r p -> r <> d ->
             col_at (GetJ A) p = d -> val_at (GetData B) p = 0%float) /\
  (in_row (GetI A) d p -> col_at (GetJ A) p = d ->
   val_at (GetData B) p = val_at (GetData A) p).
Proof.
  intros Hok Hcols Hsq Hess H Hin.
  pose proof (ess_ok_facts ess A d Hess Hin) as Hd.
  destruct (eliminate_writes ess A B H) as [_ HW].
  unfold eliminate in H. invb H as dA Hl. injection H as <-. cbn [set_Data GetData] in *.
  assert (Hkeep : 0 <= p -> forall y s s', In y ess ->
            Assemble_dof (GetI A) (GetJ A) s y = Ok s' ->
            val_at s p = 0%float -> val_at s' p = 0%float).
  { intros Hp0 y s s' _ Hs Hz. apply Assemble_dof_writes in Hs.
    apply (writes_sticky _ s s' p 0%float Hs Hp0); [|exact Hz].
    intros v'. apply W_serial_zero. }
  split; [|split].
  - intros Hp Hc. pose proof (in_row_nonneg A d p Hok Hd Hp) as Hp0.
    apply (index_loop_reach arr_ess_dofs ess d (fun s => val_at s p = 0%float) _ _ _ Hl Hin);
      [|apply (Hkeep Hp0)].
    intros s s' Hs. apply (Assemble_dof_row A d p s s' Hok Hd Hs Hp Hc).
  - intros Hnd Hsym r Hr Hp Hne Hc. pose proof (in_row_nonneg A r p Hok Hr Hp) as Hp0.
    destruct (csr_symmetric_facts A r p Hok Hcols Hsym Hsq Hr Hp) as (q & Hq & Hcq).
    rewrite Hc in Hq.
    apply (index_loop_reach arr_ess_dofs ess d (fun s => val_at s p = 0%float) _ _ _ Hl Hin);
      [|apply (Hkeep Hp0)].
    intros s s' Hs. apply (Assemble_dof_col A d r q p s s' Hok Hnd Hr Hs Hq Hcq Hne Hp Hc).
  - intros Hp Hc. pose proof (in_row_nonneg A d p Hok Hd Hp) as Hp0.
    apply (writes_frame _ _ _ p HW Hp0).
    intros v (idof & _ & HWs). apply (W_serial_diagonal A d idof p v Hok Hd Hp Hc HWs).
Qed.

(** C5, with the conditions it needs.  The serial form works on a square CSR
    matrix, the distributed form on a square diagonal block and an
    off-diagonal block with as many rows.  In each block [I] has one entry
    more than there are rows, its offsets are not negative, do not decrease
    and do not pass the end of [J], and [Data] is as long as [J]; the square
    matrix stores only columns that are rows of it; every essential DOF is a
    row of the matrix; the mask has an entry for every column of the
    off-diagonal block.  Then the elimination returns, and for every
    essential DOF [d] the entries of row [d] off the diagonal are zero; the
    entries of column [d] off the diagonal are zero when no row stores a
    column twice and the pattern is symmetric.  The serial elimination leaves
    the entry [(d, d)] as it was.  The distributed elimination sets the entry
    [(d, d)] of the diagonal block to one, zeroes row [d] of the off-diagonal
    block and, when no row of that block stores a column twice, every entry
    of it in a column that the mask marks. *)
Theorem elimination_policies :
  (forall (ess : list Z) (A : SparseMatrix),
     csr_offsets_ok A = true -> csr_cols_ok A = true -> Width A = Height A ->
     ess_ok ess A = true ->
     exists B, eliminate ess A = Ok B /\
       forall d p, In d ess ->
         (in_row (GetI A) d p -> col_at (GetJ A) p <> d -> val_at (GetData B) p = 0%float) /\
         (csr_rows_nodup A = true -> csr_symmetric A = true ->
          forall r, 0 <= r < Height A -> in_row (GetI A) r p -> r <> d ->
                    col_at (GetJ A) p = d -> val_at (GetData B) p = 0%float) /\
         (in_row (GetI A) d p -> col_at (GetJ A) p = d ->
          val_at (GetData B) p = val_at (GetData A) p)) /\
  (forall (ess mask : list Z) (A : hypre_ParCSRMatrix),
     csr_offsets_ok (hypre_diag A) = true -> csr_cols_ok (hypre_diag A) = true ->
     Width (hypre_diag A) = Height (hypre_diag A) ->
     ess_ok ess (hypre_diag A) = true ->
     csr_offsets_ok (hypre_offd A) = true ->
     Height (hypre_offd A) = Height (hypre_diag A) ->
     Width (hypre_offd A) <= Z.of_nat (length mask) ->
     exists B, ParAssemble_eliminate ess mask A = Ok B /\
       (forall d p, In d ess ->
          (in_row (GetI (hypre_diag A)) d p -> col_at (GetJ (hypre_diag A)) p = d ->
           val_at (GetData (hypre_diag B)) p = 1%float) /\
          (in_row (GetI (hypre_diag A)) d p -> col_at (GetJ (hypre_diag A)) p <> d ->
           val_at (GetData (hypre_diag B)) p = 0%float) /\
          (csr_rows_nodup (hypre_diag A) = true -> csr_symmetric (hypre_diag A) = true ->
           forall r, 0 <= r < Height (hypre_diag A) -> in_row (GetI (hypre_diag A)) r p ->
                     r <> d -> col_at (GetJ (hypre_diag A)) p = d ->
                     val_at (GetData (hypre_diag B)) p = 0%float) /\
          (in_row (GetI (hypre_offd A)) d p ->
           val_at (GetData (hypre_offd B)) p = 0%float)) /\
       (csr_rows_nodup (hypre_offd A) = true ->
        forall c r p, 0 <= c < Width (hypre_offd A) -> nth (Z.to_nat c) mask 0 <> 0 ->
          0 <= r < Height (hypre_offd A) -> in_row (GetI (hypre_offd A)) r p ->
          col_at (GetJ (hypre_offd A)) p = c ->
          val_at (GetData (hypre_offd B)) p = 0%float)).
Proof.
  split.
  - intros ess A Hok Hcols Hsq Hess.
    destruct (eliminate_total ess A Hok Hcols Hsq Hess) as (B & E).
    exists B. split; [exact E|]. intros d p Hin.
    apply (eliminate_effect ess A B d p Hok Hcols Hsq Hess E Hin).
  - apply ParAssemble_eliminate_zeroes.
Qed.

(** The dense block of four DOFs and the two blocks of a rank, DOF 0
    essential: row 0 and column 0 are zeroed off the diagonal, the diagonal
    entry stays 11 in the serial form and becomes 1 in the distributed one,
    where the marked column 1 of the off-diagonal block is zeroed too. *)
Lemma elimination_policies_witness :
  (exists B, eliminate [0] Samples.dense_matrix = Ok B /\
     val_at (GetData B) 0 = 11%float /\
     val_at (GetData B) 1 = 0%float /\ val_at (GetData B) 2 = 0%float /\
     val_at (GetData B) 3 = 0%float /\ val_at (GetData B) 4 = 0%float /\
     val_at (GetData B) 8 = 0%float /\ val_at (GetData B) 12 = 0%float) /\
  (exists B, ParAssemble_eliminate [0] Samples.par_eliminate_col Samples.par_matrix = Ok B /\
     val_at (GetData (hypre_diag B)) 0 = 1%float /\
     val_at (GetData (hypre_diag B)) 1 = 0%float /\
     val_at (GetData (hypre_diag B)) 2 = 0%float /\
     val_at (GetData (hypre_offd B)) 0 = 0%float /\
     val_at (GetData (hypre_offd B)) 2 = 0%float).
Proof.
  destruct elimination_policies as [Hserial Hpar].
  split.
  - destruct (Hserial [0] Samples.dense_matrix) as (B & E & H);
      try (vm_compute; reflexivity).
    exists B. split; [exact E|].
    assert (H0 : In 0 [0]) by (left; reflexivity).
    split; [|repeat split].
    + rewrite (proj2 (proj2 (H 0 0 H0))); [reflexivity | vm_compute; split; congruence
                                          | reflexivity].
    + apply (proj1 (H 0 1 H0)); [vm_compute; split; congruence | vm_compute; congruence].
    + apply (proj1 (H 0 2 H0)); [vm_compute; split; congruence | vm_compute; congruence].
    + apply (proj1 (H 0 3 H0)); [vm_compute; split; congruence | vm_compute; congruence].
    + apply (proj1 (proj2 (H 0 4 H0)) eq_refl eq_refl 1);
        [vm_compute; split; congruence | vm_compute; split; congruence | lia | reflexivity].
    + apply (proj1 (proj2 (H 0 8 H0)) eq_refl eq_refl 2);
        [vm_compute; split; congruence | vm_compute; split; congruence | lia | reflexivity].
    + apply (proj1 (proj2 (H 0 12 H0)) eq_refl eq_refl 3);
        [vm_compute; split; congruence | vm_compute; split; congruence | lia | reflexivity].
  - destruct (Hpar [0] Samples.par_eliminate_col Samples.par_matrix) as (B & E & H & Hc);
      try (vm_compute; reflexivity).
    + vm_compute. congruence.
    + exists B. split; [exact E|].
      assert (H0 : In 0 [0]) by (left; reflexivity).
      repeat split.
      * apply (proj1 (H 0 0 H0)); [vm_compute; split; congruence | reflexivity].
      * apply (proj1 (proj2 (H 0 1 H0))); [vm_compute; split; congruence | vm_compute; congruence].
      * apply (proj1 (proj2 (proj2 (H 0 2 H0))) eq_refl eq_refl 1);
          [vm_compute; split; congruence | vm_compute; split; congruence | lia | reflexivity].
      * apply (proj2 (proj2 (proj2 (H 0 0 H0)))). vm_compute; split; congruence.
      * apply (Hc eq_refl 1 1 2); [vm_compute; split; congruence | vm_compute; congruence
                          | vm_compute; split; congruence
                          | vm_compute; split; congruence | reflexivity].
Defined.

(** C5 as stated fails when the pattern is not symmetric.  For a template
    with the entry [(1, 0)] but not [(0, 1)] and DOF 0 essential, all checks
    of the assembly pass, and the entry [(1, 0)] of column 0 keeps its value
    2: row 0 holds no entry of column 1 that would lead the elimination to
    its counterpart. *)
Lemma elimination_misses_column :
  wf_fill Samples.lower = true /\ ess_dofs Samples.lower = [0] /\
  exists B, Assemble Samples.lower None = Ok B /\
    GetI B = [0; 1; 3] /\ GetJ B = [0; 0; 1] /\
    row_entries B 1 = [(0, 2%float); (1, 3%float)].
Proof.
  split; [vm_compute; reflexivity|]. split; [reflexivity|].
  eexists. split; [vm_compute; reflexivity|].
  split; [reflexivity|]. split; [reflexivity|]. vm_compute. reflexivity.
Qed.

(** ** Loops over the entries of an array *)

Lemma index_loop_fold_gen {S} (a : array_id) (f : S -> Z -> result S) (l pre : list Z) (s : S) :
  foldM (fun st i => x <- read a (pre ++ l) i ;; f st x)
        (iota (Z.of_nat (length pre)) (length l)) s
  = foldM f l s.
Proof.
  revert pre s; induction l as [|x l IH]; intros pre s; [reflexivity|].
  cbn [length iota foldM].
  rewrite (read_in a (pre ++ x :: l) (Z.of_nat (length pre)) 0)
    by (rewrite length_app; cbn [length]; lia).
  rewrite Nat2Z.id, app_nth2, Nat.sub_diag by lia. cbn [nth bind].
  destruct (f s x) as [s1|e]; cbn [bind]; [|reflexivity].
  replace (pre ++ x :: l) with ((pre ++ [x]) ++ l) by (rewrite <- app_assoc; reflexivity).
  replace (Z.of_nat (length pre) + 1) with (Z.of_nat (length (pre ++ [x])))
    by (rewrite length_app; cbn [length]; lia).
  apply IH.
Qed.

(** A loop that reads [l[i]] for [i = 0 .. size-1] visits the entries of [l]
    in order. *)
Lemma index_loop_fold {S} (a : array_id) (f : S -> Z -> result S) (l : list Z) (s : S) :
  forall_loop (Z.of_nat (length l)) (fun st i => x <- read a l i ;; f st x) s = foldM f l s.
Proof.
  unfold forall_loop, range. replace (Z.to_nat (Z.of_nat (length l) - 0)) with (length l) by lia.
  apply (index_loop_fold_gen a f l [] s).
Qed.

(** ** The elimination does not read [Data] *)

Lemma val_at_ext (l l' : list float) :
  length l = length l' -> (forall p, 0 <= p -> val_at l p = val_at l' p) -> l = l'.
Proof.
  intros HL H. apply (nth_ext l l' 0%float 0%float HL).
  intros k _. specialize (H (Z.of_nat k) ltac:(lia)). unfold val_at in H.
  rewrite Nat2Z.id in H. exact H.
Qed.

Lemma obl_fault (V : Z -> float -> Prop) (n : nat) (e : fault) :
  oblivious V n (fun _ => Fault e).
Proof. left. intros data _. exists e. reflexivity. Qed.

Lemma obl_ret (V : Z -> float -> Prop) (n : nat) : oblivious V n (fun d => Ok d).
Proof.
  right. exists (fun _ => None). split; [discriminate|].
  intros data HL. exists data. split; [reflexivity|]. split; [exact HL|]. reflexivity.
Qed.

Lemma obl_weaken (V V' : Z -> float -> Prop) (n : nat) (f : list float -> result (list float)) :
  (forall p v, V p v -> V' p v) -> oblivious V n f -> oblivious V' n f.
Proof.
  intros HV [Hf|(w & Hw & Hf)]; [left; exact Hf|].
  right. exists w. split; [|exact Hf]. intros p v E. apply HV, (Hw p v E).
Qed.

Lemma obl_bind (V : Z -> float -> Prop) (n : nat) (f g : list float -> result (list float)) :
  oblivious V n f -> oblivious V n g -> oblivious V n (fun d => d' <- f d ;; g d').
Proof.
  intros [Hf|(wf & Vf & Hf)] Hg.
  - left. intros data HL. destruct (Hf data HL) as (e & E). exists e. rewrite E. reflexivity.
  - destruct Hg as [Hg|(wg & Vg & Hg)].
    + left. intros data HL. destruct (Hf data HL) as (d1 & E1 & L1 & _).
      destruct (Hg d1 L1) as (e & E). exists e. rewrite E1. exact E.
    + right. exists (fun p => match wg p with Some v => Some v | None => wf p end).
      split.
      * intros p v. destruct (wg p) as [u|] eqn:Eg.
        -- intros E. injection E as <-. apply (Vg p u Eg).
        -- apply Vf.
      * intros data HL. destruct (Hf data HL) as (d1 & E1 & L1 & H1).
        destruct (Hg d1 L1) as (d2 & E2 & L2 & H2).
        exists d2. rewrite E1. split; [exact E2|]. split; [exact L2|].
        intros p Hp. rewrite (H2 p Hp). unfold overlay.
        destruct (wg p); [reflexivity|]. apply (H1 p Hp).
Qed.

Lemma obl_write (V : Z -> float -> Prop) (n : nat) (a : array_id) (j : Z) (v : float) :
  V j v -> oblivious V n (fun d => write a d j v).
Proof.
  intros HV. destruct (Z_lt_le_dec j 0) as [Hneg|Hpos];
    [|destruct (Z_lt_le_dec j (Z.of_nat n)) as [Hin|Hout]].
  - left. intros data HL. exists (OutOfBounds a). unfold write.
    destruct (in_bounds data j) eqn:E; [apply in_bounds_true in E; lia | reflexivity].
  - right. exists (fun p => if p =? j then Some v else None). split.
    + intros p u. destruct (Z.eqb_spec p j) as [->|]; [|discriminate].
      intros E. injection E as <-. exact HV.
    + intros data HL. rewrite (write_in a data j v) by lia.
      eexists. split; [reflexivity|]. split; [rewrite list_set_length; exact HL|].
      intros p Hp. unfold overlay, val_at. destruct (Z.eqb_spec p j) as [->|Hne].
      * apply nth_list_set_eq. lia.
      * apply nth_list_set_neq. lia.
  - left. intros data HL. exists (OutOfBounds a). unfold write.
    destruct (in_bounds data j) eqn:E; [apply in_bounds_true in E; lia | reflexivity].
Qed.

Lemma obl_foldM {X} (V : Z -> float -> Prop) (n : nat)
    (f : list float -> X -> result (list float)) (l : list X) :
  (forall x, In x l -> oblivious V n (fun d => f d x)) ->
  oblivious V n (fun d => foldM f l d).
Proof.
  induction l as [|x l IH]; intros Hf.
  - apply obl_ret.
  - apply (obl_bind V n (fun d => f d x) (fun d' => foldM f l d')).
    + apply Hf. left. reflexivity.
    + apply IH. intros y Hy. apply Hf. right. exact Hy.
Qed.

Lemma obl_zero_first (V : Z -> float -> Prop) (n : nat) (J : list Z) (c k : Z) (m : nat) :
  (forall p, k <= p < k + Z.of_nat m -> col_at J p = c -> V p 0%float) ->
  oblivious V n (fun d => zero_first J c k m d).
Proof.
  revert k; induction m as [|m IH]; intros k HV; cbn [zero_first].
  - apply obl_ret.
  - destruct (read arr_J J k) as [x|e] eqn:Hr; cbn [bind]; [|apply obl_fault].
    apply (read_Ok arr_J J k x 0) in Hr. destruct Hr as [_ Hr].
    destruct (Z.eqb_spec x c) as [E|Hne].
    + apply obl_write. apply HV; [lia | unfold col_at; congruence].
    + apply IH. intros p Hp. apply HV. lia.
Qed.

Lemma obl_zero_in_row (V : Z -> float -> Prop) (n : nat) (I J : list Z) (row col : Z) :
  (forall p, in_row I row p -> col_at J p = col -> V p 0%float) ->
  oblivious V n (fun d => zero_in_row I J row col d).
Proof.
  intros HV. unfold zero_in_row.
  destruct (read arr_I I row) as [lo|e] eqn:Hlo; cbn [bind]; [|apply obl_fault].
  destruct (read arr_I I (row + 1)) as [hi|e] eqn:Hhi; cbn [bind]; [|apply obl_fault].
  apply (read_Ok arr_I I row lo 0) in Hlo. apply (read_Ok arr_I I (row + 1) hi 0) in Hhi.
  destruct Hlo as [_ Hlo], Hhi as [_ Hhi].
  apply obl_zero_first. intros p Hp. apply HV. unfold in_row. lia.
Qed.

Lemma obl_row_loop (V : Z -> float -> Prop) (n : nat) (I : list Z) (idof : Z)
    (f : list float -> Z -> result (list float)) :
  (forall j, in_row I idof j -> oblivious V n (fun d => f d j)) ->
  oblivious V n (fun d => lo <- read arr_I I idof ;;
                          hi <- read arr_I I (idof + 1) ;;
                          foldM f (range lo hi) d).
Proof.
  intros Hf.
  destruct (read arr_I I idof) as [lo|e] eqn:Hlo; cbn [bind]; [|apply obl_fault].
  destruct (read arr_I I (idof + 1)) as [hi|e] eqn:Hhi; cbn [bind]; [|apply obl_fault].
  apply (read_Ok arr_I I idof lo 0) in Hlo. apply (read_Ok arr_I I (idof + 1) hi 0) in Hhi.
  destruct Hlo as [_ Hlo], Hhi as [_ Hhi].
  apply obl_foldM. intros j Hj. apply in_range in Hj. apply Hf. unfold in_row. lia.
Qed.

Lemma obl_Assemble_entry (n : nat) (I J : list Z) (idof j : Z) :
  in_row I idof j ->
  oblivious (W_serial I J idof) n (fun d => Assemble_entry I J idof d j).
Proof.
  intros Hj. unfold Assemble_entry.
  destruct (read arr_J J j) as [jdof|e] eqn:Hr; cbn [bind]; [|apply obl_fault].
  apply (read_Ok arr_J J j jdof 0) in Hr. destruct Hr as [_ Hr]. fold (col_at J j) in Hr.
  destruct (Z.eqb_spec jdof idof) as [E|Hne]; cbn [negb]; [apply obl_ret|].
  apply (obl_bind _ n (fun d => write arr_Data d j 0%float)
                  (fun d' => zero_in_row I J jdof idof d')).
  - apply obl_write. split; [reflexivity|]. left. split; [exact Hj | congruence].
  - apply obl_zero_in_row. intros p Hp Hc. split; [reflexivity|]. right.
    split; [exact Hc|]. exists jdof. auto.
Qed.

Lemma obl_Assemble_dof (n : nat) (I J : list Z) (idof : Z) :
  oblivious (W_serial I J idof) n (fun d => Assemble_dof I J d idof).
Proof.
  unfold Assemble_dof. apply obl_row_loop. intros j Hj. apply (obl_Assemble_entry n I J idof j Hj).
Qed.

Lemma obl_ParAssemble_diag_entry (n : nat) (I J : list Z) (idof j : Z) :
  in_row I idof j ->
  oblivious (W_diag I J idof) n (fun d => ParAssemble_diag_entry I J idof d j).
Proof.
  intros Hj. unfold ParAssemble_diag_entry.
  destruct (read arr_J J j) as [jdof|e] eqn:Hr; cbn [bind]; [|apply obl_fault].
  apply (read_Ok arr_J J j jdof 0) in Hr. destruct Hr as [_ Hr]. fold (col_at J j) in Hr.
  destruct (Z.eqb_spec jdof idof) as [E|Hne].
  - apply obl_write. left. split; [reflexivity|]. split; [exact Hj | congruence].
  - apply (obl_bind _ n (fun d => write arr_Data d j 0%float)
                    (fun d' => zero_in_row I J jdof idof d')).
    + apply obl_write. right. split; [reflexivity|]. left. split; [exact Hj | congruence].
    + apply obl_zero_in_row. intros p Hp Hc. right. split; [reflexivity|]. right.
      split; [exact Hc|]. exists jdof. auto.
Qed.

Lemma obl_ParAssemble_diag_dof (n : nat) (I J : list Z) (idof : Z) :
  oblivious (W_diag I J idof) n (fun d => ParAssemble_diag_dof I J d idof).
Proof.
  unfold ParAssemble_diag_dof. apply obl_row_loop. intros j Hj.
  apply (obl_ParAssemble_diag_entry n I J idof j Hj).
Qed.

Lemma obl_ParAssemble_offd_dof (n : nat) (I : list Z) (idof : Z) :
  oblivious (fun p v => v = 0%float /\ in_row I idof p) n
            (fun d => ParAssemble_offd_dof I d idof).
Proof.
  unfold ParAssemble_offd_dof. apply obl_row_loop. intros j Hj.
  apply obl_write. auto.
Qed.

Lemma obl_ParAssemble_offd_col (n : nat) (nrows : Z) (I J : list Z) (j : Z) :
  oblivious (fun p v => v = 0%float /\ col_at J p = j) n
            (fun d => ParAssemble_offd_col nrows I J d j).
Proof.
  unfold ParAssemble_offd_col. apply obl_foldM. intros i _.
  apply obl_zero_in_row. auto.
Qed.

Lemma obl_ext (V : Z -> float -> Prop) (n : nat) (f g : list float -> result (list float)) :
  (forall d, f d = g d) -> oblivious V n g -> oblivious V n f.
Proof.
  intros E [Hg|(w & Hw & Hg)].
  - left. intros data HL. rewrite E. apply (Hg data HL).
  - right. exists w. split; [exact Hw|]. intros data HL. rewrite E. apply (Hg data HL).
Qed.

Lemma obl_index_loop (V : Z -> float -> Prop) (n : nat) (a : array_id) (l : list Z)
    (f : list float -> Z -> result (list float)) :
  (forall x, In x l -> oblivious V n (fun d => f d x)) ->
  oblivious V n (fun d => forall_loop (Z.of_nat (length l))
                                      (fun data i => x <- read a l i ;; f data x) d).
Proof.
  intros Hf. apply (obl_ext V n _ (fun d => foldM f l d)).
  - intros d. apply index_loop_fold.
  - apply obl_foldM. exact Hf.
Qed.

Lemma obl_Ok (V : Z -> float -> Prop) (n : nat) (f : list float -> result (list float))
    (data data' : list float) :
  oblivious V n f -> length data = n -> f data = Ok data' ->
  exists w, (forall p v, w p = Some v -> V p v) /\
    forall d, length d = n ->
      exists d', f d = Ok d' /\ length d' = n /\
                 forall p, 0 <= p -> val_at d' p = overlay w d p.
Proof.
  intros [Hf|Hf] HL E; [|exact Hf].
  destruct (Hf data HL) as (e & E'). congruence.
Qed.

(** Running an update that does not read the array a second time changes
    nothing. *)
Lemma obl_idempotent (V : Z -> float -> Prop) (n : nat) (f : list float -> result (list float))
    (data data' : list float) :
  oblivious V n f -> length data = n -> f data = Ok data' -> f data' = Ok data'.
Proof.
  intros Hf HL E. destruct (obl_Ok V n f data data' Hf HL E) as (w & _ & H).
  destruct (H data HL) as (d1 & E1 & L1 & H1). rewrite E in E1. injection E1 as <-.
  destruct (H data' L1) as (d2 & E2 & L2 & H2). rewrite E2. f_equal.
  apply val_at_ext; [congruence|].
  intros p Hp. rewrite (H2 p Hp), (H1 p Hp). unfold overlay.
  destruct (w p) eqn:Ew; [reflexivity|].
  rewrite (H1 p Hp). unfold overlay. rewrite Ew. reflexivity.
Qed.

Lemma obl_independent (V : Z -> float -> Prop) (n : nat)
    (f : list float -> result (list float)) (d1 d1' d2 : list float) :
  oblivious V n f -> length d1 = n -> length d2 = n -> f d1 = Ok d1' ->
  exists d2', f d2 = Ok d2' /\ length d2' = n /\
    forall p, 0 <= p ->
      (val_at d1' p = val_at d2' p /\ V p (val_at d1' p)) \/
      (val_at d1' p = val_at d1 p /\ val_at d2' p = val_at d2 p).
Proof.
  intros Hf L1 L2 E. destruct (obl_Ok V n f d1 d1' Hf L1 E) as (w & Hw & H).
  destruct (H d1 L1) as (x & Ex & _ & Hx). rewrite E in Ex. injection Ex as <-.
  destruct (H d2 L2) as (d2' & E2 & L2' & H2).
  exists d2'. split; [exact E2|]. split; [exact L2'|].
  intros p Hp. rewrite (Hx p Hp), (H2 p Hp). unfold overlay.
  destruct (w p) as [v|] eqn:Ew; [left | right]; auto.
Qed.

(** Two updates that do not read the array and agree on the value of a cell
    can be run in either order. *)
Lemma obl_swap (V : Z -> float -> Prop) (n : nat) (f g : list float -> result (list float))
    (data d1 d2 : list float) :
  (forall p v v', V p v -> V p v' -> v = v') ->
  oblivious V n f -> oblivious V n g -> length data = n ->
  f data = Ok d1 -> g d1 = Ok d2 ->
  exists d1', g data = Ok d1' /\ f d1' = Ok d2.
Proof.
  intros HV Hf Hg HL E1 E2.
  destruct (obl_Ok V n f data d1 Hf HL E1) as (wf & Vf & Ff).
  destruct (Ff data HL) as (x & Ex & L1 & H1). rewrite E1 in Ex. injection Ex as <-.
  destruct (obl_Ok V n g d1 d2 Hg L1 E2) as (wg & Vg & Fg).
  destruct (Fg d1 L1) as (x & Ex & L2 & H2). rewrite E2 in Ex. injection Ex as <-.
  destruct (Fg data HL) as (d1' & E1' & L1' & H1').
  destruct (Ff d1' L1') as (d2' & E2' & L2' & H2').
  exists d1'. split; [exact E1'|]. rewrite E2'. f_equal.
  apply val_at_ext; [congruence|].
  intros p Hp. rewrite (H2' p Hp), (H2 p Hp). unfold overlay.
  destruct (wf p) as [u|] eqn:Ef, (wg p) as [v|] eqn:Eg.
  - apply (HV p u v (Vf p u Ef) (Vg p v Eg)).
  - rewrite (H1 p Hp). unfold overlay. rewrite Ef. reflexivity.
  - rewrite (H1' p Hp). unfold overlay. rewrite Eg. reflexivity.
  - rewrite (H1 p Hp), (H1' p Hp). unfold overlay. rewrite Ef, Eg. reflexivity.
Qed.

Lemma obl_length (V : Z -> float -> Prop) (n : nat) (f : list float -> result (list float))
    (data data' : list float) :
  oblivious V n f -> length data = n -> f data = Ok data' -> length data' = n.
Proof.
  intros Hf HL E. destruct (obl_Ok V n f data data' Hf HL E) as (w & _ & H).
  destruct (H data HL) as (x & Ex & L & _). congruence.
Qed.

(** A loop of such updates returns the same array in every order of its
    iterations. *)
Lemma foldM_Permutation {X} (V : Z -> float -> Prop) (n : nat)
    (f : list float -> X -> result (list float)) (l l' : list X) :
  (forall p v v', V p v -> V p v' -> v = v') ->
  Permutation l l' ->
  (forall x, In x l -> oblivious V n (fun d => f d x)) ->
  forall data B, length data = n -> foldM f l data = Ok B -> foldM f l' data = Ok B.
Proof.
  intros HV Hp. induction Hp as [|x l l' Hp IH|x y l|l l' l'' Hp1 IH1 Hp2 IH2];
    intros Hf data B HL H.
  - exact H.
  - cbn [foldM] in H |- *. invb H as d1 E1. rewrite E1. cbn [bind].
    apply IH; [intros z Hz; apply Hf; right; exact Hz| |exact H].
    apply (obl_length V n (fun d => f d x) data d1); [apply Hf; left; reflexivity | exact HL | exact E1].
  - cbn [foldM] in H |- *. invb H as d1 E1. invb H as d2 E2.
    destruct (obl_swap V n (fun d => f d y) (fun d => f d x) data d1 d2 HV) as (d1' & F1 & F2);
      [apply Hf; left; reflexivity | apply Hf; right; left; reflexivity | exact HL
      | exact E1 | exact E2 |].
    rewrite F1. cbn [bind]. rewrite F2. cbn [bind]. exact H.
  - apply IH2; [|exact HL|].
    + intros z Hz. apply Hf. apply (Permutation_in z (Permutation_sym Hp1) Hz).
    + apply IH1; [exact Hf | exact HL | exact H].
Qed.

Lemma W_diag_agree (A : SparseMatrix) (x y p : Z) (v v' : float) :
  csr_offsets_ok A = true -> 0 <= x < Height A -> 0 <= y < Height A ->
  W_diag (GetI A) (GetJ A) x p v -> W_diag (GetI A) (GetJ A) y p v' -> v = v'.
Proof.
  intros Hok Hx Hy H1 H2.
  destruct H1 as [(E1 & Hr1 & Hc1)|H1s].
  - rewrite E1. symmetry. apply (W_diag_on A x y p v' Hok Hx Hr1 Hc1 H2).
  - destruct H2 as [(E2 & Hr2 & Hc2)|H2s].
    + rewrite E2. apply (W_diag_on A y x p v Hok Hy Hr2 Hc2). right. exact H1s.
    + rewrite (W_serial_zero _ _ _ _ _ H1s), (W_serial_zero _ _ _ _ _ H2s). reflexivity.
Qed.

Lemma obl_eliminate_loop (n : nat) (ess : list Z) (I J : list Z) :
  oblivious (fun _ v => v = 0%float) n
    (fun d => forall_loop (Z.of_nat (length ess))
                (fun dA i => idof <- read arr_ess_dofs ess i ;; Assemble_dof I J dA idof) d).
Proof.
  apply obl_index_loop. intros idof _.
  apply (obl_weaken (W_serial I J idof)); [|apply obl_Assemble_dof].
  intros p v. apply W_serial_zero.
Qed.

(** X1. The serial elimination never reads [Data]: on two matrices with the
    same [I] and [J] and value arrays of the same length it returns on both
    or on none, and every cell is either zero in both results or left as it
    was in both. *)
Theorem eliminate_ignores_data (ess : list Z) (A A' B : SparseMatrix) :
  GetI A' = GetI A -> GetJ A' = GetJ A -> length (GetData A') = length (GetData A) ->
  eliminate ess A = Ok B ->
  exists B', eliminate ess A' = Ok B' /\
    forall p, 0 <= p ->
      (val_at (GetData B) p = 0%float /\ val_at (GetData B') p = 0%float) \/
      (val_at (GetData B) p = val_at (GetData A) p /\
       val_at (GetData B') p = val_at (GetData A') p).
Proof.
  intros HI HJ HL H. unfold eliminate in H |- *. invb H as dA E. injection H as <-.
  rewrite HI, HJ.
  destruct (obl_independent _ _ _ (GetData A) dA (GetData A')
              (obl_eliminate_loop (length (GetData A)) ess (GetI A) (GetJ A))
              eq_refl HL E) as (dA' & E' & _ & H').
  rewrite E'. cbn [bind]. eexists. split; [reflexivity|].
  cbn [set_Data GetData]. intros p Hp.
  destruct (H' p Hp) as [[H1 H2]|H1]; [left | right; exact H1].
  split; [exact H2 | congruence].
Qed.

Lemma eliminate_ignores_data_witness :
  exists B B',
    eliminate [0] Samples.dense_matrix = Ok B /\
    eliminate [0] (set_Data Samples.dense_matrix (repeat 7%float 16)) = Ok B' /\
    val_at (GetData B) 1 = 0%float /\ val_at (GetData B') 1 = 0%float /\
    val_at (GetData B) 5 = 22%float /\ val_at (GetData B') 5 = 7%float.
Proof.
  assert (E : eliminate [0] Samples.dense_matrix
              = Ok (set_Data Samples.dense_matrix
                      [11; 0; 0; 0; 0; 22; 23; 24; 0; 32; 33; 34; 0; 42; 43; 44]%float))
    by (vm_compute; reflexivity).
  destruct (eliminate_ignores_data [0] Samples.dense_matrix
              (set_Data Samples.dense_matrix (repeat 7%float 16)) _
              eq_refl eq_refl eq_refl E) as (B' & E' & H).
  eexists. exists B'. split; [exact E|]. split; [exact E'|].
  split; [reflexivity|].
  destruct (H 1 ltac:(lia)) as [[_ H1]|[H1 _]]; [|vm_compute in H1; discriminate H1].
  split; [exact H1|]. split; [reflexivity|].
  destruct (H 5 ltac:(lia)) as [[H5 _]|[_ H5]]; [vm_compute in H5; discriminate H5|].
  exact H5.
Defined.

(** X2. The serial elimination is idempotent: applied to its own result it
    returns the same matrix. *)
Theorem eliminate_idempotent (ess : list Z) (A B : SparseMatrix) :
  eliminate ess A = Ok B -> eliminate ess B = Ok B.
Proof.
  intros H. unfold eliminate in H |- *. invb H as dA E. injection H as <-.
  cbn [set_Data GetI GetJ GetData Height Width].
  rewrite (obl_idempotent _ _ _ (GetData A) dA
             (obl_eliminate_loop (length (GetData A)) ess (GetI A) (GetJ A)) eq_refl E).
  reflexivity.
Qed.

Lemma eliminate_idempotent_witness :
  exists B, eliminate [0; 2] Samples.dense_matrix = Ok B /\ eliminate [0; 2] B = Ok B.
Proof.
  assert (E : eliminate [0; 2] Samples.dense_matrix
              = Ok (set_Data Samples.dense_matrix
                      [11; 0; 0; 0; 0; 22; 0; 24; 0; 0; 33; 0; 0; 42; 0; 44]%float))
    by (vm_compute; reflexivity).
  eexists. split; [exact E|]. apply (eliminate_idempotent [0; 2] Samples.dense_matrix _ E).
Defined.

(** X3. The serial elimination does not depend on the order in which the
    iterations of its loop over the essential DOFs run: with the list of
    essential DOFs permuted it returns the same matrix. *)
Theorem eliminate_order_irrelevant (ess ess' : list Z) (A B : SparseMatrix) :
  Permutation ess ess' -> eliminate ess A = Ok B -> eliminate ess' A = Ok B.
Proof.
  intros Hp H. unfold eliminate in H |- *. invb H as dA E. injection H as <-.
  rewrite index_loop_fold in E |- *.
  rewrite (foldM_Permutation (fun _ v => v = 0%float) (length (GetData A))
             (Assemble_dof (GetI A) (GetJ A)) ess ess') with (B := dA);
    [reflexivity | intros p v v' -> ->; reflexivity | exact Hp | | reflexivity | exact E].
  intros idof _.
  apply (obl_weaken (W_serial (GetI A) (GetJ A) idof)); [|apply obl_Assemble_dof].
  intros p v. apply W_serial_zero.
Qed.

Lemma eliminate_order_irrelevant_witness :
  exists B, eliminate [0; 2] Samples.dense_matrix = Ok B /\
            eliminate [2; 0] Samples.dense_matrix = Ok B.
Proof.
  assert (E : eliminate [0; 2] Samples.dense_matrix
              = Ok (set_Data Samples.dense_matrix
                      [11; 0; 0; 0; 0; 22; 0; 24; 0; 0; 33; 0; 0; 42; 0; 44]%float))
    by (vm_compute; reflexivity).
  eexists. split; [exact E|].
  apply (eliminate_order_irrelevant [0; 2] [2; 0] Samples.dense_matrix _ (perm_swap 2 0 []) E).
Defined.

(** ** The distributed elimination as an update of the two value arrays *)

Lemma obl_diag_loop (n : nat) (ess : list Z) (I J : list Z) :
  oblivious (fun p v => exists idof, In idof ess /\ W_diag I J idof p v) n
    (fun d => forall_loop (Z.of_nat (length ess))
                (fun data i => idof <- read arr_ess_dofs ess i ;;
                               ParAssemble_diag_dof I J data idof) d).
Proof.
  apply obl_index_loop. intros idof Hin.
  apply (obl_weaken (W_diag I J idof)); [|apply obl_ParAssemble_diag_dof].
  intros p v HW. exists idof. auto.
Qed.

Lemma obl_offd_rows (n : nat) (ess : list Z) (I : list Z) :
  oblivious (fun p v => v = 0%float /\ exists idof, In idof ess /\ in_row I idof p) n
    (fun d => forall_loop (Z.of_nat (length ess))
                (fun data i => idof <- read arr_ess_dofs ess i ;;
                               ParAssemble_offd_dof I data idof) d).
Proof.
  apply obl_index_loop. intros idof Hin.
  apply (obl_weaken (fun p v => v = 0%float /\ in_row I idof p));
    [|apply obl_ParAssemble_offd_dof].
  intros p v [E Hr]. split; [exact E|]. exists idof. auto.
Qed.

Lemma obl_offd_cols (n : nat) (cols : list Z) (nrows : Z) (I J : list Z) :
  oblivious (fun p v => v = 0%float /\ In (col_at J p) cols) n
    (fun d => forall_loop (Z.of_nat (length cols))
                (fun data idx => j <- read arr_cols_to_eliminate cols idx ;;
                                 ParAssemble_offd_col nrows I J data j) d).
Proof.
  apply obl_index_loop. intros j Hin.
  apply (obl_weaken (fun p v => v = 0%float /\ col_at J p = j));
    [|apply obl_ParAssemble_offd_col].
  intros p v [E Hc]. split; [exact E|]. rewrite Hc. exact Hin.
Qed.

(** The steps of [ParAssemble_eliminate], one by one. *)
Lemma ParAssemble_eliminate_Ok (ess mask : list Z) (A B : hypre_ParCSRMatrix) :
  ParAssemble_eliminate ess mask A = Ok B ->
  exists d1 o1 cols o2,
    forall_loop (Z.of_nat (length ess))
      (fun data i => idof <- read arr_ess_dofs ess i ;;
                     ParAssemble_diag_dof (GetI (hypre_diag A)) (GetJ (hypre_diag A)) data idof)
      (GetData (hypre_diag A)) = Ok d1 /\
    forall_loop (Z.of_nat (length ess))
      (fun data i => idof <- read arr_ess_dofs ess i ;;
                     ParAssemble_offd_dof (GetI (hypre_offd A)) data idof)
      (GetData (hypre_offd A)) = Ok o1 /\
    cols_to_eliminate mask (Width (hypre_offd A)) = Ok cols /\
    forall_loop (Z.of_nat (length cols))
      (fun data idx => j <- read arr_cols_to_eliminate cols idx ;;
                       ParAssemble_offd_col (Height (hypre_offd A)) (GetI (hypre_offd A))
                                            (GetJ (hypre_offd A)) data j)
      o1 = Ok o2 /\
    B = {| hypre_diag := set_Data (hypre_diag A) d1;
           hypre_offd := set_Data (hypre_offd A) o2 |}.
Proof.
  unfold ParAssemble_eliminate. cbv zeta. intros H.
  invb H as d1 E1. invb H as o1 E2. invb H as cols Ec. invb H as o2 E3. injection H as <-.
  exists d1, o1, cols, o2. auto.
Qed.

Lemma ParAssemble_eliminate_from (ess mask : list Z) (A : hypre_ParCSRMatrix)
    (d1 o1 o2 : list float) (cols : list Z) :
  forall_loop (Z.of_nat (length ess))
    (fun data i => idof <- read arr_ess_dofs ess i ;;
                   ParAssemble_diag_dof (GetI (hypre_diag A)) (GetJ (hypre_diag A)) data idof)
    (GetData (hypre_diag A)) = Ok d1 ->
  forall_loop (Z.of_nat (length ess))
    (fun data i => idof <- read arr_ess_dofs ess i ;;
                   ParAssemble_offd_dof (GetI (hypre_offd A)) data idof)
    (GetData (hypre_offd A)) = Ok o1 ->
  cols_to_eliminate mask (Width (hypre_offd A)) = Ok cols ->
  forall_loop (Z.of_nat (length cols))
    (fun data idx => j <- read arr_cols_to_eliminate cols idx ;;
                     ParAssemble_offd_col (Height (hypre_offd A)) (GetI (hypre_offd A))
                                          (GetJ (hypre_offd A)) data j)
    o1 = Ok o2 ->
  ParAssemble_eliminate ess mask A
  = Ok {| hypre_diag := set_Data (hypre_diag A) d1;
          hypre_offd := set_Data (hypre_offd A) o2 |}.
Proof.
  intros E1 E2 Ec E3. unfold ParAssemble_eliminate. cbv zeta.
  rewrite E1. cbn [bind]. rewrite E2. cbn [bind]. rewrite Ec. cbn [bind].
  rewrite E3. reflexivity.
Qed.

(** X4. The distributed elimination is idempotent: applied to the two blocks
    it has returned, with the same mask, it returns them unchanged. *)
Theorem ParAssemble_eliminate_idempotent (ess mask : list Z) (A B : hypre_ParCSRMatrix) :
  ParAssemble_eliminate ess mask A = Ok B -> ParAssemble_eliminate ess mask B = Ok B.
Proof.
  intros H. destruct (ParAssemble_eliminate_Ok ess mask A B H)
    as (d1 & o1 & cols & o2 & E1 & E2 & Ec & E3 & ->).
  destruct A as [D O]. cbn [hypre_diag hypre_offd] in *.
  pose proof (obl_idempotent _ _ _ (GetData D) d1
                (obl_diag_loop (length (GetData D)) ess (GetI D) (GetJ D)) eq_refl E1) as F1.
  pose proof (obl_bind _ (length (GetData O)) _ _
                (obl_weaken _ (fun _ _ => True) _ _ (fun _ _ _ => Logic.I)
                   (obl_offd_rows (length (GetData O)) ess (GetI O)))
                (obl_weaken _ (fun _ _ => True) _ _ (fun _ _ _ => Logic.I)
                   (obl_offd_cols (length (GetData O)) cols (Height O) (GetI O) (GetJ O))))
    as Hobl.
  assert (E23 : (fun d => d' <- forall_loop (Z.of_nat (length ess))
                                  (fun data i => idof <- read arr_ess_dofs ess i ;;
                                                 ParAssemble_offd_dof (GetI O) data idof) d ;;
                          forall_loop (Z.of_nat (length cols))
                            (fun data idx => j <- read arr_cols_to_eliminate cols idx ;;
                                             ParAssemble_offd_col (Height O) (GetI O) (GetJ O)
                                                                  data j) d') (GetData O)
                = Ok o2).
  { cbv beta. rewrite E2. cbn [bind]. exact E3. }
  pose proof (obl_idempotent _ _ _ (GetData O) o2 Hobl eq_refl E23) as F23.
  cbv beta in F23. invb F23 as o1' F2.
  rewrite (ParAssemble_eliminate_from ess mask
             {| hypre_diag := set_Data D d1; hypre_offd := set_Data O o2 |} d1 o1' o2 cols);
    [reflexivity | exact F1 | exact F2 | exact Ec | exact F23].
Qed.

Lemma ParAssemble_eliminate_idempotent_witness :
  exists B,
    ParAssemble_eliminate [0] Samples.par_eliminate_col Samples.par_matrix = Ok B /\
    ParAssemble_eliminate [0] Samples.par_eliminate_col B = Ok B.
Proof.
  assert (E : ParAssemble_eliminate [0] Samples.par_eliminate_col Samples.par_matrix
              = Ok {| hypre_diag := set_Data (hypre_diag Samples.par_matrix)
                                             [1; 0; 0; 4]%float;
                      hypre_offd := set_Data (hypre_offd Samples.par_matrix)
                                             [0; -2; 0]%float |})
    by (vm_compute; reflexivity).
  eexists. split; [exact E|].
  apply (ParAssemble_eliminate_idempotent [0] Samples.par_eliminate_col Samples.par_matrix _ E).
Defined.

(** X5. When the offsets of the diagonal block do not decrease and the
    essential DOFs are rows of it, the distributed elimination does not
    depend on the order in which the iterations of its loops over the
    essential DOFs run: the cells that two iterations both write get the
    same value from both. *)
Theorem ParAssemble_eliminate_order_irrelevant (ess ess' mask : list Z)
    (A B : hypre_ParCSRMatrix) :
  csr_offsets_ok (hypre_diag A) = true -> ess_ok ess (hypre_diag A) = true ->
  Permutation ess ess' ->
  ParAssemble_eliminate ess mask A = Ok B -> ParAssemble_eliminate ess' mask A = Ok B.
Proof.
  intros Hok Hess Hp H. destruct (ParAssemble_eliminate_Ok ess mask A B H)
    as (d1 & o1 & cols & o2 & E1 & E2 & Ec & E3 & ->).
  apply ParAssemble_eliminate_from with (o1 := o1) (cols := cols); [| |exact Ec|exact E3].
  - rewrite index_loop_fold in E1 |- *.
    apply (foldM_Permutation
             (fun p v => exists idof, In idof ess /\
                           W_diag (GetI (hypre_diag A)) (GetJ (hypre_diag A)) idof p v)
             (length (GetData (hypre_diag A)))
             (ParAssemble_diag_dof (GetI (hypre_diag A)) (GetJ (hypre_diag A))) ess ess');
      [ | exact Hp | | reflexivity | exact E1].
    + intros p v v' (x & Hx & Wx) (y & Hy & Wy).
      apply (W_diag_agree (hypre_diag A) x y p v v' Hok); try assumption.
      * apply (ess_ok_facts ess _ x Hess Hx).
      * apply (ess_ok_facts ess _ y Hess Hy).
    + intros idof Hin.
      apply (obl_weaken (W_diag (GetI (hypre_diag A)) (GetJ (hypre_diag A)) idof));
        [|apply obl_ParAssemble_diag_dof].
      intros p v HW. exists idof. auto.
  - rewrite index_loop_fold in E2 |- *.
    apply (foldM_Permutation (fun _ v => v = 0%float) (length (GetData (hypre_offd A)))
             (ParAssemble_offd_dof (GetI (hypre_offd A))) ess ess');
      [intros p v v' -> ->; reflexivity | exact Hp | | reflexivity | exact E2].
    intros idof _.
    apply (obl_weaken (fun p v => v = 0%float /\ in_row (GetI (hypre_offd A)) idof p));
      [|apply obl_ParAssemble_offd_dof].
    intros p v [E _]. exact E.
Qed.

Lemma ParAssemble_eliminate_order_irrelevant_witness :
  exists B,
    ParAssemble_eliminate [0; 1] Samples.par_eliminate_col Samples.par_matrix = Ok B /\
    ParAssemble_eliminate [1; 0] Samples.par_eliminate_col Samples.par_matrix = Ok B.
Proof.
  assert (E : ParAssemble_eliminate [0; 1] Samples.par_eliminate_col Samples.par_matrix
              = Ok {| hypre_diag := set_Data (hypre_diag Samples.par_matrix)
                                             [1; 0; 0; 1]%float;
                      hypre_offd := set_Data (hypre_offd Samples.par_matrix)
                                             [0; 0; 0]%float |})
    by (vm_compute; reflexivity).
  eexists. split; [exact E|].
  apply (ParAssemble_eliminate_order_irrelevant [0; 1] [1; 0] Samples.par_eliminate_col
           Samples.par_matrix _ ltac:(vm_compute; reflexivity) ltac:(vm_compute; reflexivity)
           (perm_swap 1 0 []) E).
Defined.

Lemma obl_frame (V : Z -> float -> Prop) (n : nat) (f : list float -> result (list float))
    (data data' : list float) (p : Z) :
  oblivious V n f -> length data = n -> f data = Ok data' -> 0 <= p ->
  (forall v, ~ V p v) -> val_at data' p = val_at data p.
Proof.
  intros Hf HL E Hp Hn. destruct (obl_Ok V n f data data' Hf HL E) as (w & Hw & H).
  destruct (H data HL) as (x & Ex & _ & Hx). rewrite E in Ex. injection Ex as <-.
  rewrite (Hx p Hp). unfold overlay. destruct (w p) as [v|] eqn:Ew; [|reflexivity].
  destruct (Hn v (Hw p v Ew)).
Qed.

Lemma foldM_steps_Ok {S X} (f : S -> X -> result S) (l : list X) (s s' : S) (x : X) :
  foldM f l s = Ok s' -> In x l -> exists s1 s2, f s1 x = Ok s2.
Proof.
  revert s; induction l as [|y l IH]; intros s H Hx; [contradiction|].
  cbn [foldM] in H. invb H as s1 H1. destruct Hx as [->|Hx].
  - exists s, s1. exact H1.
  - apply (IH s1 H Hx).
Qed.

(** The mask is read at every column of the block. *)
Lemma cols_to_eliminate_Ok (mask cols : list Z) (n : Z) :
  cols_to_eliminate mask n = Ok cols -> cols = marked_cols mask n.
Proof.
  intros H. assert (Hn : n <= Z.of_nat (length mask)).
  { destruct (Z_le_gt_dec n 0) as [Hle|Hgt]; [lia|].
    unfold cols_to_eliminate in H. invb H as c Hc. unfold count_cols in Hc.
    destruct (foldM_steps_Ok _ _ _ _ (n - 1) Hc) as (s1 & s2 & Hs); [apply in_range; lia|].
    invb Hs as v Hv. apply (read_Ok arr_eliminate_col mask (n - 1) v 0) in Hv. lia. }
  rewrite (cols_to_eliminate_ok mask n Hn) in H. injection H as <-. reflexivity.
Qed.

(** X6. The distributed elimination changes only the value arrays of the
    two blocks: their dimensions, offsets and columns are those of the input.
    In the diagonal block an entry outside the rows and columns of the
    essential DOFs keeps its value; in the off-diagonal block an entry
    outside the rows of the essential DOFs and the columns the mask marks
    keeps its value. *)
Theorem ParAssemble_eliminate_frame (ess mask : list Z) (A B : hypre_ParCSRMatrix) :
  ParAssemble_eliminate ess mask A = Ok B ->
  (Height (hypre_diag B) = Height (hypre_diag A) /\
   Width (hypre_diag B) = Width (hypre_diag A) /\
   GetI (hypre_diag B) = GetI (hypre_diag A) /\
   GetJ (hypre_diag B) = GetJ (hypre_diag A) /\
   length (GetData (hypre_diag B)) = length (GetData (hypre_diag A))) /\
  (Height (hypre_offd B) = Height (hypre_offd A) /\
   Width (hypre_offd B) = Width (hypre_offd A) /\
   GetI (hypre_offd B) = GetI (hypre_offd A) /\
   GetJ (hypre_offd B) = GetJ (hypre_offd A) /\
   length (GetData (hypre_offd B)) = length (GetData (hypre_offd A))) /\
  (forall p, 0 <= p ->
     (forall d, In d ess -> ~ in_row (GetI (hypre_diag A)) d p) ->
     ~ In (col_at (GetJ (hypre_diag A)) p) ess ->
     val_at (GetData (hypre_diag B)) p = val_at (GetData (hypre_diag A)) p) /\
  (forall p, 0 <= p ->
     (forall d, In d ess -> ~ in_row (GetI (hypre_offd A)) d p) ->
     ~ (0 <= col_at (GetJ (hypre_offd A)) p < Width (hypre_offd A) /\
        nth (Z.to_nat (col_at (GetJ (hypre_offd A)) p)) mask 0 <> 0) ->
     val_at (GetData (hypre_offd B)) p = val_at (GetData (hypre_offd A)) p).
Proof.
  intros H. destruct (ParAssemble_eliminate_Ok ess mask A B H)
    as (d1 & o1 & cols & o2 & E1 & E2 & Ec & E3 & ->).
  apply cols_to_eliminate_Ok in Ec. subst cols.
  destruct A as [D O]. cbn [hypre_diag hypre_offd set_Data Height Width GetI GetJ GetData] in *.
  pose proof (obl_diag_loop (length (GetData D)) ess (GetI D) (GetJ D)) as H1.
  pose proof (obl_offd_rows (length (GetData O)) ess (GetI O)) as H2.
  pose proof (obl_offd_cols (length (GetData O)) (marked_cols mask (Width O))
                (Height O) (GetI O) (GetJ O)) as H3.
  pose proof (obl_length _ _ _ _ _ H1 eq_refl E1) as L1.
  pose proof (obl_length _ _ _ _ _ H2 eq_refl E2) as L2.
  pose proof (obl_length _ _ _ _ _ H3 L2 E3) as L3.
  split; [auto|]. split; [auto|]. split.
  - intros p Hp Hrow Hcol. apply (obl_frame _ _ _ _ _ p H1 eq_refl E1 Hp).
    intros v (idof & Hin & [(_ & Hr & _)|(_ & [[Hr _]|[Hc _]])]).
    + apply (Hrow idof Hin Hr).
    + apply (Hrow idof Hin Hr).
    + apply Hcol. rewrite Hc. exact Hin.
  - intros p Hp Hrow Hcol.
    rewrite (obl_frame _ _ _ _ _ p H3 L2 E3 Hp).
    + apply (obl_frame _ _ _ _ _ p H2 eq_refl E2 Hp).
      intros v (_ & idof & Hin & Hr). apply (Hrow idof Hin Hr).
    + intros v (_ & Hin). apply Hcol. apply in_marked_cols in Hin. exact Hin.
Qed.

Lemma ParAssemble_eliminate_frame_witness :
  exists B,
    ParAssemble_eliminate [0] Samples.par_eliminate_col Samples.par_matrix = Ok B /\
    GetJ (hypre_offd B) = GetJ (hypre_offd Samples.par_matrix) /\
    val_at (GetData (hypre_diag B)) 3 = 4%float /\
    val_at (GetData (hypre_offd B)) 1 = (-2)%float.
Proof.
  assert (E : ParAssemble_eliminate [0] Samples.par_eliminate_col Samples.par_matrix
              = Ok {| hypre_diag := set_Data (hypre_diag Samples.par_matrix)
                                             [1; 0; 0; 4]%float;
                      hypre_offd := set_Data (hypre_offd Samples.par_matrix)
                                             [0; -2; 0]%float |})
    by (vm_compute; reflexivity).
  destruct (ParAssemble_eliminate_frame [0] Samples.par_eliminate_col Samples.par_matrix _ E)
    as (_ & (_ & _ & _ & HJ & _) & Hd & Ho).
  eexists. split; [exact E|]. split; [exact HJ|]. split.
  - rewrite (Hd 3); [reflexivity | lia | |].
    + intros d [<-|[]]. vm_compute. intros [_ Hlt]. discriminate Hlt.
    + vm_compute. intros [Hc|[]]. discriminate Hc.
  - rewrite (Ho 1); [reflexivity | lia | |].
    + intros d [<-|[]]. vm_compute. intros [_ Hlt]. discriminate Hlt.
    + vm_compute. intros [_ Hm]. apply Hm. reflexivity.
Defined.

(** ** The two eliminations side by side *)

Lemma foldM_rel {S T X} (Rel : S -> T -> Prop) (f : S -> X -> result S)
    (g : T -> X -> result T) (l : list X) :
  (forall x s t s' t', In x l -> Rel s t -> f s x = Ok s' -> g t x = Ok t' -> Rel s' t') ->
  forall s t s' t', Rel s t -> foldM f l s = Ok s' -> foldM g l t = Ok t' -> Rel s' t'.
Proof.
  induction l as [|x l IH]; intros Hstep s t s' t' HR Hf Hg; cbn [foldM] in Hf, Hg.
  - injection Hf as <-. injection Hg as <-. exact HR.
  - invb Hf as s1 Hf1. invb Hg as t1 Hg1.
    apply (IH (fun y u v u' v' Hy => Hstep y u v u' v' (or_intror Hy)) s1 t1 s' t');
      [|exact Hf|exact Hg].
    apply (Hstep x s t s1 t1 (or_introl eq_refl) HR Hf1 Hg1).
Qed.

(** The arrays of the two eliminations differ at most by ones on the
    diagonal entries of the essential rows. *)
Lemma diag_entry_rel (ess : list Z) (I J : list Z) (idof j : Z) (s t s' t' : list float) :
  In idof ess -> in_row I idof j -> ones_on_diagonal ess I J s t ->
  Assemble_entry I J idof s j = Ok s' -> ParAssemble_diag_entry I J idof t j = Ok t' ->
  ones_on_diagonal ess I J s' t'.
Proof.
  intros Hin Hj [HL HR] Hs Ht.
  destruct (Z.eq_dec (col_at J j) idof) as [E|Hne].
  - unfold Assemble_entry in Hs. unfold ParAssemble_diag_entry in Ht.
    invb Hs as jdof Hr. rewrite Hr in Ht. cbn [bind] in Ht.
    apply (read_Ok arr_J J j jdof 0) in Hr. destruct Hr as [Hb Hr]. fold (col_at J j) in Hr.
    destruct (Z.eqb_spec jdof idof) as [_|Hne]; [|congruence].
    cbn [negb] in Hs. injection Hs as <-.
    apply write_Ok in Ht. destruct Ht as [Hjb ->].
    split; [rewrite list_set_length; exact HL|].
    intros p Hp. unfold val_at at 1 3. destruct (Z.eq_dec p j) as [->|Hpj].
    + right. rewrite nth_list_set_eq by lia. split; [reflexivity|]. exists idof. auto.
    + rewrite nth_list_set_neq by lia. apply (HR p Hp).
  - rewrite (diag_entry_off I J idof j t Hne) in Ht.
    destruct (obl_independent _ _ _ s s' t (obl_Assemble_entry (length s) I J idof j Hj)
                eq_refl (eq_sym HL) Hs) as (t2 & Et & Lt & Hind).
    rewrite Ht in Et. injection Et as <-.
    split.
    + rewrite Lt. apply (obl_length _ _ _ _ _ (obl_Assemble_entry (length s) I J idof j Hj)
                           eq_refl Hs).
    + intros p Hp. destruct (Hind p Hp) as [[Heq _]|[Hs' Ht']].
      * left. congruence.
      * rewrite Hs', Ht'. apply (HR p Hp).
Qed.

Lemma diag_dof_rel (ess : list Z) (I J : list Z) (idof : Z) (s t s' t' : list float) :
  In idof ess -> ones_on_diagonal ess I J s t ->
  Assemble_dof I J s idof = Ok s' -> ParAssemble_diag_dof I J t idof = Ok t' ->
  ones_on_diagonal ess I J s' t'.
Proof.
  intros Hin HR Hu Hv.
  unfold Assemble_dof in Hu. unfold ParAssemble_diag_dof in Hv.
  invb Hu as lo Hlo. invb Hu as hi Hhi. rewrite Hlo, Hhi in Hv. cbn [bind] in Hv.
  apply (read_Ok arr_I I idof lo 0) in Hlo. apply (read_Ok arr_I I (idof + 1) hi 0) in Hhi.
  destruct Hlo as [_ Hlo], Hhi as [_ Hhi].
  apply (foldM_rel (ones_on_diagonal ess I J) (Assemble_entry I J idof)
           (ParAssemble_diag_entry I J idof) (range lo hi)) with (s := s) (t := t);
    [|exact HR|exact Hu|exact Hv].
  intros j a b a' b' Hj HR' Ha Hb. apply in_range in Hj.
  apply (diag_entry_rel ess I J idof j a b a' b' Hin); try assumption.
  unfold in_row. lia.
Qed.

Lemma diag_loop_rel (ess l : list Z) (I J : list Z) (s t s' t' : list float) :
  (forall x, In x l -> In x ess) -> ones_on_diagonal ess I J s t ->
  foldM (Assemble_dof I J) l s = Ok s' ->
  foldM (ParAssemble_diag_dof I J) l t = Ok t' ->
  ones_on_diagonal ess I J s' t'.
Proof.
  intros Hl HR Hs Ht.
  apply (foldM_rel (ones_on_diagonal ess I J) (Assemble_dof I J)
           (ParAssemble_diag_dof I J) l) with (s := s) (t := t);
    [|exact HR|exact Hs|exact Ht].
  intros idof u v u' v' Hin HR' Hu Hv.
  apply (diag_dof_rel ess I J idof u v u' v' (Hl idof Hin) HR' Hu Hv).
Qed.

(** X7. The diagonal block after the distributed elimination is the result
    of the serial elimination on that block with the diagonal entries of the
    essential rows set to one, when the offsets of the block do not decrease
    and the essential DOFs are rows of it: the two policies differ in those
    entries only. *)
Theorem ParAssemble_diag_is_serial_with_ones (ess mask : list Z) (A Bp : hypre_ParCSRMatrix)
    (Bs : SparseMatrix) :
  csr_offsets_ok (hypre_diag A) = true -> ess_ok ess (hypre_diag A) = true ->
  eliminate ess (hypre_diag A) = Ok Bs ->
  ParAssemble_eliminate ess mask A = Ok Bp ->
  forall p, 0 <= p ->
    ((exists d, In d ess /\ in_row (GetI (hypre_diag A)) d p /\
                col_at (GetJ (hypre_diag A)) p = d) ->
     val_at (GetData (hypre_diag Bp)) p = 1%float /\
     val_at (GetData Bs) p = val_at (GetData (hypre_diag A)) p) /\
    (~ (exists d, In d ess /\ in_row (GetI (hypre_diag A)) d p /\
                  col_at (GetJ (hypre_diag A)) p = d) ->
     val_at (GetData (hypre_diag Bp)) p = val_at (GetData Bs) p).
Proof.
  intros Hok Hess Hs Hp p Hp0.
  destruct (ParAssemble_eliminate_Ok ess mask A Bp Hp)
    as (d1 & o1 & cols & o2 & E1 & _ & _ & _ & ->).
  destruct (eliminate_writes ess _ Bs Hs) as [_ HWs].
  unfold eliminate in Hs. invb Hs as dA Es. injection Hs as <-.
  cbn [hypre_diag set_Data GetData] in *.
  pose proof E1 as F1. rewrite index_loop_fold in F1, Es.
  destruct (diag_loop_rel ess ess _ _ _ _ dA d1 (fun x H => H)
              (conj eq_refl (fun p _ => or_introl eq_refl)) Es F1) as [_ HR].
  split.
  - intros (d & Hin & Hr & Hc). pose proof (ess_ok_facts ess _ d Hess Hin) as Hd. split.
    + apply (index_loop_reach arr_ess_dofs ess d (fun s => val_at s p = 1%float) _ _ _ E1 Hin).
      * intros s s' Hs'.
        apply (ParAssemble_diag_dof_diagonal (hypre_diag A) d p s s' Hok Hd Hs' Hr Hc).
      * intros y s s' _ Hs' Hz. apply ParAssemble_diag_dof_writes in Hs'.
        apply (writes_sticky _ s s' p 1%float Hs' Hp0); [|exact Hz].
        intros v'. apply (W_diag_on (hypre_diag A) d y p v' Hok Hd Hr Hc).
    + apply (writes_frame _ _ _ p HWs Hp0).
      intros v (idof & _ & HW).
      apply (W_serial_diagonal (hypre_diag A) d idof p v Hok Hd Hr Hc HW).
  - intros Hn. destruct (HR p Hp0) as [E|[_ Hd]]; [exact E | destruct (Hn Hd)].
Qed.

Lemma ParAssemble_diag_is_serial_with_ones_witness :
  exists Bs Bp,
    eliminate [0] (hypre_diag Samples.par_matrix) = Ok Bs /\
    ParAssemble_eliminate [0] Samples.par_eliminate_col Samples.par_matrix = Ok Bp /\
    val_at (GetData (hypre_diag Bp)) 0 = 1%float /\
    val_at (GetData Bs) 0 = 4%float /\
    val_at (GetData (hypre_diag Bp)) 1 = val_at (GetData Bs) 1.
Proof.
  assert (Es : eliminate [0] (hypre_diag Samples.par_matrix)
               = Ok (set_Data (hypre_diag Samples.par_matrix) [4; 0; 0; 4]%float))
    by (vm_compute; reflexivity).
  assert (Ep : ParAssemble_eliminate [0] Samples.par_eliminate_col Samples.par_matrix
               = Ok {| hypre_diag := set_Data (hypre_diag Samples.par_matrix)
                                              [1; 0; 0; 4]%float;
                       hypre_offd := set_Data (hypre_offd Samples.par_matrix)
                                              [0; -2; 0]%float |})
    by (vm_compute; reflexivity).
  pose proof (ParAssemble_diag_is_serial_with_ones [0] Samples.par_eliminate_col
                Samples.par_matrix _ _ ltac:(vm_compute; reflexivity)
                ltac:(vm_compute; reflexivity) Es Ep) as H.
  eexists. eexists. split; [exact Es|]. split; [exact Ep|].
  destruct (H 0 ltac:(lia)) as [H0 _]. destruct (H 1 ltac:(lia)) as [_ H1].
  split; [|split].
  - apply H0. exists 0. split; [left; reflexivity|].
    split; [vm_compute; split; congruence | reflexivity].
  - reflexivity.
  - apply H1. intros (d & [<-|[]] & _ & Hc). vm_compute in Hc. discriminate Hc.
Defined.

(** X8. The serial elimination keeps a matrix symmetric: on a square CSR
    matrix with a symmetric pattern and no duplicate column in a row, two
    entries [(r, c)] and [(c, r)] that hold the same value before the
    elimination hold the same value after it. *)
Theorem eliminate_preserves_symmetry (ess : list Z) (A B : SparseMatrix) (r c p q : Z) :
  csr_offsets_ok A = true -> csr_cols_ok A = true -> Width A = Height A ->
  csr_rows_nodup A = true -> csr_symmetric A = true -> ess_ok ess A = true ->
  eliminate ess A = Ok B ->
  0 <= r < Height A -> 0 <= c < Height A ->
  in_row (GetI A) r p -> col_at (GetJ A) p = c ->
  in_row (GetI A) c q -> col_at (GetJ A) q = r ->
  val_at (GetData A) p = val_at (GetData A) q ->
  val_at (GetData B) p = val_at (GetData B) q.
Proof.
  intros Hok Hcols Hsq Hnd Hsym Hess H Hr Hc Hp Hcp Hq Hcq Hv.
  pose proof (in_row_nonneg A r p Hok Hr Hp) as Hp0.
  pose proof (in_row_nonneg A c q Hok Hc Hq) as Hq0.
  destruct (Z.eq_dec r c) as [->|Hne].
  { rewrite (csr_nodup_facts A c p q Hok Hnd Hc Hp Hq); [reflexivity | congruence]. }
  destruct (in_dec Z.eq_dec r ess) as [Hin|Hnin].
  { destruct (eliminate_zeroes ess A B r p Hok Hcols Hsq Hnd Hsym Hess H Hin) as (H1 & _ & _).
    destruct (eliminate_zeroes ess A B r q Hok Hcols Hsq Hnd Hsym Hess H Hin) as (_ & H2 & _).
    rewrite (H1 Hp) by congruence. rewrite (H2 c Hc Hq) by congruence. reflexivity. }
  destruct (in_dec Z.eq_dec c ess) as [Hin|Hnin'].
  { destruct (eliminate_zeroes ess A B c q Hok Hcols Hsq Hnd Hsym Hess H Hin) as (H1 & _ & _).
    destruct (eliminate_zeroes ess A B c p Hok Hcols Hsq Hnd Hsym Hess H Hin) as (_ & H2 & _).
    rewrite (H1 Hq) by congruence. rewrite (H2 r Hr Hp) by congruence. reflexivity. }
  destruct (eliminate_writes ess A B H) as [_ HW].
  rewrite (writes_frame _ _ _ p HW Hp0), (writes_frame _ _ _ q HW Hq0); [exact Hv | |].
  - intros v (idof & Hin & _ & [[Hri _]|[Hci _]]).
    + apply Hnin'. rewrite <- (in_row_inj A c idof q Hok Hc Hq Hri). exact Hin.
    + apply Hnin. rewrite <- Hcq, Hci. exact Hin.
  - intros v (idof & Hin & _ & [[Hri _]|[Hci _]]).
    + apply Hnin. rewrite <- (in_row_inj A r idof p Hok Hr Hp Hri). exact Hin.
    + apply Hnin'. rewrite <- Hcp, Hci. exact Hin.
Qed.

Lemma eliminate_preserves_symmetry_witness :
  exists B, eliminate [0] (hypre_diag Samples.par_matrix) = Ok B /\
            val_at (GetData B) 1 = val_at (GetData B) 2.
Proof.
  assert (E : eliminate [0] (hypre_diag Samples.par_matrix)
              = Ok (set_Data (hypre_diag Samples.par_matrix) [4; 0; 0; 4]%float))
    by (vm_compute; reflexivity).
  eexists. split; [exact E|].
  apply (eliminate_preserves_symmetry [0] (hypre_diag Samples.par_matrix) _ 0 1 1 2);
    try exact E; try (vm_compute; reflexivity); try (vm_compute; split; congruence).
Defined.

(** X9. The array [cols_to_eliminate] that the count loop sizes and the
    second loop fills holds exactly the columns of the off-diagonal block
    that the mask marks, each once: the two loops agree, so no cell of the
    array is left at its initial zero and no store falls outside it. *)
Theorem cols_to_eliminate_exact (mask : list Z) (n : Z) :
  n <= Z.of_nat (length mask) ->
  exists cols,
    cols_to_eliminate mask n = Ok cols /\
    NoDup cols /\
    (forall c, In c cols <-> 0 <= c < n /\ nth (Z.to_nat c) mask 0 <> 0) /\
    count_cols mask n = Ok (Z.of_nat (length cols)).
Proof.
  intros Hn. exists (marked_cols mask n).
  split; [apply (cols_to_eliminate_ok mask n Hn)|].
  split; [unfold marked_cols; apply NoDup_filter, NoDup_range|].
  split; [intros c; apply in_marked_cols|].
  unfold count_cols. rewrite (count_cols_loop mask (range 0 n) 0).
  - reflexivity.
  - intros i Hi. apply in_range in Hi. lia.
Qed.

Lemma cols_to_eliminate_exact_witness :
  exists cols, cols_to_eliminate [0; 1; 0; 5] 4 = Ok cols /\ In 3 cols /\ NoDup cols.
Proof.
  destruct (cols_to_eliminate_exact [0; 1; 0; 5] 4 ltac:(vm_compute; congruence))
    as (cols & E & Hnd & Hin & _).
  exists cols. split; [exact E|]. split; [|exact Hnd].
  apply Hin. split; [lia|]. vm_compute. congruence.
Defined.

(** ** [GetMinElt] on its own *)

(** X10. On two lists of at most [Max] elements [GetMinElt] returns the
    least element that occurs in both, and [INT_MAX] when they share none. *)
Theorem GetMinElt_least_common (l1 l2 : list Z) :
  Z.of_nat (length l1) <= Max -> Z.of_nat (length l2) <= Max ->
  exists m,
    GetMinElt (pad l1) (Z.of_nat (length l1)) (pad l2) (Z.of_nat (length l2)) = Ok m /\
    m <= INT_MAX /\
    (forall e, In e l1 -> In e l2 -> m <= e) /\
    ((exists e, In e l1 /\ In e l2 /\ e < INT_MAX) -> In m l1 /\ In m l2) /\
    ((forall e, In e l1 -> ~ In e l2) -> m = INT_MAX).
Proof.
  intros H1 H2. exists (min_common l1 l2).
  split; [apply (GetMinElt_pad l1 l2 H1 H2)|].
  destruct (min_common_spec l1 l2) as (Hm & Hle & Hmin).
  split; [exact Hle|]. split; [exact Hmin|]. split.
  - intros (e & He1 & He2 & Hlt). destruct Hm as [Hm|Hm]; [|exact Hm].
    specialize (Hmin e He1 He2). lia.
  - intros Hno. destruct Hm as [Hm|[Hm1 Hm2]]; [exact Hm|].
    destruct (Hno _ Hm1 Hm2).
Qed.

Lemma GetMinElt_least_common_witness :
  exists m, GetMinElt (pad [4; 2; 7]) 3 (pad [7; 9; 2]) 3 = Ok m /\ m <= 2 /\ In m [4; 2; 7].
Proof.
  destruct (GetMinElt_least_common [4; 2; 7] [7; 9; 2]
              ltac:(vm_compute; congruence) ltac:(vm_compute; congruence))
    as (m & E & _ & Hmin & Hin & _).
  exists m. split; [exact E|]. split.
  - apply Hmin; cbn [In]; auto.
  - apply Hin. exists 2. cbn [In]. split; [auto|]. split; [auto|]. vm_compute. reflexivity.
Defined.

Lemma min_common_comm (l1 l2 : list Z) : min_common l1 l2 = min_common l2 l1.
Proof.
  destruct (min_common_spec l1 l2) as (Hm & Hle & Hmin).
  destruct (min_common_spec l2 l1) as (Hm' & Hle' & Hmin').
  destruct Hm as [Hm|[Hm1 Hm2]], Hm' as [Hm'|[Hm1' Hm2']].
  - congruence.
  - specialize (Hmin _ Hm2' Hm1'). lia.
  - specialize (Hmin' _ Hm2 Hm1). lia.
  - specialize (Hmin _ Hm2' Hm1'). specialize (Hmin' _ Hm2 Hm1). lia.
Qed.

(** X11. The election does not depend on which of the two DOFs is the row:
    [GetMinElt] returns the same element with its two lists exchanged. *)
Theorem GetMinElt_symmetric (l1 l2 : list Z) :
  Z.of_nat (length l1) <= Max -> Z.of_nat (length l2) <= Max ->
  GetMinElt (pad l1) (Z.of_nat (length l1)) (pad l2) (Z.of_nat (length l2))
  = GetMinElt (pad l2) (Z.of_nat (length l2)) (pad l1) (Z.of_nat (length l1)).
Proof.
  intros H1 H2. rewrite (GetMinElt_pad l1 l2 H1 H2), (GetMinElt_pad l2 l1 H2 H1).
  f_equal. apply min_common_comm.
Qed.

Lemma GetMinElt_symmetric_witness :
  GetMinElt (pad [4; 2; 7]) 3 (pad [7; 9; 2]) 3 = GetMinElt (pad [7; 9; 2]) 3 (pad [4; 2; 7]) 3.
Proof.
  apply (GetMinElt_symmetric [4; 2; 7] [7; 9; 2]); vm_compute; congruence.
Defined.

(** ** [HasIntegrators] on its own *)

(** X12. [HasIntegrators<T1, T2>] does not depend on the order of its two
    template arguments. *)
Theorem HasIntegrators_symmetric (T1 T2 : Form.Integrator) (a : Form.BilinearForm) :
  Form.HasIntegrators T1 T2 a = Form.HasIntegrators T2 T1 a.
Proof.
  unfold Form.HasIntegrators.
  destruct (Form.GetDBFI a) as [[|i0 [|i1 [|i2 l]]]|]; try reflexivity; apply orb_comm.
Qed.

(** ** The assembled matrix as the elimination reads it *)

Lemma SparseIJToCSR_rows (a : BatchedLORAssembly) (R : ElementRestriction)
    (A0 : option SparseMatrix) :
  wf_fill a = true -> el_restr a = Some R ->
  exists B,
    SparseIJToCSR a A0 = Ok B /\ Height B = nvdof a /\ Width B = nvdof a /\
    GetI B = offsets_of (occ (count_rows a R)) (nvdof a) /\
    Z.of_nat (length (GetJ B)) = psum (occ (count_rows a R)) (Z.to_nat (nvdof a)) /\
    length (GetData B) = length (GetJ B) /\
    forall d, 0 <= d < nvdof a ->
      row_slice (GetI B) (GetJ B) d
      = map (col_dof a R)
            (filter (fun s => row_dof R s =? d) (filter (counted a R) (all_slots a))).
Proof.
  intros Hwf HR.
  destruct (wf_fill_parts a Hwf) as (R' & HR' & Hb & Hsh).
  rewrite HR in HR'. injection HR' as <-.
  rewrite (SparseIJToCSR_is_sched a R A0 HR Hb Hsh).
  destruct (SparseIJToCSR_sched_ok a R A0 _ _ Hb (Permutation_refl _) (Permutation_refl _))
    as (J' & AV' & E & L1 & L2 & Hrows).
  eexists. split; [exact E|].
  cbn [set_J_Data counted_matrix Height Width GetI GetJ GetData].
  split; [reflexivity|]. split; [reflexivity|]. split; [reflexivity|].
  split; [exact L1|]. split; [exact L2|].
  intros d Hd. cbn [counted_matrix GetI] in Hrows.
  rewrite (proj1 (Hrows d Hd)), entries_claims, map_map. reflexivity.
Qed.

Lemma in_counted_cols (a : BatchedLORAssembly) (R : ElementRestriction) (d c : Z) :
  In c (map (col_dof a R)
            (filter (fun s => row_dof R s =? d) (filter (counted a R) (all_slots a)))) <->
  exists i j, In (i, j) (all_slots a) /\ counted a R (i, j) = true /\
              row_dof R (i, j) = d /\ col_dof a R (i, j) = c.
Proof.
  rewrite in_map_iff. split.
  - intros ([i j] & E & Hs). apply filter_In in Hs. destruct Hs as [Hs Hd].
    apply filter_In in Hs. destruct Hs as [Hs Hc]. apply Z.eqb_eq in Hd.
    exists i, j. auto.
  - intros (i & j & Hs & Hc & Hd & E). exists (i, j). split; [exact E|].
    apply filter_In. split; [|apply Z.eqb_eq; exact Hd]. apply filter_In. auto.
Qed.

Lemma SparseIJToCSR_csr (a : BatchedLORAssembly) (R : ElementRestriction)
    (A0 : option SparseMatrix) :
  wf_fill a = true -> el_restr a = Some R ->
  exists B,
    SparseIJToCSR a A0 = Ok B /\ Height B = nvdof a /\ Width B = nvdof a /\
    csr_offsets_ok B = true /\ csr_cols_ok B = true /\ csr_rows_nodup B = true /\
    forall d, 0 <= d < nvdof a ->
      row_slice (GetI B) (GetJ B) d
      = map (col_dof a R)
            (filter (fun s => row_dof R s =? d) (filter (counted a R) (all_slots a))).
Proof.
  intros Hwf HR.
  destruct (SparseIJToCSR_rows a R A0 Hwf HR) as (B & E & HH & HW & HI & HJ & HD & Hrows).
  destruct (wf_fill_parts a Hwf) as (R' & HR' & Hb & Hsh).
  rewrite HR in HR'. injection HR' as <-.
  destruct (wf_sizes_facts a R Hb) as (_ & _ & _ & Hn & _).
  assert (Hc : forall d, 0 <= d < Z.of_nat (Z.to_nat (nvdof a)) ->
                         0 <= occ (count_rows a R) d) by (intros; apply occ_nonneg).
  exists B. split; [exact E|]. split; [exact HH|]. split; [exact HW|].
  split; [|split; [|split; [|exact Hrows]]].
  - unfold csr_offsets_ok. rewrite HH, HI.
    rewrite (proj2 (Z.leb_le _ _) Hn).
    rewrite (proj2 (Z.eqb_eq _ _) (offsets_of_length _ _ Hn)).
    rewrite (proj2 (Z.eqb_eq _ _)) by lia. cbn [andb].
    apply forallb_range. intros r Hr.
    rewrite !offsets_of_nth by lia. rewrite HJ.
    assert (H0 : 0 <= psum (occ (count_rows a R)) (Z.to_nat r)).
    { apply psum_nonneg. intros; apply occ_nonneg. }
    assert (H1 : psum (occ (count_rows a R)) (Z.to_nat r)
                 <= psum (occ (count_rows a R)) (Z.to_nat (r + 1))).
    { apply psum_mono; [intros; apply occ_nonneg | lia]. }
    assert (H2 : psum (occ (count_rows a R)) (Z.to_nat (r + 1))
                 <= psum (occ (count_rows a R)) (Z.to_nat (nvdof a))).
    { apply psum_mono; [intros; apply occ_nonneg | lia]. }
    rewrite !andb_true_iff, !Z.leb_le. lia.
  - unfold csr_cols_ok. rewrite HH, HW. apply forallb_range. intros r Hr.
    rewrite (Hrows r Hr). apply forallb_forall. intros c Hin.
    apply in_counted_cols in Hin. destruct Hin as (i & j & Hs & Hcnt & _ & <-).
    apply in_all_slots in Hs. destruct Hs as [Hi Hj].
    destruct (slot_facts a R Hb i j Hi Hj) as (_ & _ & _ & _ & _ & F).
    apply counted_true in Hcnt. destruct (F (proj1 Hcnt)) as (_ & _ & _ & _ & Hcd).
    rewrite andb_true_iff, Z.leb_le, Z.ltb_lt. exact Hcd.
  - unfold csr_rows_nodup. rewrite HH. apply forallb_range. intros r Hr.
    rewrite (Hrows r Hr). apply nodupb_NoDup. apply (counted_cols_NoDup a R Hb).
Qed.

(** X13. On a well-formed input [AssembleWithoutBC] returns a square matrix
    of [nvdof] rows that is a CSR matrix as the elimination needs it: the
    offsets start the rows in order within [J], [Data] is as long as [J],
    every stored column is a DOF below [nvdof], and no row stores a column
    twice. *)
Theorem AssembleWithoutBC_csr (a : BatchedLORAssembly) (A0 : option SparseMatrix) :
  wf_fill a = true ->
  exists B,
    AssembleWithoutBC a A0 = Ok B /\ Height B = nvdof a /\ Width B = nvdof a /\
    csr_offsets_ok B = true /\ csr_cols_ok B = true /\ csr_rows_nodup B = true.
Proof.
  intros Hwf. destruct (wf_fill_parts a Hwf) as (R & HR & _).
  destruct (SparseIJToCSR_csr a R A0 Hwf HR) as (B & E & HH & HW & H1 & H2 & H3 & _).
  exists B. unfold AssembleWithoutBC. auto 7.
Qed.

Lemma AssembleWithoutBC_csr_witness :
  exists B,
    AssembleWithoutBC Samples.two_elements None = Ok B /\
    csr_offsets_ok B = true /\ csr_cols_ok B = true /\ csr_rows_nodup B = true.
Proof.
  destruct (AssembleWithoutBC_csr Samples.two_elements None ltac:(vm_compute; reflexivity))
    as (B & E & _ & _ & H1 & H2 & H3).
  exists B. auto.
Defined.

(** With a symmetric template, the slot that asserts [(d, c)] has a
    counterpart in its element that asserts [(c, d)]. *)
Lemma asserted_transposed (a : BatchedLORAssembly) (R : ElementRestriction) (i j : Z) :
  wf_base a R = true -> template_symmetric a = true ->
  In (i, j) (all_slots a) -> asserts a (i, j) = true ->
  exists j', In (col_index a (i, j), j') (all_slots a) /\
             asserts a (col_index a (i, j), j') = true /\
             row_dof R (col_index a (i, j), j') = col_dof a R (i, j) /\
             col_dof a R (col_index a (i, j), j') = row_dof R (i, j).
Proof.
  intros Hwf Hsym Hs Ha. apply in_all_slots in Hs. destruct Hs as [Hi Hj].
  destruct (slot_facts a R Hwf i j Hi Hj) as (Hr & He & Hie & _ & _ & F).
  destruct (F Ha) as (Hc0 & Hci & Hq & Hrm & _).
  unfold template_symmetric in Hsym. rewrite forallb_range in Hsym.
  specialize (Hsym _ Hr). rewrite forallb_range in Hsym. specialize (Hsym j Hj).
  change (template a j (Z.rem i (ndof_per_el a))) with (col_slot a (i, j)) in Hsym.
  replace (col_slot a (i, j) <? 0) with false in Hsym by (symmetry; apply Z.ltb_ge; lia).
  cbn [orb] in Hsym. apply existsb_exists in Hsym. destruct Hsym as (j' & Hj' & E).
  apply in_range in Hj'. apply Z.eqb_eq in E.
  assert (Hcs : col_slot a (col_index a (i, j), j') = Z.rem i (ndof_per_el a)).
  { unfold col_slot at 1. cbn [fst snd]. rewrite Hrm. exact E. }
  exists j'. split; [apply in_all_slots; auto|]. split; [|split].
  - unfold asserts. rewrite Hcs. apply negb_true_iff, Z.ltb_ge. lia.
  - reflexivity.
  - unfold col_dof, col_index at 1, elem. cbn [fst snd]. rewrite Hcs, Hq.
    unfold row_dof. cbn [fst]. f_equal. symmetry. exact Hie.
Qed.

Lemma SparseIJToCSR_symmetric (a : BatchedLORAssembly) (R : ElementRestriction)
    (B : SparseMatrix) :
  wf_base a R = true -> shared_asserted a R = true -> template_symmetric a = true ->
  Height B = nvdof a ->
  (forall d, 0 <= d < nvdof a ->
     row_slice (GetI B) (GetJ B) d
     = map (col_dof a R)
           (filter (fun s => row_dof R s =? d) (filter (counted a R) (all_slots a)))) ->
  csr_symmetric B = true.
Proof.
  intros Hb Hsh Hsym HH Hrows.
  pose proof (shared_implies_elected a R Hb Hsh) as Hel.
  unfold csr_symmetric. rewrite HH. apply forallb_range. intros r Hr.
  apply forallb_forall. intros c Hin. apply existsb_eqb_In.
  rewrite (Hrows r Hr) in Hin. apply in_counted_cols in Hin.
  destruct Hin as (i & j & Hs & Hcnt & Hrd & Hcd).
  apply counted_true in Hcnt. destruct Hcnt as [Ha _].
  assert (Hc : 0 <= c < nvdof a).
  { pose proof Hs as Hs0. apply in_all_slots in Hs0. destruct Hs0 as [Hi Hj].
    destruct (slot_facts a R Hb i j Hi Hj) as (_ & _ & _ & _ & _ & F).
    rewrite <- Hcd. apply (F Ha). }
  destruct (asserted_transposed a R i j Hb Hsym Hs Ha) as (j' & Hs' & Ha' & Hr' & Hc').
  destruct (dedup_cover a R _ Hel Hs' Ha') as ([i2 j2] & Hs2 & Hcnt2 & Hr2 & Hc2).
  rewrite (Hrows c Hc). apply in_counted_cols.
  exists i2, j2. split; [exact Hs2|]. split; [exact Hcnt2|]. split; congruence.
Qed.

(** X14. When the template is symmetric, the pattern of the assembled matrix
    is symmetric: row [c] stores column [r] whenever row [r] stores column
    [c]. *)
Theorem AssembleWithoutBC_symmetric_pattern (a : BatchedLORAssembly)
    (A0 : option SparseMatrix) :
  wf_fill a = true -> template_symmetric a = true ->
  exists B, AssembleWithoutBC a A0 = Ok B /\ csr_symmetric B = true.
Proof.
  intros Hwf Hsym. destruct (wf_fill_parts a Hwf) as (R & HR & Hb & Hsh).
  destruct (SparseIJToCSR_csr a R A0 Hwf HR) as (B & E & HH & _ & _ & _ & _ & Hrows).
  exists B. split; [exact E|].
  apply (SparseIJToCSR_symmetric a R B Hb Hsh Hsym HH Hrows).
Qed.

Lemma AssembleWithoutBC_symmetric_pattern_witness :
  exists B, AssembleWithoutBC Samples.two_elements None = Ok B /\ csr_symmetric B = true.
Proof.
  apply (AssembleWithoutBC_symmetric_pattern Samples.two_elements None);
    vm_compute; reflexivity.
Defined.

(** X15. [Assemble] from end to end: on a well-formed input with a symmetric
    template and essential DOFs below [nvdof] it returns the assembled matrix
    with, for every essential DOF [d], the entries of row [d] and of column
    [d] off the diagonal set to zero and the entry [(d, d)] as assembled. *)
Theorem Assemble_eliminates (a : BatchedLORAssembly) (A0 : option SparseMatrix) :
  wf_fill a = true -> template_symmetric a = true ->
  forallb (fun d => (0 <=? d) && (d <? nvdof a)) (ess_dofs a) = true ->
  exists A1 B,
    AssembleWithoutBC a A0 = Ok A1 /\ Assemble a A0 = Ok B /\
    GetI B = GetI A1 /\ GetJ B = GetJ A1 /\
    forall d p, In d (ess_dofs a) ->
      (in_row (GetI A1) d p -> col_at (GetJ A1) p <> d -> val_at (GetData B) p = 0%float) /\
      (forall r, 0 <= r < nvdof a -> in_row (GetI A1) r p -> r <> d ->
                 col_at (GetJ A1) p = d -> val_at (GetData B) p = 0%float) /\
      (in_row (GetI A1) d p -> col_at (GetJ A1) p = d ->
       val_at (GetData B) p = val_at (GetData A1) p).
Proof.
  intros Hwf Hsym Hess. destruct (wf_fill_parts a Hwf) as (R & HR & Hb & Hsh).
  destruct (SparseIJToCSR_csr a R A0 Hwf HR) as (A1 & E & HH & HW & H1 & H2 & H3 & Hrows).
  pose proof (SparseIJToCSR_symmetric a R A1 Hb Hsh Hsym HH Hrows) as H4.
  assert (Hsq : Width A1 = Height A1) by congruence.
  assert (Hess' : ess_ok (ess_dofs a) A1 = true) by (unfold ess_ok; rewrite HH; exact Hess).
  destruct (eliminate_total (ess_dofs a) A1 H1 H2 Hsq Hess') as (B & EB).
  destruct (eliminate_writes _ _ _ EB) as [HB _].
  exists A1, B. split; [exact E|]. split.
  { unfold Assemble, AssembleWithoutBC. rewrite E. exact EB. }
  split; [rewrite HB; reflexivity|]. split; [rewrite HB; reflexivity|].
  intros d p Hin.
  destruct (eliminate_zeroes (ess_dofs a) A1 B d p H1 H2 Hsq H3 H4 Hess' EB Hin)
    as (Z1 & Z2 & Z3).
  split; [exact Z1|]. split; [|exact Z3].
  intros r Hr. apply Z2. lia.
Qed.

Lemma Assemble_eliminates_witness :
  exists A1 B,
    AssembleWithoutBC Samples.two_elements None = Ok A1 /\
    Assemble Samples.two_elements None = Ok B /\
    GetJ B = GetJ A1 /\
    val_at (GetData B) 1 = 0%float /\ val_at (GetData B) 2 = 0%float /\
    val_at (GetData B) 0 = val_at (GetData A1) 0.
Proof.
  destruct (Assemble_eliminates Samples.two_elements None)
    as (A1 & B & E1 & E2 & _ & HJ & H); try (vm_compute; reflexivity).
  exists A1, B. split; [exact E1|]. split; [exact E2|]. split; [exact HJ|].
  assert (EA : AssembleWithoutBC Samples.two_elements None
               = Ok {| Height := 3; Width := 3; GetI := [0; 2; 5; 7];
                       GetJ := [0; 1; 0; 1; 2; 1; 2];
                       GetData := [1; 1; 1; 5; -3; -3; 4]%float |})
    by (vm_compute; reflexivity).
  rewrite EA in E1. injection E1 as <-.
  assert (H0 : In 0 (ess_dofs Samples.two_elements)) by (left; reflexivity).
  split; [|split].
  - apply (proj1 (H 0 1 H0)); [vm_compute; split; congruence | vm_compute; congruence].
  - apply (proj1 (proj2 (H 0 2 H0)) 1);
      [vm_compute; split; congruence | vm_compute; split; congruence | lia | reflexivity].
  - apply (proj2 (proj2 (H 0 0 H0))); [vm_compute; split; congruence | reflexivity].
Defined.

(** ** The send side of the exchange *)

Lemma get_in (l : list Z) (i : Z) :
  0 <= i < Z.of_nat (length l) -> Exchange.get l i = Some (nth (Z.to_nat i) l 0).
Proof.
  intros H. unfold Exchange.get. rewrite (proj2 (in_bounds_true l i) H).
  destruct (nth_error l (Z.to_nat i)) as [v|] eqn:E.
  - f_equal. symmetry. apply nth_error_nth. exact E.
  - apply nth_error_None in E. lia.
Qed.

Lemma get_Some (l : list Z) (i v : Z) :
  Exchange.get l i = Some v -> 0 <= i < Z.of_nat (length l) /\ nth (Z.to_nat i) l 0 = v.
Proof.
  unfold Exchange.get. destruct (in_bounds l i) eqn:E; [|discriminate].
  apply in_bounds_true in E. intros H. split; [exact E|].
  apply nth_error_nth. exact H.
Qed.

Lemma put_in (l : list Z) (i v : Z) :
  0 <= i < Z.of_nat (length l) -> Exchange.put l i v = Some (list_set l (Z.to_nat i) v).
Proof. intros H. unfold Exchange.put. rewrite (proj2 (in_bounds_true l i) H). reflexivity. Qed.

Lemma put_Some (l l' : list Z) (i v : Z) :
  Exchange.put l i v = Some l' ->
  0 <= i < Z.of_nat (length l) /\ l' = list_set l (Z.to_nat i) v.
Proof.
  unfold Exchange.put. destruct (in_bounds l i) eqn:E; [|discriminate].
  apply in_bounds_true in E. intros H. injection H as <-. auto.
Qed.

Lemma list_set_repeat {X} (v : X) (m k : nat) : list_set (repeat v m) k v = repeat v m.
Proof.
  revert k; induction m as [|m IH]; intros k; [reflexivity|].
  destruct k as [|k]; cbn [repeat list_set]; [reflexivity|]. rewrite IH. reflexivity.
Qed.

Lemma zero_rows_loop (m : nat) (l : list Z) :
  (forall i, In i l -> 0 <= i < Z.of_nat m) ->
  Exchange.loop (fun row i => Exchange.put row i 0) l (repeat 0 m) = Some (repeat 0 m).
Proof.
  induction l as [|i l IH]; intros Hl; [reflexivity|]. cbn [Exchange.loop].
  rewrite put_in by (rewrite repeat_length; apply Hl; left; reflexivity).
  rewrite list_set_repeat. apply IH. intros j Hj. apply Hl. right. exact Hj.
Qed.

Lemma ess_loop_fold_gen {S} (f : S -> Z -> option S) (l pre : list Z) (s : S) :
  Exchange.loop (fun st i => match Exchange.get (pre ++ l) i with
                             | None => None
                             | Some d => f st d
                             end)
                (iota (Z.of_nat (length pre)) (length l)) s
  = Exchange.loop f l s.
Proof.
  revert pre s; induction l as [|x l IH]; intros pre s; [reflexivity|].
  cbn [length iota Exchange.loop].
  rewrite get_in by (rewrite length_app; cbn [length]; lia).
  rewrite Nat2Z.id, app_nth2, Nat.sub_diag by lia. cbn [nth].
  destruct (f s x) as [s1|]; [|reflexivity].
  replace (pre ++ x :: l) with ((pre ++ [x]) ++ l) by (rewrite <- app_assoc; reflexivity).
  replace (Z.of_nat (length pre) + 1) with (Z.of_nat (length (pre ++ [x])))
    by (rewrite length_app; cbn [length]; lia).
  apply IH.
Qed.

Lemma mark_loop (ess row : list Z) :
  (forall d, In d ess -> 0 <= d < Z.of_nat (length row)) ->
  exists row',
    Exchange.loop (fun row d => Exchange.put row d 1) ess row = Some row' /\
    length row' = length row /\
    forall k, 0 <= k ->
      nth (Z.to_nat k) row' 0
      = if existsb (Z.eqb k) ess then 1 else nth (Z.to_nat k) row 0.
Proof.
  revert row; induction ess as [|d ess IH]; intros row Hl.
  - exists row. split; [reflexivity|]. split; [reflexivity|]. reflexivity.
  - cbn [Exchange.loop]. rewrite put_in by (apply Hl; left; reflexivity).
    destruct (IH (list_set row (Z.to_nat d) 1)) as (row' & E & L & H).
    { intros x Hx. rewrite list_set_length. apply Hl. right. exact Hx. }
    exists row'. split; [exact E|]. split; [rewrite L; apply list_set_length|].
    intros k Hk. rewrite (H k Hk). cbn [existsb].
    destruct (existsb (Z.eqb k) ess); [rewrite orb_true_r; reflexivity|].
    rewrite orb_false_r. pose proof (Hl d (or_introl eq_refl)) as Hd.
    destruct (Z.eqb_spec k d) as [->|Hne].
    + apply nth_list_set_eq. lia.
    + apply nth_list_set_neq. lia.
Qed.

Lemma mark_loop_Some (ess row row' : list Z) :
  Exchange.loop (fun row d => Exchange.put row d 1) ess row = Some row' ->
  forall d, In d ess -> 0 <= d < Z.of_nat (length row).
Proof.
  revert row; induction ess as [|x ess IH]; intros row H d Hd; [contradiction|].
  cbn [Exchange.loop] in H.
  destruct (Exchange.put row x 1) as [r1|] eqn:E; [|discriminate].
  apply put_Some in E. destruct E as [Hx ->].
  destruct Hd as [<-|Hd]; [exact Hx|].
  specialize (IH _ H d Hd). rewrite list_set_length in IH. exact IH.
Qed.

Lemma mark_rows_unfold (ess : list Z) (n : Z) :
  Exchange.mark_rows ess n
  = Exchange.loop (fun row d => Exchange.put row d 1) ess (repeat 0 (Z.to_nat n)).
Proof.
  unfold Exchange.mark_rows, New.
  rewrite zero_rows_loop by (intros i Hi; apply in_range in Hi; lia).
  unfold range. replace (Z.to_nat (Z.of_nat (length ess) - 0)) with (length ess) by lia.
  apply (ess_loop_fold_gen (fun row d => Exchange.put row d 1) ess []).
Qed.

(** X16. The marking of the rows to eliminate: when every essential DOF is a
    row of the diagonal block, [eliminate_row] has one cell per row, holding
    1 for the essential DOFs and 0 for the others; and the marking stays
    within the array only in that case. *)
Theorem mark_rows_marks (ess : list Z) (n : Z) :
  ((forall d, In d ess -> 0 <= d < n) ->
   exists row,
     Exchange.mark_rows ess n = Some row /\ Z.of_nat (length row) = Z.max 0 n /\
     forall k, 0 <= k < n ->
       nth (Z.to_nat k) row 0 = if existsb (Z.eqb k) ess then 1 else 0) /\
  (forall row, Exchange.mark_rows ess n = Some row -> forall d, In d ess -> 0 <= d < n).
Proof.
  rewrite mark_rows_unfold. split.
  - intros Hl. destruct (mark_loop ess (repeat 0 (Z.to_nat n))) as (row & E & L & H).
    { intros d Hd. rewrite repeat_length. specialize (Hl d Hd). lia. }
    exists row. split; [exact E|]. rewrite repeat_length in L. split; [lia|].
    intros k Hk. rewrite (H k) by lia.
    destruct (existsb (Z.eqb k) ess); [reflexivity|].
    apply nth_repeat_lt. lia.
  - intros row H d Hd. pose proof (mark_loop_Some ess _ row H d Hd) as Hb.
    rewrite repeat_length in Hb. lia.
Qed.

Lemma mark_rows_marks_witness :
  exists row, Exchange.mark_rows [2; 0] 4 = Some row /\
              nth 0 row 0 = 1 /\ nth 1 row 0 = 0 /\ nth 2 row 0 = 1 /\ nth 3 row 0 = 0.
Proof.
  destruct (mark_rows_marks [2; 0] 4) as [H _].
  destruct H as (row & E & _ & H).
  { intros d [<-|[<-|[]]]; lia. }
  exists row. split; [exact E|].
  split; [apply (H 0); lia|]. split; [apply (H 1); lia|].
  split; [apply (H 2); lia | apply (H 3); lia].
Defined.

Lemma pack_entries (pkg : Exchange.hypre_ParCSRCommPkg) (row : list Z) (n : nat)
    (start index : Z) (buf : list Z) :
  0 <= start -> start + Z.of_nat n <= Z.of_nat (length (Exchange.send_map_elmts pkg)) ->
  (forall j, start <= j < start + Z.of_nat n ->
     0 <= nth (Z.to_nat j) (Exchange.send_map_elmts pkg) 0 < Z.of_nat (length row)) ->
  0 <= index -> index + Z.of_nat n <= Z.of_nat (length buf) ->
  exists buf',
    Exchange.loop (Exchange.pack_entry pkg row) (iota start n) (buf, index)
    = Some (buf', index + Z.of_nat n) /\
    length buf' = length buf /\
    forall k, 0 <= k ->
      nth (Z.to_nat k) buf' 0
      = if (index <=? k) && (k <? index + Z.of_nat n)
        then nth (Z.to_nat (nth (Z.to_nat (start + (k - index)))
                                (Exchange.send_map_elmts pkg) 0)) row 0
        else nth (Z.to_nat k) buf 0.
Proof.
  revert start index buf; induction n as [|n IH]; intros start index buf Hs He Hel Hi Hb.
  - exists buf. cbn [iota Exchange.loop]. rewrite Z.add_0_r.
    split; [reflexivity|]. split; [reflexivity|].
    intros k Hk. replace ((index <=? k) && (k <? index)) with false; [reflexivity|].
    symmetry. apply andb_false_iff. destruct (Z.leb_spec index k); [right|left; reflexivity].
    apply Z.ltb_ge. lia.
  - cbn [iota Exchange.loop]. unfold Exchange.pack_entry at 1.
    rewrite get_in by lia. rewrite get_in by (apply Hel; lia). rewrite put_in by lia.
    destruct (IH (start + 1) (index + 1)
                 (list_set buf (Z.to_nat index)
                    (nth (Z.to_nat (nth (Z.to_nat start) (Exchange.send_map_elmts pkg) 0)) row 0)))
      as (buf' & E & L & H); try lia.
    { intros j Hj. apply Hel. lia. }
    { rewrite list_set_length. lia. }
    exists buf'. split; [rewrite E; f_equal; f_equal; lia|].
    split; [rewrite L; apply list_set_length|].
    intros k Hk. rewrite (H k Hk).
    destruct (Z.eq_dec k index) as [->|Hne].
    + replace ((index + 1 <=? index) && (index <? index + 1 + Z.of_nat n)) with false
        by (symmetry; apply andb_false_iff; left; apply Z.leb_gt; lia).
      replace ((index <=? index) && (index <? index + Z.of_nat (S n))) with true
        by (symmetry; apply andb_true_iff; split; [apply Z.leb_le | apply Z.ltb_lt]; lia).
      rewrite nth_list_set_eq by lia.
      replace (start + (index - index)) with start by lia. reflexivity.
    + rewrite nth_list_set_neq by lia.
      assert (Eab : (index + 1 <=? k) && (k <? index + 1 + Z.of_nat n)
                    = (index <=? k) && (k <? index + Z.of_nat (S n))).
      { destruct (Z.leb_spec (index + 1) k), (Z.ltb_spec k (index + 1 + Z.of_nat n)),
                 (Z.leb_spec index k), (Z.ltb_spec k (index + Z.of_nat (S n)));
          cbn [andb]; try reflexivity; lia. }
      rewrite Eab.
      destruct ((index <=? k) && (k <? index + Z.of_nat (S n))); [|reflexivity].
      replace (start + 1 + (k - (index + 1))) with (start + (k - index)) by lia. reflexivity.
Qed.

Lemma pack_sends (pkg : Exchange.hypre_ParCSRCommPkg) (row : list Z) (m : nat)
    (i0 : Z) (buf : list Z) :
  0 <= i0 ->
  i0 + Z.of_nat m < Z.of_nat (length (Exchange.send_map_starts pkg)) ->
  0 <= nth (Z.to_nat i0) (Exchange.send_map_starts pkg) 0 ->
  (forall i, i0 <= i < i0 + Z.of_nat m ->
     nth (Z.to_nat i) (Exchange.send_map_starts pkg) 0
     <= nth (Z.to_nat (i + 1)) (Exchange.send_map_starts pkg) 0) ->
  nth (Z.to_nat (i0 + Z.of_nat m)) (Exchange.send_map_starts pkg) 0
  <= Z.of_nat (length (Exchange.send_map_elmts pkg)) ->
  nth (Z.to_nat (i0 + Z.of_nat m)) (Exchange.send_map_starts pkg) 0
  <= Z.of_nat (length buf) ->
  (forall j, 0 <= j < nth (Z.to_nat (i0 + Z.of_nat m)) (Exchange.send_map_starts pkg) 0 ->
     0 <= nth (Z.to_nat j) (Exchange.send_map_elmts pkg) 0 < Z.of_nat (length row)) ->
  exists buf',
    Exchange.loop (Exchange.pack_send pkg row) (iota i0 m)
                  (buf, nth (Z.to_nat i0) (Exchange.send_map_starts pkg) 0)
    = Some (buf', nth (Z.to_nat (i0 + Z.of_nat m)) (Exchange.send_map_starts pkg) 0) /\
    length buf' = length buf /\
    forall k, 0 <= k ->
      nth (Z.to_nat k) buf' 0
      = if (nth (Z.to_nat i0) (Exchange.send_map_starts pkg) 0 <=? k)
           && (k <? nth (Z.to_nat (i0 + Z.of_nat m)) (Exchange.send_map_starts pkg) 0)
        then nth (Z.to_nat (nth (Z.to_nat k) (Exchange.send_map_elmts pkg) 0)) row 0
        else nth (Z.to_nat k) buf 0.
Proof.
  set (starts := Exchange.send_map_starts pkg). set (elmts := Exchange.send_map_elmts pkg).
  revert i0 buf; induction m as [|m IH]; intros i0 buf Hi Hlen H0 Hmono He Hb Hel.
  - exists buf. cbn [iota Exchange.loop]. rewrite Z.add_0_r.
    split; [reflexivity|]. split; [reflexivity|].
    intros k Hk.
    destruct (Z.leb_spec (nth (Z.to_nat i0) starts 0) k),
             (Z.ltb_spec k (nth (Z.to_nat i0) starts 0)); try lia; reflexivity.
  - assert (Hchain : forall t : nat, (t <= S m)%nat ->
              nth (Z.to_nat i0) starts 0 <= nth (Z.to_nat (i0 + Z.of_nat t)) starts 0).
    { induction t as [|t IHt]; intros Ht.
      - rewrite Z.add_0_r. lia.
      - specialize (IHt ltac:(lia)). specialize (Hmono (i0 + Z.of_nat t) ltac:(lia)).
        replace (i0 + Z.of_nat (S t)) with (i0 + Z.of_nat t + 1) by lia. lia. }
    assert (Hchain2 : forall t : nat, (1 <= t <= S m)%nat ->
              nth (Z.to_nat (i0 + 1)) starts 0 <= nth (Z.to_nat (i0 + Z.of_nat t)) starts 0).
    { induction t as [|t IHt]; intros Ht; [lia|].
      destruct (Nat.eq_dec t 0) as [->|Hne].
      - replace (i0 + Z.of_nat 1) with (i0 + 1) by lia. lia.
      - specialize (IHt ltac:(lia)). specialize (Hmono (i0 + Z.of_nat t) ltac:(lia)).
        replace (i0 + Z.of_nat (S t)) with (i0 + Z.of_nat t + 1) by lia. lia. }
    pose proof (Hmono i0 ltac:(lia)) as H01.
    pose proof (Hchain2 (S m) ltac:(lia)) as H1m.
    cbn [iota Exchange.loop]. unfold Exchange.pack_send at 1. fold starts.
    rewrite (get_in starts i0) by lia. rewrite (get_in starts (i0 + 1)) by lia.
    unfold range.
    destruct (pack_entries pkg row
                (Z.to_nat (nth (Z.to_nat (i0 + 1)) starts 0 - nth (Z.to_nat i0) starts 0))
                (nth (Z.to_nat i0) starts 0) (nth (Z.to_nat i0) starts 0) buf)
      as (b1 & E1 & L1 & B1); fold elmts; try lia.
    { intros j Hj. apply Hel. lia. }
    rewrite E1.
    replace (nth (Z.to_nat i0) starts 0
             + Z.of_nat (Z.to_nat (nth (Z.to_nat (i0 + 1)) starts 0
                                   - nth (Z.to_nat i0) starts 0)))
      with (nth (Z.to_nat (i0 + 1)) starts 0) in * by lia.
    replace (i0 + Z.of_nat (S m)) with (i0 + 1 + Z.of_nat m) in * by lia.
    destruct (IH (i0 + 1) b1) as (b2 & E2 & L2 & B2); try lia.
    { intros i Hi'. apply Hmono. lia. }
    { exact Hel. }
    exists b2. split; [exact E2|]. split; [congruence|].
    intros k Hk. rewrite (B2 k Hk), (B1 k Hk).
    destruct (Z.leb_spec (nth (Z.to_nat (i0 + 1)) starts 0) k),
             (Z.ltb_spec k (nth (Z.to_nat (i0 + 1 + Z.of_nat m)) starts 0)),
             (Z.leb_spec (nth (Z.to_nat i0) starts 0) k),
             (Z.ltb_spec k (nth (Z.to_nat (i0 + 1)) starts 0));
      cbn [andb]; try reflexivity; try lia.
    replace (nth (Z.to_nat i0) starts 0 + (k - nth (Z.to_nat i0) starts 0)) with k by lia.
    reflexivity.
Qed.

Lemma starts_chain (s : list Z) (n : Z) (t : nat) :
  (forall i, 0 <= i < n -> nth (Z.to_nat i) s 0 <= nth (Z.to_nat (i + 1)) s 0) ->
  Z.of_nat t <= n -> nth 0 s 0 <= nth t s 0.
Proof.
  intros Hmono. induction t as [|t IH]; intros Ht; [lia|].
  specialize (IH ltac:(lia)). specialize (Hmono (Z.of_nat t) ltac:(lia)).
  rewrite Nat2Z.id in Hmono. replace (Z.to_nat (Z.of_nat t + 1)) with (S t) in Hmono by lia.
  lia.
Qed.

(** X17. The packing of the send buffer keeps step with the send map: when
    the starts of the sends begin at 0 and do not decrease and the send map
    names rows of [eliminate_row], the buffer has [SendMapStart(num_sends)]
    cells and its cell [j] holds the mark of the row that element [j] of the
    send map names. *)
Theorem pack_aligned (pkg : Exchange.hypre_ParCSRCommPkg) (row : list Z) :
  0 <= Exchange.num_sends pkg < Z.of_nat (length (Exchange.send_map_starts pkg)) ->
  nth 0 (Exchange.send_map_starts pkg) 0 = 0 ->
  (forall i, 0 <= i < Exchange.num_sends pkg ->
     nth (Z.to_nat i) (Exchange.send_map_starts pkg) 0
     <= nth (Z.to_nat (i + 1)) (Exchange.send_map_starts pkg) 0) ->
  nth (Z.to_nat (Exchange.num_sends pkg)) (Exchange.send_map_starts pkg) 0
  <= Z.of_nat (length (Exchange.send_map_elmts pkg)) ->
  (forall j, 0 <= j < nth (Z.to_nat (Exchange.num_sends pkg)) (Exchange.send_map_starts pkg) 0 ->
     0 <= nth (Z.to_nat j) (Exchange.send_map_elmts pkg) 0 < Z.of_nat (length row)) ->
  exists buf,
    Exchange.pack pkg row = Some buf /\
    Z.of_nat (length buf)
    = nth (Z.to_nat (Exchange.num_sends pkg)) (Exchange.send_map_starts pkg) 0 /\
    forall j, 0 <= j < nth (Z.to_nat (Exchange.num_sends pkg)) (Exchange.send_map_starts pkg) 0 ->
      nth (Z.to_nat j) buf 0
      = nth (Z.to_nat (nth (Z.to_nat j) (Exchange.send_map_elmts pkg) 0)) row 0.
Proof.
  intros Hns H0 Hmono He Hel.
  pose proof (starts_chain _ _ (Z.to_nat (Exchange.num_sends pkg)) Hmono ltac:(lia)) as Hpos.
  rewrite H0 in Hpos.
  unfold Exchange.pack. rewrite get_in by lia. unfold range.
  rewrite Z.sub_0_r.
  destruct (pack_sends pkg row (Z.to_nat (Exchange.num_sends pkg)) 0
              (New 0 (nth (Z.to_nat (Exchange.num_sends pkg)) (Exchange.send_map_starts pkg) 0)))
    as (buf & E & L & H); try (rewrite Z.add_0_l, Z2Nat.id by lia); try lia.
  { change (Z.to_nat 0) with 0%nat. lia. }
  { intros i Hi. apply Hmono. lia. }
  { unfold New. rewrite repeat_length. lia. }
  { exact Hel. }
  change (Z.to_nat 0) with 0%nat in E, H. rewrite H0 in E, H.
  rewrite Z.add_0_l, Z2Nat.id in E, H by lia.
  rewrite E. exists buf. split; [reflexivity|].
  unfold New in L. rewrite repeat_length in L. split; [lia|].
  intros j Hj. rewrite (H j) by lia.
  destruct (Z.leb_spec 0 j), (Z.ltb_spec j (nth (Z.to_nat (Exchange.num_sends pkg))
                                               (Exchange.send_map_starts pkg) 0));
    try lia. reflexivity.
Qed.

Lemma pack_aligned_witness :
  exists buf, Exchange.pack Samples.comm_pkg [1; 0; 0; 1] = Some buf /\
              nth 0 buf 0 = 0 /\ nth 1 buf 0 = 1 /\ nth 2 buf 0 = 1.
Proof.
  destruct (pack_aligned Samples.comm_pkg [1; 0; 0; 1]) as (buf & E & _ & H).
  - vm_compute. split; congruence.
  - reflexivity.
  - intros i Hi. cbn [Samples.comm_pkg Exchange.num_sends] in Hi.
    assert (Hc : i = 0 \/ i = 1) by lia. destruct Hc as [->| ->]; vm_compute; congruence.
  - vm_compute. congruence.
  - intros j Hj. change (0 <= j < 3) in Hj.
    assert (Hc : j = 0 \/ j = 1 \/ j = 2) by lia.
    destruct Hc as [->|[->| ->]]; vm_compute; split; congruence.
  - exists buf. split; [exact E|].
    split; [apply (H 0); vm_compute; split; congruence|].
    split; [apply (H 1) | apply (H 2)]; vm_compute; split; congruence.
Defined.

(** X18. What is sent: when the essential DOFs are rows of the diagonal
    block and the send map is as above, cell [j] of the buffer handed to the
    exchange is 1 when element [j] of the send map is an essential DOF and 0
    otherwise. *)
Theorem send_buffer_flags (pkg : Exchange.hypre_ParCSRCommPkg) (ess : list Z) (n : Z) :
  (forall d, In d ess -> 0 <= d < n) ->
  0 <= Exchange.num_sends pkg < Z.of_nat (length (Exchange.send_map_starts pkg)) ->
  nth 0 (Exchange.send_map_starts pkg) 0 = 0 ->
  (forall i, 0 <= i < Exchange.num_sends pkg ->
     nth (Z.to_nat i) (Exchange.send_map_starts pkg) 0
     <= nth (Z.to_nat (i + 1)) (Exchange.send_map_starts pkg) 0) ->
  nth (Z.to_nat (Exchange.num_sends pkg)) (Exchange.send_map_starts pkg) 0
  <= Z.of_nat (length (Exchange.send_map_elmts pkg)) ->
  (forall j, 0 <= j < nth (Z.to_nat (Exchange.num_sends pkg)) (Exchange.send_map_starts pkg) 0 ->
     0 <= nth (Z.to_nat j) (Exchange.send_map_elmts pkg) 0 < n) ->
  exists buf,
    Exchange.send_buffer pkg ess n = Some buf /\
    Z.of_nat (length buf)
    = nth (Z.to_nat (Exchange.num_sends pkg)) (Exchange.send_map_starts pkg) 0 /\
    forall j, 0 <= j < nth (Z.to_nat (Exchange.num_sends pkg)) (Exchange.send_map_starts pkg) 0 ->
      nth (Z.to_nat j) buf 0
      = if existsb (Z.eqb (nth (Z.to_nat j) (Exchange.send_map_elmts pkg) 0)) ess
        then 1 else 0.
Proof.
  intros Hess Hns H0 Hmono He Hel.
  unfold Exchange.send_buffer. rewrite mark_rows_unfold.
  destruct (mark_loop ess (repeat 0 (Z.to_nat n))) as (row & E & L & H).
  { intros d Hd. rewrite repeat_length. specialize (Hess d Hd). lia. }
  rewrite E. rewrite repeat_length in L.
  destruct (pack_aligned pkg row Hns H0 Hmono He) as (buf & Eb & Lb & Hb).
  { intros j Hj. specialize (Hel j Hj). lia. }
  exists buf. split; [exact Eb|]. split; [exact Lb|].
  intros j Hj. rewrite (Hb j Hj). specialize (Hel j Hj). rewrite (H _) by lia.
  destruct (existsb _ ess); [reflexivity|]. apply nth_repeat_lt. lia.
Qed.

Lemma send_buffer_flags_witness :
  exists buf, Exchange.send_buffer Samples.comm_pkg [3; 0] 4 = Some buf /\
              nth 0 buf 0 = 0 /\ nth 1 buf 0 = 1 /\ nth 2 buf 0 = 1.
Proof.
  destruct (send_buffer_flags Samples.comm_pkg [3; 0] 4) as (buf & E & _ & H).
  - intros d [<-|[<-|[]]]; lia.
  - vm_compute. split; congruence.
  - reflexivity.
  - intros i Hi. cbn [Samples.comm_pkg Exchange.num_sends] in Hi.
    assert (Hc : i = 0 \/ i = 1) by lia. destruct Hc as [->| ->]; vm_compute; congruence.
  - vm_compute. congruence.
  - intros j Hj. change (0 <= j < 3) in Hj.
    assert (Hc : j = 0 \/ j = 1 \/ j = 2) by lia.
    destruct Hc as [->|[->| ->]]; vm_compute; split; congruence.
  - exists buf. split; [exact E|].
    split; [apply (H 0); vm_compute; split; congruence|].
    split; [apply (H 1) | apply (H 2)]; vm_compute; split; congruence.
Defined.

(** ** No range check on the essential DOFs *)

Lemma read_fault {X} (a : array_id) (l : list X) (i : Z) (e : fault) :
  read a l i = Fault e -> e = OutOfBounds a.
Proof.
  unfold read. destruct (in_bounds l i); [destruct (nth_error l (Z.to_nat i))|];
    intros H; try discriminate; injection H as <-; reflexivity.
Qed.

Lemma write_fault {X} (a : array_id) (l : list X) (i : Z) (v : X) (e : fault) :
  write a l i v = Fault e -> e = OutOfBounds a.
Proof.
  unfold write. destruct (in_bounds l i); intros H; [discriminate|].
  injection H as <-; reflexivity.
Qed.

Lemma bind_Fault {X Y} (m : result X) (k : X -> result Y) (e : fault) :
  bind m k = Fault e -> m = Fault e \/ exists x, m = Ok x /\ k x = Fault e.
Proof.
  destruct m as [x|e']; cbn [bind]; intros H; [right; exists x; auto|].
  left. injection H as <-. reflexivity.
Qed.

Lemma foldM_fault {S X} (P : fault -> Prop) (f : S -> X -> result S) (l : list X) :
  (forall s x e, In x l -> f s x = Fault e -> P e) ->
  forall s e, foldM f l s = Fault e -> P e.
Proof.
  induction l as [|x l IH]; intros Hf s e H; cbn [foldM] in H; [discriminate|].
  destruct (bind_Fault _ _ _ H) as [E|(s' & _ & E)].
  - apply (Hf s x e); [left; reflexivity | exact E].
  - apply (IH (fun s x e Hx => Hf s x e (or_intror Hx)) s' e E).
Qed.

(** The accesses of the serial elimination: [I], [J] and [Data]. *)
Lemma zero_first_fault (J : list Z) (c k : Z) (n : nat) (dA : list float) (e : fault) :
  zero_first J c k n dA = Fault e -> e = OutOfBounds arr_J \/ e = OutOfBounds arr_Data.
Proof.
  revert k; induction n as [|n IH]; intros k H; cbn [zero_first] in H; [discriminate|].
  destruct (bind_Fault _ _ _ H) as [E|(x & _ & E)]; [left; apply (read_fault _ _ _ _ E)|].
  destruct (x =? c); [right; apply (write_fault _ _ _ _ _ E) | apply (IH _ E)].
Qed.

Lemma zero_in_row_fault (I J : list Z) (row col : Z) (dA : list float) (e : fault) :
  zero_in_row I J row col dA = Fault e ->
  e = OutOfBounds arr_I \/ e = OutOfBounds arr_J \/ e = OutOfBounds arr_Data.
Proof.
  unfold zero_in_row. intros H.
  destruct (bind_Fault _ _ _ H) as [E|(lo & _ & E)]; [left; apply (read_fault _ _ _ _ E)|].
  destruct (bind_Fault _ _ _ E) as [E'|(hi & _ & E')]; [left; apply (read_fault _ _ _ _ E')|].
  right. apply (zero_first_fault _ _ _ _ _ _ E').
Qed.

Lemma Assemble_entry_fault (I J : list Z) (idof : Z) (dA : list float) (j : Z) (e : fault) :
  Assemble_entry I J idof dA j = Fault e ->
  e = OutOfBounds arr_I \/ e = OutOfBounds arr_J \/ e = OutOfBounds arr_Data.
Proof.
  unfold Assemble_entry. intros H.
  destruct (bind_Fault _ _ _ H) as [E|(jdof & _ & E)];
    [right; left; apply (read_fault _ _ _ _ E)|].
  destruct (negb (jdof =? idof)); [|discriminate].
  destruct (bind_Fault _ _ _ E) as [E'|(dA' & _ & E')];
    [right; right; apply (write_fault _ _ _ _ _ E')|].
  apply (zero_in_row_fault _ _ _ _ _ _ E').
Qed.

Lemma Assemble_dof_fault (I J : list Z) (dA : list float) (idof : Z) (e : fault) :
  Assemble_dof I J dA idof = Fault e ->
  e = OutOfBounds arr_I \/ e = OutOfBounds arr_J \/ e = OutOfBounds arr_Data.
Proof.
  unfold Assemble_dof. intros H.
  destruct (bind_Fault _ _ _ H) as [E|(lo & _ & E)]; [left; apply (read_fault _ _ _ _ E)|].
  destruct (bind_Fault _ _ _ E) as [E'|(hi & _ & E')]; [left; apply (read_fault _ _ _ _ E')|].
  apply (foldM_fault (fun e => e = OutOfBounds arr_I \/ e = OutOfBounds arr_J
                                \/ e = OutOfBounds arr_Data)
           (Assemble_entry I J idof) (range lo hi)) with (s := dA); [|exact E'].
  intros s x e' _. apply Assemble_entry_fault.
Qed.

Lemma Assemble_dof_unchecked (I J : list Z) (dA : list float) (d : Z) :
  d < 0 \/ Z.of_nat (length I) <= d + 1 ->
  Assemble_dof I J dA d = Fault (OutOfBounds arr_I).
Proof.
  intros Hd. unfold Assemble_dof.
  destruct (read arr_I I d) as [lo|e] eqn:E1; cbn [bind].
  - destruct (read arr_I I (d + 1)) as [hi|e] eqn:E2; cbn [bind].
    + apply (read_Ok arr_I I d lo 0) in E1. apply (read_Ok arr_I I (d + 1) hi 0) in E2. lia.
    + rewrite (read_fault _ _ _ _ E2). reflexivity.
  - rewrite (read_fault _ _ _ _ E1). reflexivity.
Qed.

(** X19. The serial elimination does not check the essential DOFs against
    the matrix.  When an essential DOF [d] is negative, or [d + 1] is past the
    end of [I], the loop accesses one of the arrays [I], [J], [Data] outside
    its bounds (undefined behaviour in the source; the model stops there).
    When the DOFs listed before [d] are eliminated within the bounds, the
    access outside the bounds is the read of [I] for [d]. *)
Theorem elimination_unchecked_dof :
  (forall (ess : list Z) (A : SparseMatrix) (d : Z),
     In d ess -> d < 0 \/ Z.of_nat (length (GetI A)) <= d + 1 ->
     exists arr, eliminate ess A = Fault (OutOfBounds arr) /\
                 (arr = arr_I \/ arr = arr_J \/ arr = arr_Data)) /\
  (forall (before after : list Z) (A : SparseMatrix) (d : Z) (dA : list float),
     d < 0 \/ Z.of_nat (length (GetI A)) <= d + 1 ->
     foldM (Assemble_dof (GetI A) (GetJ A)) before (GetData A) = Ok dA ->
     eliminate (before ++ d :: after) A = Fault (OutOfBounds arr_I)).
Proof.
  split.
  - intros ess A d Hin Hd. unfold eliminate. rewrite index_loop_fold.
    destruct (foldM (Assemble_dof (GetI A) (GetJ A)) ess (GetData A)) as [dA|e] eqn:E.
    + exfalso. destruct (foldM_steps_Ok _ _ _ _ d E Hin) as (s1 & s2 & Hs).
      rewrite (Assemble_dof_unchecked (GetI A) (GetJ A) s1 d Hd) in Hs. discriminate.
    + cbn [bind].
      assert (He : e = OutOfBounds arr_I \/ e = OutOfBounds arr_J \/ e = OutOfBounds arr_Data).
      { apply (foldM_fault (fun e => e = OutOfBounds arr_I \/ e = OutOfBounds arr_J
                                      \/ e = OutOfBounds arr_Data)
                 (Assemble_dof (GetI A) (GetJ A)) ess) with (s := GetData A); [|exact E].
        intros s x e' _. apply Assemble_dof_fault. }
      destruct He as [->|[->| ->]]; eexists; (split; [reflexivity|]); auto.
  - intros before after A d dA Hd E. unfold eliminate. rewrite index_loop_fold.
    rewrite foldM_app, E. cbn [bind foldM].
    rewrite (Assemble_dof_unchecked (GetI A) (GetJ A) dA d Hd). reflexivity.
Qed.

(** The dense block of four DOFs with the essential DOFs 1 and 4: DOF 1 is
    eliminated, the read of [I] for DOF 4 is outside of [I]. *)
Lemma elimination_unchecked_dof_witness :
  (exists arr, eliminate [1; 4] Samples.dense_matrix = Fault (OutOfBounds arr) /\
               (arr = arr_I \/ arr = arr_J \/ arr = arr_Data)) /\
  eliminate [1; 4] Samples.dense_matrix = Fault (OutOfBounds arr_I).
Proof.
  destruct elimination_unchecked_dof as [H1 H2]. split.
  - apply (H1 [1; 4] Samples.dense_matrix 4); [right; left; reflexivity|].
    right. vm_compute. congruence.
  - eapply (H2 [1] [] Samples.dense_matrix 4).
    + right. vm_compute. congruence.
    + vm_compute. reflexivity.
Defined.

(** ** The size of the assembled matrix *)

Lemma psum_add (c c' : Z -> Z) (n : nat) :
  psum (fun d => c d + c' d) n = psum c n + psum c' n.
Proof. induction n as [|n IH]; cbn [psum]; [reflexivity | rewrite IH; lia]. Qed.

Lemma psum_indicator (x : Z) (n : nat) :
  psum (fun d => if x =? d then 1 else 0) n = if (0 <=? x) && (x <? Z.of_nat n) then 1 else 0.
Proof.
  induction n as [|n IH]; cbn [psum].
  - destruct (Z.leb_spec 0 x), (Z.ltb_spec x (Z.of_nat 0)); cbn [andb]; try reflexivity; lia.
  - rewrite IH.
    destruct (Z.leb_spec 0 x), (Z.ltb_spec x (Z.of_nat n)), (Z.ltb_spec x (Z.of_nat (S n))),
             (Z.eqb_spec x (Z.of_nat n)); cbn [andb]; lia.
Qed.

(** The counts of the rows sum to the number of increments. *)
Lemma psum_occ_length (l : list Z) (n : nat) :
  (forall d, In d l -> 0 <= d < Z.of_nat n) -> psum (occ l) n = Z.of_nat (length l).
Proof.
  induction l as [|x l IH]; intros Hl.
  - cbn [length]. induction n as [|n IHn]; cbn [psum]; [reflexivity|].
    rewrite IHn, occ_nil; [reflexivity | intros d []].
  - rewrite (psum_ext (occ (x :: l)) (fun d => (if x =? d then 1 else 0) + occ l d))
      by (intros; apply occ_cons).
    rewrite psum_add, psum_indicator, IH by (intros d Hd; apply Hl; right; exact Hd).
    pose proof (Hl x (or_introl eq_refl)) as Hx.
    destruct (Z.leb_spec 0 x), (Z.ltb_spec x (Z.of_nat n)); cbn [andb length]; lia.
Qed.

Lemma length_all_slots (a : BatchedLORAssembly) :
  length (all_slots a)
  = (Z.to_nat (ndof_per_el a * nel_ho a) * Z.to_nat (nnz_per_row a))%nat.
Proof.
  unfold all_slots.
  replace (Z.to_nat (ndof_per_el a * nel_ho a))
    with (length (range 0 (ndof_per_el a * nel_ho a))) by (rewrite range_length; f_equal; lia).
  induction (range 0 (ndof_per_el a * nel_ho a)) as [|i l IH]; [reflexivity|].
  cbn [flat_map length]. rewrite length_app, length_map, range_length, IH.
  replace (Z.to_nat (nnz_per_row a - 0)) with (Z.to_nat (nnz_per_row a)) by (f_equal; lia).
  lia.
Qed.

Lemma length_filter_le {X} (p : X -> bool) (l : list X) : (length (filter p l) <= length l)%nat.
Proof.
  induction l as [|x l IH]; [apply Nat.le_refl|]. cbn [filter].
  destruct (p x); cbn [length]; lia.
Qed.

(** X20. The number of nonzeros that [FillI] returns on a well-formed input
    is at most [nnz_per_row * ndof_per_el * nel_ho], one per slot of the
    iteration space. *)
Theorem FillI_nnz_bound (a : BatchedLORAssembly) (R : ElementRestriction) (A : SparseMatrix) :
  el_restr a = Some R -> wf_base a R = true ->
  Z.of_nat (length (GetI A)) = nvdof a + 1 ->
  exists A1 nnz,
    FillI a A = Ok (A1, nnz) /\
    0 <= nnz <= nnz_per_row a * (ndof_per_el a * nel_ho a).
Proof.
  intros HR Hwf HL. rewrite (FillI_ok a R A HR Hwf HL).
  eexists. eexists. split; [reflexivity|].
  destruct (wf_sizes_facts a R Hwf) as (Hn & He & Hz & Hv & _).
  rewrite psum_occ_length.
  - unfold count_rows. rewrite length_map.
    pose proof (length_filter_le (counted a R) (all_slots a)) as Hle.
    rewrite length_all_slots in Hle. nia.
  - intros d Hd. apply (count_rows_range a R Hwf) in Hd. lia.
Qed.

Lemma FillI_nnz_bound_witness :
  exists A1 nnz,
    FillI Samples.two_elements (alloc_I Samples.two_elements None) = Ok (A1, nnz) /\
    0 <= nnz <= 8.
Proof.
  apply (FillI_nnz_bound Samples.two_elements Samples.two_elements_R); vm_compute; reflexivity.
Defined.

Lemma length_filter_filter {X} (p q : X -> bool) (l : list X) :
  (length (filter p (filter q l)) <= length (filter p l))%nat.
Proof.
  induction l as [|x l IH]; [apply Nat.le_refl|]. cbn [filter].
  destruct (q x), (p x) eqn:Ep; cbn [filter length]; try rewrite Ep; cbn [length]; lia.
Qed.

Lemma length_filter_slots (p : Z -> bool) (js : list Z) (l : list Z) :
  length (filter (fun s : Z * Z => p (fst s))
                 (flat_map (fun i => map (fun j => (i, j)) js) l))
  = (length (filter p l) * length js)%nat.
Proof.
  induction l as [|i l IH]; [reflexivity|].
  cbn [flat_map filter]. rewrite filter_app, length_app, IH.
  assert (E : filter (fun s : Z * Z => p (fst s)) (map (fun j => (i, j)) js)
              = if p i then map (fun j => (i, j)) js else []).
  { clear IH. induction js as [|j js IHj]; [destruct (p i); reflexivity|].
    cbn [map filter fst]. rewrite IHj. destruct (p i); reflexivity. }
  rewrite E. destruct (p i); cbn [length]; [rewrite length_map|]; lia.
Qed.

(** The slots of a DOF are at most the entries of its incidence list. *)
Lemma slots_of_dof_bound (a : BatchedLORAssembly) (R : ElementRestriction) (d : Z) :
  wf_base a R = true ->
  (length (filter (fun i => (dof_of R i =? d)%Z)
                  (range 0%Z (ndof_per_el a * nel_ho a)%Z))
   <= length (incidence R d))%nat.
Proof.
  intros Hwf. rewrite <- (length_map decode (incidence R d)).
  apply NoDup_incl_length; [apply NoDup_filter, NoDup_range|].
  intros i Hi. apply filter_In in Hi. destruct Hi as [Hi Hd].
  apply in_range in Hi. apply Z.eqb_eq in Hd.
  destruct (in_incidence_of a R Hwf i Hi) as (s & Hs & E & _).
  rewrite Hd in Hs. apply in_map_iff. exists s. auto.
Qed.

(** X21. A row of the matrix has at most [nnz_per_row] entries for each
    element that contains its DOF: the count that [FillI] leaves for row [d]
    is at most [nnz_per_row] times the length of the incidence list of
    [d]. *)
Theorem FillI_row_bound (a : BatchedLORAssembly) (R : ElementRestriction) (A : SparseMatrix) :
  el_restr a = Some R -> wf_base a R = true ->
  Z.of_nat (length (GetI A)) = nvdof a + 1 ->
  exists A1 nnz,
    FillI a A = Ok (A1, nnz) /\
    forall d, 0 <= d < nvdof a ->
      0 <= nth (Z.to_nat (d + 1)) (GetI A1) 0 - nth (Z.to_nat d) (GetI A1) 0
        <= nnz_per_row a * n_elts R d.
Proof.
  intros HR Hwf HL. rewrite (FillI_ok a R A HR Hwf HL).
  eexists. eexists. split; [reflexivity|].
  intros d Hd. cbn [set_I GetI].
  rewrite !offsets_of_nth by lia. rewrite psum_succ by lia.
  destruct (wf_sizes_facts a R Hwf) as (_ & _ & Hz & _).
  destruct (offset_facts a R Hwf d Hd) as (_ & _ & Hne).
  pose proof (occ_nonneg (count_rows a R) d) as H0.
  split; [lia|].
  replace (psum (occ (count_rows a R)) (Z.to_nat d) + occ (count_rows a R) d
           - psum (occ (count_rows a R)) (Z.to_nat d))
    with (occ (count_rows a R) d) by lia.
  unfold count_rows. rewrite occ_length_filter.
  pose proof (length_filter_filter (fun s => row_dof R s =? d) (counted a R) (all_slots a)) as H1.
  pose proof (length_filter_slots (fun i => dof_of R i =? d) (range 0 (nnz_per_row a))
                (range 0 (ndof_per_el a * nel_ho a))) as H2.
  pose proof (slots_of_dof_bound a R d Hwf) as H3.
  rewrite incidence_length in H3. rewrite range_length in H2.
  replace (Z.to_nat (nnz_per_row a - 0)) with (Z.to_nat (nnz_per_row a)) in H2
    by (f_equal; lia).
  assert (H4 : (length (filter (fun s => (row_dof R s =? d)%Z)
                               (filter (counted a R) (all_slots a)))
                <= length (filter (fun i => (dof_of R i =? d)%Z)
                                  (range 0%Z (ndof_per_el a * nel_ho a)%Z))
                   * Z.to_nat (nnz_per_row a))%nat).
  { apply (Nat.le_trans _ _ _ H1). apply Nat.eq_le_incl. exact H2. }
  apply Nat2Z.inj_le in H4. rewrite Nat2Z.inj_mul in H4.
  rewrite Z2Nat.id in H4 by lia.
  apply Nat2Z.inj_le in H3. rewrite Z2Nat.id in H3 by lia.
  eapply Z.le_trans; [exact H4|].
  rewrite (Z.mul_comm (nnz_per_row a)).
  apply Z.mul_le_mono_nonneg_r; [lia | exact H3].
Qed.

Lemma FillI_row_bound_witness :
  exists A1 nnz,
    FillI Samples.two_elements (alloc_I Samples.two_elements None) = Ok (A1, nnz) /\
    nth 2 (GetI A1) 0 - nth 1 (GetI A1) 0 <= 4.
Proof.
  destruct (FillI_row_bound Samples.two_elements Samples.two_elements_R
              (alloc_I Samples.two_elements None))
    as (A1 & nnz & E & H); try (vm_compute; reflexivity).
  exists A1, nnz. split; [exact E|]. apply (H 1). vm_compute. split; congruence.
Defined.

(** ** The check and the dispatch *)

(** X22. The static [Assemble] repeats the test of [FormIsSupported] on the
    collection and the integrators, and not the test of the tensor basis:
    [FormIsSupported] holds exactly when the space uses a tensor basis and
    [Assemble], given the space of the form, runs a kernel; the kernel is
    the one of the collection. *)
Theorem FormIsSupported_is_dispatch_guard (a : Form.BilinearForm) :
  Form.FormIsSupported a
  = Form.UsesTensorBasis (Form.FESpace a)
    && match Form.Assemble a (Form.FESpace a) with Some _ => true | None => false end /\
  forall fes k, Form.Assemble a fes = Some k ->
    match Form.FEColl fes with
    | Form.H1_FECollection => k = Form.BatchedLOR_H1
    | Form.ND_FECollection => k = Form.BatchedLOR_ND
    | Form.RT_FECollection => k = Form.BatchedLOR_RT
    | Form.OtherFECollection => False
    end.
Proof.
  split.
  - unfold Form.FormIsSupported, Form.Assemble.
    destruct (Form.UsesTensorBasis (Form.FESpace a)); cbn [negb andb]; [|reflexivity].
    destruct (Form.FEColl (Form.FESpace a)); try reflexivity;
      match goal with |- ?b = _ => destruct b; reflexivity end.
  - intros fes k. unfold Form.Assemble.
    destruct (Form.FEColl fes); try discriminate;
      match goal with |- (if ?b then _ else _) = _ -> _ => destruct b end;
      try discriminate; intros E; injection E as <-; reflexivity.
Qed.

(** ** The assertion of the fill kernel *)

Lemma passes_Ok {A} (x : A) : stopped_at_assertion (Ok x) = false.
Proof. reflexivity. Qed.

Lemma passes_bind {A B} (m : result A) (k : A -> result B) :
  stopped_at_assertion m = false ->
  (forall x, m = Ok x -> stopped_at_assertion (k x) = false) ->
  stopped_at_assertion (bind m k) = false.
Proof.
  intros Hm Hk. destruct m as [x|f]; cbn [bind]; [apply Hk; reflexivity | exact Hm].
Qed.

Lemma passes_foldM {S X} (f : S -> X -> result S) (l : list X) (s : S) :
  (forall s x, In x l -> stopped_at_assertion (f s x) = false) ->
  stopped_at_assertion (foldM f l s) = false.
Proof.
  revert s; induction l as [|x l IH]; intros s Hf; cbn [foldM]; [reflexivity|].
  apply passes_bind; [apply Hf; left; reflexivity|].
  intros s' _. apply IH. intros s0 y Hy. apply Hf. right. exact Hy.
Qed.

Lemma passes_read {A} (a : array_id) (l : list A) (i : Z) :
  stopped_at_assertion (read a l i) = false.
Proof.
  unfold read. destruct (in_bounds l i); [|reflexivity].
  destruct (nth_error l (Z.to_nat i)); reflexivity.
Qed.

Lemma passes_write {A} (a : array_id) (l : list A) (i : Z) (v : A) :
  stopped_at_assertion (write a l i v) = false.
Proof. unfold write. destruct (in_bounds l i); reflexivity. Qed.

Lemma passes_buf_read (b : buffer) (i : Z) : stopped_at_assertion (buf_read b i) = false.
Proof. unfold buf_read. destruct (buf_ok i); reflexivity. Qed.

Lemma passes_buf_write (b : buffer) (i v : Z) :
  stopped_at_assertion (buf_write b i v) = false.
Proof. unfold buf_write. destruct (buf_ok i); reflexivity. Qed.

Lemma passes_AtomicAdd (a : array_id) (l : list Z) (i v : Z) :
  stopped_at_assertion (AtomicAdd a l i v) = false.
Proof.
  unfold AtomicAdd. apply passes_bind; [apply passes_read|]. intros old _.
  apply passes_bind; [apply passes_write|]. intros l' _. reflexivity.
Qed.

Lemma passes_GetMinElt_find (b : buffer) (e j : Z) (n : nat) :
  stopped_at_assertion (GetMinElt_find b e j n) = false.
Proof.
  revert j; induction n as [|n IH]; intros j; cbn [GetMinElt_find]; [reflexivity|].
  apply passes_bind; [apply passes_buf_read|]. intros x _.
  destruct (e =? x); [reflexivity | apply IH].
Qed.

Lemma passes_GetMinElt (b1 : buffer) (n1 : Z) (b2 : buffer) (n2 : Z) :
  stopped_at_assertion (GetMinElt b1 n1 b2 n2) = false.
Proof.
  unfold GetMinElt. apply passes_foldM. intros m i _. unfold GetMinElt_step.
  apply passes_bind; [apply passes_buf_read|]. intros e _.
  destruct (e >=? m); [reflexivity|].
  apply passes_bind; [apply passes_GetMinElt_find|]. intros found _. reflexivity.
Qed.

Lemma passes_find_nonzero (a : BatchedLORAssembly) (r c m : Z) (n : nat) :
  stopped_at_assertion (find_nonzero a r c m n) = false.
Proof.
  revert m; induction n as [|n IH]; intros m; cbn [find_nonzero]; [reflexivity|].
  apply passes_bind; [apply passes_read|]. intros x _.
  destruct (x =? c); [reflexivity | apply IH].
Qed.

Lemma passes_elts (a : BatchedLORAssembly) (R : ElementRestriction) (offset ne : Z) :
  stopped_at_assertion (FillJAndData_elts a R offset ne) = false.
Proof.
  unfold FillJAndData_elts. apply passes_foldM. intros [elts B] e _.
  apply passes_bind; [apply passes_read|]. intros s_E _.
  apply passes_bind; [apply passes_buf_write|]. intros elts' _.
  apply passes_bind; [apply passes_buf_write|]. intros B' _. reflexivity.
Qed.

(** The assertion tests the slot [j] of the outer loop, which is never
    negative. *)
Lemma passes_accumulate_l (a : BatchedLORAssembly) (j : Z) (j_elts j_B : buffer)
    (iel_ho_2 sii_el_2 ii_el_2 : Z) (val : float) (l : Z) :
  0 <= j ->
  stopped_at_assertion (accumulate_l a j j_elts j_B iel_ho_2 sii_el_2 ii_el_2 val l) = false.
Proof.
  intros Hj. unfold accumulate_l.
  apply passes_bind; [apply passes_buf_read|]. intros jel _.
  destruct (iel_ho_2 =? jel); [|reflexivity].
  apply passes_bind; [apply passes_buf_read|]. intros sjj _.
  apply passes_bind; [apply passes_find_nonzero|]. intros j2 _.
  apply passes_bind.
  - unfold assert_kernel. replace (j >=? 0) with true; [reflexivity|].
    symmetry. apply Z.geb_le. exact Hj.
  - intros _ _. apply passes_bind; [apply passes_read|]. intros v _. reflexivity.
Qed.

Lemma passes_slot (a : BatchedLORAssembly) (R : ElementRestriction)
    (ii_el iel_ho sii i_ne : Z) (i_elts i_B : buffer) (j : Z) :
  0 <= j ->
  stopped_at_assertion (FillJAndData_slot a R ii_el iel_ho sii i_ne i_elts i_B j) = false.
Proof.
  intros Hj. unfold FillJAndData_slot.
  apply passes_bind; [apply passes_read|]. intros jj_el _.
  destruct (jj_el <? 0); [reflexivity|].
  apply passes_bind; [apply passes_read|]. intros sjj _.
  apply passes_bind; [apply passes_read|]. intros j_offset _.
  apply passes_bind; [apply passes_read|]. intros j_next _.
  destruct ((i_ne =? 1) || (j_next - j_offset =? 1)).
  - apply passes_bind; [apply passes_read|]. intros v _. reflexivity.
  - apply passes_bind; [apply passes_elts|]. intros [j_elts j_B] _.
    apply passes_bind; [apply passes_GetMinElt|]. intros min_e _.
    destruct (iel_ho =? min_e); [|reflexivity].
    apply passes_bind; [|intros val _; reflexivity].
    apply passes_foldM. intros val k _. unfold accumulate_k.
    apply passes_bind; [apply passes_buf_read|]. intros iel2 _.
    apply passes_bind; [apply passes_buf_read|]. intros sii2 _.
    apply passes_foldM. intros val' l _. apply (passes_accumulate_l a j _ _ _ _ _ _ _ Hj).
Qed.

Lemma passes_store_entry (st : fill_state) (e : entry) :
  stopped_at_assertion (store_entry st e) = false.
Proof.
  destruct st as [[I_ J] AV]. unfold store_entry, GetAndIncrementNnzIndex.
  apply passes_bind; [apply passes_AtomicAdd|]. intros [nnz I'] _.
  apply passes_bind; [apply passes_write|]. intros J' _.
  apply passes_bind; [apply passes_write|]. intros AV' _. reflexivity.
Qed.

Lemma passes_body (a : BatchedLORAssembly) (R : ElementRestriction) (st : fill_state) (i : Z) :
  stopped_at_assertion (FillJAndData_body a R st i) = false.
Proof.
  unfold FillJAndData_body.
  apply passes_bind; [apply passes_read|]. intros sii _.
  apply passes_bind; [apply passes_read|]. intros i_offset _.
  apply passes_bind; [apply passes_read|]. intros i_next _.
  apply passes_bind; [apply passes_elts|]. intros [i_elts i_B] _.
  apply passes_foldM. intros st' j Hj. apply in_range in Hj.
  apply passes_bind; [apply passes_slot; lia|]. intros [e|] _;
    [apply passes_store_entry | reflexivity].
Qed.

(** X23. [FillJAndData] never stops at its assertion "Can't find nonzero":
    the assertion tests the slot [j] of the enclosing loop, not the result
    [j2] of the lookup, so it holds on every input, also when the lookup has
    failed. *)
Theorem assertion_never_stops (a : BatchedLORAssembly) (A : SparseMatrix) :
  stopped_at_assertion (FillJAndData a A) = false.
Proof.
  unfold FillJAndData. destruct (el_restr a) as [R|]; [|reflexivity].
  apply passes_bind.
  - unfold copy_I, forall_loop. apply passes_foldM. intros I i _.
    apply passes_bind; [apply passes_read|]. intros v _. apply passes_write.
  - intros I_ _. apply passes_bind; [|intros [[cur J] AV] _; reflexivity].
    unfold forall_loop. apply passes_foldM. intros st i _. apply passes_body.
Qed.

(** ** The atomic operations of the kernels, on any input *)

Lemma bind_ret {X} (m : result X) : (x <- m ;; Ok x) = m.
Proof. destruct m; reflexivity. Qed.

Lemma bind_assoc {X Y Z'} (m : result X) (k : X -> result Y) (h : Y -> result Z') :
  (y <- (x <- m ;; k x) ;; h y) = (x <- m ;; y <- k x ;; h y).
Proof. destruct m; reflexivity. Qed.

(** A loop that collects the operations of its turns: the operations
    collected from an accumulator are appended to it. *)
Lemma collect_acc {X O} (loc : X -> result (list O)) (l : list X) (acc : list O) :
  foldM (fun acc x => o <- loc x ;; Ok (acc ++ o)) l acc
  = (ops <- foldM (fun acc x => o <- loc x ;; Ok (acc ++ o)) l [] ;; Ok (acc ++ ops)).
Proof.
  revert acc; induction l as [|x l IH]; intros acc; cbn [foldM bind].
  - rewrite app_nil_r; reflexivity.
  - destruct (loc x) as [o|e]; cbn [bind]; [|reflexivity].
    rewrite (IH (acc ++ o)), (IH ([] ++ o)). cbn [app].
    destruct (foldM (fun acc x => o <- loc x ;; Ok (acc ++ o)) l []); cbn [bind];
      [rewrite app_assoc; reflexivity | reflexivity].
Qed.

Lemma collect_cons {X O} (loc : X -> result (list O)) (x : X) (l : list X) :
  foldM (fun acc x => o <- loc x ;; Ok (acc ++ o)) (x :: l) []
  = (o <- loc x ;; ops <- foldM (fun acc x => o <- loc x ;; Ok (acc ++ o)) l [] ;;
     Ok (o ++ ops)).
Proof.
  cbn [foldM]. rewrite bind_assoc. apply bind_ext. intros o. cbn [bind app].
  apply collect_acc.
Qed.

(** Every turn of a collecting loop that returns has returned, and its
    operations are among those collected. *)
Lemma collect_In {X O} (loc : X -> result (list O)) (l : list X) (ops : list O) :
  foldM (fun acc x => o <- loc x ;; Ok (acc ++ o)) l [] = Ok ops ->
  forall x, In x l -> exists o, loc x = Ok o /\ forall y, In y o -> In y ops.
Proof.
  revert ops; induction l as [|x l IH]; intros ops H y Hy; [contradiction|].
  rewrite collect_cons in H. invb H as o Ho. invb H as ops' Hops. injection H as <-.
  destruct Hy as [<-|Hy].
  - exists o. split; [exact Ho|]. intros z Hz. apply in_or_app. left. exact Hz.
  - destruct (IH ops' Hops y Hy) as (o' & Ho' & Hin). exists o'. split; [exact Ho'|].
    intros z Hz. apply in_or_app. right. apply Hin. exact Hz.
Qed.

(** A loop whose turns compute their atomic operations from the input alone
    and then perform them: when every turn computes its operations, the loop
    performs the operations collected, in their order; when a turn does not,
    the loop does not return. *)
Lemma foldM_atomic {S X O} (loc : X -> result (list O)) (op : S -> O -> result S)
    (body : S -> X -> result S) (l : list X) :
  (forall x o s, In x l -> loc x = Ok o -> body s x = foldM op o s) ->
  (forall x e s, In x l -> loc x = Fault e -> exists e', body s x = Fault e') ->
  match foldM (fun acc x => o <- loc x ;; Ok (acc ++ o)) l [] with
  | Ok ops => forall s, foldM body l s = foldM op ops s
  | Fault _ => forall s, exists e, foldM body l s = Fault e
  end.
Proof.
  induction l as [|x l IH]; intros H1 H2; [intros s; reflexivity|].
  specialize (IH (fun x o s Hx => H1 x o s (or_intror Hx))
                 (fun x e s Hx => H2 x e s (or_intror Hx))).
  rewrite collect_cons.
  destruct (loc x) as [o|e] eqn:E; cbn [bind].
  - destruct (foldM (fun acc x => o <- loc x ;; Ok (acc ++ o)) l []) as [ops|e'];
      cbn [bind]; intros s; cbn [foldM].
    + rewrite foldM_app, (H1 x o s (or_introl eq_refl) E). apply bind_ext. exact IH.
    + rewrite (H1 x o s (or_introl eq_refl) E).
      destruct (foldM op o s) as [s'|e'']; cbn [bind]; [apply IH | eexists; reflexivity].
  - intros s. cbn [foldM]. destruct (H2 x e s (or_introl eq_refl) E) as (e' & ->).
    eexists; reflexivity.
Qed.

(** The turns of the loops over the nonzero slots: the count kernel. *)
Lemma FillI_slots_atomic (a : BatchedLORAssembly) (R : ElementRestriction)
    (ii_el iel_ho i_ne ii : Z) (i_elts : buffer) (l : list Z) :
  match foldM (fun acc j =>
                 b <- FillI_slot a R ii_el iel_ho i_ne i_elts j ;;
                 if b then Ok (acc ++ [ii]) else Ok acc) l [] with
  | Ok rs =>
      forall I, foldM (fun I j =>
                         b <- FillI_slot a R ii_el iel_ho i_ne i_elts j ;;
                         if b then '(_, I') <- AtomicAdd arr_I I ii 1 ;; Ok I' else Ok I)
                      l I
                = foldM inc_row rs I
  | Fault _ =>
      forall I, exists e,
        foldM (fun I j =>
                 b <- FillI_slot a R ii_el iel_ho i_ne i_elts j ;;
                 if b then '(_, I') <- AtomicAdd arr_I I ii 1 ;; Ok I' else Ok I)
              l I
        = Fault e
  end.
Proof.
  set (loc := fun j => b <- FillI_slot a R ii_el iel_ho i_ne i_elts j ;;
                       Ok (if b then [ii] else [])).
  assert (E : forall acc,
            foldM (fun acc j =>
                     b <- FillI_slot a R ii_el iel_ho i_ne i_elts j ;;
                     if b then Ok (acc ++ [ii]) else Ok acc) l acc
            = foldM (fun acc j => o <- loc j ;; Ok (acc ++ o)) l acc).
  { intros acc. apply foldM_ext. intros s j _. unfold loc. rewrite bind_assoc.
    apply bind_ext. intros [|]; cbn [bind]; [reflexivity | rewrite app_nil_r; reflexivity]. }
  rewrite E. apply foldM_atomic.
  - intros j o s _ Ho. unfold loc in Ho. invb Ho as b Hb. injection Ho as <-.
    rewrite Hb. cbn [bind]. destruct b; cbn [foldM]; [|reflexivity].
    unfold inc_row. symmetry. apply bind_ret.
  - intros j e s _ He. unfold loc in He.
    destruct (FillI_slot a R ii_el iel_ho i_ne i_elts j) as [b|e']; [discriminate|].
    exists e'. reflexivity.
Qed.

(** An iteration of the count kernel performs the increments it computes. *)
Lemma FillI_body_atomic (a : BatchedLORAssembly) (R : ElementRestriction) (i : Z) :
  match FillI_increments a R i with
  | Ok rs => forall I, FillI_body a R I i = foldM inc_row rs I
  | Fault _ => forall I, exists e, FillI_body a R I i = Fault e
  end.
Proof.
  unfold FillI_increments, FillI_body.
  destruct (el_dof_lex a R (Z.rem i (ndof_per_el a)) (Z.quot i (ndof_per_el a))) as [sii|e];
    cbn [bind]; [|intros I; eexists; reflexivity].
  destruct (K R (decode sii)) as [o1|e]; cbn [bind]; [|intros I; eexists; reflexivity].
  destruct (K R (decode sii + 1)) as [o2|e]; cbn [bind]; [|intros I; eexists; reflexivity].
  destruct (FillI_elts a R o1 (o2 - o1)) as [i_elts|e]; cbn [bind];
    [|intros I; eexists; reflexivity].
  apply FillI_slots_atomic.
Qed.

(** The count kernel performs the increments of [count_increments], in
    their order; it does not return when they cannot be computed. *)
Lemma FillI_kernel_atomic (a : BatchedLORAssembly) (R : ElementRestriction) :
  match count_increments a R with
  | Ok rs => forall I, forall_loop (ndof_per_el a * nel_ho a) (FillI_body a R) I
                       = foldM inc_row rs I
  | Fault _ => forall I, exists e,
                 forall_loop (ndof_per_el a * nel_ho a) (FillI_body a R) I = Fault e
  end.
Proof.
  unfold count_increments, forall_loop.
  apply (foldM_atomic (FillI_increments a R) inc_row (FillI_body a R)).
  - intros i rs I _ E. pose proof (FillI_body_atomic a R i) as H. rewrite E in H. apply H.
  - intros i e I _ E. pose proof (FillI_body_atomic a R i) as H. rewrite E in H. apply H.
Qed.

(** The same for the fill kernel and its claims. *)
Lemma FillJAndData_slots_atomic (a : BatchedLORAssembly) (R : ElementRestriction)
    (ii_el iel_ho sii i_ne : Z) (i_elts i_B : buffer) (l : list Z) :
  match foldM (fun acc j =>
                 oe <- FillJAndData_slot a R ii_el iel_ho sii i_ne i_elts i_B j ;;
                 match oe with
                 | Some e => Ok (acc ++ [e])
                 | None => Ok acc
                 end) l [] with
  | Ok es =>
      forall st, foldM (fun st j =>
                          oe <- FillJAndData_slot a R ii_el iel_ho sii i_ne i_elts i_B j ;;
                          match oe with
                          | Some e => store_entry st e
                          | None => Ok st
                          end) l st
                 = foldM store_entry es st
  | Fault _ =>
      forall st, exists e,
        foldM (fun st j =>
                 oe <- FillJAndData_slot a R ii_el iel_ho sii i_ne i_elts i_B j ;;
                 match oe with
                 | Some e => store_entry st e
                 | None => Ok st
                 end) l st
        = Fault e
  end.
Proof.
  set (loc := fun j => oe <- FillJAndData_slot a R ii_el iel_ho sii i_ne i_elts i_B j ;;
                       Ok (match oe with Some e => [e] | None => [] end)).
  assert (E : forall acc,
            foldM (fun acc j =>
                     oe <- FillJAndData_slot a R ii_el iel_ho sii i_ne i_elts i_B j ;;
                     match oe with
                     | Some e => Ok (acc ++ [e])
                     | None => Ok acc
                     end) l acc
            = foldM (fun acc j => o <- loc j ;; Ok (acc ++ o)) l acc).
  { intros acc. apply foldM_ext. intros s j _. unfold loc. rewrite bind_assoc.
    apply bind_ext. intros [e|]; cbn [bind]; [reflexivity | rewrite app_nil_r; reflexivity]. }
  rewrite E. apply foldM_atomic.
  - intros j o s _ Ho. unfold loc in Ho. invb Ho as oe Hoe. injection Ho as <-.
    rewrite Hoe. cbn [bind]. destruct oe as [e|]; cbn [foldM]; [|reflexivity].
    symmetry. apply bind_ret.
  - intros j e s _ He. unfold loc in He.
    destruct (FillJAndData_slot a R ii_el iel_ho sii i_ne i_elts i_B j) as [oe|e'];
      [discriminate|].
    exists e'. reflexivity.
Qed.

Lemma FillJAndData_body_atomic (a : BatchedLORAssembly) (R : ElementRestriction) (i : Z) :
  match FillJAndData_claims a R i with
  | Ok es => forall st, FillJAndData_body a R st i = foldM store_entry es st
  | Fault _ => forall st, exists e, FillJAndData_body a R st i = Fault e
  end.
Proof.
  unfold FillJAndData_claims, FillJAndData_body.
  destruct (el_dof_lex a R (Z.rem i (ndof_per_el a)) (Z.quot i (ndof_per_el a))) as [sii|e];
    cbn [bind]; [|intros I; eexists; reflexivity].
  destruct (K R (decode sii)) as [o1|e]; cbn [bind]; [|intros I; eexists; reflexivity].
  destruct (K R (decode sii + 1)) as [o2|e]; cbn [bind]; [|intros I; eexists; reflexivity].
  destruct (FillJAndData_elts a R o1 (o2 - o1)) as [[i_elts i_B]|e]; cbn [bind];
    [|intros I; eexists; reflexivity].
  apply FillJAndData_slots_atomic.
Qed.

Lemma FillJAndData_kernel_atomic (a : BatchedLORAssembly) (R : ElementRestriction) :
  match fill_claims a R with
  | Ok es => forall st, forall_loop (ndof_per_el a * nel_ho a) (FillJAndData_body a R) st
                        = foldM store_entry es st
  | Fault _ => forall st, exists e,
                 forall_loop (ndof_per_el a * nel_ho a) (FillJAndData_body a R) st = Fault e
  end.
Proof.
  unfold fill_claims, forall_loop.
  apply (foldM_atomic (FillJAndData_claims a R) store_entry (FillJAndData_body a R)).
  - intros i es st _ E. pose proof (FillJAndData_body_atomic a R i) as H.
    rewrite E in H. apply H.
  - intros i e st _ E. pose proof (FillJAndData_body_atomic a R i) as H.
    rewrite E in H. apply H.
Qed.

(** ** The count kernel and the fill kernel take the same decisions *)

Lemma FillJAndData_elts_fst (a : BatchedLORAssembly) (R : ElementRestriction)
    (off ne : Z) (elts B : buffer) :
  FillJAndData_elts a R off ne = Ok (elts, B) -> FillI_elts a R off ne = Ok elts.
Proof.
  unfold FillJAndData_elts, FillI_elts.
  assert (G : forall l e0 b0,
            foldM (fun '(elts, B) e =>
                     s_E <- dof_glob2loc R (off + e) ;;
                     let plus := s_E >=? 0 in
                     let E := if plus then s_E else -1 - s_E in
                     elts' <- buf_write elts e (Z.quot E (ndof_per_el a)) ;;
                     let Bi := Z.rem E (ndof_per_el a) in
                     B' <- buf_write B e (if plus then Bi else -1 - Bi) ;;
                     Ok (elts', B')) l (e0, b0) = Ok (elts, B) ->
            foldM (fun elts e =>
                     s_E <- dof_glob2loc R (off + e) ;;
                     let E := decode s_E in
                     buf_write elts e (Z.quot E (ndof_per_el a))) l e0 = Ok elts).
  { induction l as [|e l IH]; intros e0 b0 H; cbn [foldM] in H |- *.
    - injection H as <- _. reflexivity.
    - invb H as [e1 b1] H1. invb H1 as s_E Hs. cbv zeta in H1.
      invb H1 as e1' He. invb H1 as b1' Hb.
      injection H1 as <- <-. rewrite Hs. cbn [bind]. cbv zeta.
      unfold decode. rewrite He. cbn [bind]. apply (IH _ _ H). }
  apply G.
Qed.

Lemma FillJAndData_slot_counts (a : BatchedLORAssembly) (R : ElementRestriction)
    (ii_el iel_ho sii i_ne : Z) (i_elts i_B : buffer) (j : Z) (oe : option entry) :
  FillJAndData_slot a R ii_el iel_ho sii i_ne i_elts i_B j = Ok oe ->
  FillI_slot a R ii_el iel_ho i_ne i_elts j
  = Ok (match oe with Some _ => true | None => false end) /\
  forall e, oe = Some e -> e_row e = decode sii.
Proof.
  unfold FillJAndData_slot, FillI_slot. intros H.
  invb H as jj_el H1. rewrite H1. cbn [bind].
  destruct (jj_el <? 0).
  { injection H as <-. split; [reflexivity | intros e He; discriminate]. }
  invb H as sjj H2. rewrite H2. cbn [bind].
  invb H as o1 H3. rewrite H3. cbn [bind].
  invb H as o2 H4. rewrite H4. cbn [bind].
  destruct ((i_ne =? 1) || (o2 - o1 =? 1)).
  { invb H as v Hv. injection H as <-. split; [reflexivity|].
    intros e He. injection He as <-. reflexivity. }
  invb H as [j_elts j_B] H5. rewrite (FillJAndData_elts_fst a R _ _ _ _ H5). cbn [bind].
  invb H as min_e H6. rewrite H6. cbn [bind].
  destruct (iel_ho =? min_e).
  - invb H as val Hval. injection H as <-. split; [reflexivity|].
    intros e He. injection He as <-. reflexivity.
  - injection H as <-. split; [reflexivity | intros e He; discriminate].
Qed.

Lemma FillJAndData_slots_count (a : BatchedLORAssembly) (R : ElementRestriction)
    (ii_el iel_ho sii i_ne : Z) (i_elts i_B : buffer) (l : list Z) :
  forall acc es,
  foldM (fun acc j =>
           oe <- FillJAndData_slot a R ii_el iel_ho sii i_ne i_elts i_B j ;;
           match oe with
           | Some e => Ok (acc ++ [e])
           | None => Ok acc
           end) l acc = Ok es ->
  foldM (fun acc j =>
           b <- FillI_slot a R ii_el iel_ho i_ne i_elts j ;;
           if b then Ok (acc ++ [decode sii]) else Ok acc) l (map e_row acc)
  = Ok (map e_row es).
Proof.
  induction l as [|j l IH]; intros acc es H; cbn [foldM] in H |- *.
  - injection H as <-. reflexivity.
  - invb H as acc1 H1. invb H1 as oe Hoe.
    destruct (FillJAndData_slot_counts a R _ _ _ _ _ _ _ _ Hoe) as [Hb Hrow].
    rewrite Hb. cbn [bind]. destruct oe as [e|]; injection H1 as <-.
    + replace (map e_row acc ++ [decode sii]) with (map e_row (acc ++ [e]))
        by (rewrite map_app; cbn [map]; rewrite (Hrow e eq_refl); reflexivity).
      apply (IH _ _ H).
    + apply (IH _ _ H).
Qed.

Lemma FillJAndData_claims_count (a : BatchedLORAssembly) (R : ElementRestriction)
    (i : Z) (es : list entry) :
  FillJAndData_claims a R i = Ok es -> FillI_increments a R i = Ok (map e_row es).
Proof.
  unfold FillJAndData_claims, FillI_increments. intros H.
  invb H as sii H1. rewrite H1. cbn [bind].
  invb H as o1 H2. rewrite H2. cbn [bind].
  invb H as o2 H3. rewrite H3. cbn [bind].
  invb H as [i_elts i_B] H4. rewrite (FillJAndData_elts_fst a R _ _ _ _ H4). cbn [bind].
  apply (FillJAndData_slots_count a R _ _ _ _ _ _ _ [] es H).
Qed.

(** The count kernel increments the rows of the claims of the fill kernel,
    in their order. *)
Lemma fill_claims_count (a : BatchedLORAssembly) (R : ElementRestriction) (es : list entry) :
  fill_claims a R = Ok es -> count_increments a R = Ok (map e_row es).
Proof.
  unfold fill_claims, count_increments.
  generalize (range 0 (ndof_per_el a * nel_ho a)) as l.
  change (@nil Z) with (map e_row []). generalize (@nil entry) as acc.
  intros acc l. revert acc es.
  induction l as [|i l IH]; intros acc es H; cbn [foldM] in H |- *.
  - injection H as <-. reflexivity.
  - invb H as acc1 H1. invb H1 as es_i Hi. injection H1 as <-.
    rewrite (FillJAndData_claims_count a R i es_i Hi). cbn [bind].
    rewrite <- map_app. apply (IH _ _ H).
Qed.

(** ** The increments in any order *)

Lemma inc_row_out (I : list Z) (d : Z) :
  ~ 0 <= d < Z.of_nat (length I) -> inc_row I d = Fault (OutOfBounds arr_I).
Proof.
  intros H. unfold inc_row, AtomicAdd, read.
  destruct (in_bounds I d) eqn:E; [apply in_bounds_true in E; contradiction|].
  reflexivity.
Qed.

Lemma inc_row_swap (I : list Z) (x y : Z) :
  (I1 <- inc_row I x ;; inc_row I1 y) = (I1 <- inc_row I y ;; inc_row I1 x).
Proof.
  destruct (Z_le_dec 0 x) as [Hx0|Hx0]; [destruct (Z_lt_dec x (Z.of_nat (length I))) as [Hx|Hx]|];
    [destruct (Z_le_dec 0 y) as [Hy0|Hy0];
     [destruct (Z_lt_dec y (Z.of_nat (length I))) as [Hy|Hy]|]| |].
  - rewrite (inc_row_ok I x), (inc_row_ok I y) by lia. cbn [bind].
    rewrite !inc_row_ok by (rewrite list_set_length; lia). f_equal.
    destruct (Z.eq_dec x y) as [->|Hne]; [reflexivity|].
    rewrite !nth_list_set_neq by lia.
    apply list_eq_nth; [rewrite !list_set_length; reflexivity|].
    intros k Hk. rewrite !list_set_length in Hk.
    destruct (Nat.eq_dec k (Z.to_nat x)) as [->|Hkx];
      [|destruct (Nat.eq_dec k (Z.to_nat y)) as [->|Hky]].
    + rewrite nth_list_set_neq by lia. rewrite !nth_list_set_eq by (rewrite ?list_set_length; lia).
      reflexivity.
    + rewrite nth_list_set_eq by (rewrite ?list_set_length; lia).
      rewrite nth_list_set_neq by lia. rewrite nth_list_set_eq by lia. reflexivity.
    + rewrite !nth_list_set_neq by lia. reflexivity.
  - rewrite (inc_row_ok I x) by lia. rewrite (inc_row_out I y) by lia. cbn [bind].
    apply inc_row_out. rewrite list_set_length. lia.
  - rewrite (inc_row_ok I x) by lia. rewrite (inc_row_out I y) by lia. cbn [bind].
    apply inc_row_out. rewrite list_set_length. lia.
  - rewrite (inc_row_out I x) by lia. cbn [bind].
    destruct (inc_row I y) as [I1|e] eqn:E; cbn [bind].
    + apply inc_row_Ok in E. destruct E as [_ ->]. symmetry. apply inc_row_out.
      rewrite list_set_length. lia.
    + unfold inc_row, AtomicAdd in E.
      destruct (read arr_I I y) as [v|e'] eqn:Er; cbn [bind] in E.
      * destruct (write arr_I I y (v + 1)) as [w|e''] eqn:Ew; cbn [bind] in E; [discriminate|].
        injection E as <-. rewrite (write_fault _ _ _ _ _ Ew). reflexivity.
      * injection E as <-. rewrite (read_fault _ _ _ _ Er). reflexivity.
  - rewrite (inc_row_out I x) by lia. cbn [bind].
    destruct (inc_row I y) as [I1|e] eqn:E; cbn [bind].
    + apply inc_row_Ok in E. destruct E as [_ ->]. symmetry. apply inc_row_out.
      rewrite list_set_length. lia.
    + unfold inc_row, AtomicAdd in E.
      destruct (read arr_I I y) as [v|e'] eqn:Er; cbn [bind] in E.
      * destruct (write arr_I I y (v + 1)) as [w|e''] eqn:Ew; cbn [bind] in E; [discriminate|].
        injection E as <-. rewrite (write_fault _ _ _ _ _ Ew). reflexivity.
      * injection E as <-. rewrite (read_fault _ _ _ _ Er). reflexivity.
Qed.

(** The counters after the increments do not depend on their order, nor
    does an increment outside of the counters. *)
Lemma foldM_inc_row_Permutation (l1 l2 : list Z) :
  Permutation l1 l2 -> forall I, foldM inc_row l1 I = foldM inc_row l2 I.
Proof.
  induction 1 as [|x l l' H IH|x y l|l l' l'' H1 IH1 H2 IH2]; intros I.
  - reflexivity.
  - cbn [foldM]. apply bind_ext. exact IH.
  - cbn [foldM]. rewrite <- !bind_assoc. rewrite (inc_row_swap I y x). reflexivity.
  - rewrite IH1. apply IH2.
Qed.

Lemma FillI_sched_Permutation (a : BatchedLORAssembly) (A : SparseMatrix) (rows1 rows2 : list Z) :
  Permutation rows1 rows2 -> FillI_sched a A rows1 = FillI_sched a A rows2.
Proof.
  intros H. unfold FillI_sched. apply bind_ext. intros I0.
  rewrite (foldM_inc_row_Permutation rows1 rows2 H I0). reflexivity.
Qed.

Lemma foldM_inc_row_Ok (l : list Z) :
  forall I I', foldM inc_row l I = Ok I' ->
  length I' = length I /\ forall d, In d l -> 0 <= d < Z.of_nat (length I).
Proof.
  induction l as [|x l IH]; intros I I' H; cbn [foldM] in H.
  - injection H as <-. split; [reflexivity | intros d []].
  - invb H as I1 H1. apply inc_row_Ok in H1. destruct H1 as [Hx ->].
    destruct (IH _ _ H) as [HL Hin]. rewrite list_set_length in HL, Hin.
    split; [exact HL|]. intros d [<-|Hd]; [exact Hx | apply Hin; exact Hd].
Qed.

Lemma offsets_of_ext (c c' : Z -> Z) (n : Z) :
  (forall d, c d = c' d) -> offsets_of c n = offsets_of c' n.
Proof.
  intros H. unfold offsets_of. apply map_ext. intros k. apply psum_ext. intros d _. apply H.
Qed.

(** The count pass with its increments in the order [rows], when the rows
    are counters of [I]. *)
Lemma FillI_sched_counts (a : BatchedLORAssembly) (A : SparseMatrix) (rows : list Z) :
  0 <= nvdof a -> Z.of_nat (length (GetI A)) = nvdof a + 1 ->
  (forall d, In d rows -> 0 <= d <= nvdof a) ->
  FillI_sched a A rows
  = Ok (set_I A (offsets_of (occ rows) (nvdof a)), psum (occ rows) (Z.to_nat (nvdof a))).
Proof.
  intros Hn Hlen Hrows.
  unfold FillI_sched, FillI_offsets. unfold forall_loop at 1.
  destruct (zero_loop_ok (Z.to_nat (nvdof a + 1)) (GetI A)) as (I0 & E0 & L0 & Z0 & _); [lia|].
  rewrite Z2Nat.id in E0 by lia. rewrite E0; cbn [bind].
  destruct (foldM_inc_row rows I0) as (I1 & E1 & L1 & N1).
  { intros d Hd. apply Hrows in Hd. lia. }
  rewrite E1; cbn [bind].
  destruct (scan_ok (Z.to_nat (nvdof a)) I1) as (h_I & E2 & L2 & P2 & K2); [lia|].
  rewrite Z2Nat.id in E2 by lia. rewrite E2; cbn [bind].
  rewrite write_in by lia; cbn [bind].
  rewrite (read_in arr_I _ (nvdof a) 0) by (rewrite list_set_length; lia); cbn [bind].
  assert (Hc : forall n, (n <= Z.to_nat (nvdof a))%nat ->
               psum (fun d => nth (Z.to_nat d) I1 0) n = psum (occ rows) n).
  { intros n Hle. apply psum_ext. intros d Hd.
    rewrite (N1 d) by lia. rewrite Z0 by lia. lia. }
  rewrite nth_list_set_eq by lia.
  rewrite Hc by lia.
  do 2 f_equal. f_equal.
  apply list_eq_nth.
  - rewrite list_set_length.
    pose proof (offsets_of_length (occ rows) (nvdof a) Hn). lia.
  - intros k Hk. rewrite list_set_length in Hk.
    replace k with (Z.to_nat (Z.of_nat k)) at 2 by lia.
    rewrite offsets_of_nth by lia. rewrite Nat2Z.id.
    destruct (Nat.eq_dec k (Z.to_nat (nvdof a))) as [->|Hne].
    + rewrite nth_list_set_eq by lia. reflexivity.
    + rewrite nth_list_set_neq by lia. rewrite P2 by lia. apply Hc; lia.
Qed.

(** A count pass that returns has incremented counters of [I] only. *)
Lemma FillI_sched_Ok (a : BatchedLORAssembly) (A A1 : SparseMatrix) (rows : list Z) (nnz : Z) :
  FillI_sched a A rows = Ok (A1, nnz) ->
  0 <= nvdof a < Z.of_nat (length (GetI A)) /\
  forall d, In d rows -> 0 <= d < Z.of_nat (length (GetI A)).
Proof.
  unfold FillI_sched, FillI_offsets. intros H.
  invb H as I0 E0. invb H as I1 E1. invb H as [h_I sum] E2. invb H as h_I' E3.
  assert (L0 : length I0 = length (GetI A)).
  { unfold forall_loop in E0.
    apply (foldM_inv (fun I => length I = length (GetI A))
                     (fun I ii => write arr_I I ii 0) (range 0 (nvdof a + 1)))
      with (s := GetI A); [|reflexivity|exact E0].
    intros s x s' _ Hs Hw. rewrite (write_length _ _ _ _ _ Hw). exact Hs. }
  destruct (foldM_inc_row_Ok rows I0 I1 E1) as [L1 Hin].
  assert (L2 : length h_I = length I1).
  { change (length (fst (h_I, sum)) = length I1).
    apply (foldM_inv (fun st : list Z * Z => length (fst st) = length I1)
                     FillI_scan (range 0 (nvdof a))) with (s := (I1, 0));
      [|reflexivity|exact E2].
    intros [s1 s2] x [s1' s2'] _ Hs Hw. unfold FillI_scan in Hw.
    invb Hw as v Hv. invb Hw as w Hw'. injection Hw as <- <-. cbn [fst] in *.
    rewrite (write_length _ _ _ _ _ Hw'). exact Hs. }
  apply write_Ok in E3. destruct E3 as [Hn _].
  split; [lia|]. intros d Hd. rewrite <- L0. apply Hin. exact Hd.
Qed.

(** ** The claims in any order *)

(** A claim on a row whose cursor is at the end of [J] is a store outside
    of [J]. *)
Lemma store_entries_overflow (es : list entry) (d0 : Z) :
  forall (cur J : list Z) (AV : list float),
  0 <= d0 -> Z.of_nat (length J) <= nth (Z.to_nat d0) cur 0 ->
  (exists e, In e es /\ e_row e = d0) ->
  exists f, foldM store_entry es (cur, J, AV) = Fault f.
Proof.
  induction es as [|e es IH]; intros cur J AV Hd0 Hfull (e0 & Hin & Hrow);
    [contradiction|].
  cbn [foldM]. destruct (store_entry (cur, J, AV) e) as [[[cur' J'] AV']|f] eqn:E;
    cbn [bind]; [|exists f; reflexivity].
  pose proof (store_entry_cursor cur cur' J J' AV AV' e E) as Hcur.
  pose proof (store_entry_lengths _ _ _ E) as [LJ _]. cbn [fst snd] in LJ.
  unfold store_entry, GetAndIncrementNnzIndex, AtomicAdd in E.
  invb E as [nnz c1] Hc. invb E as J1 HJ. invb Hc as old Hr. invb Hc as c2 Hw.
  injection Hc as <- <-.
  apply (read_Ok arr_I cur _ old 0) in Hr. destruct Hr as [Hb Hold].
  apply write_Ok in HJ. destruct HJ as [Hnnz _].
  assert (Hne : e_row e <> d0) by (intros Heq; rewrite Heq in Hold; lia).
  apply IH; [exact Hd0 | |].
  - rewrite LJ, Hcur. rewrite nth_list_set_neq by lia. exact Hfull.
  - exists e0. split; [|exact Hrow]. destruct Hin as [<-|Hin]; [contradiction | exact Hin].
Qed.

Lemma forallb_false_ex {X} (p : X -> bool) (l : list X) :
  forallb p l = false -> exists x, In x l /\ p x = false.
Proof.
  induction l as [|x l IH]; intros H; [discriminate|].
  cbn [forallb] in H. apply andb_false_iff in H. destruct H as [H|H].
  - exists x. split; [left; reflexivity | exact H].
  - destruct (IH H) as (y & Hy & Hp). exists y. split; [right; exact Hy | exact Hp].
Qed.

(** The fill pass from the offsets of the rows of its claims: two orders of
    the claims agree. *)
Lemma FillJAndData_sched_agree (a : BatchedLORAssembly) (A : SparseMatrix)
    (sched1 sched2 : list entry) :
  0 <= nvdof a -> Permutation sched1 sched2 ->
  (forall e, In e sched1 -> 0 <= e_row e <= nvdof a) ->
  GetI A = offsets_of (occ (map e_row sched1)) (nvdof a) ->
  Z.of_nat (length (GetJ A)) = psum (occ (map e_row sched1)) (Z.to_nat (nvdof a)) ->
  length (GetData A) = length (GetJ A) ->
  runs_agree (nvdof a) (FillJAndData_sched a A sched1) (FillJAndData_sched a A sched2).
Proof.
  intros Hn Hperm Hrows HI HJ HAV.
  assert (Hocc : forall d, occ (map e_row sched1) d = occ (map e_row sched2) d).
  { intros d. apply occ_Permutation. apply Permutation_map. exact Hperm. }
  assert (HI2 : GetI A = offsets_of (occ (map e_row sched2)) (nvdof a)).
  { rewrite HI. apply offsets_of_ext. exact Hocc. }
  assert (HJ2 : Z.of_nat (length (GetJ A)) = psum (occ (map e_row sched2)) (Z.to_nat (nvdof a))).
  { rewrite HJ. apply psum_ext. intros d _. apply Hocc. }
  destruct (forallb (fun e => e_row e <? nvdof a) sched1) eqn:Hall.
  - assert (H1 : forall e, In e sched1 -> 0 <= e_row e < nvdof a).
    { intros e He. pose proof (Hrows e He).
      pose proof (proj1 (forallb_forall _ _) Hall e He) as Hlt. cbv beta in Hlt. lia. }
    assert (H2 : forall e, In e sched2 -> 0 <= e_row e < nvdof a).
    { intros e He. apply H1. apply (Permutation_in e (Permutation_sym Hperm)). exact He. }
    destruct (FillJAndData_sched_ok a A sched1 Hn HI H1 HJ HAV) as (J1 & AV1 & E1 & _ & _ & R1).
    destruct (FillJAndData_sched_ok a A sched2 Hn HI2 H2 HJ2 HAV) as (J2 & AV2 & E2 & _ & _ & R2).
    rewrite E1, E2. cbn [runs_agree]. split; [reflexivity|].
    intros d Hd. rewrite (proj2 (R1 d Hd)), (proj2 (R2 d Hd)).
    apply Permutation_map. unfold entries_of_row. apply Permutation_filter. exact Hperm.
  - destruct (forallb_false_ex _ _ Hall) as (e & He & Hlt). cbv beta in Hlt.
    apply Z.ltb_ge in Hlt. pose proof (Hrows e He) as Hr.
    assert (Hrow : e_row e = nvdof a) by lia.
    assert (Hfull : Z.of_nat (length (GetJ A)) <= nth (Z.to_nat (nvdof a)) (GetI A) 0).
    { rewrite HI, offsets_of_nth by lia. lia. }
    assert (Hcopy : copy_I a A = Ok (GetI A)).
    { apply copy_I_ok. rewrite HI. apply offsets_of_length. exact Hn. }
    unfold FillJAndData_sched. rewrite Hcopy. cbn [bind].
    destruct (store_entries_overflow sched1 (nvdof a) (GetI A) (GetJ A) (GetData A) Hn Hfull)
      as (f1 & ->); [exists e; auto|].
    destruct (store_entries_overflow sched2 (nvdof a) (GetI A) (GetJ A) (GetData A) Hn Hfull)
      as (f2 & ->); [exists e; split; [apply (Permutation_in e Hperm He) | exact Hrow]|].
    exact I.
Qed.

(** ** The assembly in any order of its atomic operations *)

Lemma alloc_I_length (a : BatchedLORAssembly) (A0 : option SparseMatrix) :
  length (GetI (alloc_I a A0)) = Z.to_nat (nvdof a + 1).
Proof. cbn [alloc_I GetI]. unfold New. apply repeat_length. Qed.

(** Two schedules of the same increments and of the same claims agree. *)
Lemma SparseIJToCSR_sched_agree (a : BatchedLORAssembly) (A0 : option SparseMatrix)
    (es : list entry) (rows1 rows2 : list Z) (sched1 sched2 : list entry) :
  Permutation (map e_row es) rows1 -> Permutation es sched1 ->
  Permutation (map e_row es) rows2 -> Permutation es sched2 ->
  runs_agree (nvdof a) (SparseIJToCSR_sched a A0 rows1 sched1)
             (SparseIJToCSR_sched a A0 rows2 sched2).
Proof.
  intros Hr1 Hs1 Hr2 Hs2. unfold SparseIJToCSR_sched.
  rewrite (FillI_sched_Permutation a (alloc_I a A0) rows2 rows1
             (Permutation_trans (Permutation_sym Hr2) Hr1)).
  destruct (FillI_sched a (alloc_I a A0) rows1) as [[A1 nnz]|f] eqn:E; cbn [bind];
    [|exact I].
  destruct (FillI_sched_Ok a _ A1 rows1 nnz E) as [Hn Hrows].
  rewrite alloc_I_length in Hn, Hrows.
  assert (Hn0 : 0 <= nvdof a) by lia.
  assert (Hlen : Z.of_nat (length (GetI (alloc_I a A0))) = nvdof a + 1)
    by (rewrite alloc_I_length; lia).
  rewrite (FillI_sched_counts a (alloc_I a A0) rows1 Hn0 Hlen) in E
    by (intros d Hd; apply Hrows in Hd; lia).
  injection E as <- <-.
  assert (Hocc : forall d, occ rows1 d = occ (map e_row sched1) d).
  { intros d. apply occ_Permutation.
    apply (Permutation_trans (Permutation_sym Hr1)). apply Permutation_map. exact Hs1. }
  assert (Hnnz : 0 <= psum (occ rows1) (Z.to_nat (nvdof a))).
  { apply psum_nonneg. intros; apply occ_nonneg. }
  apply FillJAndData_sched_agree.
  - exact Hn0.
  - apply (Permutation_trans (Permutation_sym Hs1) Hs2).
  - intros e He.
    assert (Hin : In (e_row e) rows1).
    { apply (Permutation_in (e_row e) Hr1). apply in_map.
      apply (Permutation_in e (Permutation_sym Hs1) He). }
    apply Hrows in Hin. lia.
  - cbn [alloc_J_Data set_J_Data set_I GetI]. apply offsets_of_ext. exact Hocc.
  - cbn [alloc_J_Data set_J_Data set_I GetJ]. unfold New. rewrite repeat_length.
    rewrite Z2Nat.id by exact Hnnz. apply psum_ext. intros d _. apply Hocc.
  - cbn [alloc_J_Data set_J_Data set_I GetJ GetData]. unfold New.
    rewrite !repeat_length. reflexivity.
Qed.

(** The sequential passes are the schedules in the order of the loops. *)
Lemma FillI_is_sched_of (a : BatchedLORAssembly) (R : ElementRestriction) (A : SparseMatrix)
    (rs : list Z) :
  el_restr a = Some R -> count_increments a R = Ok rs ->
  FillI a A = FillI_sched a A rs.
Proof.
  intros HR Hrs. unfold FillI, FillI_sched. rewrite HR.
  apply bind_ext. intros I0.
  pose proof (FillI_kernel_atomic a R) as H. rewrite Hrs in H. rewrite H. reflexivity.
Qed.

Lemma FillJAndData_is_sched_of (a : BatchedLORAssembly) (R : ElementRestriction)
    (A : SparseMatrix) (es : list entry) :
  el_restr a = Some R -> fill_claims a R = Ok es ->
  FillJAndData a A = FillJAndData_sched a A es.
Proof.
  intros HR Hes. unfold FillJAndData, FillJAndData_sched. rewrite HR.
  apply bind_ext. intros I_.
  pose proof (FillJAndData_kernel_atomic a R) as H. rewrite Hes in H. rewrite H. reflexivity.
Qed.

Lemma SparseIJToCSR_is_sched_of (a : BatchedLORAssembly) (R : ElementRestriction)
    (A0 : option SparseMatrix) (es : list entry) :
  el_restr a = Some R -> fill_claims a R = Ok es ->
  SparseIJToCSR a A0 = SparseIJToCSR_sched a A0 (map e_row es) es.
Proof.
  intros HR Hes. unfold SparseIJToCSR, SparseIJToCSR_sched.
  rewrite (FillI_is_sched_of a R _ (map e_row es) HR (fill_claims_count a R es Hes)).
  apply bind_ext. intros [A1 nnz]. apply (FillJAndData_is_sched_of a R _ es HR Hes).
Qed.

(** When the claims of the fill kernel cannot be computed (a read outside
    of an input array, a buffer too small), the assembly does not return. *)
Lemma SparseIJToCSR_needs_claims (a : BatchedLORAssembly) (R : ElementRestriction)
    (A0 : option SparseMatrix) (f : fault) :
  el_restr a = Some R -> fill_claims a R = Fault f ->
  exists f', SparseIJToCSR a A0 = Fault f'.
Proof.
  intros HR Hf. unfold SparseIJToCSR.
  destruct (FillI a (alloc_I a A0)) as [[A1 nnz]|f1]; cbn [bind]; [|exists f1; reflexivity].
  unfold FillJAndData. rewrite HR.
  destruct (copy_I a (alloc_J_Data A1 nnz)) as [I_|f2]; cbn [bind]; [|exists f2; reflexivity].
  pose proof (FillJAndData_kernel_atomic a R) as H. rewrite Hf in H.
  destruct (H (I_, GetJ (alloc_J_Data A1 nnz), GetData (alloc_J_Data A1 nnz))) as (f3 & ->).
  exists f3. reflexivity.
Qed.

(** An assembly that returns has performed the claims of its fill kernel:
    the rows of the matrix hold their (column, value) pairs. *)
Lemma SparseIJToCSR_Ok (a : BatchedLORAssembly) (R : ElementRestriction)
    (A0 : option SparseMatrix) (B : SparseMatrix) :
  el_restr a = Some R -> SparseIJToCSR a A0 = Ok B ->
  exists es, fill_claims a R = Ok es /\
    0 <= nvdof a /\
    (forall e, In e es -> 0 <= e_row e < nvdof a) /\
    GetI B = offsets_of (occ (map e_row es)) (nvdof a) /\
    forall d, 0 <= d < nvdof a -> row_entries B d = map col_val (entries_of_row es d).
Proof.
  intros HR HB.
  destruct (fill_claims a R) as [es|f] eqn:Hes.
  2:{ destruct (SparseIJToCSR_needs_claims a R A0 f HR Hes) as (f' & Hf).
      rewrite Hf in HB. discriminate. }
  exists es. split; [reflexivity|].
  rewrite (SparseIJToCSR_is_sched_of a R A0 es HR Hes) in HB.
  unfold SparseIJToCSR_sched in HB. invb HB as [A1 nnz] E.
  destruct (FillI_sched_Ok a _ A1 _ nnz E) as [Hn Hrows].
  rewrite alloc_I_length in Hn, Hrows.
  assert (Hn0 : 0 <= nvdof a) by lia.
  assert (Hlen : Z.of_nat (length (GetI (alloc_I a A0))) = nvdof a + 1)
    by (rewrite alloc_I_length; lia).
  rewrite (FillI_sched_counts a (alloc_I a A0) _ Hn0 Hlen) in E
    by (intros d Hd; apply Hrows in Hd; lia).
  injection E as <- <-.
  assert (Hnnz : 0 <= psum (occ (map e_row es)) (Z.to_nat (nvdof a))).
  { apply psum_nonneg. intros; apply occ_nonneg. }
  set (A2 := alloc_J_Data (set_I (alloc_I a A0) (offsets_of (occ (map e_row es)) (nvdof a)))
                          (psum (occ (map e_row es)) (Z.to_nat (nvdof a)))) in HB.
  assert (HJ : Z.of_nat (length (GetJ A2)) = psum (occ (map e_row es)) (Z.to_nat (nvdof a))).
  { unfold A2. cbn [alloc_J_Data set_J_Data GetJ]. unfold New. rewrite repeat_length. lia. }
  assert (HAV : length (GetData A2) = length (GetJ A2)).
  { unfold A2. cbn [alloc_J_Data set_J_Data GetJ GetData]. unfold New.
    rewrite !repeat_length. reflexivity. }
  assert (HI : GetI A2 = offsets_of (occ (map e_row es)) (nvdof a)) by reflexivity.
  assert (Hin : forall e, In e es -> 0 <= e_row e <= nvdof a).
  { intros e He. assert (H : In (e_row e) (map e_row es)) by (apply in_map; exact He).
    apply Hrows in H. lia. }
  assert (Hlt : forall e, In e es -> 0 <= e_row e < nvdof a).
  { destruct (forallb (fun e => e_row e <? nvdof a) es) eqn:Hall.
    - intros e He. pose proof (Hin e He) as Hle.
      pose proof (proj1 (forallb_forall _ _) Hall e He) as Hb. cbv beta in Hb. lia.
    - exfalso. destruct (forallb_false_ex _ _ Hall) as (e & He & Hge). cbv beta in Hge.
      apply Z.ltb_ge in Hge. pose proof (Hin e He) as Hr.
      assert (Hcopy : copy_I a A2 = Ok (GetI A2)).
      { apply copy_I_ok. rewrite HI. apply offsets_of_length. exact Hn0. }
      unfold FillJAndData_sched in HB. rewrite Hcopy in HB. cbn [bind] in HB.
      destruct (store_entries_overflow es (nvdof a) (GetI A2) (GetJ A2) (GetData A2) Hn0)
        as (f & Hf).
      + rewrite HI, offsets_of_nth by lia. lia.
      + exists e. split; [exact He | lia].
      + rewrite Hf in HB. discriminate. }
  split; [exact Hn0|]. split; [exact Hlt|].
  destruct (FillJAndData_sched_ok a A2 es Hn0 HI Hlt HJ HAV) as (J' & AV' & E & _ & _ & Hr).
  rewrite E in HB. injection HB as <-.
  split; [reflexivity|]. intros d Hd. apply (proj2 (Hr d Hd)).
Qed.

(** ** The decoded indices in the loops and in the matrix *)

Lemma FillI_elts_nth (a : BatchedLORAssembly) (R : ElementRestriction) (off : Z) (n : nat) :
  forall elts,
  FillI_elts a R off (Z.of_nat n) = Ok elts ->
  length elts = Z.to_nat Max /\
  forall e, 0 <= e < Z.of_nat n ->
    nth (Z.to_nat e) elts 0 = Z.quot (decode (index R (off + e))) (ndof_per_el a).
Proof.
  unfold FillI_elts. induction n as [|n IH]; intros elts H.
  - injection H as <-. split; [reflexivity | intros e He; lia].
  - rewrite Nat2Z.inj_succ in H |- *. unfold Z.succ in H |- *.
    rewrite range_snoc, foldM_app in H by lia.
    invb H as b1 H1. destruct (IH b1 H1) as [L1 N1]. cbn [foldM] in H.
    invb H as b2 H2. injection H as <-. invb H2 as s_E Hs.
    apply (read_Ok arr_Indices (Indices R) _ s_E 0) in Hs. destruct Hs as [_ Hs].
    unfold buf_write in H2. destruct (buf_ok (Z.of_nat n)) eqn:Hb; [|discriminate].
    injection H2 as <-. unfold buf_ok in Hb. apply andb_true_iff in Hb.
    destruct Hb as [_ Hb]. apply Z.ltb_lt in Hb.
    split; [rewrite list_set_length; exact L1|].
    intros e He. destruct (Z.eq_dec e (Z.of_nat n)) as [->|Hne].
    + rewrite nth_list_set_eq by lia. unfold index. rewrite Hs. reflexivity.
    + rewrite nth_list_set_neq by lia. apply N1. lia.
Qed.

Lemma FillJAndData_elts_nth (a : BatchedLORAssembly) (R : ElementRestriction)
    (off : Z) (n : nat) :
  forall elts B,
  FillJAndData_elts a R off (Z.of_nat n) = Ok (elts, B) ->
  (length elts = Z.to_nat Max /\ length B = Z.to_nat Max) /\
  forall e, 0 <= e < Z.of_nat n ->
    nth (Z.to_nat e) elts 0 = Z.quot (decode (index R (off + e))) (ndof_per_el a) /\
    nth (Z.to_nat e) B 0
    = (if index R (off + e) >=? 0
       then Z.rem (decode (index R (off + e))) (ndof_per_el a)
       else -1 - Z.rem (decode (index R (off + e))) (ndof_per_el a)).
Proof.
  unfold FillJAndData_elts. induction n as [|n IH]; intros elts B H.
  - injection H as <- <-. split; [split; reflexivity | intros e He; lia].
  - rewrite Nat2Z.inj_succ in H |- *. unfold Z.succ in H |- *.
    rewrite range_snoc, foldM_app in H by lia.
    invb H as [e1 b1] H1. destruct (IH e1 b1 H1) as [[L1 L2] N1]. cbn [foldM] in H.
    invb H as [e2 b2] H2. injection H as <- <-. invb H2 as s_E Hs. cbv zeta in H2.
    apply (read_Ok arr_Indices (Indices R) _ s_E 0) in Hs. destruct Hs as [_ Hs].
    invb H2 as e3 He3. invb H2 as b3 Hb3. injection H2 as <- <-.
    unfold buf_write in He3, Hb3. destruct (buf_ok (Z.of_nat n)) eqn:Hb; [|discriminate].
    injection He3 as <-. injection Hb3 as <-.
    unfold buf_ok in Hb. apply andb_true_iff in Hb.
    destruct Hb as [_ Hb]. apply Z.ltb_lt in Hb.
    split; [rewrite !list_set_length; auto|].
    intros e He. destruct (Z.eq_dec e (Z.of_nat n)) as [->|Hne].
    + rewrite !nth_list_set_eq by lia. unfold index, decode. rewrite Hs.
      destruct (s_E >=? 0); split; reflexivity.
    + rewrite !nth_list_set_neq by lia. apply N1. lia.
Qed.

(** The increments of an iteration of the count kernel are increments of
    the decoded row of its slot. *)
Lemma FillI_increments_row (a : BatchedLORAssembly) (R : ElementRestriction) (i : Z)
    (rs : list Z) :
  FillI_increments a R i = Ok rs -> forall r, In r rs -> r = decode (gather R i).
Proof.
  unfold FillI_increments. intros H.
  invb H as sii H1. invb H as o1 H2. invb H as o2 H3. invb H as i_elts H4.
  apply (read_Ok arr_GatherMap (GatherMap R) _ sii 0) in H1. destruct H1 as [_ H1].
  rewrite Z.add_comm, <- Z.quot_rem' in H1. fold (gather R i) in H1. subst sii.
  apply (foldM_inv (fun acc : list Z => forall r, In r acc -> r = decode (gather R i))
           (fun acc j =>
              b <- FillI_slot a R (Z.rem i (ndof_per_el a)) (Z.quot i (ndof_per_el a))
                     (o2 - o1) i_elts j ;;
              if b then Ok (acc ++ [decode (gather R i)]) else Ok acc)
           (range 0 (nnz_per_row a))) with (s := []); [|intros r []|exact H].
  intros acc j acc' _ Hacc Hs. invb Hs as b Hb. destruct b; injection Hs as <-; [|exact Hacc].
  intros r Hr. apply in_app_or in Hr. destruct Hr as [Hr|[<-|[]]]; [apply Hacc; exact Hr|].
  reflexivity.
Qed.

(** A slot whose template entry is present and whose row or column DOF lies
    in one element only: the claim of the fill kernel. *)
Lemma FillJAndData_slot_single (a : BatchedLORAssembly) (R : ElementRestriction)
    (ii_el iel_ho sii i_ne : Z) (i_elts i_B : buffer) (j : Z) (oe : option entry) :
  FillJAndData_slot a R ii_el iel_ho sii i_ne i_elts i_B j = Ok oe ->
  0 <= template a j ii_el ->
  i_ne = 1 \/ n_elts R (decode (gather R (template a j ii_el + ndof_per_el a * iel_ho))) = 1 ->
  oe = Some {| e_row := decode sii;
               e_col := decode (gather R (template a j ii_el + ndof_per_el a * iel_ho));
               e_val := PrimFloat.mul
                          (if Bool.eqb (sii >=? 0)
                                       (gather R (template a j ii_el + ndof_per_el a * iel_ho) >=? 0)
                           then 1%float else (-1)%float)
                          (value a j ii_el iel_ho) |}.
Proof.
  unfold FillJAndData_slot. intros H Hc Hne.
  invb H as jj_el H1.
  apply (read_Ok arr_sparse_mapping (sparse_mapping a) _ jj_el 0) in H1.
  destruct H1 as [_ H1]. fold (template a j ii_el) in H1. subst jj_el.
  destruct (Z.ltb_spec (template a j ii_el) 0) as [Hlt|_]; [lia|].
  invb H as sjj H2.
  apply (read_Ok arr_GatherMap (GatherMap R) _ sjj 0) in H2. destruct H2 as [_ H2].
  fold (gather R (template a j ii_el + ndof_per_el a * iel_ho)) in H2. subst sjj.
  invb H as o1 H3. invb H as o2 H4.
  apply (read_Ok arr_Offsets (Offsets R) _ o1 0) in H3. destruct H3 as [_ H3].
  apply (read_Ok arr_Offsets (Offsets R) _ o2 0) in H4. destruct H4 as [_ H4].
  assert (Hcond : (i_ne =? 1) || (o2 - o1 =? 1) = true).
  { apply orb_true_iff. rewrite !Z.eqb_eq. destruct Hne as [Hne|Hne]; [left; exact Hne|].
    right. unfold n_elts, offset in Hne. rewrite H3, H4 in Hne. exact Hne. }
  rewrite Hcond in H. invb H as v Hv. injection H as <-.
  apply (read_Ok arr_sparse_ij (sparse_ij a) _ v 0%float) in Hv. destruct Hv as [_ Hv].
  fold (value a j ii_el iel_ho) in Hv. subst v.
  rewrite double_of_sign. reflexivity.
Qed.

(** The claim of a slot is among the claims of the kernel. *)
Lemma fill_claims_slot (a : BatchedLORAssembly) (R : ElementRestriction) (es : list entry)
    (i j : Z) :
  fill_claims a R = Ok es ->
  0 <= i < ndof_per_el a * nel_ho a -> 0 <= j < nnz_per_row a ->
  exists i_elts i_B oe,
    FillJAndData_slot a R (Z.rem i (ndof_per_el a)) (Z.quot i (ndof_per_el a)) (gather R i)
      (n_elts R (decode (gather R i))) i_elts i_B j = Ok oe /\
    forall e, oe = Some e -> In e es.
Proof.
  intros Hes Hi Hj. unfold fill_claims in Hes.
  destruct (collect_In (FillJAndData_claims a R) _ es Hes i) as (es_i & Ei & Hin);
    [apply in_range; exact Hi|].
  unfold FillJAndData_claims in Ei.
  invb Ei as sii H1. invb Ei as o1 H2. invb Ei as o2 H3. invb Ei as [i_elts i_B] H4.
  apply (read_Ok arr_GatherMap (GatherMap R) _ sii 0) in H1. destruct H1 as [_ H1].
  rewrite Z.add_comm, <- Z.quot_rem' in H1. fold (gather R i) in H1. subst sii.
  apply (read_Ok arr_Offsets (Offsets R) _ o1 0) in H2. destruct H2 as [_ H2].
  apply (read_Ok arr_Offsets (Offsets R) _ o2 0) in H3. destruct H3 as [_ H3].
  fold (offset R (decode (gather R i))) in H2.
  fold (offset R (decode (gather R i) + 1)) in H3. subst o1 o2.
  fold (n_elts R (decode (gather R i))) in Ei.
  set (loc := fun j =>
                oe <- FillJAndData_slot a R (Z.rem i (ndof_per_el a)) (Z.quot i (ndof_per_el a))
                        (gather R i) (n_elts R (decode (gather R i))) i_elts i_B j ;;
                Ok (match oe with Some e => [e] | None => [] end)).
  assert (E : foldM (fun acc j => o <- loc j ;; Ok (acc ++ o)) (range 0 (nnz_per_row a)) []
              = Ok es_i).
  { rewrite <- Ei. apply foldM_ext. intros s x _. unfold loc. rewrite bind_assoc.
    apply bind_ext. intros [e|]; cbn [bind]; [reflexivity | rewrite app_nil_r; reflexivity]. }
  destruct (collect_In loc _ es_i E j) as (o & Eo & Hino); [apply in_range; exact Hj|].
  unfold loc in Eo. invb Eo as oe Hoe. injection Eo as <-.
  exists i_elts, i_B, oe. split; [exact Hoe|].
  intros e ->. apply Hin. apply Hino. left. reflexivity.
Qed.

(** The entry of such a slot in the assembled matrix. *)
Lemma SparseIJToCSR_single (a : BatchedLORAssembly) (R : ElementRestriction)
    (A0 : option SparseMatrix) (B : SparseMatrix) (i j : Z) :
  el_restr a = Some R -> SparseIJToCSR a A0 = Ok B ->
  0 <= i < ndof_per_el a * nel_ho a -> 0 <= j < nnz_per_row a ->
  0 <= col_slot a (i, j) ->
  n_elts R (decode (gather R i)) = 1 \/ n_elts R (decode (gather R (col_index a (i, j)))) = 1 ->
  In (decode (gather R (col_index a (i, j))),
      PrimFloat.mul (if Bool.eqb (gather R i >=? 0) (gather R (col_index a (i, j)) >=? 0)
                     then 1%float else (-1)%float)
                    (value a j (Z.rem i (ndof_per_el a)) (Z.quot i (ndof_per_el a))))
     (row_entries B (decode (gather R i))).
Proof.
  intros HR HB Hi Hj Hc Hne.
  destruct (SparseIJToCSR_Ok a R A0 B HR HB) as (es & Hes & Hn & Hrows & _ & Hent).
  destruct (fill_claims_slot a R es i j Hes Hi Hj) as (i_elts & i_B & oe & Hoe & Hin).
  change (col_index a (i, j))
    with (template a j (Z.rem i (ndof_per_el a)) + ndof_per_el a * Z.quot i (ndof_per_el a))
    in Hne |- *.
  change (col_slot a (i, j)) with (template a j (Z.rem i (ndof_per_el a))) in Hc.
  pose proof (FillJAndData_slot_single a R _ _ _ _ _ _ _ _ Hoe Hc Hne) as E.
  specialize (Hin _ E). clear E Hoe.
  pose proof (Hent _ (Hrows _ Hin)) as Hr. cbn [e_row] in Hr. rewrite Hr.
  apply in_map_iff. eexists. split; [|apply filter_In; split; [exact Hin|]].
  - reflexivity.
  - cbn [e_row]. apply Z.eqb_refl.
Qed.

(** C4. A signed index [v] decodes to [v] when [v >= 0] and to [-1 - v], its
    bitwise complement, otherwise, and every place of the two kernels decodes
    this way.  In the order of the statement: the decoding; the no-conflict
    branch of a turn of the fill kernel, which stores the decoded row and
    column with the value [sign * V(j, ii_el, iel_ho)], where [sign] is [+1]
    when the signed row and column are both non-negative or both negative and
    [-1] otherwise; the incidence loops of the two kernels, which keep, for
    the entry [s] of [Indices], the element [decode s / ndof] and the slot
    [decode s % ndof] with the sign of [s]; an iteration of the count kernel,
    whose increments are all increments of the counter of the decoded row
    [decode (gather i)]; the matrix that the assembly returns, on any input
    on which it returns: for a slot whose template entry is present and whose
    row or column DOF lies in one element only, the row [decode (gather i)]
    of the matrix holds the decoded column with the value [sign * V]; and the
    assembly returns on well-formed inputs. *)
Theorem signed_index_decoding :
  (forall v, 0 <= decode v /\
             (0 <= v -> decode v = v) /\
             (v < 0 -> decode v = -1 - v /\ decode v = Z.lnot v)) /\
  (forall a R ii_el iel_ho sii i_ne i_elts i_B j jj_el sjj j_off j_next v,
     map_ a j ii_el = Ok jj_el -> 0 <= jj_el ->
     el_dof_lex a R jj_el iel_ho = Ok sjj ->
     K R (decode sjj) = Ok j_off -> K R (decode sjj + 1) = Ok j_next ->
     i_ne = 1 \/ j_next - j_off = 1 ->
     V a j ii_el iel_ho = Ok v ->
     FillJAndData_slot a R ii_el iel_ho sii i_ne i_elts i_B j
     = Ok (Some {| e_row := decode sii; e_col := decode sjj;
                   e_val := PrimFloat.mul
                              (if Bool.eqb (sii >=? 0) (sjj >=? 0)
                               then 1%float else (-1)%float) v |})) /\
  (forall a R off ne elts,
     FillI_elts a R off ne = Ok elts ->
     forall e, 0 <= e < ne ->
       nth (Z.to_nat e) elts 0 = Z.quot (decode (index R (off + e))) (ndof_per_el a)) /\
  (forall a R off ne elts B,
     FillJAndData_elts a R off ne = Ok (elts, B) ->
     forall e, 0 <= e < ne ->
       nth (Z.to_nat e) elts 0 = Z.quot (decode (index R (off + e))) (ndof_per_el a) /\
       nth (Z.to_nat e) B 0
       = (if index R (off + e) >=? 0
          then Z.rem (decode (index R (off + e))) (ndof_per_el a)
          else -1 - Z.rem (decode (index R (off + e))) (ndof_per_el a))) /\
  (forall a R i rs,
     FillI_increments a R i = Ok rs ->
     (forall r, In r rs -> r = decode (gather R i)) /\
     forall I, FillI_body a R I i = foldM inc_row rs I) /\
  (forall a R A0 B i j,
     el_restr a = Some R -> SparseIJToCSR a A0 = Ok B ->
     0 <= i < ndof_per_el a * nel_ho a -> 0 <= j < nnz_per_row a ->
     0 <= col_slot a (i, j) ->
     n_elts R (decode (gather R i)) = 1 \/
     n_elts R (decode (gather R (col_index a (i, j)))) = 1 ->
     In (decode (gather R (col_index a (i, j))),
         PrimFloat.mul (if Bool.eqb (gather R i >=? 0) (gather R (col_index a (i, j)) >=? 0)
                        then 1%float else (-1)%float)
                       (value a j (Z.rem i (ndof_per_el a)) (Z.quot i (ndof_per_el a))))
        (row_entries B (decode (gather R i)))) /\
  (forall a A0, wf_fill a = true -> exists B, SparseIJToCSR a A0 = Ok B).
Proof.
  split; [|split; [|split; [|split; [|split; [|split]]]]].
  - intros v. split; [apply decode_nonneg|]. split; [apply decode_id|].
    intros H. split; [|apply decode_complement; assumption].
    unfold decode. destruct (Z.geb_spec v 0); lia.
  - intros a R ii_el iel_ho sii i_ne i_elts i_B j jj_el sjj j_off j_next v
           Hm Hj He Hk1 Hk2 Hne Hv.
    unfold FillJAndData_slot. rewrite Hm; cbn [bind].
    replace (jj_el <? 0) with false by (symmetry; apply Z.ltb_ge; assumption).
    rewrite He; cbn [bind]. rewrite Hk1, Hk2; cbn [bind].
    replace ((i_ne =? 1) || (j_next - j_off =? 1)) with true.
    + rewrite Hv; cbn [bind]. rewrite double_of_sign. reflexivity.
    + symmetry. apply orb_true_iff. rewrite !Z.eqb_eq. assumption.
  - intros a R off ne elts H e He. rewrite <- (Z2Nat.id ne) in H, He by lia.
    apply (proj2 (FillI_elts_nth a R off (Z.to_nat ne) elts H) e He).
  - intros a R off ne elts B H e He. rewrite <- (Z2Nat.id ne) in H, He by lia.
    apply (proj2 (FillJAndData_elts_nth a R off (Z.to_nat ne) elts B H) e He).
  - intros a R i rs H. split; [apply (FillI_increments_row a R i rs H)|].
    pose proof (FillI_body_atomic a R i) as Hb. rewrite H in Hb. exact Hb.
  - apply SparseIJToCSR_single.
  - intros a A0 Hwf. destruct (wf_fill_parts a Hwf) as (R & HR & _).
    destruct (SparseIJToCSR_rows a R A0 Hwf HR) as (B & E & _). exists B. exact E.
Qed.

(** The sample of two elements.  The slot (row slot 0, nonzero slot 1) of
    the first element: the column is reversed, the row is not.  The slot (row
    slot 1, nonzero slot 0) of the first element: the row is reversed, its
    DOF 1 is shared, the DOF 0 of the column is not; row 1 of the assembled
    matrix holds the column 0 with the value [-1 * -1]. *)
Lemma signed_index_decoding_witness :
  FillJAndData_slot Samples.two_elements Samples.two_elements_R 0 0 0 1 buf_new buf_new 1
  = Ok (Some {| e_row := 0; e_col := 1; e_val := 1%float |}) /\
  exists B, SparseIJToCSR Samples.two_elements None = Ok B /\
            In (0, 1%float) (row_entries B 1).
Proof.
  destruct signed_index_decoding as (_ & Hslot & _ & _ & _ & Hrow & Hret).
  split.
  - apply (Hslot Samples.two_elements Samples.two_elements_R
             0 0 0 1 buf_new buf_new 1 1 (-2) 1 3 (-1)%float);
      try reflexivity; lia.
  - destruct (Hret Samples.two_elements None eq_refl) as (B & E).
    exists B. split; [exact E|].
    apply (Hrow Samples.two_elements Samples.two_elements_R None B 1 0 eq_refl E).
    + vm_compute. split; congruence.
    + vm_compute. split; congruence.
    + vm_compute. congruence.
    + right. reflexivity.
Defined.

(** C9. The runs of the assembly are the orders in which the atomic
    increments of the count kernel and the atomic claims of the fill kernel
    are performed; the increments and the claims are those the kernels
    compute from the input.  On any input on which the claims can be
    computed, the count kernel increments the rows of the claims, the
    sequential run is the run in the order of the loops, and any two runs
    agree: either both stop at an access outside of an array, or both return,
    with the same offsets [I] and, row by row, the same (column, value) pairs
    up to their order in the row.  When the claims cannot be computed (the
    kernel reads outside of an input array or of a buffer, or the restriction
    is not an element restriction), there is no run: the assembly does not
    return.  On well-formed inputs every run returns a matrix. *)
Theorem assembly_deterministic :
  (forall (a : BatchedLORAssembly) (R : ElementRestriction) (A0 : option SparseMatrix)
          (es : list entry) (rows1 rows2 : list Z) (sched1 sched2 : list entry),
     el_restr a = Some R -> fill_claims a R = Ok es ->
     Permutation (map e_row es) rows1 -> Permutation es sched1 ->
     Permutation (map e_row es) rows2 -> Permutation es sched2 ->
     count_increments a R = Ok (map e_row es) /\
     SparseIJToCSR a A0 = SparseIJToCSR_sched a A0 (map e_row es) es /\
     runs_agree (nvdof a) (SparseIJToCSR_sched a A0 rows1 sched1)
                (SparseIJToCSR_sched a A0 rows2 sched2)) /\
  (forall (a : BatchedLORAssembly) (A0 : option SparseMatrix),
     match el_restr a with
     | None => SparseIJToCSR a A0 = Fault (VerifyFailed Msg.bad_restriction)
     | Some R => forall f, fill_claims a R = Fault f ->
                           exists f', SparseIJToCSR a A0 = Fault f'
     end) /\
  (forall (a : BatchedLORAssembly) (R : ElementRestriction) (A0 : option SparseMatrix)
          (rows : list Z) (sched : list entry),
     wf_fill a = true -> el_restr a = Some R ->
     Permutation (count_rows a R) rows -> Permutation (claims a R) sched ->
     fill_claims a R = Ok (claims a R) /\
     map e_row (claims a R) = count_rows a R /\
     exists B, SparseIJToCSR_sched a A0 rows sched = Ok B).
Proof.
  split; [|split].
  - intros a R A0 es rows1 rows2 sched1 sched2 HR Hes Hr1 Hs1 Hr2 Hs2.
    split; [apply (fill_claims_count a R es Hes)|].
    split; [apply (SparseIJToCSR_is_sched_of a R A0 es HR Hes)|].
    apply (SparseIJToCSR_sched_agree a A0 es rows1 rows2 sched1 sched2 Hr1 Hs1 Hr2 Hs2).
  - intros a A0. destruct (el_restr a) as [R|] eqn:HR.
    + intros f Hf. apply (SparseIJToCSR_needs_claims a R A0 f HR Hf).
    + unfold SparseIJToCSR, FillI. rewrite HR. reflexivity.
  - intros a R A0 rows sched Hwf HR Hr Hs.
    destruct (wf_fill_parts a Hwf) as (R' & HR' & Hb & Hsh).
    rewrite HR in HR'. injection HR' as <-.
    split; [apply (fill_claims_ok a R Hb Hsh)|].
    split; [apply claims_rows|].
    destruct (SparseIJToCSR_sched_ok a R A0 rows sched Hb Hr Hs) as (J' & AV' & E & _).
    eexists. exact E.
Qed.

(** The sample of two elements with a template that is not symmetric (it is
    not well-formed for the fill pass): the sequential run and the run with
    the increments and the claims in the reverse order. *)
Lemma assembly_deterministic_witness :
  wf_fill Samples.asymmetric = false /\
  exists es B1 B2,
    fill_claims Samples.asymmetric Samples.asymmetric_R = Ok es /\
    SparseIJToCSR Samples.asymmetric None = Ok B1 /\
    SparseIJToCSR_sched Samples.asymmetric None (rev (map e_row es)) (rev es) = Ok B2 /\
    GetI B1 = GetI B2 /\
    forall d, 0 <= d < nvdof Samples.asymmetric ->
              Permutation (row_entries B1 d) (row_entries B2 d).
Proof.
  split; [vm_compute; reflexivity|].
  destruct (fill_claims Samples.asymmetric Samples.asymmetric_R) as [es|f] eqn:Hes;
    [|vm_compute in Hes; discriminate].
  destruct (proj1 assembly_deterministic Samples.asymmetric Samples.asymmetric_R None es
              (map e_row es) (rev (map e_row es)) es (rev es) eq_refl Hes
              (Permutation_refl _) (Permutation_refl _)
              (Permutation_rev _) (Permutation_rev _)) as (_ & Hseq & Hag).
  rewrite <- Hseq in Hag.
  vm_compute in Hes. injection Hes as <-.
  destruct (SparseIJToCSR Samples.asymmetric None) as [B1|f1] eqn:E1;
    [|vm_compute in E1; discriminate].
  match type of Hag with
  | runs_agree _ _ ?r => destruct r as [B2|f2] eqn:E2; [|vm_compute in E2; discriminate]
  end.
  eexists. exists B1, B2. split; [reflexivity|]. split; [reflexivity|].
  split; [exact E2|]. exact Hag.
Defined.
